(** * Post-bundling schema hoisting for OpenAPI documents

    A shallow embedding of the helpers behind [hoistBundledSchemas]
    (packages/parser/src/lib/hoistBundledSchemas): JSON-pointer tokens,
    component naming, the schema registry, the structural fingerprint, the
    external-schema resolver, the schema-context walker and the rewrite
    passes, together with the properties the specification states for them.

    Conventions of the embedding.
    - A JavaScript string is a [string]: the UTF-8 bytes of a well-formed
      string.  Every pattern the code matches is ASCII, so scanning bytes and
      scanning code units agree on them.
    - [undefined] is the [None] of an [option].
    - Objects live in a heap and are named by their address, so that object
      identity ([WeakMap] keys, [===]) is equality of addresses. *)

From Stdlib Require Import ZArith NArith Ascii String List Lia Bool.
From stdpp Require Import base option list gmap strings pretty sorting.

#[local] Set Warnings "-register-all,-clear-no-such-hyp".

Local Open Scope string_scope.
Local Open Scope list_scope.

(** ** Strings *)

Module Str.

(** [s.replace(/c/g, rep)] for a one-character pattern. *)
Fixpoint replace1 (c : ascii) (rep : string) (s : string) : string :=
  match s with
  | EmptyString => EmptyString
  | String x r =>
      if Ascii.eqb x c then rep +:+ replace1 c rep r
      else String x (replace1 c rep r)
  end.

(** [s.replace(/cd/g, rep)] for a two-character pattern: leftmost matches,
    not overlapping. *)
Fixpoint replace2 (c d : ascii) (rep : string) (s : string) : string :=
  match s with
  | EmptyString => EmptyString
  | String x r =>
      match r with
      | EmptyString => String x EmptyString
      | String y r' =>
          if Ascii.eqb x c && Ascii.eqb y d then rep +:+ replace2 c d rep r'
          else String x (replace2 c d rep r)
      end
  end.

(** [s.includes(c)] for a single character. *)
Fixpoint has_char (c : ascii) (s : string) : bool :=
  match s with
  | EmptyString => false
  | String x r => Ascii.eqb x c || has_char c r
  end.

(** [s.startsWith(p)]. *)
Fixpoint startsWith (p s : string) : bool :=
  match p, s with
  | EmptyString, _ => true
  | String a p', String b s' => Ascii.eqb a b && startsWith p' s'
  | String _ _, EmptyString => false
  end.

(** [s.split(c)] for a one-character separator: never the empty list. *)
Fixpoint split (c : ascii) (s : string) : list string :=
  match s with
  | EmptyString => [EmptyString]
  | String x r =>
      if Ascii.eqb x c then EmptyString :: split c r
      else match split c r with
           | [] => [String x EmptyString]
           | t :: ts => String x t :: ts
           end
  end.

(** [s.endsWith(p)]. *)
Definition endsWith (p s : string) : bool :=
  startsWith (String.rev p) (String.rev s).

(** [s.slice(n)]. *)
Fixpoint drop (n : nat) (s : string) : string :=
  match n, s with
  | O, _ => s
  | S n', String _ r => drop n' r
  | S _, EmptyString => EmptyString
  end.

End Str.

(** ** JSON-pointer tokens (helpers/pointers.ts) *)

(** [decodeURIComponent], after ECMA-262 (Decode with an empty reserved set),
    on UTF-8 strings: a [%XX] escape below 0x80 yields that byte; a lead byte
    announces a sequence of two to four escaped bytes, which must be a
    well-formed UTF-8 encoding and is copied as it is; everything else is a
    [URIError], here [None]. *)

Definition hexval (c : ascii) : option N :=
  let n := N_of_ascii c in
  if (48 <=? n)%N && (n <=? 57)%N then Some (n - 48)%N
  else if (65 <=? n)%N && (n <=? 70)%N then Some (n - 55)%N
  else if (97 <=? n)%N && (n <=? 102)%N then Some (n - 87)%N
  else None.

Definition hexOctet (a b : ascii) : option N :=
  match hexval a, hexval b with
  | Some x, Some y => Some (16 * x + y)%N
  | _, _ => None
  end.

(** Number of bytes a UTF-8 lead byte announces (the count of its leading
    one bits); 0 for a byte that cannot start a sequence. *)
Definition utf8_length (b : N) : nat :=
  if (b <? 128)%N then 1
  else if (b <? 192)%N then 0
  else if (b <? 224)%N then 2
  else if (b <? 240)%N then 3
  else if (b <? 248)%N then 4
  else 0.

Definition in_range (lo hi b : N) : bool := (lo <=? b)%N && (b <=? hi)%N.

(** Well-formed UTF-8 byte sequences (Unicode, table 3-7). *)
Definition utf8_wellformed (bs : list N) : bool :=
  match bs with
  | [b1; b2] => in_range 194 223 b1 && in_range 128 191 b2
  | [b1; b2; b3] =>
      (N.eqb b1 224 && in_range 160 191 b2 && in_range 128 191 b3)
      || (in_range 225 236 b1 && in_range 128 191 b2 && in_range 128 191 b3)
      || (N.eqb b1 237 && in_range 128 159 b2 && in_range 128 191 b3)
      || (in_range 238 239 b1 && in_range 128 191 b2 && in_range 128 191 b3)
  | [b1; b2; b3; b4] =>
      (N.eqb b1 240 && in_range 144 191 b2 && in_range 128 191 b3
         && in_range 128 191 b4)
      || (in_range 241 243 b1 && in_range 128 191 b2 && in_range 128 191 b3
            && in_range 128 191 b4)
      || (N.eqb b1 244 && in_range 128 143 b2 && in_range 128 191 b3
            && in_range 128 191 b4)
  | _ => false
  end.

Definition bytes_to_string (bs : list N) : string :=
  fold_right (fun b acc => String (ascii_of_N b) acc) EmptyString bs.

(** [pending] holds the bytes of the sequence being read, [need] how many of
    its bytes are still to come. *)
Fixpoint decodeURIComponent_go (pending : list N) (need : nat) (s : string)
  : option string :=
  match s with
  | EmptyString => match need with O => Some EmptyString | S _ => None end
  | String c r =>
      if Ascii.eqb c "%" then
        match r with
        | String a (String b r') =>
            match hexOctet a b with
            | None => None
            | Some o =>
                match need with
                | O =>
                    match utf8_length o with
                    | 1 => String (ascii_of_N o) <$> decodeURIComponent_go [] 0 r'
                    | S (S n) => decodeURIComponent_go [o] (S n) r'
                    | O => None
                    end
                | S O =>
                    let bs := pending ++ [o] in
                    if utf8_wellformed bs
                    then (fun t => bytes_to_string bs +:+ t)
                           <$> decodeURIComponent_go [] 0 r'
                    else None
                | S n => decodeURIComponent_go (pending ++ [o]) n r'
                end
            end
        | _ => None
        end
      else
        match need with
        | O => String c <$> decodeURIComponent_go [] 0 r
        | S _ => None
        end
  end.

Definition decodeURIComponent (s : string) : option string :=
  decodeURIComponent_go [] 0 s.

Definition encodeJsonPointerToken (token : string) : string :=
  Str.replace1 "/" "~1" (Str.replace1 "~" "~0" token).

(** The two replacements both branches of [decodeJsonPointerToken] end with. *)
Definition unescapePointerToken (s : string) : string :=
  Str.replace2 "~" "0" "~" (Str.replace2 "~" "1" "/" s).

Definition decodeJsonPointerToken (token : string) : string :=
  match decodeURIComponent token with
  | Some decoded => unescapePointerToken decoded
  | None => unescapePointerToken token
  end.

(** ** Component names (helpers/naming.ts) *)

(** The [while (names.has(uniqueName))] loop of [createUniqueSchemaName];
    [String(index)] is the decimal numeral.  The loop leaves through its test,
    so [None] only means that [fuel] was too small. *)
Fixpoint createUniqueSchemaName_loop (fuel : nat) (safeBaseName : string)
    (names : gset string) (uniqueName : string) (index : N) : option string :=
  if decide (uniqueName ∈ names) then
    match fuel with
    | O => None
    | S fuel' =>
        createUniqueSchemaName_loop fuel' safeBaseName names
          (safeBaseName +:+ "_" +:+ pretty index) (index + 1)%N
    end
  else Some uniqueName.

(** [createUniqueSchemaName(baseName, names)]: the chosen name and the set
    [names] after [names.add(uniqueName)].  Every turn of the loop finds a
    different member of [names], so [size names] turns are enough. *)
Definition createUniqueSchemaName (baseName : string) (names : gset string)
  : option (string * gset string) :=
  let safeBaseName := if decide (baseName = "") then "Schema" else baseName in
  uniqueName ← createUniqueSchemaName_loop (size names) safeBaseName names
                  safeBaseName 2%N;
  Some (uniqueName, {[uniqueName]} ∪ names).

(** The name the loop tries for [index], and the base name it starts from. *)
Definition suffixedName (safeBaseName : string) (index : N) : string :=
  safeBaseName +:+ "_" +:+ pretty index.

Definition safeBaseNameOf (baseName : string) : string :=
  if decide (baseName = "") then "Schema" else baseName.

(** ** Values, objects and the heap *)

(** A parsed document without sharing: what a JSON or YAML file holds, and
    what [normalizeForFingerprint] builds.  Numbers are the integers, printed
    in decimal. *)
Inductive json : Type :=
  | JNull
  | JBool (b : bool)
  | JNum (n : Z)
  | JStr (s : string)
  | JArr (items : list json)
  | JRec (fields : list (string * json)).

Abbreviation addr := nat.

Inductive value : Type :=
  | VNull
  | VBool (b : bool)
  | VNum (n : Z)
  | VStr (s : string)
  | VObj (a : addr).

Inductive object : Type :=
  | ORecord (fields : list (string * value))
  | OArray (items : list value).

(** The heap: an object's address is its position; [new] appends. *)
Abbreviation heap := (list object).

Definition alloc (o : object) (h : heap) : addr * heap := (length h, h ++ [o]).

#[global] Instance value_eq_dec : EqDecision value.
Proof. solve_decision. Defined.

(** [parentKey]: a property name or an array index. *)
Inductive pkey : Type :=
  | KStr (k : string)
  | KIdx (i : nat).

#[global] Instance pkey_eq_dec : EqDecision pkey.
Proof. solve_decision. Defined.

(** What the code takes from the JavaScript and Node runtime without this
    development fixing it: collation, case mapping, numeric conversion, path
    arithmetic and the loader of external schema files. *)
Class Host : Type := {
  (** [a.localeCompare(b)] *)
  localeCompare : string -> string -> comparison;
  (** [s.toLowerCase()] *)
  toLowerCase : string -> string;
  (** [Number(token)] when [Number.isInteger] holds of it *)
  toInteger : string -> option Z;
  (** [nodePath.basename], [dirname], [isAbsolute], [normalize] and
      [resolve(dir, ref)] *)
  path_basename : string -> string;
  path_dirname : string -> string;
  path_isAbsolute : string -> bool;
  path_normalize : string -> string;
  path_resolve : string -> string -> string;
  (** [new $RefParser().parse(sourcePath)]: the parsed file, [None] when the
      parser throws *)
  parseSourceFile : string -> option json;
}.

(** *** Records in property order *)

Module Props.
Section Props.
Context {V : Type}.

(** [o[k]] *)
Fixpoint get (fields : list (string * V)) (k : string) : option V :=
  match fields with
  | [] => None
  | (k', v) :: rest => if String.eqb k' k then Some v else get rest k
  end.

(** [k] is a key of [o] *)
Definition has (fields : list (string * V)) (k : string) : bool :=
  match get fields k with Some _ => true | None => false end.

(** [Object.keys(o)] *)
Definition keys (fields : list (string * V)) : list string := fields.*1.

(** The array index a property name denotes, if it is a canonical numeral
    below 2^32 - 1: such keys are enumerated first, in numeric order. *)
Definition digit (c : ascii) : option N :=
  let n := N_of_ascii c in
  if (48 <=? n)%N && (n <=? 57)%N then Some (n - 48)%N else None.

Fixpoint parse_digits (acc : N) (s : string) : option N :=
  match s with
  | EmptyString => Some acc
  | String c r =>
      match digit c with
      | Some d => parse_digits (10 * acc + d)%N r
      | None => None
      end
  end.

Definition array_index (k : string) : option N :=
  match k with
  | EmptyString => None
  | _ =>
      match parse_digits 0 k with
      | Some n =>
          if String.eqb (pretty n) k && (n <? 4294967295)%N then Some n
          else None
      | None => None
      end
  end.

Fixpoint replace (k : string) (v : V) (fields : list (string * V))
  : list (string * V) :=
  match fields with
  | [] => []
  | (k', v') :: rest =>
      if String.eqb k' k then (k', v) :: rest
      else (k', v') :: replace k v rest
  end.

Fixpoint insert_index (n : N) (k : string) (v : V)
    (fields : list (string * V)) : list (string * V) :=
  match fields with
  | [] => [(k, v)]
  | (k', v') :: rest =>
      match array_index k' with
      | Some m =>
          if (m <? n)%N then (k', v') :: insert_index n k v rest
          else (k, v) :: fields
      | None => (k, v) :: fields
      end
  end.

(** [o[k] = v]: an own property keeps its place, a new one is enumerated
    after the others of its kind. *)
Definition set (k : string) (v : V) (fields : list (string * V))
  : list (string * V) :=
  if has fields k then replace k v fields
  else match array_index k with
       | Some n => insert_index n k v fields
       | None => fields ++ [(k, v)]
       end.

End Props.
End Props.

(** The names that every record inherits from [Object.prototype]. *)
Definition inheritedNames : list string :=
  [ "constructor"; "hasOwnProperty"; "isPrototypeOf"; "propertyIsEnumerable";
    "toLocaleString"; "toString"; "valueOf"; "__proto__";
    "__defineGetter__"; "__defineSetter__"; "__lookupGetter__";
    "__lookupSetter__" ].

(** [k in o], for a record [o]: a key of [o] or an inherited name. *)
Definition inRecord {V : Type} (fields : list (string * V)) (k : string)
  : bool :=
  Props.has fields k || bool_decide (k ∈ inheritedNames).

(** *** Guards (helpers/guards.ts) *)

Definition isObject (v : option value) : bool :=
  match v with Some (VObj _) => true | _ => false end.

Definition isArray (h : heap) (v : option value) : bool :=
  match v with
  | Some (VObj a) => match h !! a with Some (OArray _) => true | _ => false end
  | _ => false
  end.

Definition isRecord (h : heap) (v : option value) : bool :=
  match v with
  | Some (VObj a) => match h !! a with Some (ORecord _) => true | _ => false end
  | _ => false
  end.

(** [!!v] *)
Definition truthy (v : option value) : bool :=
  match v with
  | None | Some VNull | Some (VBool false) | Some (VNum 0) => false
  | Some (VStr s) => negb (String.eqb s "")
  | Some _ => true
  end.

(** [o[k]] for an object [o] of the heap; [None] also when [o] is no record. *)
Definition field (h : heap) (a : addr) (k : string) : option value :=
  match h !! a with
  | Some (ORecord fields) => Props.get fields k
  | _ => None
  end.

(** [typeof o[k] === 'string'] together with the string. *)
Definition string_field (h : heap) (a : addr) (k : string) : option string :=
  match field h a k with Some (VStr s) => Some s | _ => None end.

(** [parent[parentKey] = v] *)
Definition store (h : heap) (a : addr) (k : pkey) (v : value) : heap :=
  match h !! a, k with
  | Some (ORecord fields), KStr name =>
      <[a := ORecord (Props.set name v fields)]> h
  | Some (OArray items), KIdx i => <[a := OArray (<[i := v]> items)]> h
  | _, _ => h
  end.

Definition LIKELY_SCHEMA_KEYS : list string :=
  [ "$ref"; "additionalProperties"; "allOf"; "anyOf"; "const";
    "discriminator"; "enum"; "format"; "items"; "not"; "oneOf";
    "patternProperties"; "properties"; "required"; "type" ].

Definition isLikelySchemaObject (fields : list (string * value)) : bool :=
  existsb (Props.has fields) LIKELY_SCHEMA_KEYS.

(** *** Insertion-ordered maps ([Map] where the code enumerates it) *)

Module JsMap.
Section JsMap.
Context {V : Type}.

Definition t := list (string * V).

Definition get (m : t) (k : string) : option V := Props.get m k.

Definition has (m : t) (k : string) : bool := Props.has m k.

Definition set (k : string) (v : V) (m : t) : t :=
  if Props.has m k then Props.replace k v m else m ++ [(k, v)].

Definition size (m : t) : nat := length m.

Definition entries (m : t) : list (string * V) := m.

End JsMap.
Arguments t : clear implicits.
End JsMap.

(** *** Building heap objects from a parsed file *)

(** The objects of a parsed file are new and unshared; a record receives its
    properties in the order of the file. *)
Fixpoint allocJson (j : json) (h : heap) : value * heap :=
  match j with
  | JNull => (VNull, h)
  | JBool b => (VBool b, h)
  | JNum n => (VNum n, h)
  | JStr s => (VStr s, h)
  | JArr items =>
      let '(vs, h1) :=
        foldl (fun acc item =>
                 let '(vs, h0) := acc in
                 let '(v, h') := allocJson item h0 in (vs ++ [v], h'))
              ([], h) items in
      let '(a, h2) := alloc (OArray vs) h1 in
      (VObj a, h2)
  | JRec fields =>
      let '(fs, h1) :=
        foldl (fun acc kv =>
                 let '(fs, h0) := acc in
                 let '(k, item) := kv in
                 let '(v, h') := allocJson item h0 in (Props.set k v fs, h'))
              ([], h) fields in
      let '(a, h2) := alloc (ORecord fs) h1 in
      (VObj a, h2)
  end.

(** ** Pointers into the document (helpers/pointers.ts) *)

(** [/^#\/components\/schemas\/[^/]+$/u] *)
Definition isComponentSchemaRootPointer (pointer : string) : bool :=
  Str.startsWith "#/components/schemas/" pointer
  && (let name := Str.drop 21 pointer in
      negb (String.eqb name "") && negb (Str.has_char "/" name)).

Definition componentPointer (name : string) : string :=
  "#/components/schemas/" +:+ encodeJsonPointerToken name.

Section Pointers.
Context `{Host}.

(** [current[index]] for an array and the number [index] *)
Definition array_get (items : list value) (index : Z) : option value :=
  if (index <? 0)%Z then None else items !! Z.to_nat index.

(** The [for (const token of tokens)] loop of [resolveLocalPointer]. *)
Fixpoint resolveTokens (h : heap) (current : option value)
    (tokens : list string) : option value :=
  match tokens with
  | [] => current
  | token :: rest =>
      match current with
      | Some (VObj a) =>
          match h !! a with
          | Some (OArray items) =>
              match toInteger token with
              | None => None
              | Some index => resolveTokens h (array_get items index) rest
              end
          | Some (ORecord fields) =>
              resolveTokens h (Props.get fields token) rest
          | None => None
          end
      | _ => None
      end
  end.

Definition resolveLocalPointer (h : heap) (root : value) (pointer : string)
  : option value :=
  if String.eqb pointer "#" then Some root
  else if negb (Str.startsWith "#/" pointer) then None
  else resolveTokens h (Some root)
         (map decodeJsonPointerToken (Str.split "/" (Str.drop 2 pointer))).

End Pointers.

(** ** The schema registry (helpers/registry.ts) *)

Record SchemaRegistry : Type := {
  schemaNames : gset string;
  schemaPointersByValue : gmap addr string;
  (** the live [components.schemas] record of the document *)
  componentSchemas : addr;
}.

(** [if (!o[k]) o[k] = {}], for a record [o]. *)
Definition ensureRecordField (h : heap) (a : addr) (k : string) : heap :=
  if truthy (field h a k) then h
  else let '(fresh, h') := alloc (ORecord []) h in
       store h' a (KStr k) (VObj fresh).

(** The [forEach] that fills [schemaPointersByValue]. *)
Definition indexComponentPointers (entries : list (string * value))
  : gmap addr string :=
  foldl (fun pointers '(name, v) =>
           match v with
           | VObj a => <[a := componentPointer name]> pointers
           | _ => pointers
           end) ∅ entries.

(** [createSchemaRegistry(schema)].  The document type makes [components] and
    [components.schemas] records when they are present; outside it the
    result is [None]. *)
Definition createSchemaRegistry (h : heap) (schema : addr)
  : option (heap * SchemaRegistry) :=
  match h !! schema with
  | Some (ORecord _) =>
      let h1 := ensureRecordField h schema "components" in
      match field h1 schema "components" with
      | Some (VObj components) =>
          match h1 !! components with
          | Some (ORecord _) =>
              let h2 := ensureRecordField h1 components "schemas" in
              match field h2 components "schemas" with
              | Some (VObj schemas) =>
                  match h2 !! schemas with
                  | Some (ORecord entries) =>
                      Some (h2,
                            {| schemaNames := list_to_set (Props.keys entries);
                               schemaPointersByValue :=
                                 indexComponentPointers entries;
                               componentSchemas := schemas |})
                  | _ => None
                  end
              | _ => None
              end
          | _ => None
          end
      | _ => None
      end
  | _ => None
  end.

(** [registerSchemaInComponents(registry, schema, preferredName)]: the
    pointer, with the heap and the registry as the call leaves them.  The
    assignment [registry.componentSchemas[uniqueName] = schema] is a [store],
    which is what it does for every name but [__proto__]. *)
Definition registerSchemaInComponents (h : heap) (registry : SchemaRegistry)
    (schema : addr) (preferredName : string)
  : option (string * heap * SchemaRegistry) :=
  match schemaPointersByValue registry !! schema with
  | Some (String c existing) => Some (String c existing, h, registry)
  | _ =>
      '(uniqueName, names) ←
        createUniqueSchemaName preferredName (schemaNames registry);
      let pointer := componentPointer uniqueName in
      Some (pointer,
            store h (componentSchemas registry) (KStr uniqueName) (VObj schema),
            {| schemaNames := names;
               schemaPointersByValue :=
                 <[schema := pointer]> (schemaPointersByValue registry);
               componentSchemas := componentSchemas registry |})
  end.

(** A sequence of [registerSchemaInComponents] calls, each with its schema
    object and preferred name. *)
Fixpoint registerAll (h : heap) (registry : SchemaRegistry)
    (calls : list (addr * string)) : option (heap * SchemaRegistry) :=
  match calls with
  | [] => Some (h, registry)
  | (schema, preferredName) :: rest =>
      '(_, h', registry') ←
        registerSchemaInComponents h registry schema preferredName;
      registerAll h' registry' rest
  end.

(** ** The structural fingerprint (helpers/fingerprint.ts) *)

(** *** [JSON.stringify] *)

Definition hexdigit (n : N) : ascii :=
  if (n <? 10)%N then ascii_of_N (48 + n) else ascii_of_N (87 + n).

Definition dquote : ascii := "034".

(** QuoteJSONString, one character at a time. *)
Definition quoteChar (c : ascii) : string :=
  let n := N_of_ascii c in
  if (n =? 8)%N then "\b"
  else if (n =? 9)%N then "\t"
  else if (n =? 10)%N then "\n"
  else if (n =? 12)%N then "\f"
  else if (n =? 13)%N then "\r"
  else if (n =? 34)%N then String "\" (String dquote EmptyString)
  else if (n =? 92)%N then "\\"
  else if (n <? 32)%N then
    "\u00" +:+ String (hexdigit (n / 16)) (String (hexdigit (n mod 16)) "")
  else String c "".

Fixpoint quoteChars (s : string) : string :=
  match s with
  | EmptyString => EmptyString
  | String c r => quoteChar c +:+ quoteChars r
  end.

Definition quoteJSONString (s : string) : string :=
  String dquote (quoteChars s +:+ String dquote EmptyString).

Fixpoint JSON_stringify (j : json) : string :=
  match j with
  | JNull => "null"
  | JBool true => "true"
  | JBool false => "false"
  | JNum n => pretty n
  | JStr s => quoteJSONString s
  | JArr items => "[" +:+ String.concat "," (map JSON_stringify items) +:+ "]"
  | JRec fields =>
      "{" +:+ String.concat ","
                (map (fun kv => let '(k, v) := kv in
                                quoteJSONString k +:+ ":" +:+ JSON_stringify v)
                     fields) +:+ "}"
  end.

Section Fingerprint.
Context `{Host}.

(** [entries.sort(([left], [right]) => left.localeCompare(right))]: the
    sort is stable. *)
Fixpoint sortInsert {A} (x : string * A) (sorted : list (string * A))
  : list (string * A) :=
  match sorted with
  | [] => [x]
  | y :: rest =>
      match localeCompare x.1 y.1 with
      | Gt => y :: sortInsert x rest
      | _ => x :: sorted
      end
  end.

Definition sortByKey {A} (entries : list (string * A)) : list (string * A) :=
  foldr sortInsert [] entries.

(** The [filter] of [normalizeForFingerprint]. *)
Definition keptInFingerprint (isRoot : bool) (key : string) : bool :=
  negb (isRoot && (String.eqb key "description" || String.eqb key "summary")).

(** [result[key] = v] on the record that [normalizeForFingerprint] builds
    from [{}]: that record has no own property [__proto__], so for this key
    the assignment reaches the setter of [Object.prototype], which changes
    the prototype or does nothing, and the own properties, the ones
    [JSON.stringify] prints, stay as they are. *)
Definition assignProperty {V : Type} (key : string) (v : V)
    (result : list (string * V)) : list (string * V) :=
  if String.eqb key "__proto__" then result else Props.set key v result.

(** [Object.entries(value)] of an object that is not an array. *)
Definition entriesOf (h : heap) (a : addr) : list (string * value) :=
  match h !! a with
  | Some (ORecord fields) => fields
  | _ => []
  end.

(** [normalizeForFingerprint(value, isRoot, seen)], with the [WeakSet] it
    updates in place returned along with the result.  [None]: out of
    [fuel]. *)
Fixpoint normalizeForFingerprint (fuel : nat) (h : heap) (v : value)
    (isRoot : bool) (seen : gset addr) : option (json * gset addr) :=
  match v with
  | VNull => Some (JNull, seen)
  | VBool b => Some (JBool b, seen)
  | VNum n => Some (JNum n, seen)
  | VStr s => Some (JStr s, seen)
  | VObj a =>
      if decide (a ∈ seen) then Some (JStr "[Circular]", seen)
      else
        match fuel with
        | O => None
        | S fuel' =>
            let seen1 := {[a]} ∪ seen in
            match h !! a with
            | Some (OArray items) =>
                '(normalized, seen2) ←
                  foldl (fun acc entry =>
                           '(done, seen') ← acc;
                           '(n, seen'') ←
                             normalizeForFingerprint fuel' h entry false seen';
                           Some (done ++ [n], seen''))
                        (Some ([], seen1)) items;
                Some (JArr normalized, seen2 ∖ {[a]})
            | _ =>
                '(result, seen2) ←
                  foldl (fun acc kv =>
                           '(result, seen') ← acc;
                           '(n, seen'') ←
                             normalizeForFingerprint fuel' h kv.2 false seen';
                           Some (assignProperty kv.1 n result, seen''))
                        (Some ([], seen1))
                        (sortByKey
                           (filter (fun kv => keptInFingerprint isRoot kv.1)
                                   (entriesOf h a)));
                Some (JRec result, seen2 ∖ {[a]})
            end
        end
  end.

(** [createSchemaFingerprint(schema)].  An object is entered only while it
    is not in [seen], so the nesting depth never exceeds the number of
    objects (lemma [normalizeForFingerprint_total]). *)
Definition createSchemaFingerprint (h : heap) (schema : addr) : string :=
  match normalizeForFingerprint (S (length h)) h (VObj schema) true ∅ with
  | Some (normalized, _) => JSON_stringify normalized
  | None => ""
  end.

End Fingerprint.

(** ** The external-schema resolver (helpers/externalResolver.ts) *)

Record ExternalSchemaNameResolver : Type := {
  nameByValue : gmap addr string;
  namesByFingerprint : gmap string (gset string);
  canonicalByName : gmap string addr;
  canonicalByFingerprint : gmap string (JsMap.t addr);
  schemaBySourcePath : gmap string addr;
  sourcePathsByBaseName : gmap string (gset string);
  componentNameBySourcePath : gmap string string;
  sourcePathByValue : gmap addr string;
  sourcePathByComponentName : JsMap.t string;
  loadingSourcePaths : gset string;
}.

Definition createExternalSchemaNameResolver : ExternalSchemaNameResolver := {|
  nameByValue := ∅;
  namesByFingerprint := ∅;
  canonicalByName := ∅;
  canonicalByFingerprint := ∅;
  schemaBySourcePath := ∅;
  sourcePathsByBaseName := ∅;
  componentNameBySourcePath := ∅;
  sourcePathByValue := ∅;
  sourcePathByComponentName := [];
  loadingSourcePaths := ∅;
|}.

(** [{ name, schema }] *)
Record candidate : Type := Candidate {
  cand_name : string;
  cand_schema : addr;
}.

#[global] Instance candidate_eq_dec : EqDecision candidate.
Proof. solve_decision. Defined.

Section Resolver.
Context `{Host}.

Definition addExternalNameCandidate (h : heap)
    (resolver : ExternalSchemaNameResolver) (schema : addr)
    (schemaName : string) : ExternalSchemaNameResolver :=
  if negb (isLikelySchemaObject (entriesOf h schema)) then resolver
  else
    let fingerprint := createSchemaFingerprint h schema in
    let names := default ∅ (namesByFingerprint resolver !! fingerprint) in
    let byName := default [] (canonicalByFingerprint resolver !! fingerprint) in
    {| nameByValue := <[schema := schemaName]> (nameByValue resolver);
       namesByFingerprint :=
         <[fingerprint := {[schemaName]} ∪ names]> (namesByFingerprint resolver);
       canonicalByName := <[schemaName := schema]> (canonicalByName resolver);
       canonicalByFingerprint :=
         <[fingerprint := JsMap.set schemaName schema byName]>
           (canonicalByFingerprint resolver);
       schemaBySourcePath := schemaBySourcePath resolver;
       sourcePathsByBaseName := sourcePathsByBaseName resolver;
       componentNameBySourcePath := componentNameBySourcePath resolver;
       sourcePathByValue := sourcePathByValue resolver;
       sourcePathByComponentName := sourcePathByComponentName resolver;
       loadingSourcePaths := loadingSourcePaths resolver |}.

Definition registerExternalSourcePath (h : heap)
    (resolver : ExternalSchemaNameResolver) (sourcePath : string)
    (schema : addr) : ExternalSchemaNameResolver :=
  if negb (isLikelySchemaObject (entriesOf h schema)) then resolver
  else
    let baseName := toLowerCase (path_basename sourcePath) in
    let paths := default ∅ (sourcePathsByBaseName resolver !! baseName) in
    {| nameByValue := nameByValue resolver;
       namesByFingerprint := namesByFingerprint resolver;
       canonicalByName := canonicalByName resolver;
       canonicalByFingerprint := canonicalByFingerprint resolver;
       schemaBySourcePath := <[sourcePath := schema]> (schemaBySourcePath resolver);
       sourcePathsByBaseName :=
         <[baseName := {[sourcePath]} ∪ paths]> (sourcePathsByBaseName resolver);
       componentNameBySourcePath := componentNameBySourcePath resolver;
       sourcePathByValue := <[schema := sourcePath]> (sourcePathByValue resolver);
       sourcePathByComponentName := sourcePathByComponentName resolver;
       loadingSourcePaths := loadingSourcePaths resolver |}.

(** The second half of [resolveExternalSchemaCandidate]: by fingerprint. *)
Definition resolveByFingerprint (h : heap) (schema : addr)
    (resolver : ExternalSchemaNameResolver) : option candidate :=
  match canonicalByFingerprint resolver !! createSchemaFingerprint h schema with
  | Some [(name, canonical)] => Some (Candidate name canonical)
  | _ => None
  end.

Definition resolveExternalSchemaCandidate (h : heap) (schema : addr)
    (resolver : ExternalSchemaNameResolver) : option candidate :=
  match nameByValue resolver !! schema with
  | Some (String c n) =>
      let byIdentityName := String c n in
      match canonicalByName resolver !! byIdentityName with
      | Some canonicalByIdentity =>
          Some (Candidate byIdentityName canonicalByIdentity)
      | None => resolveByFingerprint h schema resolver
      end
  | _ => resolveByFingerprint h schema resolver
  end.

(** The fingerprint index: the candidates in the order they were pushed. *)
Definition buildExternalComponentFingerprintIndex (h : heap)
    (registry : SchemaRegistry) (resolver : ExternalSchemaNameResolver)
  : gmap string (list candidate) :=
  foldl (fun index '(name, v) =>
           match v with
           | VObj schema =>
               if bool_decide (is_Some (canonicalByName resolver !! name))
                  && isRecord h (Some v)
               then
                 let fingerprint := createSchemaFingerprint h schema in
                 <[fingerprint :=
                     default [] (index !! fingerprint)
                       ++ [Candidate name schema]]> index
               else index
           | _ => index
           end)
        ∅ (entriesOf h (componentSchemas registry)).

Definition resolveExternalComponentCandidate (h : heap) (schema : addr)
    (index : gmap string (list candidate)) : option candidate :=
  match index !! createSchemaFingerprint h schema with
  | Some [m] => Some m
  | _ => None
  end.

(** [resolveMatchingSourcePath(pathRef, baseName, resolver)] *)
Definition resolveMatchingSourcePath (pathRef baseName : string)
    (resolver : ExternalSchemaNameResolver) : option string :=
  match sourcePathsByBaseName resolver !! baseName with
  | None => None
  | Some candidates =>
      match elements candidates with
      | [] => None
      | [only] => Some only
      | all =>
          let normalizedRef :=
            toLowerCase (if Str.startsWith "./" pathRef
                         then Str.drop 2 pathRef else pathRef) in
          match filter (fun sourcePath =>
                          Str.endsWith ("/" +:+ normalizedRef)
                            (toLowerCase sourcePath)) all with
          | [exact] => Some exact
          | _ => None
          end
      end
  end.

End Resolver.

(** ** A host for closed examples *)

(** POSIX paths, ASCII case mapping, comparison of strings byte by byte,
    decimal numerals, and no external file that parses. *)
Module Posix.

Definition lowerChar (c : ascii) : ascii :=
  let n := N_of_ascii c in
  if (65 <=? n)%N && (n <=? 90)%N then ascii_of_N (n + 32) else c.

Fixpoint lower (s : string) : string :=
  match s with
  | EmptyString => EmptyString
  | String c r => String (lowerChar c) (lower r)
  end.

(** Decimal numerals with an optional sign; [Number("")] is 0. *)
Definition integer (s : string) : option Z :=
  match s with
  | EmptyString => Some 0%Z
  | String "-" (String c r) =>
      (fun n => (- Z.of_N n)%Z) <$> Props.parse_digits 0 (String c r)
  | _ => Z.of_N <$> Props.parse_digits 0 s
  end.

Definition segments (p : string) : list string :=
  filter (fun seg => seg ≠ "") (Str.split "/" p).

Definition isAbsolute (p : string) : bool := Str.startsWith "/" p.

Definition basename (p : string) : string := default "" (last (segments p)).

(** Resolve [.] and [..] from left to right; the stack is reversed. *)
Fixpoint normalizeSegments (absolute : bool) (stack segs : list string)
  : list string :=
  match segs with
  | [] => rev stack
  | seg :: rest =>
      if String.eqb seg "." then normalizeSegments absolute stack rest
      else if String.eqb seg ".." then
        match stack with
        | top :: below =>
            if String.eqb top ".."
            then normalizeSegments absolute (seg :: stack) rest
            else normalizeSegments absolute below rest
        | [] =>
            if absolute then normalizeSegments absolute [] rest
            else normalizeSegments absolute [seg] rest
        end
      else normalizeSegments absolute (seg :: stack) rest
  end.

Definition normalize (p : string) : string :=
  let body :=
    String.concat "/" (normalizeSegments (isAbsolute p) [] (segments p)) in
  if isAbsolute p then "/" +:+ body
  else if String.eqb body "" then "." else body.

Definition dirname (p : string) : string :=
  let segs := segments p in
  let body := String.concat "/" (take (length segs - 1) segs) in
  if isAbsolute p then "/" +:+ body
  else if String.eqb body "" then "." else body.

(** [resolve(dir, ref)] for an absolute [dir] or [ref]; a relative pair is
    resolved against the root directory. *)
Definition resolve (dir ref : string) : string :=
  if isAbsolute ref then normalize ref
  else normalize ("/" +:+ dir +:+ "/" +:+ ref).

#[global] Instance host : Host := {|
  localeCompare := String.compare;
  toLowerCase := lower;
  toInteger := integer;
  path_basename := basename;
  path_dirname := dirname;
  path_isAbsolute := isAbsolute;
  path_normalize := normalize;
  path_resolve := resolve;
  parseSourceFile := fun _ => None;
|}.

End Posix.

(** ** More names (helpers/naming.ts) *)

Definition isAlnum (c : ascii) : bool :=
  let n := N_of_ascii c in
  ((48 <=? n)%N && (n <=? 57)%N) || ((65 <=? n)%N && (n <=? 90)%N)
  || ((97 <=? n)%N && (n <=? 122)%N).

Definition isDigit (c : ascii) : bool :=
  let n := N_of_ascii c in (48 <=? n)%N && (n <=? 57)%N.

Definition isLetter (c : ascii) : bool :=
  let n := N_of_ascii c in
  ((65 <=? n)%N && (n <=? 90)%N) || ((97 <=? n)%N && (n <=? 122)%N).

Definition upperChar (c : ascii) : ascii :=
  let n := N_of_ascii c in
  if (97 <=? n)%N && (n <=? 122)%N then ascii_of_N (n - 32) else c.

(** The text after the last [.] of [s], with what precedes that [.]. *)
Fixpoint lastDot (s : string) : option (string * string) :=
  match s with
  | EmptyString => None
  | String c r =>
      match lastDot r with
      | Some (before, ext) => Some (String c before, ext)
      | None => if Ascii.eqb c "." then Some (EmptyString, r) else None
      end
  end.

(** [name.replace(/\.[^./\\]+$/u, '')] *)
Definition stripExtension (name : string) : string :=
  match lastDot name with
  | Some (before, ext) =>
      if negb (String.eqb ext "") && negb (Str.has_char "/" ext)
         && negb (Str.has_char "\" ext)
      then before else name
  | None => name
  end.

(** [s.replace(/[^a-zA-Z0-9]+/g, ' ')]; [inRun]: the previous character was
    replaced. *)
Fixpoint replaceNonAlnumRuns (inRun : bool) (s : string) : string :=
  match s with
  | EmptyString => EmptyString
  | String c r =>
      if isAlnum c then String c (replaceNonAlnumRuns false r)
      else if inRun then replaceNonAlnumRuns true r
           else String " " (replaceNonAlnumRuns true r)
  end.

(** [s.split(/\s+/u).filter(Boolean)] for a string of letters, digits and
    spaces; [word] is the part being read, reversed. *)
Fixpoint splitWords (word : list ascii) (s : string) : list string :=
  let flush (rest : list string) :=
    match word with
    | [] => rest
    | _ => string_of_list_ascii (rev word) :: rest
    end in
  match s with
  | EmptyString => flush []
  | String c r =>
      if Ascii.eqb c " " then flush (splitWords [] r)
      else splitWords (c :: word) r
  end.

(** [part[0].toUpperCase() + part.slice(1)] *)
Definition capitalize (part : string) : string :=
  match part with
  | EmptyString => EmptyString
  | String c r => String (upperChar c) r
  end.

(** [s.trim()] for a string whose only white space is the space. *)
Fixpoint trimStart (s : string) : string :=
  match s with
  | String c r => if Ascii.eqb c " " then trimStart r else s
  | EmptyString => EmptyString
  end.

Definition trim (s : string) : string :=
  String.rev (trimStart (String.rev (trimStart s))).

Definition normalizeComponentName (name : string) : string :=
  let withoutExtension := stripExtension name in
  let sanitized := trim (replaceNonAlnumRuns false withoutExtension) in
  if String.eqb sanitized "" then "Schema"
  else String.concat "" (map capitalize (splitWords [] sanitized)).

Definition IGNORED_POINTER_NAME_TOKENS : list string :=
  [ "allOf"; "anyOf"; "components"; "content"; "items"; "oneOf"; "paths";
    "post"; "put"; "patch"; "get"; "delete"; "head"; "trace"; "options";
    "requestBody"; "responses"; "schema"; "schemas" ].

(** [/^\d+$/u.test(token)] *)
Definition allDigits (token : string) : bool :=
  negb (String.eqb token "")
  && forallb isDigit (list_ascii_of_string token).

(** The test of the [for] loop of [createSchemaNameFromPointer]. *)
Definition skippedToken (token : string) : bool :=
  String.eqb token ""
  || allDigits token
  || Str.has_char "/" token
  || bool_decide (token ∈ IGNORED_POINTER_NAME_TOKENS)
  || Str.startsWith "application/" token.

Definition createSchemaNameFromPointer (pointer : string) : string :=
  let tokens :=
    map decodeJsonPointerToken (Str.split "/" (Str.drop 2 pointer)) in
  match filter (fun token => negb (skippedToken token)) (rev tokens) with
  | token :: _ => normalizeComponentName token
  | [] =>
      match last tokens with
      | Some token => normalizeComponentName token
      | None => "Schema"
      end
  end.

(** [s.replace(/[^a-zA-Z0-9._-]/g, '-')]: every UTF-16 code unit outside the
    class becomes a dash; on UTF-8 a lead byte stands for one code unit, or
    for two when it opens a four-byte sequence, and a continuation byte for
    none. *)
Fixpoint dashUnsafe (s : string) : string :=
  match s with
  | EmptyString => EmptyString
  | String c r =>
      let n := N_of_ascii c in
      if isAlnum c || Ascii.eqb c "." || Ascii.eqb c "_" || Ascii.eqb c "-"
      then String c (dashUnsafe r)
      else if (n <? 128)%N then String "-" (dashUnsafe r)
      else if (n <? 192)%N then dashUnsafe r
      else if (n <? 240)%N then String "-" (dashUnsafe r)
      else String "-" (String "-" (dashUnsafe r))
  end.

Section Naming.
Context `{Host}.

Definition createSchemaNameFromSourcePath (sourcePath : string) : string :=
  let fileName := path_basename sourcePath in
  let withoutExtension := stripExtension fileName in
  let normalized := dashUnsafe withoutExtension in
  if String.eqb normalized "" then "Schema" else normalized.

End Naming.

(** ** External file references (helpers/sourceResolution.ts) *)

(** [/^[a-zA-Z][a-zA-Z0-9+.-]*:/u.test(value)] *)
Fixpoint schemeRest (s : string) : bool :=
  match s with
  | EmptyString => false
  | String c r =>
      if Ascii.eqb c ":" then true
      else if isAlnum c || Ascii.eqb c "+" || Ascii.eqb c "." || Ascii.eqb c "-"
           then schemeRest r
           else false
  end.

Definition hasUriScheme (value : string) : bool :=
  match value with
  | String c r => isLetter c && schemeRest r
  | EmptyString => false
  end.

(** [.] of a regular expression: anything but a line terminator, which in
    UTF-8 is a line feed, a carriage return, or E2 80 A8 / E2 80 A9. *)
Fixpoint noLineTerminator (s : string) : bool :=
  match s with
  | EmptyString => true
  | String c r =>
      let n := N_of_ascii c in
      if (n =? 10)%N || (n =? 13)%N then false
      else if Str.startsWith (String (ascii_of_N 226) (String (ascii_of_N 128)
                                (String (ascii_of_N 168) EmptyString))) s
              || Str.startsWith (String (ascii_of_N 226) (String (ascii_of_N 128)
                                   (String (ascii_of_N 169) EmptyString))) s
           then false
           else noLineTerminator r
  end.

(** One of the extensions, ignoring case as the [iu] flags do: besides the
    two ASCII cases, U+017F (C5 BF in UTF-8) folds to [s]. *)
Fixpoint matchFolded (pattern : string) (s : string) : option string :=
  match pattern with
  | EmptyString => Some s
  | String p pattern' =>
      match s with
      | String c r =>
          if Ascii.eqb (Posix.lowerChar c) p then matchFolded pattern' r
          else if Ascii.eqb p "s" && (N_of_ascii c =? 197)%N then
            match r with
            | String c' r' =>
                if (N_of_ascii c' =? 191)%N then matchFolded pattern' r'
                else None
            | EmptyString => None
            end
          else None
      | EmptyString => None
      end
  end.

(** An optional fragment, [#] and the rest of a line, up to the end. *)
Definition fragmentToEnd (s : string) : bool :=
  match s with
  | EmptyString => true
  | String c r => Ascii.eqb c "#" && noLineTerminator r
  end.

(** The extension test at the start of [s]. *)
Definition extensionHere (s : string) : bool :=
  existsb (fun extension =>
             match matchFolded extension s with
             | Some rest => fragmentToEnd rest
             | None => false
             end)
          [".yaml"; ".yml"; ".json"].

(** The extension test of [looksLikeExternalFileReference]: one of the
    extensions and an optional fragment, ending the string. *)
Fixpoint extensionSomewhere (s : string) : bool :=
  extensionHere s
  || match s with
     | EmptyString => false
     | String _ r => extensionSomewhere r
     end.

Definition looksLikeExternalFileReference (value : string) : bool :=
  if hasUriScheme value || Str.startsWith "#/" value then false
  else extensionSomewhere value.


(** ** Specification vocabulary *)

(** A heap of JavaScript objects: no record has two properties of one name. *)
Definition heap_wf (h : heap) : Prop :=
  forall a fields, h !! a = Some (ORecord fields) -> NoDup (Props.keys fields).

(** The registry invariant for the document [root]: [components.schemas] is
    the registry's record; every object with a recorded pointer is held by
    that record under the name the pointer encodes; every key of the record
    is a live name. *)
Record registryInvariant (h : heap) (root : addr) (registry : SchemaRegistry)
  : Prop := {
  inv_components :
    exists components,
      field h root "components" = Some (VObj components)
      /\ field h components "schemas" = Some (VObj (componentSchemas registry));
  inv_record :
    exists entries, h !! componentSchemas registry = Some (ORecord entries);
  inv_pointers :
    forall a pointer,
      schemaPointersByValue registry !! a = Some pointer ->
      exists name,
        pointer = componentPointer name
        /\ field h (componentSchemas registry) name = Some (VObj a);
  inv_names :
    forall name,
      name ∈ Props.keys (entriesOf h (componentSchemas registry)) ->
      name ∈ schemaNames registry;
}.

(** [heap_wf], decided. *)
Definition heap_wfb (h : heap) : bool :=
  forallb (fun o => match o with
                    | ORecord fields => bool_decide (NoDup (Props.keys fields))
                    | OArray _ => true
                    end) h.

(** A small document for closed examples: at 3 the root, at 2 [components],
    at 1 [components.schemas], at 0 the component [Pet]; at 4 a schema that
    is not in the document. *)
Definition petStore : heap :=
  [ ORecord [("type", VStr "object")];
    ORecord [("Pet", VObj 0)];
    ORecord [("schemas", VObj 1)];
    ORecord [("openapi", VStr "3.0.3"); ("components", VObj 2)];
    ORecord [("type", VStr "string")] ].

(** *** The shape a fingerprint depends on *)

(** The tree of paths through a schema: every object is unfolded where it is
    reached, except where it is reached from inside itself ([PBack]). *)
Inductive ptree : Type :=
  | PNull
  | PBool (b : bool)
  | PNum (n : Z)
  | PStr (s : string)
  | PArr (items : list ptree)
  | PRec (fields : list (string * ptree))
  | PBack.

Fixpoint depth (t : ptree) : nat :=
  match t with
  | PArr items => S (foldr Nat.max 0 (map depth items))
  | PRec fields => S (foldr Nat.max 0 (map (fun kv => depth kv.2) fields))
  | _ => 0
  end.

(** [pathTree h ancestors v t]: [t] is the tree of paths from [v], when the
    objects in [ancestors] are being unfolded around it. *)
Inductive pathTree (h : heap) : gset addr -> value -> ptree -> Prop :=
  | pathTree_null ancestors : pathTree h ancestors VNull PNull
  | pathTree_bool ancestors b : pathTree h ancestors (VBool b) (PBool b)
  | pathTree_num ancestors n : pathTree h ancestors (VNum n) (PNum n)
  | pathTree_str ancestors s : pathTree h ancestors (VStr s) (PStr s)
  | pathTree_back ancestors a :
      a ∈ ancestors -> pathTree h ancestors (VObj a) PBack
  | pathTree_array ancestors a items trees :
      a ∉ ancestors ->
      h !! a = Some (OArray items) ->
      Forall2 (pathTree h ({[a]} ∪ ancestors)) items trees ->
      pathTree h ancestors (VObj a) (PArr trees)
  | pathTree_record ancestors a fields :
      a ∉ ancestors ->
      (forall items, h !! a ≠ Some (OArray items)) ->
      Forall2 (fun kv kt => kv.1 = kt.1
                            /\ pathTree h ({[a]} ∪ ancestors) kv.2 kt.2)
              (entriesOf h a) fields ->
      pathTree h ancestors (VObj a) (PRec fields).

(** A parsed document as a tree of paths: it has no back edge. *)
Fixpoint treeOf (j : json) : ptree :=
  match j with
  | JNull => PNull
  | JBool b => PBool b
  | JNum n => PNum n
  | JStr s => PStr s
  | JArr items => PArr (map treeOf items)
  | JRec fields => PRec (map (fun kv => let '(k, v) := kv in (k, treeOf v)) fields)
  end.

(** [represents h v j]: the objects reached from [v] spell the document [j];
    an object may be reached along several paths. *)
Inductive represents (h : heap) : value -> json -> Prop :=
  | represents_null : represents h VNull JNull
  | represents_bool b : represents h (VBool b) (JBool b)
  | represents_num n : represents h (VNum n) (JNum n)
  | represents_str s : represents h (VStr s) (JStr s)
  | represents_array a items docs :
      h !! a = Some (OArray items) ->
      Forall2 (represents h) items docs ->
      represents h (VObj a) (JArr docs)
  | represents_record a fields docs :
      h !! a = Some (ORecord fields) ->
      Forall2 (fun kv kj => kv.1 = kj.1 /\ represents h kv.2 kj.2) fields docs ->
      represents h (VObj a) (JRec docs).

(** Equal up to the order of the keys of any record. *)
Inductive reorder : ptree -> ptree -> Prop :=
  | reorder_null : reorder PNull PNull
  | reorder_bool b : reorder (PBool b) (PBool b)
  | reorder_num n : reorder (PNum n) (PNum n)
  | reorder_str s : reorder (PStr s) (PStr s)
  | reorder_back : reorder PBack PBack
  | reorder_array items1 items2 :
      Forall2 reorder items1 items2 -> reorder (PArr items1) (PArr items2)
  | reorder_record fields1 fields2 permuted :
      fields1 ≡ₚ permuted ->
      Forall2 (fun kv1 kv2 => kv1.1 = kv2.1 /\ reorder kv1.2 kv2.2)
              permuted fields2 ->
      reorder (PRec fields1) (PRec fields2).

(** The keys [createSchemaFingerprint] ignores at the root. *)
Definition isDocKey (k : string) : bool :=
  String.eqb k "description" || String.eqb k "summary".

(** Equal up to the order of keys anywhere and to [description] and [summary]
    at the root. *)
Definition sameSchema (t1 t2 : ptree) : Prop :=
  exists fields1 fields2,
    t1 = PRec fields1 /\ t2 = PRec fields2
    /\ reorder (PRec (filter (fun kv => negb (isDocKey kv.1)) fields1))
               (PRec (filter (fun kv => negb (isDocKey kv.1)) fields2)).

(** The subtree a path of keys and indices leads to. *)
Fixpoint subtreeAt (path : list pkey) (t : ptree) : option ptree :=
  match path with
  | [] => Some t
  | KStr k :: rest =>
      match t with
      | PRec fields => Props.get fields k ≫= subtreeAt rest
      | _ => None
      end
  | KIdx i :: rest =>
      match t with
      | PArr items => items !! i ≫= subtreeAt rest
      | _ => None
      end
  end.

(** A path to a nested schema: it leaves the root, and not through the
    root's own [description] or [summary]. *)
Definition nestedPath (path : list pkey) : Prop :=
  match path with
  | [] => False
  | KStr k :: _ => isDocKey k = false
  | KIdx _ :: _ => True
  end.

(** A path that does not go through a key [__proto__]. *)
Definition ownPath (path : list pkey) : Prop := KStr "__proto__" ∉ path.

(** The records of a tree have distinct keys. *)
Fixpoint ptree_wf (t : ptree) : Prop :=
  match t with
  | PArr items => foldr (fun item acc => ptree_wf item /\ acc) True items
  | PRec fields =>
      NoDup (Props.keys fields)
      /\ foldr (fun kv acc => ptree_wf kv.2 /\ acc) True fields
  | _ => True
  end.

(** What the proofs ask of [localeCompare]: a consistent comparison, which
    may tie strings that are not equal. *)
Class CollationOrder `{Host} : Prop := {
  collation_antisym : forall a b, localeCompare b a = CompOpp (localeCompare a b);
  collation_trans :
    forall a b c, localeCompare a b = Lt -> localeCompare b c = Lt ->
                  localeCompare a c = Lt;
}.

Section FingerprintShape.
Context `{Host}.

(** No two of the keys are tied by [localeCompare], so that the sort puts
    them in one order whatever order they came in. *)
Fixpoint untied (keys : list string) : Prop :=
  match keys with
  | [] => True
  | key :: rest =>
      Forall (fun other => localeCompare key other ≠ Eq) rest /\ untied rest
  end.

(** The keys of every record of a tree are untied. *)
Fixpoint ptree_untied (t : ptree) : Prop :=
  match t with
  | PArr items => foldr (fun item acc => ptree_untied item /\ acc) True items
  | PRec fields =>
      untied (Props.keys fields)
      /\ foldr (fun kv acc => ptree_untied kv.2 /\ acc) True fields
  | _ => True
  end.

(** The property record the [forEach] of [normalizeForFingerprint] builds. *)
Definition buildRecord (entries : list (string * json)) : list (string * json) :=
  foldl (fun result kv => assignProperty kv.1 kv.2 result) [] entries.

(** The normal form of a tree of paths: what [normalizeForFingerprint]
    returns for it. *)
Fixpoint normTree (isRoot : bool) (t : ptree) : json :=
  match t with
  | PNull => JNull
  | PBool b => JBool b
  | PNum n => JNum n
  | PStr s => JStr s
  | PBack => JStr "[Circular]"
  | PArr items => JArr (map (normTree false) items)
  | PRec fields =>
      JRec (buildRecord
              (sortByKey
                 (filter (fun kv => keptInFingerprint isRoot kv.1)
                    (map (fun kv => let '(k, v) := kv in (k, normTree false v))
                         fields))))
  end.

Definition normField (kv : string * ptree) : string * json :=
  let '(k, v) := kv in (k, normTree false v).

End FingerprintShape.

(** The addresses of a heap. *)
Definition addresses (h : heap) : gset addr := set_seq 0 (length h).

(** The size of a document. *)
Fixpoint jsize (j : json) : nat :=
  match j with
  | JArr items => S (list_sum (map jsize items))
  | JRec fields => S (list_sum (map (fun kv => jsize kv.2) fields))
  | _ => 1
  end.

(** Two schemas that spell one document: in [sharedId] the properties [a]
    and [b] of the schema at 1 are one object, in [copiedId] the schema at 2
    holds two objects of the same shape. *)
Definition sharedId : heap :=
  [ ORecord [("type", VStr "string")];
    ORecord [("a", VObj 0); ("b", VObj 0)] ].

Definition copiedId : heap :=
  [ ORecord [("type", VStr "string")];
    ORecord [("type", VStr "string")];
    ORecord [("a", VObj 0); ("b", VObj 1)] ].

Definition twoIds : json :=
  JRec [ ("a", JRec [("type", JStr "string")]);
         ("b", JRec [("type", JStr "string")]) ].

(** A schema that holds itself: the root at 1 is its own [properties.self]. *)
Definition selfReferent : heap :=
  [ ORecord [("self", VObj 1)];
    ORecord [("type", VStr "object"); ("properties", VObj 0)] ].

(** The order of the keys of a sorted record. *)
Definition keyLt `{Host} {A} (x y : string * A) : Prop :=
  localeCompare x.1 y.1 = Lt.

(** *** Reading a printed document back *)

(** The characters of a printed number. *)
Definition numchar (c : ascii) : bool :=
  let n := N_of_ascii c in
  ((48 <=? n)%N && (n <=? 57)%N) || (n =? 45)%N.

Fixpoint numchars (s : string) : bool :=
  match s with
  | EmptyString => true
  | String c r => numchar c && numchars r
  end.

(** What may follow a printed value: the end, or a character that is not
    part of a number. *)
Definition closes (r : string) : bool :=
  match r with
  | EmptyString => true
  | String c _ => negb (numchar c)
  end.

(** The first character of a printed value tells its kind. *)
Definition headKind (j : json) (c : ascii) : Prop :=
  match j with
  | JNull => c = "n"%char
  | JBool true => c = "t"%char
  | JBool false => c = "f"%char
  | JNum _ => numchar c = true
  | JStr _ => c = dquote
  | JArr _ => c = "["%char
  | JRec _ => c = "{"%char
  end.

(** What follows the first of the comma-separated [items]. *)
Fixpoint itemsTail (close : ascii) (items : list string) (r : string) : string :=
  match items with
  | [] => String close r
  | item :: rest => "," +:+ item +:+ itemsTail close rest r
  end.

(** A property as [JSON.stringify] prints it. *)
Definition stringifyField (kv : string * json) : string :=
  let '(k, v) := kv in quoteJSONString k +:+ ":" +:+ JSON_stringify v.

(** The 256 characters. *)
Definition allAscii : list ascii := map ascii_of_nat (seq 0 256).

(** No escape of [quoteJSONString] starts another. *)
Definition quoteCharsPrefixFree : bool :=
  forallb (fun c1 =>
             forallb (fun c2 =>
                        implb (Str.startsWith (quoteChar c1) (quoteChar c2))
                              (Ascii.eqb c1 c2))
                     allAscii)
          allAscii.

(** The value a path of keys and indices leads to in a document. *)
Fixpoint jsonAt (path : list pkey) (j : json) : option json :=
  match path with
  | [] => Some j
  | KStr k :: rest =>
      match j with
      | JRec fields => Props.get fields k ≫= jsonAt rest
      | _ => None
      end
  | KIdx i :: rest =>
      match j with
      | JArr items => items !! i ≫= jsonAt rest
      | _ => None
      end
  end.

(** Two fingerprinted schemas: the roots at 2 differ in the [summary] of the
    nested schema [properties.child]. *)
Definition childSummary (summary : string) : heap :=
  [ ORecord [("type", VStr "string"); ("summary", VStr summary)];
    ORecord [("child", VObj 0)];
    ORecord [("type", VStr "object"); ("properties", VObj 1)] ].

(** A path whose first step is not filtered out of the fingerprint. *)
Definition keptPath (isRoot : bool) (path : list pkey) : Prop :=
  match path with
  | KStr k :: _ => keptInFingerprint isRoot k = true
  | _ => True
  end.

Definition childSummaryTree (summary : string) : ptree :=
  PRec [ ("type", PStr "object");
         ("properties",
          PRec [("child", PRec [("type", PStr "string");
                                ("summary", PStr summary)])]) ].

(** ** The walker (helpers/walk.ts) *)

(** [SCHEMA_CONTEXT_KEYS] (helpers/constants.ts is [schemaContextKeys] of
    hoistBundledSchemas.ts). *)
Definition SCHEMA_CONTEXT_KEYS : list string :=
  [ "$defs"; "additionalProperties"; "allOf"; "anyOf"; "contains";
    "definitions"; "dependentSchemas"; "else"; "if"; "items"; "not"; "oneOf";
    "patternProperties"; "prefixItems"; "properties"; "propertyNames";
    "schema"; "schemas"; "then"; "unevaluatedItems";
    "unevaluatedProperties" ].

Definition isSchemaContextKey (key : string) : bool :=
  bool_decide (key ∈ SCHEMA_CONTEXT_KEYS).

Section Walk.
(** What a visitor reads and writes: a state [S] that holds the heap. *)
Context {S : Type} (heapOf : S → heap).

(** [WalkVisitor]: [(value, pointer, inSchemaContext, parent, parentKey)];
    [parent] and [parentKey] are present together. *)
Definition WalkVisitor : Type :=
  addr → string → bool → option (addr * pkey) → S → option S.

(** [walk(value, inSchemaContext, pointer, seen, visitor, parent, parentKey)].
    The entries of a record are those it has when its turn comes
    ([Object.entries]); the items of an array are read one by one as
    [forEach] reaches them, up to the length the array had at the start.
    [fuel] bounds the nesting of the calls; [None]: out of fuel, or the
    visitor failed. *)
Fixpoint walk (fuel : nat) (visitor : WalkVisitor) (value : value)
    (inSchemaContext : bool) (pointer : string) (seen : gset addr)
    (parent : option (addr * pkey)) (s : S) : option (S * gset addr) :=
  match value with
  | VObj a =>
      s1 ← visitor a pointer inSchemaContext parent s;
      if bool_decide (a ∈ seen) then Some (s1, seen)
      else
        match fuel with
        | O => None
        | Datatypes.S fuel' =>
            let seen1 := {[a]} ∪ seen in
            '(s2, seen2) ←
              match heapOf s1 !! a with
              | Some (OArray items) =>
                  foldl (fun acc index =>
                           '(s', seen') ← acc;
                           match heapOf s' !! a with
                           | Some (OArray current) =>
                               match current !! index with
                               | Some item =>
                                   walk fuel' visitor item inSchemaContext
                                     (pointer +:+ "/"
                                      +:+ encodeJsonPointerToken (pretty index))
                                     seen' (Some (a, KIdx index)) s'
                               | None => Some (s', seen')
                               end
                           | _ => Some (s', seen')
                           end)
                        (Some (s1, seen1)) (seq 0 (length items))
              | Some (ORecord fields) =>
                  foldl (fun acc '(key, child) =>
                           '(s', seen') ← acc;
                           walk fuel' visitor child
                             (inSchemaContext || isSchemaContextKey key)
                             (pointer +:+ "/" +:+ encodeJsonPointerToken key)
                             seen' (Some (a, KStr key)) s')
                        (Some (s1, seen1)) fields
              | None => Some (s1, seen1)
              end;
            Some (s2, seen2 ∖ {[a]})
        end
  | _ => Some (s, seen)
  end.

(** The two loops of [walk], by name: the turn for one item of the array
    [a], the turn for one entry of the record [a], and the whole loop over
    the children of [a]. *)
Definition walkItem (fuel : nat) (visitor : WalkVisitor) (a : addr)
    (inSchemaContext : bool) (pointer : string) (acc : S * gset addr)
    (index : nat) : option (S * gset addr) :=
  match heapOf acc.1 !! a with
  | Some (OArray current) =>
      match current !! index with
      | Some item =>
          walk fuel visitor item inSchemaContext
            (pointer +:+ "/" +:+ encodeJsonPointerToken (pretty index))
            acc.2 (Some (a, KIdx index)) acc.1
      | None => Some acc
      end
  | _ => Some acc
  end.

Definition walkEntry (fuel : nat) (visitor : WalkVisitor) (a : addr)
    (inSchemaContext : bool) (pointer : string) (acc : S * gset addr)
    (entry : string * value) : option (S * gset addr) :=
  walk fuel visitor entry.2 (inSchemaContext || isSchemaContextKey entry.1)
    (pointer +:+ "/" +:+ encodeJsonPointerToken entry.1)
    acc.2 (Some (a, KStr entry.1)) acc.1.

Definition walkChildren (fuel : nat) (visitor : WalkVisitor) (a : addr)
    (inSchemaContext : bool) (pointer : string) (s : S) (seen : gset addr)
  : option (S * gset addr) :=
  match heapOf s !! a with
  | Some (OArray items) =>
      foldl (fun acc index =>
               x ← acc; walkItem fuel visitor a inSchemaContext pointer x index)
            (Some (s, seen)) (seq 0 (length items))
  | Some (ORecord fields) =>
      foldl (fun acc entry =>
               x ← acc; walkEntry fuel visitor a inSchemaContext pointer x entry)
            (Some (s, seen)) fields
  | None => Some (s, seen)
  end.

(** [walk(root, false, '#', new WeakSet(), visitor)] *)
Definition walkRoot (fuel : nat) (visitor : WalkVisitor) (root : value)
    (s : S) : option S :=
  fst <$> walk fuel visitor root false "#" ∅ None s.

End Walk.

(** ** The state of a run *)

(** The heap with the two objects every pass works on. *)
Record state : Type := State {
  st_heap : heap;
  st_registry : SchemaRegistry;
  st_resolver : ExternalSchemaNameResolver;
}.

(** [s || fallback] for strings. *)
Definition orElse (s : option string) (fallback : option string)
  : option string :=
  match s with
  | Some (String c r) => Some (String c r)
  | _ => fallback
  end.

(** [pointer.split('/').at(-1)] *)
Definition lastToken (pointer : string) : option string :=
  last (Str.split "/" pointer).

(** The own properties of a record, in order. *)
Abbreviation fields := (list (string * value)).

(** [REF_REPLACEMENT_ALLOWED_KEYS] ([allowedKeys] of hoistBundledSchemas.ts) *)
Definition REF_REPLACEMENT_ALLOWED_KEYS : list string :=
  [ "$ref"; "summary"; "description" ].

(** [{ $ref: componentPointer }] with the [summary] and the [description] of
    [node] when they are strings.  The record is allocated where the code
    stores it; until then it is its list of fields. *)
Definition refReplacement (h : heap) (node : addr) (componentPointer : string)
  : list (string * value) :=
  let replacement := [("$ref", VStr componentPointer)] in
  let replacement :=
    match string_field h node "summary" with
    | Some summary => Props.set "summary" (VStr summary) replacement
    | None => replacement
    end in
  match string_field h node "description" with
  | Some description => Props.set "description" (VStr description) replacement
  | None => replacement
  end.

Definition isEquivalentRefReplacement (h : heap) (value : addr)
    (replacement : fields) : bool :=
  if negb (bool_decide (field h value "$ref" = Props.get replacement "$ref"))
  then false
  else if negb (bool_decide (field h value "summary"
                             = Props.get replacement "summary"))
          || negb (bool_decide (field h value "description"
                                = Props.get replacement "description"))
  then false
  else forallb (fun key => bool_decide (key ∈ REF_REPLACEMENT_ALLOWED_KEYS))
               (Props.keys (entriesOf h value)).

(** [parent[parentKey] = { ...fields }] *)
Definition storeNew (h : heap) (parent : addr) (parentKey : pkey)
    (fields : list (string * value)) : heap :=
  let '(fresh, h') := alloc (ORecord fields) h in
  store h' parent parentKey (VObj fresh).

Section Passes.
Context `{Host}.

(** ** The passes (helpers/rewritePasses.ts, helpers/registry.ts) *)

Definition collectSchemaTargets (fuel : nat) (h : heap) (root : value)
    (externalSchemas : gmap addr string) : option (list (string * addr)) :=
  found ← walkRoot (fun _ : list (addr * string) => h) fuel
    (fun value pointer inSchemaContext _ found =>
       match externalSchemas !! value with
       | Some sourcePath =>
           if negb inSchemaContext
              || Str.startsWith "#/components/schemas/" pointer
           then Some found
           else if bool_decide (value ∈ found.*1) then Some found
           else Some (found ++ [(value, sourcePath)])
       | None => Some found
       end)
    root [];
  Some (sortByKey ((fun '(value, sourcePath) => (sourcePath, value)) <$> found)).

(** The visitor of [rewriteLocalSchemaRefsToComponents]. *)
Definition rewriteLocalVisitor (root : value) : WalkVisitor (S := state) :=
  fun value _pointer inSchemaContext _ s =>
    let h := st_heap s in
    if negb inSchemaContext || negb (isRecord h (Some (VObj value)))
    then Some s
    else
      match string_field h value "$ref" with
      | None => Some s
      | Some ref =>
          if negb (Str.startsWith "#/" ref)
             || Str.startsWith "#/components/schemas/" ref
          then Some s
          else
            match resolveLocalPointer h root ref with
            | Some (VObj resolved) =>
                if negb (isRecord h (Some (VObj resolved))) then Some s
                else
                  let externalMatch :=
                    resolveExternalSchemaCandidate h resolved (st_resolver s) in
                  let preferredName :=
                    default "" (orElse (cand_name <$> externalMatch)
                                  (Some (createSchemaNameFromPointer ref))) in
                  let schemaForComponent :=
                    default resolved (cand_schema <$> externalMatch) in
                  '(componentPointer, h1, registry1) ←
                    registerSchemaInComponents h (st_registry s)
                      schemaForComponent preferredName;
                  Some (State
                          (if String.eqb ref componentPointer then h1
                           else store h1 value (KStr "$ref")
                                  (VStr componentPointer))
                          registry1 (st_resolver s))
            | _ => Some s
            end
      end.

Definition rewriteLocalSchemaRefsToComponents (fuel : nat) (root : value)
    (s : state) : option state :=
  walkRoot st_heap fuel (rewriteLocalVisitor root) root s.

(** The visitor of [rewriteInlineExternalSchemasToComponentRefs]; the flag
    is [changed]. *)
Definition rewriteInlineVisitor (index : gmap string (list candidate))
  : WalkVisitor (S := state * bool) :=
  fun value pointer inSchemaContext parent '(s, changed) =>
    let h := st_heap s in
    match parent with
    | Some (parent, parentKey) =>
        if negb inSchemaContext || isComponentSchemaRootPointer pointer
           || negb (isRecord h (Some (VObj value)))
        then Some (s, changed)
        else
          let matched := resolveExternalSchemaCandidate h value (st_resolver s) in
          let componentMatched :=
            match matched with
            | None => resolveExternalComponentCandidate h value index
            | Some _ => None
            end in
          match from_option Some componentMatched matched with
          | None => Some (s, changed)
          | Some selected =>
              '(componentPointer, h1, registry1) ←
                registerSchemaInComponents h (st_registry s)
                  (cand_schema selected) (cand_name selected);
              let replacement := refReplacement h1 value componentPointer in
              if isEquivalentRefReplacement h1 value replacement
              then Some (State h1 registry1 (st_resolver s), changed)
              else Some (State (storeNew h1 parent parentKey replacement)
                               registry1 (st_resolver s), true)
          end
    | None => Some (s, changed)
    end.

(** One turn of the [while (changed)] loop: the state after the traversal
    and whether it replaced anything. *)
Definition rewriteInlinePass (fuel : nat) (root : value) (s : state)
  : option (state * bool) :=
  let externalComponentFingerprints :=
    buildExternalComponentFingerprintIndex (st_heap s) (st_registry s)
      (st_resolver s) in
  walkRoot (fun sc : state * bool => st_heap sc.1) fuel
    (rewriteInlineVisitor externalComponentFingerprints) root (s, false).

(** [rewriteInlineExternalSchemasToComponentRefs]; [turns] bounds the number
    of turns of the loop. *)
Fixpoint rewriteInlineExternalSchemasToComponentRefs (turns fuel : nat)
    (root : value) (s : state) : option state :=
  match turns with
  | O => None
  | Datatypes.S turns' =>
      '(s', changed) ← rewriteInlinePass fuel root s;
      if changed : bool
      then rewriteInlineExternalSchemasToComponentRefs turns' fuel root s'
      else Some s'
  end.

(** The visitor of [replaceHoistedObjectsWithRefs]. *)
Definition replaceHoistedVisitor : WalkVisitor (S := state) :=
  fun value pointer inSchemaContext parent s =>
    match parent with
    | Some (parent, parentKey) =>
        if negb inSchemaContext then Some s
        else
          match schemaPointersByValue (st_registry s) !! value with
          | Some (String c r) =>
              let componentPointer := String c r in
              if String.eqb pointer componentPointer
                 || isComponentSchemaRootPointer pointer
              then Some s
              else Some (State (storeNew (st_heap s) parent parentKey
                                  [("$ref", VStr componentPointer)])
                               (st_registry s) (st_resolver s))
          | _ => Some s
          end
    | None => Some s
    end.

Definition replaceHoistedObjectsWithRefs (fuel : nat) (root : value)
    (s : state) : option state :=
  walkRoot st_heap fuel replaceHoistedVisitor root s.

End Passes.

(** ** Source files (helpers/sourceResolution.ts) *)

(** [s.split('#')[0]] *)
Definition beforeFragment (s : string) : string :=
  default "" (head (Str.split "#" s)).

Section Sources.
Context `{Host}.

Definition resolveSourcePathFromSchemaContext (h : heap) (pathRef : string)
    (schema : addr) (schemaPointer : string)
    (resolver : ExternalSchemaNameResolver) : option string :=
  let sourcePath :=
    orElse (sourcePathByValue resolver !! schema)
      (if isComponentSchemaRootPointer schemaPointer
       then JsMap.get (sourcePathByComponentName resolver)
              (decodeJsonPointerToken (default "" (lastToken schemaPointer)))
       else None) in
  let sourcePath :=
    match orElse sourcePath None with
    | Some found => Some found
    | None =>
        match canonicalByFingerprint resolver
                !! createSchemaFingerprint h schema with
        | Some [(_, candidateSchema)] =>
            sourcePathByValue resolver !! candidateSchema
        | _ => sourcePath
        end
    end in
  match orElse sourcePath None with
  | None => None
  | Some sourcePath =>
      if path_isAbsolute pathRef then Some (path_normalize pathRef)
      else Some (path_normalize
                   (path_resolve (path_dirname sourcePath) pathRef))
  end.

Definition resolveSourcePathFromSourceRef (sourcePath sourceRef : string)
  : option string :=
  let refPath := beforeFragment sourceRef in
  if String.eqb refPath "" then None
  else if path_isAbsolute refPath then Some (path_normalize refPath)
  else Some (path_normalize (path_resolve (path_dirname sourcePath) refPath)).

(** [resolver.loadingSourcePaths] updated. *)
Definition withLoading (resolver : ExternalSchemaNameResolver)
    (loading : gset string) : ExternalSchemaNameResolver :=
  {| nameByValue := nameByValue resolver;
     namesByFingerprint := namesByFingerprint resolver;
     canonicalByName := canonicalByName resolver;
     canonicalByFingerprint := canonicalByFingerprint resolver;
     schemaBySourcePath := schemaBySourcePath resolver;
     sourcePathsByBaseName := sourcePathsByBaseName resolver;
     componentNameBySourcePath := componentNameBySourcePath resolver;
     sourcePathByValue := sourcePathByValue resolver;
     sourcePathByComponentName := sourcePathByComponentName resolver;
     loadingSourcePaths := loading |}.

(** [resolver.componentNameBySourcePath.set(sourcePath, componentName);
    resolver.sourcePathByComponentName.set(componentName, sourcePath)] *)
Definition linkComponent (resolver : ExternalSchemaNameResolver)
    (sourcePath componentName : string) : ExternalSchemaNameResolver :=
  {| nameByValue := nameByValue resolver;
     namesByFingerprint := namesByFingerprint resolver;
     canonicalByName := canonicalByName resolver;
     canonicalByFingerprint := canonicalByFingerprint resolver;
     schemaBySourcePath := schemaBySourcePath resolver;
     sourcePathsByBaseName := sourcePathsByBaseName resolver;
     componentNameBySourcePath :=
       <[sourcePath := componentName]> (componentNameBySourcePath resolver);
     sourcePathByValue := sourcePathByValue resolver;
     sourcePathByComponentName :=
       JsMap.set componentName sourcePath (sourcePathByComponentName resolver);
     loadingSourcePaths := loadingSourcePaths resolver |}.

(** [ensureExternalSchemaForSourcePath]: the file is parsed by the host; a
    file that cannot be read or parsed is the [catch] branch. *)
Definition ensureExternalSchemaForSourcePath (sourcePath : string) (s : state)
  : option addr * state :=
  let resolver := st_resolver s in
  match schemaBySourcePath resolver !! sourcePath with
  | Some existing => (Some existing, s)
  | None =>
      if bool_decide (sourcePath ∈ loadingSourcePaths resolver) then (None, s)
      else
        let loading := withLoading resolver
                         ({[sourcePath]} ∪ loadingSourcePaths resolver) in
        let '(result, h', resolver') :=
          match parseSourceFile sourcePath with
          | None => (None, st_heap s, loading)
          | Some parsed =>
              let '(schema, h') := allocJson parsed (st_heap s) in
              match schema with
              | VObj a =>
                  if isRecord h' (Some schema)
                     && isLikelySchemaObject (entriesOf h' a)
                  then
                    let added :=
                      addExternalNameCandidate h' loading a
                        (createSchemaNameFromSourcePath sourcePath) in
                    (Some a, h',
                     registerExternalSourcePath h' added sourcePath a)
                  else (None, h', loading)
              | _ => (None, h', loading)
              end
          end in
        (result,
         State h' (st_registry s)
           (withLoading resolver'
              (loadingSourcePaths resolver' ∖ {[sourcePath]})))
  end.

(** The last lines of [ensureComponentPointerForSourcePath] and of
    [resolveDiscriminatorMappingPointer]: the schema of a source file gets
    its component. *)
Definition registerSourceSchema (sourcePath : string) (externalSchema : addr)
    (s : state) : option (string * state) :=
  let preferredName :=
    default "" (orElse (componentNameBySourcePath (st_resolver s) !! sourcePath)
                  (Some (createSchemaNameFromSourcePath sourcePath))) in
  '(pointer, h', registry') ←
    registerSchemaInComponents (st_heap s) (st_registry s) externalSchema
      preferredName;
  let componentName :=
    decodeJsonPointerToken
      (default "" (orElse (lastToken pointer) (Some preferredName))) in
  Some (pointer,
        State h' registry'
          (linkComponent (st_resolver s) sourcePath componentName)).

Definition ensureComponentPointerForSourcePath (sourcePath : string)
    (s : state) : option (option string * state) :=
  match ensureExternalSchemaForSourcePath sourcePath s with
  | (None, s') => Some (None, s')
  | (Some externalSchema, s') =>
      '(pointer, s'') ← registerSourceSchema sourcePath externalSchema s';
      Some (Some pointer, s'')
  end.

Definition resolveDiscriminatorMappingPointer (mappingValue : string)
    (schema : addr) (schemaPointer : string) (s : state)
  : option (option string * state) :=
  if Str.startsWith "#/components/schemas/" mappingValue
  then Some (Some mappingValue, s)
  else if negb (looksLikeExternalFileReference mappingValue) then Some (None, s)
  else
    let withoutFragment :=
      Str.replace1 "\" "/" (beforeFragment mappingValue) in
    let baseName := toLowerCase (path_basename withoutFragment) in
    if String.eqb baseName "" then Some (None, s)
    else
      let sourcePath :=
        match orElse (resolveMatchingSourcePath withoutFragment baseName
                        (st_resolver s)) None with
        | Some found => Some found
        | None =>
            resolveSourcePathFromSchemaContext (st_heap s) withoutFragment
              schema schemaPointer (st_resolver s)
        end in
      match orElse sourcePath None with
      | None =>
          let fallbackName := createSchemaNameFromSourcePath withoutFragment in
          if inRecord (entriesOf (st_heap s)
                         (componentSchemas (st_registry s))) fallbackName
          then Some (Some ("#/components/schemas/"
                           +:+ encodeJsonPointerToken fallbackName), s)
          else Some (None, s)
      | Some sourcePath =>
          match ensureExternalSchemaForSourcePath sourcePath s with
          | (None, s') => Some (None, s')
          | (Some externalSchema, s') =>
              '(pointer, s'') ← registerSourceSchema sourcePath externalSchema s';
              Some (Some pointer, s'')
          end
      end.

End Sources.

(** ** Discriminator mappings and source templates (helpers/rewritePasses.ts) *)

(** An entry of [mappingsToRewrite]. *)
Record MappingRewrite : Type := {
  rw_schema : addr;
  rw_schemaPointer : string;
  rw_mapping : addr;
  rw_mappingKey : string;
  rw_mappingValue : string;
}.

Section Templates.
Context `{Host}.

(** The visitor of [rewriteDiscriminatorMappings]; it only reads [h]. *)
Definition discriminatorVisitor (h : heap)
  : WalkVisitor (S := list MappingRewrite) :=
  fun value pointer inSchemaContext _ mappingsToRewrite =>
    if negb inSchemaContext || negb (isRecord h (Some (VObj value)))
    then Some mappingsToRewrite
    else
      match field h value "discriminator" with
      | Some (VObj discriminator) =>
          if negb (isRecord h (Some (VObj discriminator)))
          then Some mappingsToRewrite
          else
            match field h discriminator "mapping" with
            | Some (VObj mapping) =>
                if negb (isRecord h (Some (VObj mapping)))
                then Some mappingsToRewrite
                else
                  Some (foldl
                          (fun pushed '(mappingKey, mappingValue) =>
                             match mappingValue with
                             | VStr mappingValue =>
                                 if looksLikeExternalFileReference mappingValue
                                 then pushed ++
                                      [ {| rw_schema := value;
                                           rw_schemaPointer := pointer;
                                           rw_mapping := mapping;
                                           rw_mappingKey := mappingKey;
                                           rw_mappingValue := mappingValue |} ]
                                 else pushed
                             | _ => pushed
                             end)
                          mappingsToRewrite (entriesOf h mapping))
            | _ => Some mappingsToRewrite
            end
      | _ => Some mappingsToRewrite
      end.

(** The body of [for (const rewrite of mappingsToRewrite)]. *)
Definition applyMappingRewrite (rewrite : MappingRewrite)
    (sc : state * bool) : option (state * bool) :=
  let '(s, changed) := sc in
  '(componentPointer, s') ←
    resolveDiscriminatorMappingPointer (rw_mappingValue rewrite)
      (rw_schema rewrite) (rw_schemaPointer rewrite) s;
  match orElse componentPointer None with
  | Some componentPointer =>
      if bool_decide (field (st_heap s') (rw_mapping rewrite)
                        (rw_mappingKey rewrite)
                      = Some (VStr componentPointer))
      then Some (s', changed)
      else Some (State (store (st_heap s') (rw_mapping rewrite)
                          (KStr (rw_mappingKey rewrite))
                          (VStr componentPointer))
                       (st_registry s') (st_resolver s'), true)
  | None => Some (s', changed)
  end.

(** One turn of the loop of [rewriteDiscriminatorMappings]. *)
Definition rewriteDiscriminatorPass (fuel : nat) (root : value) (s : state)
  : option (state * bool) :=
  mappingsToRewrite ←
    walkRoot (fun _ : list MappingRewrite => st_heap s) fuel
      (discriminatorVisitor (st_heap s)) root [];
  foldl (fun acc rewrite => sc ← acc; applyMappingRewrite rewrite sc)
        (Some (s, false)) mappingsToRewrite.

Fixpoint rewriteDiscriminatorMappings (turns fuel : nat) (root : value)
    (s : state) : option state :=
  match turns with
  | O => None
  | Datatypes.S turns' =>
      '(s', changed) ← rewriteDiscriminatorPass fuel root s;
      if changed : bool then rewriteDiscriminatorMappings turns' fuel root s'
      else Some s'
  end.

(** [rewriteFromSourceTemplate(sourceNode, bundledNode, sourcePath, ...)];
    [next] is allocated where the code creates it.  [fuel] bounds the
    nesting of the calls.  For a key of the source that [next] inherits and
    does not have, [key in next] holds and [next[key]] is a function or the
    prototype, which the values here do not include: no result. *)
Fixpoint rewriteFromSourceTemplate (fuel : nat) (sourceNode bundledNode : value)
    (sourcePath : string) (s : state) : option (value * state) :=
  match fuel with
  | O => None
  | Datatypes.S fuel' =>
      match sourceNode, bundledNode with
      | VObj source, VObj bundled =>
          match st_heap s !! source, st_heap s !! bundled with
          | Some (OArray sourceItems), Some (OArray bundledItems) =>
              let '(next, h1) := alloc (OArray bundledItems) (st_heap s) in
              s' ← foldl
                (fun acc i =>
                   s' ← acc;
                   match st_heap s' !! source, st_heap s' !! next with
                   | Some (OArray sourceItems), Some (OArray nextItems) =>
                       match sourceItems !! i, nextItems !! i with
                       | Some sourceItem, Some nextItem =>
                           '(rewritten, s'') ←
                             rewriteFromSourceTemplate fuel' sourceItem nextItem
                               sourcePath s';
                           Some (State (store (st_heap s'') next (KIdx i)
                                          rewritten)
                                       (st_registry s'') (st_resolver s''))
                       | _, _ => Some s'
                       end
                   | _, _ => Some s'
                   end)
                (Some (State h1 (st_registry s) (st_resolver s)))
                (seq 0 (length sourceItems));
              Some (VObj next, s')
          | Some (ORecord _), Some (ORecord _) =>
              '(replaced, s1) ←
                match string_field (st_heap s) source "$ref" with
                | Some ref =>
                    if looksLikeExternalFileReference ref then
                      match orElse (resolveSourcePathFromSourceRef sourcePath
                                      ref) None with
                      | Some targetSourcePath =>
                          '(componentPointer, s1) ←
                            ensureComponentPointerForSourcePath
                              targetSourcePath s;
                          Some (orElse componentPointer None, s1)
                      | None => Some (None, s)
                      end
                    else Some (None, s)
                | None => Some (None, s)
                end;
              match replaced with
              | Some componentPointer =>
                  let '(replacement, h2) :=
                    alloc (ORecord (refReplacement (st_heap s1) bundled
                                      componentPointer)) (st_heap s1) in
                  Some (VObj replacement,
                        State h2 (st_registry s1) (st_resolver s1))
              | None =>
                  let '(next, h2) :=
                    alloc (ORecord (entriesOf (st_heap s1) bundled))
                      (st_heap s1) in
                  s' ← foldl
                    (fun acc '(key, sourceChild) =>
                       s' ← acc;
                       match field (st_heap s') next key with
                       | None =>
                           if bool_decide (key ∈ inheritedNames) then None
                           else Some s'
                       | Some nextChild =>
                           '(rewritten, s'') ←
                             rewriteFromSourceTemplate fuel' sourceChild
                               nextChild sourcePath s';
                           Some (State (store (st_heap s'') next (KStr key)
                                          rewritten)
                                       (st_registry s'') (st_resolver s''))
                       end)
                    (Some (State h2 (st_registry s1) (st_resolver s1)))
                    (entriesOf (st_heap s1) source);
                  Some (VObj next, s')
              end
          | _, _ => Some (bundledNode, s)
          end
      | _, _ => Some (bundledNode, s)
      end
  end.

(** The body of the loop of [rewriteSchemaRefsFromSourceTemplates]. *)
Definition rewriteComponentFromSource (fuel : nat)
    (componentName sourcePath : string) (s : state) : option state :=
  let '(sourceSchema, s1) := ensureExternalSchemaForSourcePath sourcePath s in
  let components := componentSchemas (st_registry s1) in
  match sourceSchema, field (st_heap s1) components componentName with
  | Some sourceSchema, Some bundledSchema =>
      if isRecord (st_heap s1) (Some (VObj sourceSchema))
         && isRecord (st_heap s1) (Some bundledSchema)
      then
        '(rewritten, s2) ←
          rewriteFromSourceTemplate fuel (VObj sourceSchema) bundledSchema
            sourcePath s1;
        Some (State (store (st_heap s2) components (KStr componentName)
                       rewritten)
                    (st_registry s2) (st_resolver s2))
      else Some s1
  | _, _ => Some s1
  end.

Definition rewriteSchemaRefsFromSourceTemplates (fuel : nat) (root : value)
    (s : state) : option state :=
  let componentSourcePairs :=
    JsMap.entries (sourcePathByComponentName (st_resolver s)) in
  s' ← foldl (fun acc '(componentName, sourcePath) =>
                s' ← acc;
                rewriteComponentFromSource fuel componentName sourcePath s')
             (Some s) componentSourcePairs;
  match root with
  | VObj rootRecord =>
      match field (st_heap s') rootRecord "components" with
      | Some (VObj components) =>
          if isRecord (st_heap s') (Some (VObj components))
          then Some (State (store (st_heap s') components (KStr "schemas")
                              (VObj (componentSchemas (st_registry s'))))
                           (st_registry s') (st_resolver s'))
          else Some s'
      | _ => Some s'
      end
  | _ => Some s'
  end.

End Templates.

(** ** The driver (hoistBundledSchemas.ts) *)

(** [parser.$refs]: the paths of the loaded files, the main file first, and
    the value of each. *)
Record Refs : Type := {
  refs_paths : list string;
  refs_get : string → option value;
}.

(** The parser: its document and, once it has bundled, its [$refs]. *)
Record Parser : Type := {
  parser_schema : value;
  parser_refs : option Refs;
}.

(** Modelled from the spec: [isOpenAPI] of lib/assertions.ts, which is not
    among the sources; the document is recognizable as OpenAPI 3.x when it
    has [openapi] starting with [3.]. *)
Definition isOpenAPI (h : heap) (schema : value) : bool :=
  match schema with
  | VObj a =>
      match string_field h a "openapi" with
      | Some version => Str.startsWith "3." version
      | None => false
      end
  | _ => false
  end.

Section Driver.
Context `{Host}.

(** Step 2a: the files other than the main one, as name candidates. *)
Definition registerLoadedFiles (h : heap) (refs : Refs) (rootPath : string)
  : gmap addr string * ExternalSchemaNameResolver :=
  foldl (fun '(externalSchemas, resolver) path =>
           match refs_get refs path with
           | Some (VObj value) =>
               if isRecord h (Some (VObj value)) then
                 let sourceName := createSchemaNameFromSourcePath path in
                 (<[value := path]> externalSchemas,
                  registerExternalSourcePath h
                    (addExternalNameCandidate h resolver value sourceName)
                    path value)
               else (externalSchemas, resolver)
           | _ => (externalSchemas, resolver)
           end)
        (∅, createExternalSchemaNameResolver)
        (filter (fun path => path ≠ rootPath) (refs_paths refs)).

(** Step 2b: the files used as schemas become components. *)
Definition hoistSchemaTargets (targets : list (string * addr)) (s : state)
  : option state :=
  foldl (fun acc '(sourcePath, value) =>
           s ← acc;
           '(pointer, h', registry') ←
             registerSchemaInComponents (st_heap s) (st_registry s) value
               (createSchemaNameFromSourcePath sourcePath);
           let componentName :=
             decodeJsonPointerToken (default "" (lastToken pointer)) in
           Some (State h' registry'
                   (linkComponent (st_resolver s) sourcePath componentName)))
        (Some s) targets.

(** Steps 1 and 2: the working state. *)
Definition createWorkingState (fuel : nat) (h : heap) (root : addr)
    (refs : Refs) : option state :=
  '(h1, registry) ← createSchemaRegistry h root;
  match refs_paths refs with
  | [] => Some (State h1 registry createExternalSchemaNameResolver)
  | rootPath :: _ =>
      let '(externalSchemas, resolver) :=
        registerLoadedFiles h1 refs rootPath in
      targets ← collectSchemaTargets fuel h1 (VObj root) externalSchemas;
      hoistSchemaTargets targets (State h1 registry resolver)
  end.

(** Step 5, one of its two rounds. *)
Definition normalizeFromSources (fuel : nat) (root : value) (s : state)
  : option state :=
  s ← rewriteDiscriminatorMappings fuel fuel root s;
  rewriteSchemaRefsFromSourceTemplates fuel root s.

(** Steps 3 to 6. *)
Definition rewriteDocument (fuel : nat) (root : value) (s : state)
  : option state :=
  s ← rewriteLocalSchemaRefsToComponents fuel root s;
  s ← rewriteInlineExternalSchemasToComponentRefs fuel fuel root s;
  s ← normalizeFromSources fuel root s;
  s ← normalizeFromSources fuel root s;
  replaceHoistedObjectsWithRefs fuel root s.

(** [hoistBundledSchemas(parser, parserOptions)]: the heap it leaves.
    [fuel] bounds every loop and every nesting of calls; [None]: out of
    fuel, or [components] is not what the document type says. *)
Definition hoistBundledSchemas (fuel : nat) (h : heap) (parser : Parser)
  : option heap :=
  match parser_refs parser, parser_schema parser with
  | Some refs, VObj root =>
      if negb (isOpenAPI h (parser_schema parser)) then Some h
      else
        s ← createWorkingState fuel h root refs;
        st_heap <$> rewriteDocument fuel (VObj root) s
  | _, _ => Some h
  end.

End Driver.

(** ** Two schemas that are aliases of each other *)

(** [n] turns of the loop of [rewriteInlineExternalSchemasToComponentRefs],
    each of which has to replace something. *)
Fixpoint turnsChanged `{Host} (n fuel : nat) (root : value) (s : state)
  : option state :=
  match n with
  | O => Some s
  | S n' =>
      match rewriteInlinePass fuel root s with
      | Some (s', true) => turnsChanged n' fuel root s'
      | _ => None
      end
  end.

(** [{ $ref: '#/components/schemas/<name>' }] *)
Definition refTo (name : string) : object :=
  ORecord [("$ref", VStr ("#/components/schemas/" +:+ name))].

(** A document whose files [A.yaml] and [B.yaml] hold a reference to each
    other, and a parameter whose schema, the object [r], is a reference. *)
Definition aliasBase (r : addr) : heap :=
  [ ORecord [("openapi", VStr "3.0.3"); ("components", VObj 1)];
    ORecord [("schemas", VObj 2); ("parameters", VObj 5)];
    ORecord [("A", VObj 3); ("B", VObj 4)];
    refTo "B";
    refTo "A";
    ORecord [("P", VObj 6)];
    ORecord [("name", VStr "p"); ("in", VStr "query"); ("schema", VObj r)] ].

(** The document after some turns: the records replaced so far, then the
    reference the parameter holds now. *)
Definition aliasHeap (replaced : list object) (target : string) : heap :=
  aliasBase (7 + length replaced) ++ replaced ++ [refTo target].

Definition aliasDocument : heap := aliasHeap [] "B".

Definition aliasRefs : Refs := {|
  refs_paths := ["/spec/openapi.yaml"; "/spec/A.yaml"; "/spec/B.yaml"];
  refs_get := fun path =>
    if String.eqb path "/spec/openapi.yaml" then Some (VObj 0)
    else if String.eqb path "/spec/A.yaml" then Some (VObj 3)
    else if String.eqb path "/spec/B.yaml" then Some (VObj 4)
    else None;
|}.

Definition aliasParser : Parser :=
  {| parser_schema := VObj 0; parser_refs := Some aliasRefs |}.

Definition aliasRegistry : SchemaRegistry := {|
  schemaNames := {[ "A"; "B" ]};
  schemaPointersByValue :=
    {[ 3 := "#/components/schemas/A"; 4 := "#/components/schemas/B" ]};
  componentSchemas := 2;
|}.

Definition aliasResolver : ExternalSchemaNameResolver :=
  (registerLoadedFiles aliasDocument aliasRefs "/spec/openapi.yaml").2.

Definition aliasState (replaced : list object) (target : string) : state :=
  State (aliasHeap replaced target) aliasRegistry aliasResolver.

(** The fingerprint index of the alias document, and the alias that is not
    [t]. *)
Definition aliasIndex : gmap string (list candidate) :=
  buildExternalComponentFingerprintIndex aliasDocument aliasRegistry
    aliasResolver.

Definition otherAlias (t : string) : string :=
  if String.eqb t "A" then "B" else "A".

(** ** Fuel *)

(** A result that more fuel does not change. *)
Definition fuelMonotone {A : Type} (f : nat → option A) : Prop :=
  ∀ fuel fuel' x, (fuel ≤ fuel')%nat → f fuel = Some x → f fuel' = Some x.

(** ** What the passes leave alone *)

(** [o[k]] for an object of either kind. *)
Definition slot (h : heap) (a : addr) (k : pkey) : option value :=
  match h !! a, k with
  | Some (ORecord fields), KStr key => Props.get fields key
  | Some (OArray items), KIdx i => items !! i
  | _, _ => None
  end.

Definition sameKind (o o' : object) : Prop :=
  match o, o' with
  | ORecord _, ORecord _ | OArray _, OArray _ => True
  | _, _ => False
  end.

(** A component pointer, as far as the passes tell one from a reference
    they have to resolve. *)
Definition isComponentRef (ref : string) : bool :=
  Str.startsWith "#/components/schemas/" ref.

Section Outside.
(** [N]: objects that no path reaches in a schema context.  [E]: among
    them, the objects of the payloads to keep, with all they hold. *)
Context (N E : gset addr).

Record outside (h : heap) : Prop := {
  out_wf : heap_wf h;
  out_dom : ∀ a, a ∈ N → (a < length h)%nat;
  (** whatever holds an object of [N] is in [N], *)
  out_parents : ∀ a k c, slot h a k = Some (VObj c) → c ∈ N → a ∈ N;
  (** and does not hold it under a schema-context key *)
  out_context : ∀ a key c,
    slot h a (KStr key) = Some (VObj c) → isSchemaContextKey key = true →
    c ∉ N;
  out_sub : E ⊆ N;
  out_closed : ∀ a k c, a ∈ E → slot h a k = Some (VObj c) → c ∈ E;
}.

(** From [h] to [h']: no object is lost or changes its kind; the objects of
    [E] are as they were; an object of [N] stays in the slots that hold it;
    an object of [N] holds no object of [N] it did not hold, and where it
    held another object it holds one still; a [$ref] that is not a component
    pointer is one that was there. *)
Record framed (h h' : heap) : Prop := {
  fr_length : (length h ≤ length h')%nat;
  fr_kind : ∀ a o, h !! a = Some o → ∃ o', h' !! a = Some o' ∧ sameKind o o';
  fr_payload : ∀ a, a ∈ E → h' !! a = h !! a;
  fr_hold : ∀ a k c,
    c ∈ N → slot h a k = Some (VObj c) → slot h' a k = Some (VObj c);
  fr_keep : ∀ a k c,
    a ∈ N → slot h a k = Some (VObj c) → c ∉ N →
    ∃ c', slot h' a k = Some (VObj c') ∧ c' ∉ N;
  fr_back : ∀ a k c,
    a ∈ N → c ∈ N → slot h' a k = Some (VObj c) → slot h a k = Some (VObj c);
  fr_ref : ∀ a ref,
    (a < length h)%nat → string_field h' a "$ref" = Some ref →
    isComponentRef ref = false → string_field h a "$ref" = Some ref;
}.

(** What [store h a k v] has to respect. *)
Record storable (h : heap) (a : addr) (k : pkey) (v : value) : Prop := {
  st_payload : a ∉ E;
  st_object : ∀ c, v = VObj c → c ∉ N;
  st_primitive : (∀ c, v ≠ VObj c) → a ∉ N;
  st_slot : ∀ c, a ∈ N → slot h a k = Some (VObj c) → c ∉ N;
  st_ref : ∀ ref, k = KStr "$ref" → v = VStr ref →
           isComponentRef ref = true ∨ slot h a k = Some v;
}.

End Outside.

Section OutsideState.
Context `{Host} (N E : gset addr) (root : addr).

(** The document is there and [components], where it is an object of [N],
    has its [schemas]. *)
Definition keepsSchemas (h : heap) : Prop :=
  (root < length h)%nat
  ∧ ∀ c, field h root "components" = Some (VObj c) → c ∈ N →
         ∃ x, field h c "schemas" = Some (VObj x).

(** No reference that the passes resolve leads into [N]. *)
Definition refsOutside (h : heap) : Prop :=
  ∀ a ref c,
    string_field h a "$ref" = Some ref →
    Str.startsWith "#/" ref = true → isComponentRef ref = false →
    resolveLocalPointer h (VObj root) ref = Some (VObj c) → c ∉ N.

(** The registry and the resolver hold no object of [N]. *)
Record outsideState (s : state) : Prop := {
  os_heap : outside N E (st_heap s);
  os_schemas : keepsSchemas (st_heap s);
  os_components : componentSchemas (st_registry s) ∉ N;
  os_pointers : ∀ a pointer,
    schemaPointersByValue (st_registry s) !! a = Some pointer →
    isComponentRef pointer = true;
  os_byName : ∀ name a,
    canonicalByName (st_resolver s) !! name = Some a → a ∉ N;
  os_byFingerprint : ∀ fingerprint candidates name a,
    canonicalByFingerprint (st_resolver s) !! fingerprint = Some candidates →
    (name, a) ∈ candidates → a ∉ N;
  os_bySourcePath : ∀ sourcePath a,
    schemaBySourcePath (st_resolver s) !! sourcePath = Some a → a ∉ N;
}.

(** What a call of a visitor can rely on: an object of [N] is not visited
    in a schema context, and an object visited in a schema context from a
    parent in [N] sits in a slot that holds no object of [N]. *)
Definition callOutside (h : heap) (value : addr) (inSchemaContext : bool)
    (parent : option (addr * pkey)) : Prop :=
  (value ∈ N → inSchemaContext = false)
  ∧ (∀ p k, parent = Some (p, k) → inSchemaContext = true → p ∈ N →
            ∃ c, slot h p k = Some (VObj c) ∧ c ∉ N).

End OutsideState.

Section OutsideParts.
Context `{Host} (N E : gset addr) (root : addr).

(** The fields of a record that holds no object. *)
Definition flat (fields : list (string * value)) : Prop :=
  NoDup (Props.keys fields) ∧ ∀ key c, Props.get fields key ≠ Some (VObj c).

(** The index of [buildExternalComponentFingerprintIndex] holds no object
    of [N]. *)
Definition indexOutside (index : gmap string (list candidate)) : Prop :=
  ∀ fingerprint matches m,
    index !! fingerprint = Some matches → m ∈ matches → cand_schema m ∉ N.

(** A value that is no object of [N]. *)
Definition valueOutside (v : value) : Prop := ∀ a, v = VObj a → a ∉ N.

(** What [allocJson] keeps, for one parsed value. *)
Definition allocOutside (j : json) : Prop :=
  ∀ h registry resolver v h',
    outsideState N E root (State h registry resolver) →
    allocJson j h = (v, h') →
    outsideState N E root (State h' registry resolver) ∧ framed N E h h'
    ∧ valueOutside v.

(** The part of the resolver the invariant speaks of. *)
Definition resolverOutside (resolver : ExternalSchemaNameResolver) : Prop :=
  (∀ name a, canonicalByName resolver !! name = Some a → a ∉ N)
  ∧ (∀ fingerprint candidates name a,
       canonicalByFingerprint resolver !! fingerprint = Some candidates →
       (name, a) ∈ candidates → a ∉ N)
  ∧ (∀ sourcePath a, schemaBySourcePath resolver !! sourcePath = Some a → a ∉ N).

(** What one call of [rewriteFromSourceTemplate] keeps. *)
Definition templateOutside (fuel : nat) : Prop :=
  ∀ sourceNode bundledNode sourcePath s v s',
    outsideState N E root s → valueOutside bundledNode →
    rewriteFromSourceTemplate fuel sourceNode bundledNode sourcePath s = Some (v, s') →
    outsideState N E root s' ∧ framed N E (st_heap s) (st_heap s')
    ∧ valueOutside v
    ∧ ((∀ c, v ≠ VObj c) → v = bundledNode ∧ s' = s).

(** What the document has to be, around the payloads to keep: the root and
    [components] are no payload, no local reference leads into [N], and no
    loaded file other than the first, the document itself, is an object of
    [N]. *)
Record outsideDocument (h : heap) (refs : Refs) : Prop := {
  od_heap : outside N E h;
  od_root : root ∉ E;
  od_components : ∀ c, field h root "components" = Some (VObj c) → c ∉ E;
  od_refs : refsOutside N root h;
  od_files : ∀ rootPath path a,
    head (refs_paths refs) = Some rootPath →
    path ∈ refs_paths refs → path ≠ rootPath →
    refs_get refs path = Some (VObj a) → a ∉ N;
}.

End OutsideParts.

(** Every character of [s] passes [p]. *)
Fixpoint allChars (p : ascii → bool) (s : string) : bool :=
  match s with
  | EmptyString => true
  | String c r => p c && allChars p r
  end.

(** The characters [createSchemaNameFromSourcePath] lets through. *)
Definition isNameChar (c : ascii) : bool :=
  isAlnum c || Ascii.eqb c "." || Ascii.eqb c "_" || Ascii.eqb c "-".

(** ** The frame, decided *)

(** The slots of an object, with what they hold. *)
Definition slotsOf (o : object) : list (pkey * value) :=
  match o with
  | ORecord fields => (fun kv => (KStr kv.1, kv.2)) <$> fields
  | OArray items => imap (fun i v => (KIdx i, v)) items
  end.

(** What [outside] asks of one slot of the object [a]. *)
Definition slotOutsideb (N E : gset addr) (a : addr) (kv : pkey * value)
  : bool :=
  match kv.2 with
  | VObj c =>
      implb (bool_decide (c ∈ N))
        (bool_decide (a ∈ N)
         && match kv.1 with
            | KStr key => negb (isSchemaContextKey key)
            | KIdx _ => true
            end)
      && implb (bool_decide (a ∈ E)) (bool_decide (c ∈ E))
  | _ => true
  end.

Definition outsideb (N E : gset addr) (h : heap) : bool :=
  heap_wfb h
  && bool_decide (E ⊆ N)
  && forallb (fun a => bool_decide (a < length h)%nat) (elements N)
  && forallb (fun ao => forallb (slotOutsideb N E ao.1) (slotsOf ao.2))
       (imap pair h).

Section OutsideDecided.
Context `{Host}.

Definition refsOutsideb (N : gset addr) (root : addr) (h : heap) : bool :=
  forallb (fun a =>
             match string_field h a "$ref" with
             | Some ref =>
                 if Str.startsWith "#/" ref && negb (isComponentRef ref)
                 then match resolveLocalPointer h (VObj root) ref with
                      | Some (VObj c) => bool_decide (c ∉ N)
                      | _ => true
                      end
                 else true
             | None => true
             end)
          (seq 0 (length h)).

Definition filesOutsideb (N : gset addr) (refs : Refs) : bool :=
  match refs_paths refs with
  | [] => true
  | rootPath :: _ =>
      forallb (fun path =>
                 bool_decide (path = rootPath)
                 || match refs_get refs path with
                    | Some (VObj a) => bool_decide (a ∉ N)
                    | _ => true
                    end)
              (refs_paths refs)
  end.

Definition outsideDocumentb (N E : gset addr) (root : addr) (h : heap)
    (refs : Refs) : bool :=
  outsideb N E h
  && bool_decide (root ∉ E)
  && match field h root "components" with
     | Some (VObj c) => bool_decide (c ∉ E)
     | _ => true
     end
  && refsOutsideb N root h
  && filesOutsideb N refs.

End OutsideDecided.

(** A bundled document with payloads: at 8 the schema of the file
    [Pet.yaml], at 10 an example of a pet with its tags at 13, at 12 the
    entries of [x-doc-refs]. *)
Definition payloadDocument : heap :=
  [ ORecord [("openapi", VStr "3.0.3"); ("paths", VObj 1);
             ("x-doc-refs", VObj 12)];
    ORecord [("/pets", VObj 2)];
    ORecord [("get", VObj 3)];
    ORecord [("responses", VObj 4)];
    ORecord [("200", VObj 5)];
    ORecord [("description", VStr "A pet"); ("content", VObj 6)];
    ORecord [("application/json", VObj 7)];
    ORecord [("schema", VObj 8); ("example", VObj 10)];
    ORecord [("type", VStr "object"); ("properties", VObj 9)];
    ORecord [("id", VObj 11)];
    ORecord [("id", VStr "p1"); ("tags", VObj 13)];
    ORecord [("type", VStr "string")];
    OArray [VStr "./docs/pets.md#listing"];
    OArray [VStr "small"; VStr "quiet"] ].

Definition payloadRefs : Refs := {|
  refs_paths := ["/spec/openapi.yaml"; "/spec/schemas/Pet.yaml"];
  refs_get := fun path =>
    if String.eqb path "/spec/openapi.yaml" then Some (VObj 0)
    else if String.eqb path "/spec/schemas/Pet.yaml" then Some (VObj 8)
    else None |}.

(** The objects of [payloadDocument] that no path reaches in a schema
    context, and the payloads among them. *)
Definition payloadOutside : gset addr :=
  list_to_set [0; 1; 2; 3; 4; 5; 6; 7; 10; 12; 13].

Definition payloads : gset addr := list_to_set [10; 12; 13].

Definition petExample : json :=
  JRec [("id", JStr "p1"); ("tags", JArr [JStr "small"; JStr "quiet"])].

Definition payloadParser : Parser :=
  {| parser_schema := VObj 0; parser_refs := Some payloadRefs |}.

(** A document with a component that refers to a place that holds no
    schema, and with a path item that refers to a schema in place. *)
Definition deepRefDocument : heap :=
  [ ORecord [("openapi", VStr "3.0.3"); ("paths", VObj 1);
             ("components", VObj 6)];
    ORecord [("/pets", VObj 2)];
    ORecord [("get", VObj 3); ("put", VObj 5)];
    ORecord [("summary", VStr "List the pets"); ("schema", VObj 4)];
    ORecord [("type", VStr "string")];
    ORecord [("schema", VObj 9)];
    ORecord [("schemas", VObj 7)];
    ORecord [("Note", VObj 8)];
    ORecord [("$ref", VStr "#/paths/~1pets/get/summary")];
    ORecord [("$ref", VStr "#/paths/~1pets/get/schema")] ].

Definition deepRefRefs : Refs := {|
  refs_paths := ["/spec/openapi.yaml"; "/spec/Id.yaml"];
  refs_get := fun path =>
    if String.eqb path "/spec/openapi.yaml" then Some (VObj 0)
    else if String.eqb path "/spec/Id.yaml" then Some (VObj 4)
    else None |}.

Definition deepRefParser : Parser :=
  {| parser_schema := VObj 0; parser_refs := Some deepRefRefs |}.

(** Every pointer the registry records is a component pointer. *)
Definition componentPointers (registry : SchemaRegistry) : Prop :=
  ∀ a pointer,
    schemaPointersByValue registry !! a = Some pointer →
    isComponentRef pointer = true.

(** A host that finds one source file, [/spec/schemas/Pet.yaml]. *)
Definition petFiles : Host := {|
  localeCompare := String.compare;
  toLowerCase := Posix.lower;
  toInteger := Posix.integer;
  path_basename := Posix.basename;
  path_dirname := Posix.dirname;
  path_isAbsolute := Posix.isAbsolute;
  path_normalize := Posix.normalize;
  path_resolve := Posix.resolve;
  parseSourceFile := fun sourcePath =>
    if String.eqb sourcePath "/spec/schemas/Pet.yaml"
    then Some (JRec [("type", JStr "object")])
    else None;
|}.

(** The registry of [petStore], and a state of a run on it. *)
Definition petRegistry : SchemaRegistry := {|
  schemaNames := {["Pet"]};
  schemaPointersByValue := {[0 := "#/components/schemas/Pet"]};
  componentSchemas := 1;
|}.

Definition petState : state :=
  State petStore petRegistry createExternalSchemaNameResolver.

(** A visitor that counts its calls. *)
Definition countVisits : WalkVisitor (S := nat) :=
  fun _ _ _ _ visits => Some (S visits).

(** Two schema objects that spell the same schema. *)
Definition twinSchemas : heap :=
  [ ORecord [("type", VStr "object"); ("title", VStr "Pet")];
    ORecord [("title", VStr "Pet"); ("type", VStr "object")] ].

(** ** Schemas on which fingerprints go wrong *)

(** The letter e with an acute accent, as one code point and as the letter
    followed by the combining accent (UTF-8). *)
Definition precomposed : string := String "195" (String "169" "").

Definition decomposed : string := String "e" (String "204" (String "129" "")).

(** The one step of canonical composition that matters here. *)
Fixpoint composeAccent (s : string) : string :=
  match s with
  | String "e" (String "204" (String "129" rest)) =>
      String "195" (String "169" (composeAccent rest))
  | String c rest => String c (composeAccent rest)
  | EmptyString => EmptyString
  end.

(** A host whose [localeCompare] ties canonically equivalent strings, as
    the language asks of it. *)
Definition canonicalHost : Host := {|
  localeCompare := fun a b => String.compare (composeAccent a) (composeAccent b);
  toLowerCase := Posix.lower;
  toInteger := Posix.integer;
  path_basename := Posix.basename;
  path_dirname := Posix.dirname;
  path_isAbsolute := Posix.isAbsolute;
  path_normalize := Posix.normalize;
  path_resolve := Posix.resolve;
  parseSourceFile := fun _ => None;
|}.

(** One schema with its two keys in either order. *)
Definition tiedKeys : heap :=
  [ ORecord [(precomposed, VNum 1); (decomposed, VNum 2)] ].

Definition tiedKeysSwapped : heap :=
  [ ORecord [(decomposed, VNum 2); (precomposed, VNum 1)] ].

(** A schema whose nested schema [properties.child], at 0, has [doc] for
    its [description]; the root is at 2. *)
Definition nestedDescription (doc : value) : heap :=
  [ ORecord [("type", VStr "string"); ("description", doc)];
    ORecord [("child", VObj 0)];
    ORecord [("type", VStr "object"); ("properties", VObj 1)] ].

Definition nestedDescriptionTree (doc : ptree) : ptree :=
  PRec [ ("type", PStr "object");
         ("properties",
          PRec [("child", PRec [("type", PStr "string");
                                ("description", doc)])]) ].

(** A schema whose nested schema sits under the key [__proto__]. *)
Definition underProto (description : string) : heap :=
  [ ORecord [("description", VStr description)];
    ORecord [("__proto__", VObj 0)];
    ORecord [("type", VStr "object"); ("properties", VObj 1)] ].

Definition underProtoTree (description : string) : ptree :=
  PRec [ ("type", PStr "object");
         ("properties",
          PRec [("__proto__", PRec [("description", PStr description)])]) ].

(** ** Documents for the conditions of a run, deep references and examples *)

(** A document in which the passes find nothing to do: no [$ref] is a local
    pointer other than a component pointer, and no record has a
    [discriminator]. *)
Definition quietDocument (h : heap) : Prop :=
  ∀ a,
    (∀ ref, string_field h a "$ref" = Some ref →
            Str.startsWith "#/" ref = true → isComponentRef ref = true)
    ∧ field h a "discriminator" = None.

(** A document that has its version and nothing else, and a parser that
    loaded no path. *)
Definition bareDocument : heap := [ ORecord [("openapi", VStr "3.0.3")] ].

Definition noPaths : Refs := {| refs_paths := []; refs_get := fun _ => None |}.

Definition bareParser : Parser :=
  {| parser_schema := VObj 0; parser_refs := Some noPaths |}.

(** A document in which a component refers to a path item: the path item
    [/a], at 2, holds under [x-inner] a reference to the path item [/b]. *)
Definition lateDocument : heap :=
  [ ORecord [("openapi", VStr "3.0.3"); ("paths", VObj 1);
             ("components", VObj 5)];
    ORecord [("/a", VObj 2); ("/b", VObj 4)];
    ORecord [("x-inner", VObj 3)];
    ORecord [("$ref", VStr "#/paths/~1b")];
    ORecord [("type", VStr "string")];
    ORecord [("schemas", VObj 6)];
    ORecord [("S", VObj 7)];
    ORecord [("$ref", VStr "#/paths/~1a")] ].

Definition lateRefs : Refs := {|
  refs_paths := ["/spec/openapi.yaml"];
  refs_get := fun path =>
    if String.eqb path "/spec/openapi.yaml" then Some (VObj 0) else None |}.

Definition lateParser : Parser :=
  {| parser_schema := VObj 0; parser_refs := Some lateRefs |}.

(** A bundled document whose response has an example that is itself shaped
    like a schema: at 8 the schema of the file [Pet.yaml], at 10 the schema
    of [Id.yaml], at 11 the example, which holds at 13, under [properties],
    a copy of the schema of [Id.yaml]. *)
Definition exampleDocument : heap :=
  [ ORecord [("openapi", VStr "3.0.3"); ("paths", VObj 1)];
    ORecord [("/pets", VObj 2)];
    ORecord [("get", VObj 3)];
    ORecord [("responses", VObj 4)];
    ORecord [("200", VObj 5)];
    ORecord [("description", VStr "A pet"); ("content", VObj 6)];
    ORecord [("application/json", VObj 7)];
    ORecord [("schema", VObj 8); ("example", VObj 11)];
    ORecord [("type", VStr "object"); ("properties", VObj 9)];
    ORecord [("id", VObj 10)];
    ORecord [("type", VStr "string"); ("format", VStr "uuid")];
    ORecord [("properties", VObj 12)];
    ORecord [("id", VObj 13)];
    ORecord [("type", VStr "string"); ("format", VStr "uuid")] ].

Definition exampleRefs : Refs := {|
  refs_paths := ["/spec/openapi.yaml"; "/spec/schemas/Pet.yaml";
                 "/spec/schemas/Id.yaml"];
  refs_get := fun path =>
    if String.eqb path "/spec/openapi.yaml" then Some (VObj 0)
    else if String.eqb path "/spec/schemas/Pet.yaml" then Some (VObj 8)
    else if String.eqb path "/spec/schemas/Id.yaml" then Some (VObj 10)
    else None |}.

Definition exampleParser : Parser :=
  {| parser_schema := VObj 0; parser_refs := Some exampleRefs |}.

(** A bundled document whose [x-doc-refs], at 9, holds under [schema] a
    copy of the schema of the file [Id.yaml], which is at 8. *)
Definition docRefsDocument : heap :=
  [ ORecord [("openapi", VStr "3.0.3"); ("paths", VObj 1);
             ("x-doc-refs", VObj 9)];
    ORecord [("/pets", VObj 2)];
    ORecord [("get", VObj 3)];
    ORecord [("responses", VObj 4)];
    ORecord [("200", VObj 5)];
    ORecord [("description", VStr "A pet"); ("content", VObj 6)];
    ORecord [("application/json", VObj 7)];
    ORecord [("schema", VObj 8)];
    ORecord [("type", VStr "string"); ("format", VStr "uuid")];
    ORecord [("schema", VObj 10)];
    ORecord [("type", VStr "string"); ("format", VStr "uuid")] ].

Definition docRefsRefs : Refs := {|
  refs_paths := ["/spec/openapi.yaml"; "/spec/schemas/Id.yaml"];
  refs_get := fun path =>
    if String.eqb path "/spec/openapi.yaml" then Some (VObj 0)
    else if String.eqb path "/spec/schemas/Id.yaml" then Some (VObj 8)
    else None |}.

Definition docRefsParser : Parser :=
  {| parser_schema := VObj 0; parser_refs := Some docRefsRefs |}.

(** A bundled document whose example, at 9, is a copy of the schema of the
    file [Id.yaml], at 8, and whose [x-doc-refs], at 10, holds a reference
    to a page. *)
Definition shapedDocument : heap :=
  [ ORecord [("openapi", VStr "3.0.3"); ("paths", VObj 1);
             ("x-doc-refs", VObj 10)];
    ORecord [("/pets", VObj 2)];
    ORecord [("get", VObj 3)];
    ORecord [("responses", VObj 4)];
    ORecord [("200", VObj 5)];
    ORecord [("description", VStr "A pet"); ("content", VObj 6)];
    ORecord [("application/json", VObj 7)];
    ORecord [("schema", VObj 8); ("example", VObj 9)];
    ORecord [("type", VStr "string"); ("format", VStr "uuid")];
    ORecord [("type", VStr "string"); ("format", VStr "uuid")];
    OArray [VObj 11];
    ORecord [("$ref", VStr "./docs/auth.md")] ].

Definition shapedParser : Parser :=
  {| parser_schema := VObj 0; parser_refs := Some docRefsRefs |}.

(** The objects of [shapedDocument] that no path reaches in a schema
    context, and the payloads among them. *)
Definition shapedOutside : gset addr :=
  list_to_set [0; 1; 2; 3; 4; 5; 6; 7; 9; 10; 11].

Definition shapedPayloads : gset addr := list_to_set [9; 10; 11].

(** * Properties *)

(** ** JSON-pointer tokens *)

Example encode_example : encodeJsonPointerToken "a/b~c" = "a~1b~0c".
Proof. reflexivity. Qed.

Example decode_example : decodeJsonPointerToken "a~1b~0c" = "a/b~c".
Proof. reflexivity. Qed.

Example decode_malformed :
  decodeJsonPointerToken "%E0%A4%A~1foo" = "%E0%A4%A/foo".
Proof. reflexivity. Qed.

Example decode_uri_escape :
  decodeURIComponent "caf%C3%A9%20%7E1" = Some "café ~1".
Proof. reflexivity. Qed.

Lemma append_cons x s1 s2 : String x s1 +:+ s2 = String x (s1 +:+ s2).
Proof. reflexivity. Qed.

Lemma append_nil s : "" +:+ s = s.
Proof. reflexivity. Qed.

Lemma replace2_skip c d rep x s :
  Ascii.eqb x c = false ->
  Str.replace2 c d rep (String x s) = String x (Str.replace2 c d rep s).
Proof.
  intros Hx. destruct s as [|y s]; simpl; [done|]. by rewrite Hx.
Qed.

Lemma replace2_hit c d rep s :
  Str.replace2 c d rep (String c (String d s)) = rep +:+ Str.replace2 c d rep s.
Proof. simpl. by rewrite !Ascii.eqb_refl. Qed.

Lemma replace2_miss c d rep y s :
  Ascii.eqb y d = false ->
  Str.replace2 c d rep (String c (String y s))
  = String c (Str.replace2 c d rep (String y s)).
Proof.
  intros Hy. cbn [Str.replace2]. rewrite Hy, andb_false_r. done.
Qed.

(** Undoing [~1] after both escapes leaves the token with its [~] escaped. *)
Lemma unescape_slash_encode t :
  Str.replace2 "~" "1" "/" (encodeJsonPointerToken t) = Str.replace1 "~" "~0" t.
Proof.
  unfold encodeJsonPointerToken.
  induction t as [|c t IH]; [done|].
  cbn [Str.replace1].
  destruct (Ascii.eqb_spec c "~") as [->|Htilde].
  - change (Str.replace1 "/" "~1" ("~0" +:+ ?x))
      with (String "~" (String "0" (Str.replace1 "/" "~1" x))).
    rewrite replace2_miss, replace2_skip, IH by done. done.
  - cbn [Str.replace1].
    destruct (Ascii.eqb_spec c "/") as [->|Hslash].
    + change ("~1" +:+ ?x) with (String "~" (String "1" x)).
      rewrite replace2_hit, IH. done.
    + rewrite replace2_skip, IH; [done|]. by apply Ascii.eqb_neq.
Qed.

Lemma unescape_tilde_escape t :
  Str.replace2 "~" "0" "~" (Str.replace1 "~" "~0" t) = t.
Proof.
  induction t as [|c t IH]; [done|].
  cbn [Str.replace1].
  destruct (Ascii.eqb_spec c "~") as [->|Htilde].
  - change ("~0" +:+ ?x) with (String "~" (String "0" x)).
    rewrite replace2_hit, IH. done.
  - rewrite replace2_skip, IH; [done|]. by apply Ascii.eqb_neq.
Qed.

(** Without URI decoding, decoding reverses encoding. *)
Lemma unescape_encode t : unescapePointerToken (encodeJsonPointerToken t) = t.
Proof.
  unfold unescapePointerToken.
  by rewrite unescape_slash_encode, unescape_tilde_escape.
Qed.

Lemma has_char_app c s1 s2 :
  Str.has_char c (s1 +:+ s2) = Str.has_char c s1 || Str.has_char c s2.
Proof.
  induction s1 as [|x s1 IH]; [done|].
  rewrite append_cons. cbn. by rewrite IH, orb_assoc.
Qed.

Lemma has_char_replace1 c x rep s :
  Str.has_char c rep = false ->
  Str.has_char c s = false ->
  Str.has_char c (Str.replace1 x rep s) = false.
Proof.
  intros Hrep. induction s as [|y s IH]; [done|].
  cbn. intros [Hy Hs]%orb_false_elim.
  destruct (Ascii.eqb y x).
  - rewrite has_char_app, Hrep. cbn. auto.
  - cbn. rewrite Hy. cbn. auto.
Qed.

Lemma encode_no_percent t :
  Str.has_char "%" t = false ->
  Str.has_char "%" (encodeJsonPointerToken t) = false.
Proof.
  intros Ht. unfold encodeJsonPointerToken.
  apply has_char_replace1; [done|]. by apply has_char_replace1.
Qed.

(** The encoded token never holds a [/]: it splits into one token. *)
Lemma encode_no_slash t : Str.has_char "/" (encodeJsonPointerToken t) = false.
Proof.
  unfold encodeJsonPointerToken.
  induction (Str.replace1 "~" "~0" t) as [|c s IH]; [done|].
  cbn. destruct (Ascii.eqb_spec c "/") as [->|Hc]; cbn; [done|].
  apply Ascii.eqb_neq in Hc. by rewrite Hc.
Qed.

(** URI decoding leaves a string without [%] as it is. *)
Lemma decodeURIComponent_no_percent s :
  Str.has_char "%" s = false -> decodeURIComponent s = Some s.
Proof.
  unfold decodeURIComponent.
  induction s as [|c s IH]; [done|].
  cbn. intros [Hc Hs]%orb_false_elim.
  rewrite Hc, IH by done. done.
Qed.

(** C9, amended.  Decoding reverses encoding for every token that URI
    decoding leaves alone: a token without [%], or more generally one whose
    encoding [decodeURIComponent] rejects or returns unchanged. *)
Theorem decode_encode_roundtrip (t : string) :
  Str.has_char "%" t = false
  \/ decodeURIComponent (encodeJsonPointerToken t) = None
  \/ decodeURIComponent (encodeJsonPointerToken t)
     = Some (encodeJsonPointerToken t) ->
  decodeJsonPointerToken (encodeJsonPointerToken t) = t.
Proof.
  intros Huri. unfold decodeJsonPointerToken.
  assert (decodeURIComponent (encodeJsonPointerToken t) = None
          \/ decodeURIComponent (encodeJsonPointerToken t)
             = Some (encodeJsonPointerToken t)) as [-> | ->].
  { destruct Huri as [Hno | [Hnone | Hsame]]; auto.
    right. by apply decodeURIComponent_no_percent, encode_no_percent. }
  - apply unescape_encode.
  - apply unescape_encode.
Qed.

Lemma decode_encode_roundtrip_witness :
  decodeJsonPointerToken (encodeJsonPointerToken "a/b~c%") = "a/b~c%".
Proof.
  apply (decode_encode_roundtrip "a/b~c%"). right. left. reflexivity.
Defined.

(** C9 as stated fails: a token that spells a URI escape is decoded to the
    character the escape stands for. *)
Lemma decode_encode_not_inverse :
  decodeJsonPointerToken (encodeJsonPointerToken "%41") = "A"
  /\ ~ (forall t, decodeJsonPointerToken (encodeJsonPointerToken t) = t).
Proof.
  split; [reflexivity|].
  intros Hall. specialize (Hall "%41"). discriminate Hall.
Qed.

(** ** Component names *)

Lemma string_length_app (s1 s2 : string) :
  String.length (s1 +:+ s2) = String.length s1 + String.length s2.
Proof.
  induction s1 as [|c s1 IH]; [done|].
  rewrite append_cons. cbn. by rewrite IH.
Qed.

Lemma suffixedName_ne_base safe index : suffixedName safe index ≠ safe.
Proof.
  intros Heq. apply (f_equal String.length) in Heq.
  unfold suffixedName in Heq. rewrite string_length_app, append_cons in Heq.
  cbn [String.length] in Heq. lia.
Qed.

Lemma suffixedName_inj safe i j :
  suffixedName safe i = suffixedName safe j -> i = j.
Proof.
  unfold suffixedName. intros Heq.
  apply (inj (String.append safe)) in Heq.
  apply (inj (String.append "_")) in Heq.
  by apply (inj pretty) in Heq.
Qed.

(** The loop returns, and what it returns: [tried] are the names already
    found in [names]. *)
Lemma createUniqueSchemaName_loop_spec fuel safe names tried uniqueName index :
  tried ⊆ names ->
  size names <= size tried + fuel ->
  uniqueName ∉ tried ->
  (forall j, (index <= j)%N -> suffixedName safe j ∉ tried) ->
  (forall j, (index <= j)%N -> suffixedName safe j ≠ uniqueName) ->
  exists result,
    createUniqueSchemaName_loop fuel safe names uniqueName index = Some result
    /\ (result ∉ names)
    /\ (((uniqueName ∉ names) /\ result = uniqueName)
        \/ (uniqueName ∈ names
            /\ exists k, (index <= k)%N /\ result = suffixedName safe k
                 /\ forall j, (index <= j < k)%N -> suffixedName safe j ∈ names)).
Proof.
  revert tried uniqueName index.
  induction fuel as [|fuel IH]; intros tried uniqueName index Hsub Hsize Hu Hfut Hne.
  - cbn. destruct (decide (uniqueName ∈ names)) as [Hin|Hout].
    + exfalso. apply Hu.
      assert (tried = names) as ->; [|done].
      apply set_subseteq_size_eq; [done|lia].
    + exists uniqueName. eauto.
  - cbn. destruct (decide (uniqueName ∈ names)) as [Hin|Hout].
    + destruct (IH ({[uniqueName]} ∪ tried) (suffixedName safe index) (index + 1)%N)
        as (result & Hloop & Hfree & Hshape).
      * apply union_subseteq. split; [by apply singleton_subseteq_l|done].
      * rewrite size_union by set_solver. rewrite size_singleton. lia.
      * intros [Heq%elem_of_singleton | Hin']%elem_of_union.
        -- by apply (Hne index).
        -- by apply (Hfut index).
      * intros j Hj [Heq%elem_of_singleton | Hin']%elem_of_union.
        -- apply (Hne j); [lia|done].
        -- apply (Hfut j); [lia|done].
      * intros j Hj Heq%suffixedName_inj. lia.
      * exists result. split; [done|]. split; [done|]. right. split; [done|].
        destruct Hshape as [[Hout' ->] | (Hin' & k & Hk & -> & Hall)].
        -- exists index. split; [lia|]. split; [done|]. intros j Hj. lia.
        -- exists k. split; [lia|]. split; [done|]. intros j Hj.
           destruct (decide (j = index)) as [->|Hji]; [done|].
           apply Hall. lia.
    + exists uniqueName. eauto.
Qed.

Lemma createUniqueSchemaName_fresh baseName names :
  exists uniqueName,
    createUniqueSchemaName baseName names
    = Some (uniqueName, {[uniqueName]} ∪ names)
    /\ uniqueName ∉ names.
Proof.
  unfold createUniqueSchemaName. cbv zeta.
  set (safe := if decide (baseName = "") then "Schema" else baseName).
  destruct (createUniqueSchemaName_loop_spec (size names) safe names ∅ safe 2)
    as (result & -> & Hfree & _).
  - set_solver.
  - rewrite size_empty. lia.
  - set_solver.
  - set_solver.
  - intros j _. apply suffixedName_ne_base.
  - by exists result.
Qed.

(** C8, amended.  With [b' = b], or ["Schema"] when [b] is empty,
    [createUniqueSchemaName b names] returns [b'] when it is free and otherwise
    [b'_k] for the least [k >= 2] that is free, and adds the result to
    [names].  A second call with the same preferred name, once it has been
    taken, returns the least free suffixed name, which is [b'_2] when that
    name is free. *)
Theorem createUniqueSchemaName_spec (baseName : string) (names : gset string) :
  let safe := safeBaseNameOf baseName in
  exists uniqueName,
    createUniqueSchemaName baseName names = Some (uniqueName, {[uniqueName]} ∪ names)
    /\ (uniqueName ∉ names)
    /\ (safe ∉ names -> uniqueName = safe)
    /\ (safe ∈ names ->
        exists k, (2 <= k)%N /\ uniqueName = suffixedName safe k
          /\ forall j, (2 <= j < k)%N -> suffixedName safe j ∈ names)
    /\ (safe ∉ names -> suffixedName safe 2 ∉ names ->
        createUniqueSchemaName baseName ({[uniqueName]} ∪ names)
        = Some (suffixedName safe 2,
                {[suffixedName safe 2]} ∪ ({[uniqueName]} ∪ names))).
Proof.
  intros safe.
  assert (Hspec : forall names' : gset string, exists result,
             createUniqueSchemaName_loop (size names') safe names' safe 2 = Some result
             /\ (result ∉ names')
             /\ (((safe ∉ names') /\ result = safe)
                 \/ (safe ∈ names'
                     /\ exists k, (2 <= k)%N /\ result = suffixedName safe k
                          /\ forall j, (2 <= j < k)%N -> suffixedName safe j ∈ names'))).
  { intros names'.
    apply (createUniqueSchemaName_loop_spec _ safe names' ∅).
    - set_solver.
    - rewrite size_empty. lia.
    - set_solver.
    - set_solver.
    - intros j _. apply suffixedName_ne_base. }
  destruct (Hspec names) as (uniqueName & Hloop & Hfree & Hshape).
  exists uniqueName.
  unfold createUniqueSchemaName. fold (safeBaseNameOf baseName). fold safe.
  rewrite Hloop. cbn.
  split; [done|]. split; [done|]. split; [|split].
  - intros Hsafe. destruct Hshape as [[_ ->] | [Hin _]]; done.
  - intros Hsafe. destruct Hshape as [[Hout _] | [_ Hk]]; done.
  - intros Hsafe Hsecond.
    destruct Hshape as [[_ ->] | [Hin _]]; [|done].
    destruct (Hspec ({[safe]} ∪ names)) as (second & Hloop2 & Hfree2 & Hshape2).
    rewrite Hloop2. cbn.
    destruct Hshape2 as [[Hout _] | (_ & k & Hk & -> & Hall)]; [set_solver|].
    destruct (decide (k = 2%N)) as [->|Hk2]; [done|].
    exfalso. specialize (Hall 2%N ltac:(lia)).
    apply elem_of_union in Hall as [Heq%elem_of_singleton | Hin]; [|done].
    by apply suffixedName_ne_base in Heq.
Qed.

Lemma createUniqueSchemaName_spec_witness :
  createUniqueSchemaName "Pet" {["Pet"; "Pet_2"]}
  = Some ("Pet_3", {["Pet_3"]} ∪ {["Pet"; "Pet_2"]}).
Proof.
  destruct (createUniqueSchemaName_spec "Pet" {["Pet"; "Pet_2"]})
    as (uniqueName & Hcall & Hfree & _ & Htaken & _).
  destruct Htaken as (k & Hk & Hname & Hall); [set_solver|].
  rewrite Hcall, Hname.
  destruct (decide (k = 3%N)) as [->|Hk3]; [reflexivity|].
  exfalso.
  destruct (decide (k = 2%N)) as [->|Hk2].
  - subst uniqueName. apply Hfree. vm_compute. set_solver.
  - specialize (Hall 3%N ltac:(lia)). vm_compute in Hall. set_solver.
Defined.

(** C8 as stated fails twice: an empty preferred name is free but is not the
    name returned, and the second of two objects preferring a free name gets
    a later suffix when [_2] is taken. *)
Lemma createUniqueSchemaName_not_as_stated :
  fst <$> createUniqueSchemaName "" ∅ = Some "Schema"
  /\ ("" ∉ (∅ : gset string))
  /\ fst <$> createUniqueSchemaName "Pet" {["Pet_2"]} = Some "Pet"
  /\ fst <$> createUniqueSchemaName "Pet" ({["Pet"]} ∪ {["Pet_2"]}) = Some "Pet_3".
Proof.
  split; [reflexivity|]. split; [set_solver|]. split; vm_compute; reflexivity.
Qed.

(** ** Records and the heap *)

Section PropsFacts.
Context {V : Type}.
Implicit Types (fields : list (string * V)) (k : string) (v : V).

Lemma has_get fields k : Props.has fields k = true <-> is_Some (Props.get fields k).
Proof.
  unfold Props.has. destruct (Props.get fields k) as [v|].
  - split; eauto.
  - split; [done|]. intros [v Hv]. done.
Qed.

Lemma has_false_get fields k : Props.has fields k = false <-> Props.get fields k = None.
Proof. unfold Props.has. destruct (Props.get fields k); split; done. Qed.

Lemma get_keys fields k : is_Some (Props.get fields k) <-> k ∈ Props.keys fields.
Proof.
  unfold Props.keys.
  induction fields as [|[k' v'] fields IH]; cbn.
  - split; [intros [v Hv]; done|intros Hin; by apply elem_of_nil in Hin].
  - destruct (String.eqb_spec k' k) as [->|Hne].
    + split; [intros _; left|eauto].
    + rewrite IH. split; [by right|].
      intros [Heq|Hin]%elem_of_cons; [congruence|done].
Qed.

Lemma get_None_keys fields k : Props.get fields k = None <-> k ∉ Props.keys fields.
Proof.
  rewrite <- get_keys. destruct (Props.get fields k) as [v|].
  - split; [done|]. intros Hn. exfalso. apply Hn. eauto.
  - split; [|done]. intros _ [v Hv]. done.
Qed.

Lemma get_app fields1 fields2 k :
  Props.get (fields1 ++ fields2) k
  = match Props.get fields1 k with
    | Some v => Some v
    | None => Props.get fields2 k
    end.
Proof.
  induction fields1 as [|[k' v'] fields1 IH]; cbn; [done|].
  by destruct (String.eqb k' k).
Qed.

Lemma get_replace_eq fields k v :
  is_Some (Props.get fields k) -> Props.get (Props.replace k v fields) k = Some v.
Proof.
  induction fields as [|[k0 v0] fields IH]; cbn; [intros [? ?]; done|].
  destruct (String.eqb_spec k0 k) as [->|Hne]; cbn.
  - by rewrite String.eqb_refl.
  - intros Hs. apply String.eqb_neq in Hne. rewrite Hne. auto.
Qed.

Lemma get_replace_ne fields k v k' :
  k' ≠ k -> Props.get (Props.replace k v fields) k' = Props.get fields k'.
Proof.
  intros Hk. induction fields as [|[k0 v0] fields IH]; cbn; [done|].
  destruct (String.eqb_spec k0 k) as [->|Hne]; cbn.
  - destruct (String.eqb_spec k k'); [congruence|done].
  - by rewrite IH.
Qed.

Lemma get_insert_index_eq n fields k v :
  Props.get fields k = None -> Props.get (Props.insert_index n k v fields) k = Some v.
Proof.
  induction fields as [|[k0 v0] fields IH]; cbn.
  - by rewrite String.eqb_refl.
  - destruct (String.eqb_spec k0 k) as [->|Hne]; [done|]. intros Hnone.
    destruct (Props.array_index k0) as [m|]; [destruct (m <? n)%N|]; cbn.
    + apply String.eqb_neq in Hne. rewrite Hne. auto.
    + by rewrite String.eqb_refl.
    + by rewrite String.eqb_refl.
Qed.

Lemma get_insert_index_ne n fields k v k' :
  k' ≠ k -> Props.get (Props.insert_index n k v fields) k' = Props.get fields k'.
Proof.
  intros Hk. apply not_eq_sym, String.eqb_neq in Hk.
  induction fields as [|[k0 v0] fields IH]; cbn.
  - by rewrite Hk.
  - destruct (Props.array_index k0) as [m|]; [destruct (m <? n)%N|]; cbn.
    + by rewrite IH.
    + by rewrite Hk.
    + by rewrite Hk.
Qed.

(** Reading a property after an assignment. *)
Lemma get_set_eq fields k v : Props.get (Props.set k v fields) k = Some v.
Proof.
  unfold Props.set. destruct (Props.has fields k) eqn:Hhas.
  - apply get_replace_eq. by apply has_get.
  - apply has_false_get in Hhas.
    destruct (Props.array_index k).
    + by apply get_insert_index_eq.
    + rewrite get_app, Hhas. cbn. by rewrite String.eqb_refl.
Qed.

Lemma get_set_ne fields k v k' :
  k' ≠ k -> Props.get (Props.set k v fields) k' = Props.get fields k'.
Proof.
  intros Hk. unfold Props.set. destruct (Props.has fields k).
  - by apply get_replace_ne.
  - destruct (Props.array_index k).
    + by apply get_insert_index_ne.
    + rewrite get_app. destruct (Props.get fields k'); [done|]. cbn.
      apply not_eq_sym, String.eqb_neq in Hk. by rewrite Hk.
Qed.

Lemma keys_set fields k v k' :
  k' ∈ Props.keys (Props.set k v fields) <-> k' = k \/ k' ∈ Props.keys fields.
Proof.
  rewrite <- !get_keys. destruct (decide (k' = k)) as [->|Hne].
  - rewrite get_set_eq. split; eauto.
  - rewrite get_set_ne by done. split; [eauto|]. intros [?|?]; done.
Qed.

End PropsFacts.

Section PropsOrder.
Context {V : Type}.
Implicit Types (fields : list (string * V)) (k : string) (v : V).

Lemma keys_replace fields k v :
  Props.keys (Props.replace k v fields) = Props.keys fields.
Proof.
  unfold Props.keys. induction fields as [|[k0 v0] fields IH]; cbn; [done|].
  destruct (String.eqb k0 k); cbn; [done|]. by rewrite IH.
Qed.

Lemma keys_insert_index n fields k v :
  Props.keys (Props.insert_index n k v fields) ≡ₚ k :: Props.keys fields.
Proof.
  unfold Props.keys. induction fields as [|[k0 v0] fields IH]; cbn; [done|].
  destruct (Props.array_index k0) as [m|]; [destruct (m <? n)%N|]; cbn;
    [|done|done].
  rewrite IH. apply Permutation_swap.
Qed.

Lemma keys_set_perm fields k v :
  Props.get fields k = None ->
  Props.keys (Props.set k v fields) ≡ₚ k :: Props.keys fields.
Proof.
  intros Hnone. unfold Props.set.
  apply has_false_get in Hnone as ->.
  destruct (Props.array_index k).
  - apply keys_insert_index.
  - unfold Props.keys. rewrite fmap_app. cbn.
    by rewrite Permutation_app_comm.
Qed.

Lemma NoDup_keys_set fields k v :
  NoDup (Props.keys fields) -> NoDup (Props.keys (Props.set k v fields)).
Proof.
  intros Hnd. destruct (Props.get fields k) as [old|] eqn:Hget.
  - unfold Props.set. assert (Props.has fields k = true) as ->.
    { apply has_get. eauto. }
    by rewrite keys_replace.
  - rewrite keys_set_perm by done. apply NoDup_cons. split; [|done].
    by apply get_None_keys.
Qed.

Lemma get_elem_of_NoDup fields k v :
  NoDup (Props.keys fields) -> (k, v) ∈ fields -> Props.get fields k = Some v.
Proof.
  unfold Props.keys.
  induction fields as [|[k0 v0] fields IH]; cbn; intros Hnd Hin.
  - by apply elem_of_nil in Hin.
  - apply NoDup_cons in Hnd as [Hk0 Hnd].
    apply elem_of_cons in Hin as [Heq|Hin].
    + injection Heq as -> ->. by rewrite String.eqb_refl.
    + destruct (String.eqb_spec k0 k) as [->|Hne]; [|by apply IH].
      exfalso. apply Hk0. apply list_elem_of_fmap. by exists (k, v).
Qed.

Lemma get_elem_of fields k v : Props.get fields k = Some v -> (k, v) ∈ fields.
Proof.
  induction fields as [|[k0 v0] fields IH]; cbn; [done|].
  destruct (String.eqb_spec k0 k) as [->|Hne].
  - intros [= ->]. left.
  - intros Hget. right. auto.
Qed.

End PropsOrder.

Lemma store_length h a k v : length (store h a k v) = length h.
Proof.
  unfold store. destruct (h !! a) as [[fields|items]|]; destruct k;
    by rewrite ?length_insert.
Qed.

Lemma lookup_store_ne h a k v b : b ≠ a -> store h a k v !! b = h !! b.
Proof.
  intros Hne. unfold store.
  destruct (h !! a) as [[fields|items]|]; destruct k; try done;
    by rewrite list_lookup_insert_ne.
Qed.

Lemma lookup_store_record h a k v fields :
  h !! a = Some (ORecord fields) ->
  store h a (KStr k) v !! a = Some (ORecord (Props.set k v fields)).
Proof.
  intros Ha. unfold store. rewrite Ha.
  apply list_lookup_insert_eq. by eapply lookup_lt_Some.
Qed.

Lemma field_store_eq h a k v fields :
  h !! a = Some (ORecord fields) -> field (store h a (KStr k) v) a k = Some v.
Proof.
  intros Ha. unfold field. rewrite (lookup_store_record _ _ _ _ _ Ha).
  apply get_set_eq.
Qed.

Lemma field_store_ne h a k v b k' :
  b ≠ a \/ k' ≠ k -> field (store h a (KStr k) v) b k' = field h b k'.
Proof.
  intros Hne. unfold field.
  destruct (decide (b = a)) as [->|Hba]; [|by rewrite lookup_store_ne].
  destruct Hne as [?|Hk]; [congruence|].
  destruct (h !! a) as [[fields|items]|] eqn:Ha.
  - rewrite (lookup_store_record _ _ _ _ _ Ha). by apply get_set_ne.
  - unfold store. by rewrite !Ha.
  - unfold store. by rewrite !Ha.
Qed.

Lemma field_is_record h a k v :
  field h a k = Some v -> exists fields, h !! a = Some (ORecord fields)
                                         /\ Props.get fields k = Some v.
Proof.
  unfold field. destruct (h !! a) as [[fields|items]|]; [eauto|done|done].
Qed.

Lemma field_alloc h o a k : a < length h -> field (h ++ [o]) a k = field h a k.
Proof. intros Ha. unfold field. by rewrite lookup_app_l. Qed.

Lemma heap_wf_alloc h o :
  heap_wf h ->
  (forall fields, o = ORecord fields -> NoDup (Props.keys fields)) ->
  heap_wf (h ++ [o]).
Proof.
  intros Hwf Ho a fields Ha.
  apply lookup_app_Some in Ha as [Ha|[_ Ha]]; [by eapply Hwf|].
  apply list_lookup_singleton_Some in Ha as [_ ->]. by apply Ho.
Qed.

Lemma heap_wf_store h a k v : heap_wf h -> heap_wf (store h a k v).
Proof.
  intros Hwf b fields Hb.
  destruct (decide (b = a)) as [->|Hne]; [|rewrite lookup_store_ne in Hb; eauto].
  unfold store in Hb.
  destruct (h !! a) as [[fields0|items]|] eqn:Ha; destruct k as [name|i];
    try (by eapply Hwf; rewrite <- Hb).
  - rewrite list_lookup_insert_eq in Hb by (by eapply lookup_lt_Some).
    injection Hb as <-. apply NoDup_keys_set. by eapply Hwf.
  - rewrite list_lookup_insert_eq in Hb by (by eapply lookup_lt_Some). done.
Qed.

(** ** The schema registry *)

Lemma ensureRecordField_wf h a k : heap_wf h -> heap_wf (ensureRecordField h a k).
Proof.
  intros Hwf. unfold ensureRecordField.
  destruct (truthy (field h a k)); [done|]. cbn.
  apply heap_wf_store, heap_wf_alloc; [done|].
  intros fields [= <-]. constructor.
Qed.

Lemma ensureRecordField_other h a k b k' :
  b < length h -> b ≠ a \/ k' ≠ k ->
  field (ensureRecordField h a k) b k' = field h b k'.
Proof.
  intros Hb Hne. unfold ensureRecordField.
  destruct (truthy (field h a k)); [done|]. cbn.
  rewrite field_store_ne by done. by apply field_alloc.
Qed.

Lemma indexComponentPointers_spec entries a pointer :
  indexComponentPointers entries !! a = Some pointer ->
  exists name, pointer = componentPointer name /\ (name, VObj a) ∈ entries.
Proof.
  unfold indexComponentPointers.
  assert (Hgen : forall (acc : gmap nat string) (done_ : list (string * value)),
             (forall a p, acc !! a = Some p ->
                exists name, p = componentPointer name /\ (name, VObj a) ∈ done_) ->
             forall a p,
               foldl (fun pointers '(name, v) =>
                        match v with
                        | VObj a => <[a := componentPointer name]> pointers
                        | _ => pointers
                        end) acc entries !! a = Some p ->
               exists name, p = componentPointer name
                            /\ (name, VObj a) ∈ done_ ++ entries).
  { induction entries as [|[name v] entries IH]; intros acc done_ Hacc b p; cbn.
    - rewrite app_nil_r. apply Hacc.
    - intros Hfold.
      replace (done_ ++ (name, v) :: entries)
        with ((done_ ++ [(name, v)]) ++ entries) by by rewrite <- app_assoc.
      eapply IH; [|exact Hfold].
      intros c q Hc. destruct v as [|?|?|?|a0];
        try (destruct (Hacc c q Hc) as (nm & -> & Hin); exists nm;
             split; [done|]; apply elem_of_app; by left).
      destruct (decide (c = a0)) as [->|Hne].
      + rewrite lookup_insert_eq in Hc. injection Hc as <-.
        exists name. split; [done|]. apply elem_of_app. right. left.
      + rewrite lookup_insert_ne in Hc by done.
        destruct (Hacc c q Hc) as (nm & -> & Hin). exists nm.
        split; [done|]. apply elem_of_app. by left. }
  intros Hlook. apply (Hgen ∅ [] (fun a p Hp => ltac:(by rewrite lookup_empty in Hp)) _ _ Hlook).
Qed.

Lemma createSchemaRegistry_invariant h root h0 registry :
  heap_wf h ->
  createSchemaRegistry h root = Some (h0, registry) ->
  heap_wf h0 /\ registryInvariant h0 root registry.
Proof.
  intros Hwf. unfold createSchemaRegistry.
  destruct (h !! root) as [[rootFields|]|] eqn:Hroot; try done.
  set (h1 := ensureRecordField h root "components").
  destruct (field h1 root "components") as [[|?|?|?|components]|] eqn:Hc; try done.
  destruct (h1 !! components) as [[cFields|]|] eqn:Hcomp; try done.
  set (h2 := ensureRecordField h1 components "schemas").
  destruct (field h2 components "schemas") as [[|?|?|?|schemas]|] eqn:Hs; try done.
  destruct (h2 !! schemas) as [[entries|]|] eqn:Hentries; try done.
  intros [= <- <-].
  assert (Hwf2 : heap_wf h2) by by do 2 apply ensureRecordField_wf.
  split; [done|]. split; cbn.
  - exists components. split; [|done].
    subst h2. rewrite ensureRecordField_other; [done| |right; done].
    apply field_is_record in Hc as (fs & Hlook & _). by eapply lookup_lt_Some.
  - eauto.
  - intros a pointer (name & -> & Hin)%indexComponentPointers_spec.
    exists name. split; [done|]. unfold field. rewrite Hentries.
    apply get_elem_of_NoDup; [|done]. by eapply Hwf2.
  - intros name Hname. unfold entriesOf in Hname. rewrite Hentries in Hname.
    by apply elem_of_list_to_set.
Qed.

Lemma registerSchemaInComponents_invariant h root registry schema preferredName :
  registryInvariant h root registry ->
  exists pointer h' registry',
    registerSchemaInComponents h registry schema preferredName
    = Some (pointer, h', registry')
    /\ registryInvariant h' root registry'
    /\ (heap_wf h -> heap_wf h')
    /\ schemaPointersByValue registry' !! schema = Some pointer
    /\ pointer ≠ "".
Proof.
  intros [Hcomp Hrec Hptr Hnames].
  unfold registerSchemaInComponents.
  destruct (schemaPointersByValue registry !! schema) as [[|c existing]|] eqn:Hlook.
  1: destruct (Hptr _ _ Hlook) as (name & Hempty & _); discriminate Hempty.
  1: { eexists _, _, _. split; [done|]. split; [done|]. done. }
  destruct (createUniqueSchemaName_fresh preferredName (schemaNames registry))
    as (uniqueName & -> & Hfree).
  cbn. eexists _, _, _. split; [done|].
  destruct Hrec as [entries Hentries].
  assert (Hfresh : uniqueName ∉ Props.keys (entriesOf h (componentSchemas registry))).
  { intros Hin. by apply Hfree, Hnames. }
  assert (Hother : forall b k v, field h b k = Some v ->
             field (store h (componentSchemas registry) (KStr uniqueName) (VObj schema)) b k
             = Some v).
  { intros b k v Hf. rewrite field_store_ne; [done|].
    destruct (decide (b = componentSchemas registry)) as [->|Hb]; [right|by left].
    intros ->. apply Hfresh. unfold entriesOf.
    apply field_is_record in Hf as (fs & -> & Hget). apply get_keys. eauto. }
  split; [split; cbn|].
  - destruct Hcomp as (components & Hc & Hs). exists components. split; auto.
  - eexists. by apply lookup_store_record.
  - intros a pointer Ha. destruct (decide (a = schema)) as [->|Hne].
    + rewrite lookup_insert_eq in Ha. injection Ha as <-.
      exists uniqueName. split; [done|]. by eapply field_store_eq.
    + rewrite lookup_insert_ne in Ha by done.
      destruct (Hptr _ _ Ha) as (name & -> & Hf). exists name. auto.
  - intros name. unfold entriesOf.
    rewrite (lookup_store_record _ _ _ _ _ Hentries), keys_set.
    intros [->|Hin]; apply elem_of_union; [left; by apply elem_of_singleton|].
    right. apply Hnames. unfold entriesOf. by rewrite Hentries.
  - split; [apply heap_wf_store|]. cbn. split; [by rewrite lookup_insert_eq|done].
Qed.

Lemma split_no_separator c s : Str.has_char c s = false -> Str.split c s = [s].
Proof.
  induction s as [|x s IH]; [done|]. cbn.
  intros [Hx Hs]%orb_false_elim. rewrite Hx, IH by done. done.
Qed.

Lemma split_app c s1 s2 :
  Str.has_char c s1 = false ->
  Str.split c (s1 +:+ String c s2) = s1 :: Str.split c s2.
Proof.
  induction s1 as [|x s1 IH].
  - intros _. rewrite append_nil. cbn. by rewrite Ascii.eqb_refl.
  - cbn. intros [Hx Hs]%orb_false_elim. rewrite append_cons. cbn.
    rewrite Hx, IH by done. done.
Qed.

Section RegistryFacts.
Context `{Host}.

(** Where [resolveLocalPointer] looks for a component pointer. *)
Lemma resolve_componentPointer h root components schemas name :
  field h root "components" = Some (VObj components) ->
  field h components "schemas" = Some (VObj schemas) ->
  (exists entries, h !! schemas = Some (ORecord entries)) ->
  resolveLocalPointer h (VObj root) (componentPointer name)
  = field h schemas (decodeJsonPointerToken (encodeJsonPointerToken name)).
Proof.
  intros (rf & Hroot & Hc)%field_is_record (cf & Hcomp & Hs)%field_is_record
         [entries Hentries].
  unfold resolveLocalPointer.
  change (String.eqb (componentPointer name) "#") with false.
  change (Str.startsWith "#/" (componentPointer name)) with true.
  change (Str.drop 2 (componentPointer name))
    with ("components" +:+ String "/" ("schemas" +:+ String "/"
            (encodeJsonPointerToken name))).
  rewrite !split_app by done.
  rewrite split_no_separator by apply encode_no_slash.
  cbn [map resolveTokens].
  change (decodeJsonPointerToken "components") with "components".
  change (decodeJsonPointerToken "schemas") with "schemas".
  rewrite Hroot, Hc, Hcomp, Hs, Hentries.
  unfold field. by rewrite Hentries.
Qed.

Lemma registerAll_invariant h root registry calls :
  heap_wf h ->
  registryInvariant h root registry ->
  exists h' registry',
    registerAll h registry calls = Some (h', registry')
    /\ heap_wf h' /\ registryInvariant h' root registry'.
Proof.
  revert h registry.
  induction calls as [|[schema preferredName] calls IH]; intros h registry Hwf Hinv.
  - by exists h, registry.
  - destruct (registerSchemaInComponents_invariant h root registry schema
                preferredName Hinv)
      as (pointer & h1 & registry1 & Hreg & Hinv1 & Hwf1 & _).
    cbn. rewrite Hreg. cbn. apply IH; auto.
Qed.

(** C4, amended.  After [createSchemaRegistry] and any sequence of
    [registerSchemaInComponents] calls: every object with a recorded
    pointer is held by [componentSchemas] under the name that pointer
    encodes, and [resolveLocalPointer] reaches it at the pointer when
    decoding the encoded name gives the name back; every key of
    [componentSchemas] is in [schemaNames]; registering an object returns
    a pointer, and registering it again returns the same pointer and
    changes nothing. *)
Theorem registry_invariant_after_calls
    (h : heap) (root : addr) (h0 : heap) (registry0 : SchemaRegistry)
    (calls : list (addr * string)) :
  heap_wf h ->
  createSchemaRegistry h root = Some (h0, registry0) ->
  exists h' registry',
    registerAll h0 registry0 calls = Some (h', registry')
    /\ (forall a pointer,
          schemaPointersByValue registry' !! a = Some pointer ->
          exists name,
            pointer = componentPointer name
            /\ field h' (componentSchemas registry') name = Some (VObj a)
            /\ (decodeJsonPointerToken (encodeJsonPointerToken name) = name ->
                resolveLocalPointer h' (VObj root) pointer = Some (VObj a)))
    /\ (forall name,
          name ∈ Props.keys (entriesOf h' (componentSchemas registry')) ->
          name ∈ schemaNames registry')
    /\ (forall schema preferredName,
          exists pointer h'' registry'',
            registerSchemaInComponents h' registry' schema preferredName
            = Some (pointer, h'', registry'')
            /\ forall again,
                 registerSchemaInComponents h'' registry'' schema again
                 = Some (pointer, h'', registry'')).
Proof.
  intros Hwf Hcreate.
  destruct (createSchemaRegistry_invariant _ _ _ _ Hwf Hcreate) as [Hwf0 Hinv0].
  destruct (registerAll_invariant h0 root registry0 calls Hwf0 Hinv0)
    as (h' & registry' & Hall & Hwf' & Hinv').
  exists h', registry'. split; [done|]. split; [|split].
  - intros a pointer Ha.
    destruct (inv_pointers _ _ _ Hinv' _ _ Ha) as (name & -> & Hfield).
    exists name. split; [done|]. split; [done|]. intros Hplain.
    destruct (inv_components _ _ _ Hinv') as (components & Hc & Hs).
    rewrite (resolve_componentPointer _ _ _ _ _ Hc Hs (inv_record _ _ _ Hinv')).
    by rewrite Hplain.
  - apply Hinv'.
  - intros schema preferredName.
    destruct (registerSchemaInComponents_invariant h' root registry' schema
                preferredName Hinv')
      as (pointer & h'' & registry'' & Hreg & _ & _ & Hlook & Hne).
    exists pointer, h'', registry''. split; [done|]. intros again.
    unfold registerSchemaInComponents. rewrite Hlook.
    destruct pointer; done.
Qed.

End RegistryFacts.

Lemma heap_wfb_correct h : heap_wfb h = true -> heap_wf h.
Proof.
  unfold heap_wfb. rewrite forallb_forall. intros Hall a fields Ha.
  assert (Hin : In (ORecord fields) h).
  { apply list_elem_of_In, list_elem_of_lookup. eauto. }
  apply Hall in Hin. by apply bool_decide_eq_true in Hin.
Qed.

Lemma registry_invariant_after_calls_witness :
  exists h0 registry0 h' registry',
    createSchemaRegistry petStore 3 = Some (h0, registry0)
    /\ registerAll h0 registry0 [(4, "Pet"); (4, "Id"); (0, "Animal")]
       = Some (h', registry')
    /\ forall name,
         name ∈ Props.keys (entriesOf h' (componentSchemas registry')) ->
         name ∈ schemaNames registry'.
Proof.
  destruct (createSchemaRegistry petStore 3) as [[h0 registry0]|] eqn:Hcreate;
    [|vm_compute in Hcreate; discriminate Hcreate].
  destruct (registry_invariant_after_calls petStore 3 h0 registry0
              [(4, "Pet"); (4, "Id"); (0, "Animal")]
              (heap_wfb_correct petStore eq_refl) Hcreate)
    as (h' & registry' & Hall & _ & Hnames & _).
  exists h0, registry0, h', registry'. auto.
Defined.

(** C4 as stated fails: a component name that spells a URI escape is
    recorded under a pointer that [resolveLocalPointer] decodes to another
    name. *)
Lemma registry_pointer_not_resolvable :
  exists h0 registry0 h' registry',
    createSchemaRegistry petStore 3 = Some (h0, registry0)
    /\ registerAll h0 registry0 [(4, "%41")] = Some (h', registry')
    /\ schemaPointersByValue registry' !! 4 = Some "#/components/schemas/%41"
    /\ resolveLocalPointer h' (VObj 3) "#/components/schemas/%41" = None
    /\ field h' (componentSchemas registry') "%41" = Some (VObj 4).
Proof.
  eexists _, _, _, _. split; [vm_compute; reflexivity|].
  split; [vm_compute; reflexivity|]. split; [vm_compute; reflexivity|].
  split; vm_compute; reflexivity.
Qed.

(** ** The external-schema resolver *)

Section ResolverFacts.
Context `{Host}.

Lemma resolveByFingerprint_spec h schema resolver :
  let candidates :=
    canonicalByFingerprint resolver !! createSchemaFingerprint h schema in
  (candidates = None -> resolveByFingerprint h schema resolver = None)
  /\ (forall byName, candidates = Some byName -> JsMap.size byName ≠ 1 ->
      resolveByFingerprint h schema resolver = None)
  /\ (forall byName, candidates = Some byName -> JsMap.size byName = 1 ->
      exists name canonical,
        JsMap.entries byName = [(name, canonical)]
        /\ resolveByFingerprint h schema resolver
           = Some (Candidate name canonical)).
Proof.
  unfold resolveByFingerprint; cbn.
  destruct (canonicalByFingerprint resolver !! createSchemaFingerprint h schema)
    as [byName|]; repeat split; try done.
  - intros ? [= <-] Hsize.
    destruct byName as [|[name canonical] [|second rest]]; done.
  - intros ? [= <-] Hsize.
    destruct byName as [|[name canonical] [|second rest]]; try done.
    by exists name, canonical.
Qed.

(** C6, amended.  [resolveExternalSchemaCandidate] answers by identity when
    [nameByValue] gives the schema a non-empty name that [canonicalByName]
    knows; in every other case it answers by fingerprint, with the one
    entry of [canonicalByFingerprint] for the schema's fingerprint when
    there is exactly one, and with nothing when there is none or more than
    one.  [resolveExternalComponentCandidate] answers with the one entry
    of its index for the fingerprint, and with nothing otherwise. *)
Theorem resolveExternalSchemaCandidate_spec
    (h : heap) (schema : addr) (resolver : ExternalSchemaNameResolver)
    (index : gmap string (list candidate)) :
  let fingerprint := createSchemaFingerprint h schema in
  (forall name canonical,
      nameByValue resolver !! schema = Some name -> name ≠ "" ->
      canonicalByName resolver !! name = Some canonical ->
      resolveExternalSchemaCandidate h schema resolver
      = Some (Candidate name canonical))
  /\ (nameByValue resolver !! schema = None
      \/ nameByValue resolver !! schema = Some ""
      \/ (exists name, nameByValue resolver !! schema = Some name
                       /\ canonicalByName resolver !! name = None) ->
      (canonicalByFingerprint resolver !! fingerprint = None ->
       resolveExternalSchemaCandidate h schema resolver = None)
      /\ (forall byName,
            canonicalByFingerprint resolver !! fingerprint = Some byName ->
            JsMap.size byName ≠ 1 ->
            resolveExternalSchemaCandidate h schema resolver = None)
      /\ (forall byName,
            canonicalByFingerprint resolver !! fingerprint = Some byName ->
            JsMap.size byName = 1 ->
            exists name canonical,
              JsMap.entries byName = [(name, canonical)]
              /\ resolveExternalSchemaCandidate h schema resolver
                 = Some (Candidate name canonical)))
  /\ (index !! fingerprint = None ->
      resolveExternalComponentCandidate h schema index = None)
  /\ (forall matches, index !! fingerprint = Some matches ->
      length matches ≠ 1 ->
      resolveExternalComponentCandidate h schema index = None)
  /\ (forall only, index !! fingerprint = Some [only] ->
      resolveExternalComponentCandidate h schema index = Some only).
Proof.
  cbn. split; [|split; [|split; [|split]]].
  - intros name canonical Hname Hne Hcanon.
    unfold resolveExternalSchemaCandidate. rewrite Hname.
    destruct name as [|c n]; [done|]. by rewrite Hcanon.
  - intros Hfall.
    assert (resolveExternalSchemaCandidate h schema resolver
            = resolveByFingerprint h schema resolver) as ->.
    { unfold resolveExternalSchemaCandidate.
      destruct Hfall as [-> | [-> | (name & -> & Hnone)]]; try done.
      destruct name; [done|]. by rewrite Hnone. }
    apply resolveByFingerprint_spec.
  - intros Hnone. unfold resolveExternalComponentCandidate. by rewrite Hnone.
  - intros matches Hm Hlen. unfold resolveExternalComponentCandidate.
    rewrite Hm. destruct matches as [|m [|m' rest]]; done.
  - intros only Hm. unfold resolveExternalComponentCandidate. by rewrite Hm.
Qed.

End ResolverFacts.

Lemma resolveExternalSchemaCandidate_spec_witness :
  resolveExternalSchemaCandidate petStore 0
    (addExternalNameCandidate petStore createExternalSchemaNameResolver 0 "Pet")
  = Some (Candidate "Pet" 0).
Proof.
  apply (resolveExternalSchemaCandidate_spec petStore 0
           (addExternalNameCandidate petStore createExternalSchemaNameResolver 0 "Pet")
           ∅); [vm_compute; reflexivity | discriminate | vm_compute; reflexivity].
Defined.

(** C6 as stated fails: a schema that [nameByValue] holds under the empty
    name is not answered by identity; after
    [addExternalNameCandidate(resolver, s0, '')] and
    [addExternalNameCandidate(resolver, s1, 'B')] for two objects of one
    shape, [s0] has two names for its fingerprint and no candidate. *)
Lemma resolveExternalSchemaCandidate_not_by_identity :
  let twins := [ORecord [("type", VStr "object")];
                ORecord [("type", VStr "object")]] in
  let resolver :=
    addExternalNameCandidate twins
      (addExternalNameCandidate twins createExternalSchemaNameResolver 0 "")
      1 "B" in
  nameByValue resolver !! 0 = Some ""
  /\ canonicalByName resolver !! "" = Some 0
  /\ resolveExternalSchemaCandidate twins 0 resolver = None.
Proof. cbv zeta. split; [|split]; vm_compute; reflexivity. Qed.

(** ** The structural fingerprint *)

Lemma ptree_ind' (P : ptree -> Prop) :
  P PNull -> (forall b, P (PBool b)) -> (forall n, P (PNum n)) ->
  (forall s, P (PStr s)) ->
  (forall items, Forall P items -> P (PArr items)) ->
  (forall fields, Forall (fun kv => P kv.2) fields -> P (PRec fields)) ->
  P PBack ->
  forall t, P t.
Proof.
  intros Hnull Hbool Hnum Hstr Harr Hrec Hback.
  fix IH 1. intros [| b | n | s | items | fields |].
  - apply Hnull.
  - apply Hbool.
  - apply Hnum.
  - apply Hstr.
  - apply Harr. induction items as [|item items IHitems]; constructor.
    + apply IH.
    + apply IHitems.
  - apply Hrec. induction fields as [|[k v] fields IHfields]; constructor.
    + apply IH.
    + apply IHfields.
  - apply Hback.
Qed.

Lemma json_ind' (P : json -> Prop) :
  P JNull -> (forall b, P (JBool b)) -> (forall n, P (JNum n)) ->
  (forall s, P (JStr s)) ->
  (forall items, Forall P items -> P (JArr items)) ->
  (forall fields, Forall (fun kv => P kv.2) fields -> P (JRec fields)) ->
  forall j, P j.
Proof.
  intros Hnull Hbool Hnum Hstr Harr Hrec.
  fix IH 1. intros [| b | n | s | items | fields].
  - apply Hnull.
  - apply Hbool.
  - apply Hnum.
  - apply Hstr.
  - apply Harr. induction items as [|item items IHitems]; constructor.
    + apply IH.
    + apply IHitems.
  - apply Hrec. induction fields as [|[k v] fields IHfields]; constructor.
    + apply IH.
    + apply IHfields.
Qed.

Lemma foldr_max_le (ns : list nat) (bound : nat) :
  foldr Nat.max 0 ns <= bound <-> Forall (fun n => n <= bound) ns.
Proof.
  induction ns as [|n ns IH]; cbn.
  - split; [constructor|lia].
  - rewrite Forall_cons, <- IH. lia.
Qed.

Section SortFacts.
Context `{Host}.
Context {A B : Type}.
Implicit Types (R : string * A -> string * B -> Prop).

(** Sorting and filtering by key see only the keys. *)
Lemma sortInsert_Forall2 R x y xs ys :
  x.1 = y.1 -> R x y ->
  Forall2 (fun a b => a.1 = b.1 /\ R a b) xs ys ->
  Forall2 (fun a b => a.1 = b.1 /\ R a b) (sortInsert x xs) (sortInsert y ys).
Proof.
  intros Hk Hxy Hall. induction Hall as [|x' y' xs ys [Hk' Hxy'] Hall IH]; cbn.
  - by repeat constructor.
  - rewrite <- Hk, <- Hk'. destruct (localeCompare x.1 x'.1);
      repeat (constructor; try done).
Qed.

Lemma sortByKey_Forall2 R xs ys :
  Forall2 (fun a b => a.1 = b.1 /\ R a b) xs ys ->
  Forall2 (fun a b => a.1 = b.1 /\ R a b) (sortByKey xs) (sortByKey ys).
Proof.
  induction 1 as [|x y xs ys [Hk Hxy] Hall IH]; cbn; [constructor|].
  by apply sortInsert_Forall2.
Qed.

Lemma filter_key_Forall2 R (p : string -> bool) xs ys :
  Forall2 (fun a b => a.1 = b.1 /\ R a b) xs ys ->
  Forall2 (fun a b => a.1 = b.1 /\ R a b)
          (filter (fun kv => p kv.1) xs) (filter (fun kv => p kv.1) ys).
Proof.
  induction 1 as [|x y xs ys [Hk Hxy] Hall IH]; [constructor|].
  rewrite !filter_cons, <- Hk. destruct (decide (p x.1)); [|done].
  by constructor.
Qed.

End SortFacts.

Section SortMap.
Context `{Host}.
Context {A B : Type} (g : string * A -> string * B).
Hypothesis g_key : forall x, (g x).1 = x.1.

Lemma sortInsert_map x xs :
  sortInsert (g x) (map g xs) = map g (sortInsert x xs).
Proof.
  induction xs as [|y xs IH]; cbn; [done|].
  rewrite !g_key. destruct (localeCompare x.1 y.1); cbn; [done|done|].
  by rewrite IH.
Qed.

Lemma sortByKey_map xs : sortByKey (map g xs) = map g (sortByKey xs).
Proof.
  induction xs as [|x xs IH]; cbn; [done|].
  unfold sortByKey in IH. by rewrite IH, sortInsert_map.
Qed.

Lemma filter_key_map (p : string -> bool) xs :
  filter (fun kv => p kv.1) (map g xs) = map g (filter (fun kv => p kv.1) xs).
Proof.
  induction xs as [|x xs IH]; [done|].
  rewrite map_cons, !filter_cons, g_key.
  destruct (decide (p x.1)); [rewrite map_cons|]; by rewrite IH.
Qed.

End SortMap.

Section SortPerm.
Context `{Host}.
Context {A : Type}.

Lemma sortInsert_perm (x : string * A) xs : sortInsert x xs ≡ₚ x :: xs.
Proof.
  induction xs as [|y xs IH]; cbn; [done|].
  destruct (localeCompare x.1 y.1); [done|done|].
  rewrite IH. apply Permutation_swap.
Qed.

Lemma sortByKey_perm (xs : list (string * A)) : sortByKey xs ≡ₚ xs.
Proof.
  induction xs as [|x xs IH]; cbn; [done|].
  rewrite sortInsert_perm. by constructor.
Qed.

End SortPerm.

Lemma Forall_filter_keep {A} (P : A -> Prop) `{forall x, Decision (P x)}
    (Q : A -> Prop) (l : list A) :
  Forall Q l -> Forall Q (filter P l).
Proof.
  rewrite !Forall_forall. intros Hall x [_ Hin]%list_elem_of_filter. auto.
Qed.

Section NormalizeFacts.
Context `{Host}.

Lemma normField_key kv : (normField kv).1 = kv.1.
Proof. by destruct kv. Qed.

Lemma normTree_record isRoot fields :
  normTree isRoot (PRec fields)
  = JRec (buildRecord
            (map normField
               (sortByKey (filter (fun kv => keptInFingerprint isRoot kv.1)
                                  fields)))).
Proof.
  cbn [normTree]. fold normField.
  by rewrite (filter_key_map normField normField_key),
             (sortByKey_map normField normField_key).
Qed.

Lemma seen_restored (a : addr) (seen : gset addr) :
  a ∉ seen -> ({[a]} ∪ seen) ∖ {[a]} = seen.
Proof.
  intros Hout. apply set_eq. intros x.
  rewrite elem_of_difference, elem_of_union, !elem_of_singleton.
  split; [tauto|]. intros Hx. split; [by right|]. by intros ->.
Qed.

(** The [map] over an array's entries, given that each entry is
    normalized as its tree says. *)
Lemma normalize_items fuel h seen items trees done_ :
  (forall v t, pathTree h seen v t -> depth t <= fuel ->
               normalizeForFingerprint fuel h v false seen
               = Some (normTree false t, seen)) ->
  Forall2 (pathTree h seen) items trees ->
  Forall (fun t => depth t <= fuel) trees ->
  foldl (fun acc entry =>
           '(done, seen') ← acc;
           '(n, seen'') ← normalizeForFingerprint fuel h entry false seen';
           Some (done ++ [n], seen''))
        (Some (done_, seen)) items
  = Some (done_ ++ map (normTree false) trees, seen).
Proof.
  intros IH Hall. revert done_.
  induction Hall as [|v t items trees Hvt Hall IHall]; intros done_ Hdepth; cbn.
  - by rewrite app_nil_r.
  - apply Forall_cons in Hdepth as [Ht Hdepth].
    rewrite (IH v t Hvt Ht). cbn. rewrite IHall by done.
    by rewrite <- app_assoc.
Qed.

(** The [forEach] over a record's entries. *)
Lemma normalize_entries fuel h seen entries fields result :
  (forall v t, pathTree h seen v t -> depth t <= fuel ->
               normalizeForFingerprint fuel h v false seen
               = Some (normTree false t, seen)) ->
  Forall2 (fun kv kt => kv.1 = kt.1 /\ pathTree h seen kv.2 kt.2) entries fields ->
  Forall (fun kt => depth kt.2 <= fuel) fields ->
  foldl (fun acc kv =>
           '(result, seen') ← acc;
           '(n, seen'') ← normalizeForFingerprint fuel h kv.2 false seen';
           Some (assignProperty kv.1 n result, seen''))
        (Some (result, seen)) entries
  = Some (foldl (fun result kv => assignProperty kv.1 kv.2 result) result
                (map normField fields), seen).
Proof.
  intros IH Hall. revert result.
  induction Hall as [|[k v] [k' t] entries fields [Hk Hvt] Hall IHall];
    intros result Hdepth; cbn; [done|].
  apply Forall_cons in Hdepth as [Ht Hdepth]. cbn in *. subst k'.
  rewrite (IH v t Hvt Ht). cbn. by rewrite IHall.
Qed.

(** [normalizeForFingerprint] follows the tree of paths, and hands back
    the set of entered objects as it received it. *)
Lemma normalizeForFingerprint_pathTree fuel h v isRoot seen t :
  pathTree h seen v t ->
  depth t <= fuel ->
  normalizeForFingerprint fuel h v isRoot seen = Some (normTree isRoot t, seen).
Proof.
  revert v isRoot seen t.
  induction fuel as [|fuel IH]; intros v isRoot seen t Hpath Hdepth.
  - inversion Hpath; subst; cbn in *; try done; try lia.
    by rewrite decide_True.
  - inversion Hpath as [| | | | ? a Hin | ? a items trees Hout Hlook Hall
                        | ? a fields Hout Hnot Hall]; subst; cbn [normalizeForFingerprint];
      try done.
    + by rewrite decide_True.
    + rewrite decide_False by done. rewrite Hlook.
      cbn in Hdepth. apply le_S_n, foldr_max_le in Hdepth.
      rewrite Forall_map in Hdepth.
      rewrite (normalize_items fuel h _ items trees []); try done.
      * cbn. by rewrite seen_restored.
      * intros v' t' Hv' Ht'. by apply IH.
    + rewrite decide_False by done.
      cbn in Hdepth. apply le_S_n, foldr_max_le in Hdepth.
      rewrite Forall_map in Hdepth.
      assert (Hfold :
        foldl (fun acc kv =>
                 '(result, seen') ← acc;
                 '(n, seen'') ← normalizeForFingerprint fuel h kv.2 false seen';
                 Some (assignProperty kv.1 n result, seen''))
              (Some ([], {[a]} ∪ seen))
              (sortByKey
                 (filter (fun kv : string * value => keptInFingerprint isRoot kv.1)
                         (entriesOf h a)))
        = Some (buildRecord
                  (map normField
                     (sortByKey
                        (filter (fun kv => keptInFingerprint isRoot kv.1) fields))),
                {[a]} ∪ seen)).
      { apply normalize_entries.
        - intros v' t' Hv' Ht'. by apply IH.
        - apply (sortByKey_Forall2 (fun kv kt => pathTree h _ kv.2 kt.2)).
          apply (filter_key_Forall2 (fun kv kt => pathTree h _ kv.2 kt.2)
                   (keptInFingerprint isRoot)).
          done.
        - rewrite sortByKey_perm. by apply Forall_filter_keep. }
      rewrite normTree_record.
      destruct (h !! a) as [[fs|items]|] eqn:Hlook.
      * rewrite Hfold. cbn. by rewrite seen_restored.
      * by destruct (Hnot items).
      * rewrite Hfold. cbn. by rewrite seen_restored.
Qed.

End NormalizeFacts.

Lemma elem_of_addresses (h : heap) a : a ∈ addresses h <-> a < length h.
Proof. unfold addresses. rewrite elem_of_set_seq. lia. Qed.

Lemma lookup_addresses (h : heap) a o : h !! a = Some o -> a ∈ addresses h.
Proof. intros Ha. apply elem_of_addresses. by eapply lookup_lt_Some. Qed.

(** Entering an object leaves fewer objects to enter. *)
Lemma unentered_decreases (h : heap) (seen : gset addr) a :
  a ∈ addresses h -> a ∉ seen ->
  size (addresses h ∖ ({[a]} ∪ seen)) < size (addresses h ∖ seen).
Proof.
  intros Ha Hout. apply subset_size. split.
  - intros x. rewrite !elem_of_difference, elem_of_union. tauto.
  - intros Hsub. specialize (Hsub a).
    rewrite !elem_of_difference, elem_of_union, elem_of_singleton in Hsub.
    tauto.
Qed.

Section PathTreeFacts.
Context `{Host}.

(** A tree of paths is no deeper than there are objects to enter. *)
Lemma pathTree_depth h t : forall seen v,
  pathTree h seen v t -> depth t <= S (size (addresses h ∖ seen)).
Proof.
  induction t as [| b | n | s | trees IH | fields IH |] using ptree_ind';
    intros seen v Hpath; cbn; try lia.
  - inversion Hpath as [| | | | | ? a items ? Hout Hlook Hall |]; subst.
    apply le_n_S, foldr_max_le. rewrite Forall_map.
    pose proof (unentered_decreases h seen a (lookup_addresses _ _ _ Hlook) Hout)
      as Hless.
    clear Hpath Hlook. induction Hall as [|v' t' items trees Hv' Hall IHall];
      [constructor|].
    apply Forall_cons in IH as [IHt IH]. constructor; [|by apply IHall].
    specialize (IHt _ _ Hv'). lia.
  - inversion Hpath as [| | | | | | ? a ? Hout Hnot Hall]; subst.
    apply le_n_S, foldr_max_le. rewrite Forall_map.
    destruct (h !! a) as [o|] eqn:Hlook.
    + pose proof (unentered_decreases h seen a (lookup_addresses _ _ _ Hlook) Hout)
        as Hless.
      clear Hpath Hlook Hnot.
      induction Hall as [|kv kt entries fields [_ Hv'] Hall IHall]; [constructor|].
      apply Forall_cons in IH as [IHt IH]. constructor; [|by apply IHall].
      specialize (IHt _ _ Hv'). lia.
    + unfold entriesOf in Hall. rewrite Hlook in Hall.
      inversion Hall. constructor.
Qed.

Lemma Forall2_exists {A B} (R : A -> B -> Prop) (l : list A) :
  (forall x, x ∈ l -> exists y, R x y) -> exists k, Forall2 R l k.
Proof.
  induction l as [|x l IH]; intros Hall.
  - exists []. constructor.
  - destruct (Hall x) as [y Hy]; [left|].
    destruct IH as [k Hk]; [intros x' Hx'; apply Hall; by right|].
    exists (y :: k). by constructor.
Qed.

(** Every value has a tree of paths. *)
Lemma pathTree_exists h : forall bound seen v,
  size (addresses h ∖ seen) <= bound -> exists t, pathTree h seen v t.
Proof.
  induction bound as [|bound IH]; intros seen v Hbound.
  - destruct v as [| b | n | s | a]; try (eexists; constructor; fail).
    destruct (decide (a ∈ seen)) as [Hin|Hout];
      [eexists; by apply pathTree_back|].
    destruct (h !! a) as [o|] eqn:Hlook.
    + pose proof (unentered_decreases h seen a (lookup_addresses _ _ _ Hlook) Hout).
      lia.
    + exists (PRec []). apply pathTree_record; [done|congruence|].
      unfold entriesOf. rewrite Hlook. constructor.
  - destruct v as [| b | n | s | a]; try (eexists; constructor; fail).
    destruct (decide (a ∈ seen)) as [Hin|Hout];
      [eexists; by apply pathTree_back|].
    destruct (h !! a) as [[fields|items]|] eqn:Hlook.
    + pose proof (unentered_decreases h seen a (lookup_addresses _ _ _ Hlook) Hout).
      destruct (Forall2_exists
                  (fun kv kt => kv.1 = kt.1
                                /\ pathTree h ({[a]} ∪ seen) kv.2 kt.2) fields)
        as [trees Htrees].
      { intros [k v] _. destruct (IH ({[a]} ∪ seen) v) as [t Ht]; [lia|].
        by exists (k, t). }
      exists (PRec trees). apply pathTree_record; [done|congruence|].
      unfold entriesOf. by rewrite Hlook.
    + pose proof (unentered_decreases h seen a (lookup_addresses _ _ _ Hlook) Hout).
      destruct (Forall2_exists (pathTree h ({[a]} ∪ seen)) items)
        as [trees Htrees].
      { intros v _. apply IH. lia. }
      exists (PArr trees). by eapply pathTree_array.
    + exists (PRec []). apply pathTree_record; [done|congruence|].
      unfold entriesOf. rewrite Hlook. constructor.
Qed.

(** The fingerprint is the printed normal form of the schema's tree of
    paths; the nesting never outruns the fuel. *)
Lemma createSchemaFingerprint_pathTree h schema t :
  pathTree h ∅ (VObj schema) t ->
  createSchemaFingerprint h schema = JSON_stringify (normTree true t).
Proof.
  intros Hpath. unfold createSchemaFingerprint.
  rewrite (normalizeForFingerprint_pathTree _ _ _ _ _ t Hpath); [done|].
  etrans; [by eapply pathTree_depth|].
  apply le_n_S. etrans; [by apply subseteq_size, subseteq_difference_l|].
  unfold addresses. by rewrite size_set_seq.
Qed.

Lemma createSchemaFingerprint_total h schema :
  exists t, pathTree h ∅ (VObj schema) t
            /\ createSchemaFingerprint h schema = JSON_stringify (normTree true t).
Proof.
  destruct (pathTree_exists h (size (addresses h ∖ ∅)) ∅ (VObj schema)) as [t Ht];
    [done|].
  exists t. split; [done|]. by apply createSchemaFingerprint_pathTree.
Qed.

End PathTreeFacts.

Lemma list_sum_elem (ns : list nat) n : n ∈ ns -> n <= list_sum ns.
Proof.
  induction ns as [|m ns IH]; [by intros ?%elem_of_nil|].
  change (list_sum (m :: ns)) with (m + list_sum ns).
  intros [->|Hin]%elem_of_cons; [lia|]. specialize (IH Hin). lia.
Qed.

Section SharingFacts.
Context `{Host}.

(** The set of entered objects comes back as it was handed in: an object
    is removed once its subtree is done. *)
Lemma normalizeForFingerprint_seen fuel h : forall v isRoot seen j seen',
  normalizeForFingerprint fuel h v isRoot seen = Some (j, seen') -> seen' = seen.
Proof.
  induction fuel as [|fuel IH]; intros v isRoot seen j seen';
    destruct v as [| b | n | s | a]; cbn; try (by intros [= <- <-]).
  - destruct (decide (a ∈ seen)); [by intros [= <- <-]|done].
  - destruct (decide (a ∈ seen)) as [Hin|Hout]; [by intros [= <- <-]|].
    assert (Hitems : forall items acc normalized seen2,
      (forall done_ s, acc = Some (done_, s) -> s = {[a]} ∪ seen) ->
      foldl (fun acc entry =>
               '(done, seen') ← acc;
               '(n, seen'') ← normalizeForFingerprint fuel h entry false seen';
               Some (done ++ [n], seen''))
            acc items = Some (normalized, seen2) ->
      seen2 = {[a]} ∪ seen).
    { induction items as [|item items IHitems]; intros acc normalized seen2 Hacc;
        cbn; [by eauto|].
      apply IHitems. intros done_ s Hstep.
      destruct acc as [[done0 s0]|]; [|done]. cbn in Hstep.
      destruct (normalizeForFingerprint fuel h item false s0) as [[n0 s1]|] eqn:Hn;
        [|done].
      cbn in Hstep. injection Hstep as <- <-.
      apply IH in Hn as ->. by eapply Hacc. }
    assert (Hentries : forall (entries : list (string * value)) acc result seen2,
      (forall res s, acc = Some (res, s) -> s = {[a]} ∪ seen) ->
      foldl (fun acc kv =>
               '(result, seen') ← acc;
               '(n, seen'') ← normalizeForFingerprint fuel h kv.2 false seen';
               Some (assignProperty kv.1 n result, seen''))
            acc entries = Some (result, seen2) ->
      seen2 = {[a]} ∪ seen).
    { induction entries as [|kv entries IHentries]; intros acc result seen2 Hacc;
        cbn; [by eauto|].
      apply IHentries. intros res s Hstep.
      destruct acc as [[res0 s0]|]; [|done]. cbn in Hstep.
      destruct (normalizeForFingerprint fuel h kv.2 false s0) as [[n0 s1]|] eqn:Hn;
        [|done].
      cbn in Hstep. injection Hstep as <- <-.
      apply IH in Hn as ->. by eapply Hacc. }
    destruct (h !! a) as [[fields|items]|].
    + destruct (foldl _ _ _) as [[result seen2]|] eqn:Hfold; [|done].
      cbn. intros [= <- <-]. apply Hentries in Hfold as ->.
      * by apply seen_restored.
      * by intros ?? [= <- <-].
    + destruct (foldl _ _ _) as [[normalized seen2]|] eqn:Hfold; [|done].
      cbn. intros [= <- <-]. apply Hitems in Hfold as ->.
      * by apply seen_restored.
      * by intros ?? [= <- <-].
    + destruct (foldl _ _ _) as [[result seen2]|] eqn:Hfold; [|done].
      cbn. intros [= <- <-]. apply Hentries in Hfold as ->.
      * by apply seen_restored.
      * by intros ?? [= <- <-].
Qed.

Lemma represents_functional h j1 : forall v j2,
  represents h v j1 -> represents h v j2 -> j1 = j2.
Proof.
  induction j1 as [| b | n | s | docs IH | docs IH] using json_ind';
    intros v j2 H1 H2;
    inversion H1 as [| | | | a1 items1 ? Hlook1 Hall1
                     | a1 fields1 ? Hlook1 Hall1]; subst;
    inversion H2 as [| | | | a2 items2 docs2 Hlook2 Hall2
                     | a2 fields2 docs2 Hlook2 Hall2]; subst;
    try done; try congruence.
  - f_equal. rewrite Hlook1 in Hlook2. injection Hlook2 as <-.
    clear H1 H2 Hlook1. revert docs2 Hall2.
    induction Hall1 as [|v d items docs Hvd Hall IHall];
      intros docs2 Hall2; inversion Hall2; subst; [done|].
    apply Forall_cons in IH as [IHd IH]. f_equal; eauto.
  - f_equal. rewrite Hlook1 in Hlook2. injection Hlook2 as <-.
    clear H1 H2 Hlook1. revert docs2 Hall2.
    induction Hall1 as [|[k v] [k' d] fields docs [Hk Hvd] Hall IHall];
      intros docs2 Hall2;
      inversion Hall2 as [|? [k2 d2] ? ? [Hk2 Hvd2]]; subst; [done|].
    apply Forall_cons in IH as [IHd IH]. cbn in *. subst.
    f_equal; [f_equal|]; eauto.
Qed.

(** A document reached through shared objects is unfolded at every place
    it is reached: its tree of paths has no back edge. *)
Lemma represents_pathTree h j : forall v seen,
  represents h v j ->
  (forall a j', a ∈ seen -> represents h (VObj a) j' -> jsize j < jsize j') ->
  pathTree h seen v (treeOf j).
Proof.
  induction j as [| b | n | s | docs IH | docs IH] using json_ind';
    intros v seen Hrep Hsmall; inversion Hrep as [| | | | a items ? Hlook Hall
                                                | a fields ? Hlook Hall]; subst;
    cbn [treeOf]; try (constructor; fail).
  - assert (Hout : a ∉ seen).
    { intros Hin. specialize (Hsmall a _ Hin Hrep). lia. }
    assert (Hanc : forall d a' j', jsize d < jsize (JArr docs) ->
              a' ∈ {[a]} ∪ seen -> represents h (VObj a') j' ->
              jsize d < jsize j').
    { intros d a' j' Hd [->%elem_of_singleton|Hin]%elem_of_union Hj'.
      - by rewrite (represents_functional _ _ _ _ Hj' Hrep).
      - specialize (Hsmall _ _ Hin Hj'). lia. }
    assert (Hchild : forall d, d ∈ docs -> jsize d < jsize (JArr docs)).
    { intros d Hd. cbn. apply le_n_S, list_sum_elem, list_elem_of_fmap. eauto. }
    eapply pathTree_array; [done|done|].
    revert Hanc Hchild. generalize (jsize (JArr docs)) as size. intros size.
    clear Hrep Hlook Hsmall.
    induction Hall as [|v d items docs Hvd Hall IHall]; intros Hanc Hchild;
      [constructor|].
    apply Forall_cons in IH as [IHd IH]. constructor.
    + apply IHd; [done|]. intros a' j'. apply Hanc, Hchild. left.
    + apply IHall; [done|done|]. intros d' Hd'. apply Hchild. by right.
  - assert (Hout : a ∉ seen).
    { intros Hin. specialize (Hsmall a _ Hin Hrep). lia. }
    assert (Hanc : forall d a' j', jsize d < jsize (JRec docs) ->
              a' ∈ {[a]} ∪ seen -> represents h (VObj a') j' ->
              jsize d < jsize j').
    { intros d a' j' Hd [->%elem_of_singleton|Hin]%elem_of_union Hj'.
      - by rewrite (represents_functional _ _ _ _ Hj' Hrep).
      - specialize (Hsmall _ _ Hin Hj'). lia. }
    assert (Hchild : forall kd, kd ∈ docs -> jsize kd.2 < jsize (JRec docs)).
    { intros kd Hd. cbn. apply le_n_S, list_sum_elem, list_elem_of_fmap. eauto. }
    apply pathTree_record; [done|congruence|].
    unfold entriesOf. rewrite Hlook.
    revert Hanc Hchild. generalize (jsize (JRec docs)) as size. intros size.
    clear Hrep Hlook Hsmall.
    induction Hall as [|[k v] [k' d] fields docs [Hk Hvd] Hall IHall];
      intros Hanc Hchild; [constructor|].
    apply Forall_cons in IH as [IHd IH]. cbn in *. constructor.
    + split; [done|]. cbn. apply IHd; [done|]. intros a' j'.
      apply Hanc. apply (Hchild (k', d)). left.
    + apply IHall; [done|done|]. intros d' Hd'. apply Hchild. by right.
Qed.

(** C10.  The set of entered objects is handed back unchanged by every
    call, so it holds exactly the objects being unfolded around the
    current one; the fingerprint is the printed normal form of the tree of
    paths, in which only an object reached from inside itself is a back
    edge, printed as "[Circular]"; an object shared by several places that
    are not inside it is unfolded at each, so two schemas that spell the
    same document have the same fingerprint however they share objects. *)
Theorem fingerprint_ignores_sharing (h : heap) :
  (forall fuel v isRoot seen j seen',
      normalizeForFingerprint fuel h v isRoot seen = Some (j, seen') ->
      seen' = seen)
  /\ (forall schema t,
        pathTree h ∅ (VObj schema) t ->
        createSchemaFingerprint h schema = JSON_stringify (normTree true t))
  /\ (forall schema doc,
        represents h (VObj schema) doc ->
        pathTree h ∅ (VObj schema) (treeOf doc)
        /\ createSchemaFingerprint h schema
           = JSON_stringify (normTree true (treeOf doc)))
  /\ (forall h' schema schema' doc,
        represents h (VObj schema) doc ->
        represents h' (VObj schema') doc ->
        createSchemaFingerprint h schema = createSchemaFingerprint h' schema').
Proof.
  assert (Htree : forall h0 schema doc,
             represents h0 (VObj schema) doc ->
             pathTree h0 ∅ (VObj schema) (treeOf doc)).
  { intros h0 schema doc Hrep. apply represents_pathTree; [done|].
    intros a j' Hin. by apply not_elem_of_empty in Hin. }
  split; [intros fuel; apply normalizeForFingerprint_seen|].
  split; [apply createSchemaFingerprint_pathTree|].
  split.
  - intros schema doc Hrep. split; [by apply Htree|].
    by apply createSchemaFingerprint_pathTree, Htree.
  - intros h' schema schema' doc Hrep Hrep'.
    rewrite (createSchemaFingerprint_pathTree h _ _ (Htree _ _ _ Hrep)).
    by rewrite (createSchemaFingerprint_pathTree h' _ _ (Htree _ _ _ Hrep')).
Qed.

End SharingFacts.

Lemma fingerprint_ignores_sharing_witness :
  createSchemaFingerprint sharedId 1 = createSchemaFingerprint copiedId 2.
Proof.
  apply (proj2 (proj2 (proj2 (fingerprint_ignores_sharing sharedId)))
           copiedId 1 2 twoIds).
  - eapply represents_record; [reflexivity|].
    repeat constructor; cbn; eapply represents_record;
      try reflexivity; repeat constructor.
  - eapply represents_record; [reflexivity|].
    repeat constructor; cbn; eapply represents_record;
      try reflexivity; repeat constructor.
Defined.

Example fingerprint_shared :
  createSchemaFingerprint sharedId 1
  = JSON_stringify (JRec [ ("a", JRec [("type", JStr "string")]);
                           ("b", JRec [("type", JStr "string")]) ]).
Proof. vm_compute. reflexivity. Qed.

Example fingerprint_cycle :
  createSchemaFingerprint selfReferent 1
  = JSON_stringify
      (JRec [ ("properties", JRec [("self", JStr "[Circular]")]);
              ("type", JStr "object") ]).
Proof. vm_compute. reflexivity. Qed.

Lemma ptree_wf_array items :
  ptree_wf (PArr items) <-> Forall ptree_wf items.
Proof.
  cbn. induction items as [|item items IH]; cbn.
  - split; constructor.
  - rewrite Forall_cons, IH. done.
Qed.

Lemma ptree_wf_record fields :
  ptree_wf (PRec fields)
  <-> NoDup (Props.keys fields) /\ Forall (fun kv => ptree_wf kv.2) fields.
Proof.
  cbn. apply and_iff_compat_l.
  induction fields as [|kv fields IH]; cbn.
  - split; constructor.
  - rewrite Forall_cons, IH. done.
Qed.

Section SortCanonical.
Context `{CollationOrder}.
Context {A : Type}.
Implicit Types (x y : string * A) (l : list (string * A)).

Lemma collation_tie_sym (a b : string) :
  localeCompare a b = Eq -> localeCompare b a = Eq.
Proof. intros Hab. by rewrite collation_antisym, Hab. Qed.

Lemma untied_perm (keys1 keys2 : list string) :
  keys1 ≡ₚ keys2 -> untied keys1 -> untied keys2.
Proof.
  induction 1 as [|key keys1 keys2 Hperm IH|key1 key2 keys|? ? ? _ IH1 _ IH2];
    cbn; [done| | |auto].
  - intros [Hkey Hrest]. split; [by rewrite <- Hperm|auto].
  - intros [[H12 H1]%Forall_cons [H2 Hrest]]. split; [|done].
    constructor; [|done]. intros Htie. by apply H12, collation_tie_sym.
Qed.

Lemma untied_keys_filter (p : string -> bool) l :
  untied (Props.keys l) -> untied (Props.keys (filter (fun kv => p kv.1) l)).
Proof.
  unfold Props.keys. induction l as [|x l IH]; [done|].
  rewrite fmap_cons. intros [Hx Hrest]. rewrite filter_cons.
  destruct (decide (p x.1)); [|auto].
  rewrite fmap_cons. split; [|auto].
  rewrite Forall_forall in Hx. apply Forall_forall.
  intros key (y & -> & [_ Hy]%list_elem_of_filter)%list_elem_of_fmap.
  apply Hx. apply list_elem_of_fmap. eauto.
Qed.

Lemma sortInsert_sorted x l :
  StronglySorted keyLt l ->
  (forall y, y ∈ l -> localeCompare x.1 y.1 ≠ Eq) ->
  StronglySorted keyLt (sortInsert x l).
Proof.
  induction l as [|y l IH]; intros Hsorted Hfresh; cbn.
  - repeat constructor.
  - apply StronglySorted_inv in Hsorted as [Hl Hy].
    destruct (localeCompare x.1 y.1) eqn:Hcmp.
    + exfalso. apply (Hfresh y); [left|done].
    + constructor; [by constructor|]. constructor; [done|].
      eapply Forall_impl; [exact Hy|]. intros z Hz.
      unfold keyLt in *. by eapply collation_trans.
    + constructor.
      * apply IH; [done|]. intros z Hz. apply Hfresh. by right.
      * rewrite sortInsert_perm. constructor; [|done].
        unfold keyLt. by rewrite collation_antisym, Hcmp.
Qed.

Lemma sortByKey_sorted l :
  untied (Props.keys l) -> StronglySorted keyLt (sortByKey l).
Proof.
  unfold Props.keys. induction l as [|x l IH]; intros Hkeys.
  - constructor.
  - change (sortByKey (x :: l)) with (sortInsert x (sortByKey l)).
    destruct Hkeys as [Hx Hkeys]. apply sortInsert_sorted; [auto|].
    intros y Hy. rewrite sortByKey_perm in Hy.
    rewrite Forall_forall in Hx. apply Hx.
    apply list_elem_of_fmap. by exists y.
Qed.

(** Sorting forgets the order the entries came in. *)
Lemma sortByKey_canonical l1 l2 :
  untied (Props.keys l1) -> l1 ≡ₚ l2 -> sortByKey l1 = sortByKey l2.
Proof.
  intros Hkeys Hperm.
  apply (StronglySorted_unique_strong keyLt).
  - intros x y _ _ Hxy Hyx. unfold keyLt in *.
    rewrite collation_antisym, Hxy in Hyx. done.
  - by apply sortByKey_sorted.
  - apply sortByKey_sorted. eapply untied_perm; [|exact Hkeys].
    unfold Props.keys. by rewrite Hperm.
  - by rewrite !sortByKey_perm.
Qed.

End SortCanonical.

Section ReorderFacts.
Context `{CollationOrder}.

Lemma ptree_untied_array items :
  ptree_untied (PArr items) <-> Forall ptree_untied items.
Proof.
  cbn. induction items as [|item items IH]; cbn.
  - split; constructor.
  - rewrite Forall_cons, IH. done.
Qed.

Lemma ptree_untied_record fields :
  ptree_untied (PRec fields)
  <-> untied (Props.keys fields) /\ Forall (fun kv => ptree_untied kv.2) fields.
Proof.
  cbn. apply and_iff_compat_l.
  induction fields as [|kv fields IH]; cbn.
  - split; constructor.
  - rewrite Forall_cons, IH. done.
Qed.

Lemma keys_map_normField fields :
  Props.keys (map normField fields) = Props.keys fields.
Proof.
  unfold Props.keys. induction fields as [|[k v] fields IH]; cbn; [done|].
  by rewrite IH.
Qed.

Lemma NoDup_keys_filter {A} (p : string -> bool) (l : list (string * A)) :
  NoDup (Props.keys l) -> NoDup (Props.keys (filter (fun kv => p kv.1) l)).
Proof.
  unfold Props.keys. induction l as [|x l IH]; [done|].
  rewrite fmap_cons. intros [Hx Hnd]%NoDup_cons. rewrite filter_cons.
  destruct (decide (p x.1)); [|auto].
  rewrite fmap_cons. apply NoDup_cons. split; [|auto].
  intros (y & Heq & [_ Hy]%list_elem_of_filter)%list_elem_of_fmap.
  apply Hx. apply list_elem_of_fmap. eauto.
Qed.

(** The normal form forgets the order of the keys of every record, where
    the keys are untied. *)
Lemma normTree_reorder t1 : forall t2 isRoot,
  ptree_untied t1 -> reorder t1 t2 -> normTree isRoot t1 = normTree isRoot t2.
Proof.
  induction t1 as [| b | n | s | items1 IH | fields1 IH |] using ptree_ind';
    intros t2 isRoot Hwf Hre;
    inversion Hre as [| | | | | ? items2 Hall | ? fields2 permuted Hperm Hall];
    subst; try done.
  - cbn. f_equal. apply ptree_untied_array in Hwf. clear Hre.
    induction Hall as [|x y items1 items2 Hxy Hall IHall]; [done|].
    apply Forall_cons in IH as [IHx IH]. apply Forall_cons in Hwf as [Hx Hwf].
    cbn. f_equal; auto.
  - apply ptree_untied_record in Hwf as [Hkeys Hwf].
    cbn [normTree]. fold normField. do 2 f_equal.
    assert (Hmap : map normField permuted = map normField fields2).
    { rewrite Hperm in IH, Hwf. clear Hperm Hkeys Hre.
      induction Hall as [|[k v] [k' v'] permuted fields2 [Hk Hvv] Hall IHall];
        [done|].
      apply Forall_cons in IH as [IHx IH]. apply Forall_cons in Hwf as [Hx Hwf].
      cbn in *. subst k'. f_equal; [f_equal|]; auto. }
    apply sortByKey_canonical.
    + apply untied_keys_filter. by rewrite keys_map_normField.
    + rewrite <- Hmap. by rewrite Hperm.
Qed.

End ReorderFacts.

(** ** Printed documents are read back unambiguously *)

Lemma append_assoc (a b c : string) : (a +:+ b) +:+ c = a +:+ (b +:+ c).
Proof.
  induction a as [|x a IH]; [done|]. rewrite !append_cons. by rewrite IH.
Qed.

Lemma append_nil_r (a : string) : a +:+ "" = a.
Proof.
  induction a as [|x a IH]; [done|]. rewrite append_cons. by rewrite IH.
Qed.

Lemma allAscii_complete (c : ascii) : In c allAscii.
Proof.
  unfold allAscii. apply in_map_iff. exists (nat_of_ascii c).
  split; [apply ascii_nat_embedding|].
  apply in_seq. pose proof (nat_ascii_bounded c). lia.
Qed.

Lemma startsWith_append (w1 w2 x y : string) :
  w1 +:+ x = w2 +:+ y ->
  Str.startsWith w1 w2 = true \/ Str.startsWith w2 w1 = true.
Proof.
  revert w2. induction w1 as [|c1 w1 IH]; intros [|c2 w2]; cbn; auto.
  rewrite !append_cons. intros [= -> Heq].
  rewrite Ascii.eqb_refl. cbn. auto.
Qed.

Lemma quoteChar_prefix_free c1 c2 x y :
  quoteChar c1 +:+ x = quoteChar c2 +:+ y -> c1 = c2 /\ x = y.
Proof.
  intros Heq.
  assert (Hfree : quoteCharsPrefixFree = true) by (vm_compute; reflexivity).
  unfold quoteCharsPrefixFree in Hfree. rewrite forallb_forall in Hfree.
  assert (Hcheck : forall a b, Str.startsWith (quoteChar a) (quoteChar b) = true -> a = b).
  { intros a b Hab. specialize (Hfree a (allAscii_complete a)).
    rewrite forallb_forall in Hfree. specialize (Hfree b (allAscii_complete b)).
    rewrite Hab in Hfree. cbn in Hfree. by apply Ascii.eqb_eq. }
  assert (c1 = c2) as ->.
  { destruct (startsWith_append _ _ _ _ Heq) as [Hp|Hp]; [|symmetry]; by apply Hcheck. }
  split; [done|]. by apply (inj (String.append (quoteChar c2))) in Heq.
Qed.

Lemma quoteChar_head c : exists hd tl, quoteChar c = String hd tl /\ hd ≠ dquote.
Proof.
  assert (Hall : forallb (fun c => match quoteChar c with
                                   | String hd _ => negb (Ascii.eqb hd dquote)
                                   | EmptyString => false
                                   end) allAscii = true) by (vm_compute; reflexivity).
  rewrite forallb_forall in Hall. specialize (Hall c (allAscii_complete c)).
  destruct (quoteChar c) as [|hd tl]; [done|]. exists hd, tl. split; [done|].
  intros ->. by rewrite Ascii.eqb_refl in Hall.
Qed.

Lemma quoteChars_inj s1 : forall s2 r1 r2,
  quoteChars s1 +:+ String dquote r1 = quoteChars s2 +:+ String dquote r2 ->
  s1 = s2 /\ r1 = r2.
Proof.
  induction s1 as [|c1 s1 IH]; intros [|c2 s2] r1 r2; cbn [quoteChars].
  - rewrite !append_nil. by intros [= ->].
  - rewrite append_nil, append_assoc.
    destruct (quoteChar_head c2) as (hd & tl & -> & Hhd).
    rewrite append_cons. by intros [= <-].
  - rewrite append_nil, append_assoc.
    destruct (quoteChar_head c1) as (hd & tl & -> & Hhd).
    rewrite append_cons. by intros [= ->].
  - rewrite !append_assoc. intros [-> Heq]%quoteChar_prefix_free.
    apply IH in Heq as [-> ->]. done.
Qed.

Lemma quoteJSONString_inj s1 s2 r1 r2 :
  quoteJSONString s1 +:+ r1 = quoteJSONString s2 +:+ r2 -> s1 = s2 /\ r1 = r2.
Proof.
  unfold quoteJSONString. rewrite !append_cons, !append_assoc, !append_cons, !append_nil.
  intros [= Heq]. by apply quoteChars_inj.
Qed.

Lemma numchars_span d1 : forall d2 r1 r2,
  numchars d1 = true -> numchars d2 = true ->
  closes r1 = true -> closes r2 = true ->
  d1 +:+ r1 = d2 +:+ r2 -> d1 = d2 /\ r1 = r2.
Proof.
  induction d1 as [|c1 d1 IH]; intros [|c2 d2] r1 r2; cbn [numchars];
    rewrite ?append_nil, ?append_cons.
  - auto.
  - intros _ [Hc _]%andb_prop Hclose _ ->. cbn in Hclose. by rewrite Hc in Hclose.
  - intros [Hc _]%andb_prop _ _ Hclose <-. cbn in Hclose. by rewrite Hc in Hclose.
  - intros [_ H1]%andb_prop [_ H2]%andb_prop Hr1 Hr2 [= -> Heq].
    destruct (IH _ _ _ H1 H2 Hr1 Hr2 Heq) as [-> ->]. done.
Qed.

Lemma numchars_app s1 s2 :
  numchars (s1 +:+ s2) = numchars s1 && numchars s2.
Proof.
  induction s1 as [|c s1 IH]; [done|].
  rewrite append_cons. cbn. by rewrite IH, andb_assoc.
Qed.

Lemma pretty_N_char_numchar x : numchar (pretty_N_char x) = true.
Proof. unfold pretty_N_char. by repeat case_match. Qed.

Lemma pretty_N_go_numchars x : forall s,
  numchars s = true -> numchars (pretty_N_go x s) = true.
Proof.
  induction (N.lt_wf_0 x) as [x _ IH]. intros s Hs.
  destruct (decide (x = 0%N)) as [->|Hx]; [by rewrite pretty_N_go_0|].
  rewrite pretty_N_go_step by lia. apply IH.
  - apply N.div_lt; lia.
  - cbn. by rewrite pretty_N_char_numchar.
Qed.

Lemma pretty_N_numchars (x : N) : numchars (pretty x) = true.
Proof.
  unfold pretty, pretty_N. case_decide; [done|]. by apply pretty_N_go_numchars.
Qed.

Lemma pretty_Z_numchars (z : Z) : numchars (pretty z) = true.
Proof.
  unfold pretty, pretty_Z. destruct z as [|p|p].
  - done.
  - apply pretty_N_numchars.
  - rewrite numchars_app. cbn. apply pretty_N_numchars.
Qed.

Lemma pretty_N_go_length x : forall s,
  String.length s <= String.length (pretty_N_go x s).
Proof.
  induction (N.lt_wf_0 x) as [x _ IH]. intros s.
  destruct (decide (x = 0%N)) as [->|Hx]; [by rewrite pretty_N_go_0|].
  rewrite pretty_N_go_step by lia.
  etrans; [|apply IH; apply N.div_lt; lia]. cbn. lia.
Qed.

Lemma pretty_Z_head (z : Z) :
  exists c s, pretty z = String c s /\ numchar c = true.
Proof.
  pose proof (pretty_Z_numchars z) as Hnum.
  destruct (pretty z) as [|c s] eqn:Hz.
  - exfalso. unfold pretty, pretty_Z in Hz.
    assert (Hpos : forall x : N, pretty x ≠ "").
    { intros x Hx. unfold pretty, pretty_N in Hx. case_decide; [done|].
      rewrite pretty_N_go_step in Hx by lia.
      pose proof (pretty_N_go_length (x `div` 10)%N
                    (String (pretty_N_char (x `mod` 10)) "")) as Hlen.
      rewrite Hx in Hlen. cbn in Hlen. lia. }
    destruct z as [|q|q]; [done|by apply (Hpos (Npos q))|done].
  - exists c, s. split; [done|]. cbn in Hnum. by apply andb_prop in Hnum as [? _].
Qed.

Lemma concat_itemsTail (items : list string) close r :
  String.concat "," items +:+ String close r
  = match items with
    | [] => String close r
    | item :: rest => item +:+ itemsTail close rest r
    end.
Proof.
  induction items as [|item [|next rest] IH]; [done|done|].
  change (String.concat "," (item :: next :: rest))
    with (item +:+ "," +:+ String.concat "," (next :: rest)).
  rewrite !append_assoc, IH. done.
Qed.

Lemma stringify_array items r :
  JSON_stringify (JArr items) +:+ r
  = String "[" (match items with
                | [] => String "]" r
                | item :: rest =>
                    JSON_stringify item
                    +:+ itemsTail "]" (map JSON_stringify rest) r
                end).
Proof.
  cbn [JSON_stringify]. rewrite !append_assoc.
  change ("]" +:+ r) with (String "]" r).
  rewrite concat_itemsTail. by destruct items.
Qed.

Lemma stringify_record fields r :
  JSON_stringify (JRec fields) +:+ r
  = String "{" (match fields with
                | [] => String "}" r
                | kv :: rest =>
                    stringifyField kv +:+ itemsTail "}" (map stringifyField rest) r
                end).
Proof.
  cbn [JSON_stringify]. fold stringifyField. rewrite !append_assoc.
  change ("}" +:+ r) with (String "}" r).
  rewrite concat_itemsTail. by destruct fields.
Qed.

Lemma stringify_head j r :
  exists c rest, JSON_stringify j +:+ r = String c rest /\ headKind j c.
Proof.
  destruct j as [| [|] | n | s | items | fields].
  - by eexists _, _.
  - by eexists _, _.
  - by eexists _, _.
  - destruct (pretty_Z_head n) as (c & s & Hn & Hc).
    exists c, (s +:+ r). cbn. by rewrite Hn, append_cons.
  - by eexists _, _.
  - rewrite stringify_array. by eexists _, _.
  - rewrite stringify_record. by eexists _, _.
Qed.

Lemma closes_itemsTail close items r :
  numchar close = false -> closes (itemsTail close items r) = true.
Proof. intros Hclose. destruct items; cbn; [by rewrite Hclose|done]. Qed.

(** Comma-separated items are read back one by one. *)
Lemma itemsTail_inj {A} (f : A -> string) (close : ascii) (l1 : list A) :
  numchar close = false -> close ≠ ","%char ->
  Forall (fun x => forall y r1 r2, closes r1 = true -> closes r2 = true ->
                     f x +:+ r1 = f y +:+ r2 -> x = y /\ r1 = r2) l1 ->
  forall l2 r1 r2,
    itemsTail close (map f l1) r1 = itemsTail close (map f l2) r2 ->
    l1 = l2 /\ r1 = r2.
Proof.
  intros Hclose Hcomma Hall.
  induction Hall as [|x l1 Hx Hall IH]; intros [|y l2] r1 r2; cbn [map itemsTail].
  - by intros [= ->].
  - rewrite append_cons. by intros [= ?].
  - rewrite append_cons. by intros [= ?].
  - rewrite !append_cons, !append_nil. intros [= Heq].
    apply Hx in Heq as [-> Heq]; try by apply closes_itemsTail.
    apply IH in Heq as [-> ->]. done.
Qed.

(** A printed document, followed by anything that cannot continue a number,
    determines the document. *)
Lemma JSON_stringify_inj_followed j1 : forall j2 r1 r2,
  closes r1 = true -> closes r2 = true ->
  JSON_stringify j1 +:+ r1 = JSON_stringify j2 +:+ r2 ->
  j1 = j2 /\ r1 = r2.
Proof.
  induction j1 as [| b1 | n1 | s1 | items1 IH | fields1 IH] using json_ind';
    intros j2 r1 r2 Hr1 Hr2 Heq.
  all: match type of Heq with
       | JSON_stringify ?j +:+ _ = _ =>
           destruct (stringify_head j r1) as (c1 & rest1 & Hs1 & Hk1);
           destruct (stringify_head j2 r2) as (c2 & rest2 & Hs2 & Hk2)
       end.
  all: assert (c1 = c2) as <- by (rewrite Hs1, Hs2 in Heq; by injection Heq).
  all: clear Hs1 Hs2 rest1 rest2.
  all: destruct j2 as [| b2 | n2 | s2 | items2 | fields2];
       try destruct b1; try destruct b2; cbn in Hk1, Hk2;
       try (subst c1; done); try (rewrite Hk1 in Hk2; done);
       try (rewrite Hk2 in Hk1; done).
  all: clear c1 Hk1 Hk2.
  - split; [done|]. by apply (inj (String.append "null")) in Heq.
  - split; [done|]. by apply (inj (String.append "true")) in Heq.
  - split; [done|]. by apply (inj (String.append "false")) in Heq.
  - cbn [JSON_stringify] in Heq.
    apply numchars_span in Heq as [Hn ->]; try done; try apply pretty_Z_numchars.
    by apply (inj pretty) in Hn as ->.
  - cbn [JSON_stringify] in Heq. by apply quoteJSONString_inj in Heq as [-> ->].
  - rewrite !stringify_array in Heq. injection Heq as Heq.
    destruct items1 as [|x1 items1], items2 as [|x2 items2].
    + by injection Heq as ->.
    + destruct (stringify_head x2 (itemsTail "]" (map JSON_stringify items2) r2))
        as (c & rest & Hs & Hk). rewrite Hs in Heq. injection Heq as Hc _.
      subst c. destruct x2 as [| [|] | ? | ? | ? | ?]; done.
    + destruct (stringify_head x1 (itemsTail "]" (map JSON_stringify items1) r1))
        as (c & rest & Hs & Hk). rewrite Hs in Heq. injection Heq as Hc _.
      subst c. destruct x1 as [| [|] | ? | ? | ? | ?]; done.
    + apply Forall_cons in IH as [IHx IH].
      apply IHx in Heq as [-> Heq]; try by apply closes_itemsTail.
      apply (itemsTail_inj JSON_stringify) in Heq as [-> ->]; done.
  - rewrite !stringify_record in Heq. injection Heq as Heq.
    assert (Hfield : forall kv, (forall j2 r1 r2, closes r1 = true -> closes r2 = true ->
                       JSON_stringify kv.2 +:+ r1 = JSON_stringify j2 +:+ r2 ->
                       kv.2 = j2 /\ r1 = r2) ->
              forall kv' r1 r2, closes r1 = true -> closes r2 = true ->
                stringifyField kv +:+ r1 = stringifyField kv' +:+ r2 ->
                kv = kv' /\ r1 = r2).
    { intros [k v] Hv [k' v'] q1 q2 Hq1 Hq2. cbn [stringifyField].
      rewrite !append_assoc. intros [-> Hrest]%quoteJSONString_inj.
      rewrite !append_cons, !append_nil in Hrest. injection Hrest as Hrest.
      apply Hv in Hrest as [Hvv ->]; try done. cbn in Hvv. by subst. }
    destruct fields1 as [|x1 fields1], fields2 as [|x2 fields2].
    + by injection Heq as ->.
    + destruct x2 as [k2 v2]. cbn [stringifyField] in Heq. done.
    + destruct x1 as [k1 v1]. cbn [stringifyField] in Heq. done.
    + apply Forall_cons in IH as [IHx IH].
      apply (Hfield _ IHx) in Heq as [-> Heq]; try by apply closes_itemsTail.
      apply (itemsTail_inj stringifyField) in Heq as [-> ->]; try done.
      eapply Forall_impl; [exact IH|]. intros kv Hkv. by apply Hfield.
Qed.

(** [JSON.stringify] is injective on documents. *)
Lemma JSON_stringify_inj j1 j2 :
  JSON_stringify j1 = JSON_stringify j2 -> j1 = j2.
Proof.
  intros Heq.
  destruct (JSON_stringify_inj_followed j1 j2 "" "") as [-> _]; try done.
  by rewrite !append_nil_r.
Qed.

(** ** What a fingerprint tells *)

Section PropsLookup.
Context {V : Type}.
Implicit Types (fields : list (string * V)) (k : string) (v : V).

Lemma get_perm_NoDup fields fields' k :
  NoDup (Props.keys fields) -> fields ≡ₚ fields' ->
  Props.get fields k = Props.get fields' k.
Proof.
  intros Hnd Hperm.
  assert (Hnd' : NoDup (Props.keys fields')).
  { unfold Props.keys. by rewrite <- Hperm. }
  destruct (Props.get fields k) as [v|] eqn:Hget.
  - symmetry. apply get_elem_of_NoDup; [done|].
    rewrite <- Hperm. by apply get_elem_of.
  - destruct (Props.get fields' k) as [v'|] eqn:Hget'; [|done].
    apply get_elem_of in Hget'. rewrite <- Hperm in Hget'.
    apply (get_elem_of_NoDup _ _ _ Hnd) in Hget'. congruence.
Qed.

Lemma get_filter_key (p : string -> bool) fields k :
  Props.get (filter (fun kv => p kv.1) fields) k
  = if p k then Props.get fields k else None.
Proof.
  induction fields as [|[k0 v0] fields IH]; [by destruct (p k)|].
  rewrite filter_cons. cbn [fst].
  destruct (decide (p k0)) as [Hp|Hp]; cbn [Props.get].
  - destruct (String.eqb_spec k0 k) as [->|Hne]; [|done].
    by destruct (p k).
  - destruct (String.eqb_spec k0 k) as [->|Hne]; [|done].
    rewrite IH. by destruct (p k).
Qed.

Lemma get_foldl_set fields : forall acc k,
  Props.get (foldl (fun result kv => Props.set kv.1 kv.2 result) acc fields) k
  = match Props.get (reverse fields) k with
    | Some v => Some v
    | None => Props.get acc k
    end.
Proof.
  induction fields as [|[k0 v0] fields IH]; intros acc k; [done|].
  cbn [foldl]. rewrite IH, reverse_cons, get_app. cbn [fst snd].
  destruct (Props.get (reverse fields) k) as [v|]; [done|].
  cbn [Props.get]. destruct (String.eqb_spec k0 k) as [->|Hne].
  - apply get_set_eq.
  - by rewrite get_set_ne.
Qed.

Lemma get_foldl_assign fields : forall acc k,
  k ≠ "__proto__" ->
  Props.get (foldl (fun result kv => assignProperty kv.1 kv.2 result) acc fields) k
  = match Props.get (reverse fields) k with
    | Some v => Some v
    | None => Props.get acc k
    end.
Proof.
  induction fields as [|[k0 v0] fields IH]; intros acc k Hk; [done|].
  cbn [foldl]. rewrite IH, reverse_cons, get_app by done. cbn [fst snd].
  destruct (Props.get (reverse fields) k) as [v|]; [done|].
  cbn [Props.get]. unfold assignProperty.
  destruct (String.eqb_spec k0 k) as [->|Hne].
  - apply String.eqb_neq in Hk. rewrite Hk. apply get_set_eq.
  - destruct (String.eqb k0 "__proto__"); [done|]. by rewrite get_set_ne.
Qed.

End PropsLookup.

Section FingerprintReads.
Context `{Host}.

Lemma get_buildRecord entries k :
  NoDup (Props.keys entries) -> k ≠ "__proto__" ->
  Props.get (buildRecord entries) k = Props.get entries k.
Proof.
  intros Hnd Hk. unfold buildRecord. rewrite get_foldl_assign by done.
  rewrite <- (get_perm_NoDup entries (reverse entries)) by
    (done || by rewrite reverse_Permutation).
  by destruct (Props.get entries k).
Qed.

Lemma get_map_normField fields k :
  Props.get (map normField fields) k = normTree false <$> Props.get fields k.
Proof.
  induction fields as [|[k0 v0] fields IH]; [done|].
  cbn. by destruct (String.eqb k0 k).
Qed.

(** The normal form of a record holds the normal forms of its kept
    fields. *)
Lemma get_normTree_record isRoot fields k :
  NoDup (Props.keys fields) ->
  keptInFingerprint isRoot k = true -> k ≠ "__proto__" ->
  match normTree isRoot (PRec fields) with
  | JRec normalized =>
      Props.get normalized k = normTree false <$> Props.get fields k
  | _ => False
  end.
Proof.
  intros Hnd Hkept Hk. cbn [normTree]. fold normField.
  assert (Hnd1 : NoDup (Props.keys
            (filter (fun kv => keptInFingerprint isRoot kv.1)
                    (map normField fields)))).
  { apply NoDup_keys_filter. by rewrite keys_map_normField. }
  assert (Hnd2 : NoDup (Props.keys
            (sortByKey (filter (fun kv => keptInFingerprint isRoot kv.1)
                               (map normField fields))))).
  { unfold Props.keys. by rewrite sortByKey_perm. }
  rewrite get_buildRecord by done.
  rewrite (get_perm_NoDup _ _ k Hnd2 (sortByKey_perm _)).
  by rewrite get_filter_key, Hkept, get_map_normField.
Qed.

End FingerprintReads.

Lemma pathTree_wf h t : forall seen v,
  heap_wf h -> pathTree h seen v t -> ptree_wf t.
Proof.
  induction t as [| b | n | s | trees IH | fields IH |] using ptree_ind';
    intros seen v Hwf Hpath; try done.
  - inversion Hpath as [| | | | | ? a items ? Hout Hlook Hall |]; subst.
    apply ptree_wf_array. clear Hpath Hlook.
    induction Hall as [|v' t' items trees Hv' Hall IHall]; [constructor|].
    apply Forall_cons in IH as [IHt IH]. constructor; eauto.
  - inversion Hpath as [| | | | | | ? a ? Hout Hnot Hall]; subst.
    apply ptree_wf_record. split.
    + assert (Hkeys : Props.keys fields = Props.keys (entriesOf h a)).
      { unfold Props.keys. clear -Hall.
        induction Hall as [|x y l k [Hxy _] Hall IHall]; [done|].
        cbn. by rewrite IHall, Hxy. }
      rewrite Hkeys. unfold entriesOf.
      destruct (h !! a) as [[fs|items]|] eqn:Hlook; try constructor.
      by eapply Hwf.
    + clear Hpath Hnot.
      induction Hall as [|x y l k [_ Hv'] Hall IHall]; [constructor|].
      apply Forall_cons in IH as [IHt IH]. constructor; eauto.
Qed.

Section FingerprintPaths.
Context `{Host}.

(** The normal form keeps every subtree a kept path leads to, when the
    path goes through no key [__proto__]. *)
Lemma normTree_subtree path : forall t isRoot sub,
  ptree_wf t ->
  subtreeAt path t = Some sub ->
  keptPath isRoot path -> ownPath path ->
  jsonAt path (normTree isRoot t)
  = Some (normTree (match path with [] => isRoot | _ => false end) sub).
Proof.
  induction path as [|[k|i] path IH];
    intros t isRoot sub Hwf Hsub Hkept Hown.
  - cbn in *. by injection Hsub as ->.
  - destruct t as [| | | | |fields|]; try done.
    cbn [subtreeAt] in Hsub.
    destruct (Props.get fields k) as [child|] eqn:Hget; [|done].
    cbn in Hsub. apply ptree_wf_record in Hwf as [Hnd Hall].
    assert (k ≠ "__proto__") as Hk by (intros ->; apply Hown; left).
    assert (ownPath path) as Hrest by (intros Hin; apply Hown; by right).
    pose proof (get_normTree_record isRoot fields k Hnd Hkept Hk) as Hnorm.
    cbn [jsonAt]. destruct (normTree isRoot (PRec fields)) as [| | | | |normalized];
      try done.
    rewrite Hnorm, Hget. cbn.
    rewrite (IH child false sub);
      [by destruct path| |done|by destruct path as [|[]]|done].
    rewrite Forall_forall in Hall. apply (Hall (k, child)).
    by apply get_elem_of.
  - destruct t as [| | | |items| |]; try done.
    cbn [subtreeAt] in Hsub.
    destruct (items !! i) as [child|] eqn:Hget; [|done].
    cbn in Hsub. apply ptree_wf_array in Hwf.
    cbn [jsonAt normTree]. rewrite list_lookup_fmap, Hget. cbn.
    assert (ownPath path) as Hrest by (intros Hin; apply Hown; by right).
    rewrite (IH child false sub);
      [by destruct path| |done|by destruct path as [|[]]|done].
    rewrite Forall_forall in Hwf. apply Hwf. by eapply list_elem_of_lookup_2.
Qed.

Lemma filter_filter_key {A} (p : string -> bool) (l : list (string * A)) :
  filter (fun kv => p kv.1) (filter (fun kv => p kv.1) l)
  = filter (fun kv => p kv.1) l.
Proof.
  induction l as [|x l IH]; [done|].
  rewrite filter_cons. destruct (decide (p x.1)) as [Hp|Hp]; [|done].
  rewrite filter_cons, decide_True by done. by rewrite IH.
Qed.

(** At the root, [description] and [summary] are left out. *)
Lemma normTree_root_docs fields :
  normTree true (PRec fields)
  = normTree true (PRec (filter (fun kv => negb (isDocKey kv.1)) fields)).
Proof.
  rewrite !normTree_record.
  assert (Hsame : forall l : list (string * ptree),
             filter (fun kv => keptInFingerprint true kv.1) l
             = filter (fun kv => negb (isDocKey kv.1)) l) by reflexivity.
  pose proof (filter_filter_key (fun k => negb (isDocKey k)) fields) as Hff.
  cbn beta in Hff. by rewrite (Hsame fields), (Hsame (filter _ fields)), Hff.
Qed.

End FingerprintPaths.

Lemma string_compare_trans (a b c : string) :
  String.compare a b = Lt -> String.compare b c = Lt -> String.compare a c = Lt.
Proof.
  revert b c. induction a as [|x a IH]; intros [|y b] [|z c]; cbn; try done.
  destruct (Ascii.compare x y) eqn:Hxy; try done.
  - apply Ascii.compare_eq_iff in Hxy as ->.
    destruct (Ascii.compare y z); try done. by apply IH.
  - destruct (Ascii.compare y z) eqn:Hyz; try done.
    + apply Ascii.compare_eq_iff in Hyz as ->. by rewrite Hxy.
    + intros _ _. assert (Ascii.compare x z = Lt) as ->; [|done].
      unfold Ascii.compare in *.
      change (N_of_ascii x < N_of_ascii y)%N in Hxy.
      change (N_of_ascii y < N_of_ascii z)%N in Hyz.
      change (N_of_ascii x < N_of_ascii z)%N. lia.
Qed.

#[global] Instance posix_collation : @CollationOrder Posix.host.
Proof.
  split; cbn.
  - intros a b. apply String.compare_antisym.
  - apply string_compare_trans.
Qed.

(** Where the comparison ties equal strings only, distinct keys are
    untied. *)
Lemma untied_NoDup `{Host} (keys : list string) :
  (forall a b, localeCompare a b = Eq -> a = b) ->
  NoDup keys -> untied keys.
Proof.
  intros Hties. induction 1 as [|key keys Hkey Hnd IH]; [done|].
  split; [|done]. apply Forall_forall. intros other Hother Htie.
  apply Hties in Htie as ->. done.
Qed.

Lemma isDocKey_own key : isDocKey key = true -> key ≠ "__proto__".
Proof. by intros Hkey ->. Qed.

Lemma subtreeAt_wf path : forall t sub,
  ptree_wf t -> subtreeAt path t = Some sub -> ptree_wf sub.
Proof.
  induction path as [|[k|i] path IH]; intros t sub Hwf Hsub.
  - cbn in Hsub. by injection Hsub as <-.
  - destruct t as [| | | | |fields|]; try done. cbn [subtreeAt] in Hsub.
    destruct (Props.get fields k) as [child|] eqn:Hget; [|done].
    apply ptree_wf_record in Hwf as [_ Hall]. rewrite Forall_forall in Hall.
    apply (IH child); [|done]. apply (Hall (k, child)). by apply get_elem_of.
  - destruct t as [| | | |items| |]; try done. cbn [subtreeAt] in Hsub.
    destruct (items !! i) as [child|] eqn:Hget; [|done].
    apply ptree_wf_array in Hwf. rewrite Forall_forall in Hwf.
    apply (IH child); [|done]. apply Hwf. by eapply list_elem_of_lookup_2.
Qed.

Section FingerprintSpec.
Context `{CollationOrder}.

Lemma nestedPath_kept path : nestedPath path -> keptPath true path.
Proof.
  destruct path as [|[k|i] path]; cbn; try done.
  unfold keptInFingerprint, isDocKey. by intros ->.
Qed.

(** C5, amended.  The fingerprint is the printed normal form of the
    schema's tree of paths.  Two schemas whose trees are equal up to the
    order of the keys of any record and up to the root's [description] and
    [summary] have one fingerprint, where [localeCompare] ties no two keys
    of a record; two schemas with nested records at the same place, one
    holding a doc string where the other holds nothing or something else,
    have different fingerprints, unless the place lies under a key
    [__proto__] or the other holds a back edge against the doc string
    "[Circular]"; and where the tree has a back edge that is not under a
    key [__proto__], the normal form holds the string "[Circular]". *)
Theorem fingerprint_spec
    (hA : heap) (a : addr) (hB : heap) (b : addr) (tA tB : ptree) :
  heap_wf hA -> heap_wf hB ->
  pathTree hA ∅ (VObj a) tA ->
  pathTree hB ∅ (VObj b) tB ->
  (sameSchema tA tB -> ptree_untied tA ->
   createSchemaFingerprint hA a = createSchemaFingerprint hB b)
  /\ (forall path fields1 fields2 key doc,
        nestedPath path -> ownPath path ->
        subtreeAt path tA = Some (PRec fields1) ->
        subtreeAt path tB = Some (PRec fields2) ->
        isDocKey key = true ->
        Props.get fields1 key = Some (PStr doc) ->
        (Props.get fields2 key = None
         \/ exists other, Props.get fields2 key = Some other
                          /\ other ≠ PStr doc
                          /\ (other = PBack -> doc ≠ "[Circular]")) ->
        createSchemaFingerprint hA a ≠ createSchemaFingerprint hB b)
  /\ createSchemaFingerprint hA a = JSON_stringify (normTree true tA)
  /\ (forall path,
        nestedPath path -> ownPath path ->
        subtreeAt path tA = Some PBack ->
        jsonAt path (normTree true tA) = Some (JStr "[Circular]")).
Proof.
  intros HwfA HwfB HpathA HpathB.
  pose proof (pathTree_wf _ _ _ _ HwfA HpathA) as HtA.
  pose proof (pathTree_wf _ _ _ _ HwfB HpathB) as HtB.
  rewrite (createSchemaFingerprint_pathTree hA a tA HpathA).
  rewrite (createSchemaFingerprint_pathTree hB b tB HpathB).
  split; [|split; [|split]].
  - intros (fields1 & fields2 & -> & -> & Hre) Huntied. f_equal.
    rewrite (normTree_root_docs fields1), (normTree_root_docs fields2).
    apply normTree_reorder; [|done].
    apply ptree_untied_record in Huntied as [Hkeys Hall].
    apply ptree_untied_record. split.
    + by apply (untied_keys_filter (fun k => negb (isDocKey k))).
    + by apply Forall_filter_keep.
  - intros path fields1 fields2 key doc Hnested Hown Hsub1 Hsub2 Hkey Hdoc
           Hother Heq%JSON_stringify_inj.
    pose proof (normTree_subtree path tA true _ HtA Hsub1
                  (nestedPath_kept _ Hnested) Hown) as Hat1.
    pose proof (normTree_subtree path tB true _ HtB Hsub2
                  (nestedPath_kept _ Hnested) Hown) as Hat2.
    pose proof (subtreeAt_wf _ _ _ HtA Hsub1) as [Hnd1 _]%ptree_wf_record.
    pose proof (subtreeAt_wf _ _ _ HtB Hsub2) as [Hnd2 _]%ptree_wf_record.
    rewrite Heq, Hat2 in Hat1. destruct path as [|step path]; [done|].
    apply (inj Some) in Hat1.
    pose proof (get_normTree_record false fields1 key Hnd1 eq_refl
                  (isDocKey_own key Hkey)) as Hget1.
    pose proof (get_normTree_record false fields2 key Hnd2 eq_refl
                  (isDocKey_own key Hkey)) as Hget2.
    rewrite <- Hat1 in Hget1.
    destruct (normTree false (PRec fields2)) as [| | | | |normalized]; try done.
    rewrite Hget2, Hdoc in Hget1.
    destruct Hother as [Hnone|(other & Hsome & Hne & Hback)].
    + by rewrite Hnone in Hget1.
    + rewrite Hsome in Hget1. cbn [fmap option_fmap option_map] in Hget1.
      injection Hget1 as Hsame.
      destruct other as [| | |s| | |]; cbn [normTree] in Hsame; try discriminate.
      * injection Hsame as ->. done.
      * injection Hsame as <-. by apply Hback.
  - done.
  - intros path Hnested Hown Hsub.
    rewrite (normTree_subtree path tA true _ HtA Hsub
               (nestedPath_kept _ Hnested) Hown).
    by destruct path.
Qed.

End FingerprintSpec.

(** Derive the tree of paths of a closed heap value. *)
Ltac path_tree :=
  lazymatch goal with
  | |- pathTree _ _ VNull _ => apply pathTree_null
  | |- pathTree _ _ (VBool _) _ => apply pathTree_bool
  | |- pathTree _ _ (VNum _) _ => apply pathTree_num
  | |- pathTree _ _ (VStr _) _ => apply pathTree_str
  | |- pathTree _ _ (VObj _) PBack => apply pathTree_back; set_solver by lia
  | |- pathTree _ _ (VObj _) (PRec _) =>
      apply pathTree_record; [set_solver by lia | done | cbn; path_trees]
  | |- pathTree _ _ (VObj _) (PArr _) =>
      eapply pathTree_array; [set_solver by lia | reflexivity | path_trees]
  end
with path_trees :=
  lazymatch goal with
  | |- Forall2 _ [] [] => constructor
  | |- Forall2 (pathTree _ _) (_ :: _) (_ :: _) =>
      constructor; [path_tree | path_trees]
  | |- Forall2 _ (_ :: _) (_ :: _) =>
      constructor; [split; [reflexivity | cbn; path_tree] | path_trees]
  end.

Lemma childSummary_pathTree summary :
  pathTree (childSummary summary) ∅ (VObj 2) (childSummaryTree summary).
Proof. unfold childSummary, childSummaryTree. path_tree. Qed.

Lemma twinSchemas_pathTree :
  pathTree twinSchemas ∅ (VObj 0)
    (PRec [("type", PStr "object"); ("title", PStr "Pet")])
  /\ pathTree twinSchemas ∅ (VObj 1)
       (PRec [("title", PStr "Pet"); ("type", PStr "object")]).
Proof. unfold twinSchemas. split; path_tree. Qed.

Lemma fingerprint_spec_witness :
  createSchemaFingerprint twinSchemas 0 = createSchemaFingerprint twinSchemas 1
  /\ createSchemaFingerprint (childSummary "A") 2
     ≠ createSchemaFingerprint (childSummary "B") 2.
Proof.
  split.
  - apply (proj1 (fingerprint_spec twinSchemas 0 twinSchemas 1
                    (PRec [("type", PStr "object"); ("title", PStr "Pet")])
                    (PRec [("title", PStr "Pet"); ("type", PStr "object")])
                    (heap_wfb_correct twinSchemas eq_refl)
                    (heap_wfb_correct twinSchemas eq_refl)
                    (proj1 twinSchemas_pathTree) (proj2 twinSchemas_pathTree))).
    + eexists _, _. split; [reflexivity|]. split; [reflexivity|].
      apply (reorder_record _ _ [("title", PStr "Pet"); ("type", PStr "object")]).
      * apply perm_swap.
      * repeat constructor.
    + cbn. repeat (split || constructor); discriminate.
  - apply (proj1 (proj2 (fingerprint_spec
                           (childSummary "A") 2 (childSummary "B") 2
                           (childSummaryTree "A") (childSummaryTree "B")
                           (heap_wfb_correct (childSummary "A") eq_refl)
                           (heap_wfb_correct (childSummary "B") eq_refl)
                           (childSummary_pathTree "A") (childSummary_pathTree "B")))
             [KStr "properties"; KStr "child"]
             [("type", PStr "string"); ("summary", PStr "A")]
             [("type", PStr "string"); ("summary", PStr "B")] "summary" "A");
      [reflexivity | | reflexivity | reflexivity | reflexivity | reflexivity |].
    + apply (bool_decide_eq_true_1 _). reflexivity.
    + right. exists (PStr "B"). split; [reflexivity|]. split; discriminate.
Defined.

(** The comparison of [canonicalHost] is consistent, and it ties two
    strings that are not equal. *)
Lemma canonical_collation : @CollationOrder canonicalHost.
Proof.
  split; cbn.
  - intros a b. apply String.compare_antisym.
  - intros a b c. apply string_compare_trans.
Qed.

Lemma tiedKeys_pathTree :
  pathTree tiedKeys ∅ (VObj 0)
    (PRec [(precomposed, PNum 1); (decomposed, PNum 2)])
  /\ pathTree tiedKeysSwapped ∅ (VObj 0)
       (PRec [(decomposed, PNum 2); (precomposed, PNum 1)]).
Proof. unfold tiedKeys, tiedKeysSwapped. split; path_tree. Qed.

Lemma nestedDescription_pathTree :
  pathTree (nestedDescription (VObj 2)) ∅ (VObj 2) (nestedDescriptionTree PBack)
  /\ pathTree (nestedDescription (VStr "[Circular]")) ∅ (VObj 2)
       (nestedDescriptionTree (PStr "[Circular]")).
Proof. unfold nestedDescription, nestedDescriptionTree. split; path_tree. Qed.

Lemma underProto_pathTree description :
  pathTree (underProto description) ∅ (VObj 2) (underProtoTree description).
Proof. unfold underProto, underProtoTree. path_tree. Qed.

(** C5 as stated fails in three places.  Where [localeCompare] ties two
    keys, as it does for canonically equivalent spellings, the stable sort
    leaves them in the order they came in, and two schemas that differ in
    the order of their keys only have different fingerprints.  A nested
    [description] that is a back edge and one that is the string
    "[Circular]" give one fingerprint.  And what lies under a key
    [__proto__] is left out of the fingerprint, so that two schemas that
    differ in a nested [description] there have one fingerprint. *)
Lemma fingerprint_not_as_stated :
  (localeCompare (Host := canonicalHost) precomposed decomposed = Eq
   /\ pathTree tiedKeys ∅ (VObj 0)
        (PRec [(precomposed, PNum 1); (decomposed, PNum 2)])
   /\ pathTree tiedKeysSwapped ∅ (VObj 0)
        (PRec [(decomposed, PNum 2); (precomposed, PNum 1)])
   /\ sameSchema (PRec [(precomposed, PNum 1); (decomposed, PNum 2)])
                (PRec [(decomposed, PNum 2); (precomposed, PNum 1)])
   /\ createSchemaFingerprint (H := canonicalHost) tiedKeys 0
      ≠ createSchemaFingerprint (H := canonicalHost) tiedKeysSwapped 0)
  /\ (pathTree (nestedDescription (VObj 2)) ∅ (VObj 2)
        (nestedDescriptionTree PBack)
      /\ pathTree (nestedDescription (VStr "[Circular]")) ∅ (VObj 2)
           (nestedDescriptionTree (PStr "[Circular]"))
      /\ subtreeAt [KStr "properties"; KStr "child"; KStr "description"]
           (nestedDescriptionTree PBack) = Some PBack
      /\ subtreeAt [KStr "properties"; KStr "child"; KStr "description"]
           (nestedDescriptionTree (PStr "[Circular]"))
         = Some (PStr "[Circular]")
      /\ createSchemaFingerprint (nestedDescription (VObj 2)) 2
         = createSchemaFingerprint (nestedDescription (VStr "[Circular]")) 2)
  /\ (pathTree (underProto "A") ∅ (VObj 2) (underProtoTree "A")
      /\ pathTree (underProto "B") ∅ (VObj 2) (underProtoTree "B")
      /\ subtreeAt [KStr "properties"; KStr "__proto__"; KStr "description"]
           (underProtoTree "A") = Some (PStr "A")
      /\ subtreeAt [KStr "properties"; KStr "__proto__"; KStr "description"]
           (underProtoTree "B") = Some (PStr "B")
      /\ createSchemaFingerprint (underProto "A") 2
         = createSchemaFingerprint (underProto "B") 2).
Proof.
  split; [|split].
  - split; [reflexivity|].
    split; [apply tiedKeys_pathTree|]. split; [apply tiedKeys_pathTree|].
    split; [|by vm_compute].
    eexists _, _. split; [reflexivity|]. split; [reflexivity|].
    apply (reorder_record _ _ [(decomposed, PNum 2); (precomposed, PNum 1)]).
    + apply perm_swap.
    + repeat constructor.
  - split; [apply nestedDescription_pathTree|].
    split; [apply nestedDescription_pathTree|].
    split; [reflexivity|]. split; [reflexivity|]. vm_compute. reflexivity.
  - split; [apply underProto_pathTree|]. split; [apply underProto_pathTree|].
    split; [reflexivity|]. split; [reflexivity|]. vm_compute. reflexivity.
Qed.

(** ** Loops that can fail *)

Lemma foldl_pointwise {A B : Type} (f g : A → B → A) (l : list B) (a : A) :
  (∀ a b, f a b = g a b) → foldl f a l = foldl g a l.
Proof.
  intros Hfg. revert a. induction l as [|b l IH]; intros a; [reflexivity|].
  cbn. rewrite Hfg. apply IH.
Qed.

Section OptionFold.
Context {A B : Type}.

Lemma foldl_bind_None (f : A → B → option A) (l : list B) :
  foldl (fun acc b => a ← acc; f a b) None l = None.
Proof. induction l as [|b l IH]; [reflexivity|exact IH]. Qed.

(** The invariant of a loop that comes to its end. *)
Lemma foldl_bind_ind (P : A → list B → Prop) (f : A → B → option A)
    (l : list B) (a r : A) :
  foldl (fun acc b => a ← acc; f a b) (Some a) l = Some r →
  P a l →
  (∀ a b rest a', P a (b :: rest) → f a b = Some a' → P a' rest) →
  P r [].
Proof.
  revert a. induction l as [|b l IH]; intros a Hrun HP Hstep.
  - injection Hrun as <-. exact HP.
  - cbn in Hrun. destruct (f a b) as [a'|] eqn:Hf.
    + eapply IH; [exact Hrun| |exact Hstep]. eapply Hstep; eauto.
    + rewrite foldl_bind_None in Hrun. discriminate.
Qed.

Lemma foldl_bind_ext (f g : A → B → option A) (l : list B) (a r : A) :
  (∀ a b r, b ∈ l → f a b = Some r → g a b = Some r) →
  foldl (fun acc b => a ← acc; f a b) (Some a) l = Some r →
  foldl (fun acc b => a ← acc; g a b) (Some a) l = Some r.
Proof.
  revert a. induction l as [|b l IH]; intros a Hfg Hrun; [exact Hrun|].
  cbn in *. destruct (f a b) as [a'|] eqn:Hf.
  - rewrite (Hfg a b a'); [|left|exact Hf]. apply IH; [|exact Hrun].
    intros ? ? ? Hin. apply Hfg. right. exact Hin.
  - rewrite foldl_bind_None in Hrun. discriminate.
Qed.

End OptionFold.

(** ** The walker *)

Section WalkFacts.
Context {S : Type} (heapOf : S → heap) (visitor : WalkVisitor (S := S)).

Lemma walk_unfold (fuel : nat) (v : value) (ctx : bool) (pointer : string)
    (seen : gset addr) (parent : option (addr * pkey)) (s : S) :
  walk heapOf fuel visitor v ctx pointer seen parent s
  = match v with
    | VObj a =>
        s1 ← visitor a pointer ctx parent s;
        if bool_decide (a ∈ seen) then Some (s1, seen)
        else match fuel with
             | O => None
             | Datatypes.S fuel' =>
                 '(s2, seen2) ← walkChildren heapOf fuel' visitor a ctx pointer
                                  s1 ({[a]} ∪ seen);
                 Some (s2, seen2 ∖ {[a]})
             end
    | _ => Some (s, seen)
    end.
Proof.
  destruct fuel, v; try reflexivity.
  cbn [walk]. destruct (visitor _ _ _ _ _) as [s1|]; [|reflexivity]. cbn.
  destruct (bool_decide _); [reflexivity|].
  unfold walkChildren.
  destruct (heapOf s1 !! a) as [[fields|items]|]; cbn.
  - f_equal. apply foldl_pointwise.
    intros [[s' seen']|] [key child]; reflexivity.
  - f_equal. apply foldl_pointwise. intros [[s' seen']|] index; reflexivity.
  - reflexivity.
Qed.

#[local] Opaque walk.

(** More fuel does not change a result. *)
Lemma walk_fuel_mono (fuel fuel' : nat) (v : value) (ctx : bool)
    (pointer : string) (seen : gset addr) (parent : option (addr * pkey))
    (s : S) (r : S * gset addr) :
  (fuel ≤ fuel')%nat →
  walk heapOf fuel visitor v ctx pointer seen parent s = Some r →
  walk heapOf fuel' visitor v ctx pointer seen parent s = Some r.
Proof.
  revert fuel' v ctx pointer seen parent s r.
  induction fuel as [|fuel IH]; intros fuel' v ctx pointer seen parent s r Hle;
    rewrite !walk_unfold; destruct v as [| | | |a]; try done;
    destruct (visitor a pointer ctx parent s) as [s1|]; try done; cbn;
    destruct (bool_decide (a ∈ seen)); try done.
  destruct fuel' as [|fuel']; [lia|].
  destruct (walkChildren heapOf fuel visitor a ctx pointer s1 ({[a]} ∪ seen))
    as [[s2 seen2]|] eqn:Hchildren; [|done].
  cbn. intros <-.
  assert (walkChildren heapOf fuel' visitor a ctx pointer s1 ({[a]} ∪ seen)
          = Some (s2, seen2)) as ->; [|reflexivity].
  revert Hchildren. unfold walkChildren.
  destruct (heapOf s1 !! a) as [[fields|items]|]; [| |done].
  - apply foldl_bind_ext. intros acc entry r' _. apply IH. lia.
  - apply foldl_bind_ext. intros acc index r' _. unfold walkItem.
    destruct (heapOf acc.1 !! a) as [[?|current]|]; try done.
    destruct (current !! index); [|done]. apply IH. lia.
Qed.

Lemma walkRoot_fuel_mono (fuel fuel' : nat) (root : value) (s s' : S) :
  (fuel ≤ fuel')%nat →
  walkRoot heapOf fuel visitor root s = Some s' →
  walkRoot heapOf fuel' visitor root s = Some s'.
Proof.
  unfold walkRoot. intros Hle.
  destruct (walk heapOf fuel _ _ _ _ _ _ _) as [r|] eqn:Hwalk; [|done].
  rewrite (walk_fuel_mono _ _ _ _ _ _ _ _ _ Hle Hwalk). done.
Qed.

End WalkFacts.
(** What a traversal preserves: an invariant [I] of the states, a preorder
    [R] they move along, and a condition [C] on the arguments of every call
    of the visitor, which holds of the children of an object as the loop
    reads them and survives what happens until their turn comes. *)
Section WalkInvariant.
Context {S : Type} (heapOf : S → heap) (visitor : WalkVisitor (S := S)).
Variable I : S → Prop.
Variable R : S → S → Prop.
Variable C : S → addr → bool → option (addr * pkey) → Prop.
Hypothesis R_refl : ∀ s, R s s.
Hypothesis R_trans : ∀ s1 s2 s3, R s1 s2 → R s2 s3 → R s1 s3.
Hypothesis visitor_ok : ∀ a pointer ctx parent s s',
  I s → C s a ctx parent → visitor a pointer ctx parent s = Some s' →
  I s' ∧ R s s'.
Hypothesis C_stable : ∀ s s' a ctx parent,
  I s → I s' → R s s' → C s a ctx parent → C s' a ctx parent.
Hypothesis C_entry : ∀ s a ctx parent fields key c,
  I s → C s a ctx parent → heapOf s !! a = Some (ORecord fields) →
  (key, VObj c) ∈ fields →
  C s c (ctx || isSchemaContextKey key) (Some (a, KStr key)).
Hypothesis C_item : ∀ s a ctx parent items index c,
  I s → C s a ctx parent → heapOf s !! a = Some (OArray items) →
  items !! index = Some (VObj c) →
  C s c ctx (Some (a, KIdx index)).

#[local] Opaque walk.

Lemma walk_invariant (fuel : nat) (v : value) (ctx : bool) (pointer : string)
    (seen : gset addr) (parent : option (addr * pkey)) (s : S)
    (r : S * gset addr) :
  walk heapOf fuel visitor v ctx pointer seen parent s = Some r →
  I s → (∀ a, v = VObj a → C s a ctx parent) →
  I r.1 ∧ R s r.1.
Proof.
  revert v ctx pointer seen parent s r.
  induction fuel as [|fuel IH]; intros v ctx pointer seen parent s r;
    rewrite walk_unfold; destruct v as [| | | |a];
    try (intros [= <-]; auto);
    (destruct (visitor a pointer ctx parent s) as [s1|] eqn:Hvisit; [|done]);
    cbn; intros Hrun HI HC;
    (destruct (visitor_ok _ _ _ _ _ _ HI (HC a eq_refl) Hvisit) as [HI1 HR1]);
    (destruct (bool_decide (a ∈ seen)); [injection Hrun as <-; auto|]);
    [done|].
  destruct (walkChildren heapOf fuel visitor a ctx pointer s1 ({[a]} ∪ seen))
    as [[s2 seen2]|] eqn:Hchildren; [|done].
  injection Hrun as <-. cbn.
  assert (HC1 : C s1 a ctx parent) by eauto.
  cut (I s2 ∧ R s1 s2); [intros []; eauto|].
  revert Hchildren. unfold walkChildren.
  destruct (heapOf s1 !! a) as [[fields|items]|] eqn:Hobj.
  - intros Hfold.
    apply (foldl_bind_ind
             (fun acc rest => (∀ e, e ∈ rest → e ∈ fields) ∧ I acc.1 ∧ R s1 acc.1)
             _ _ _ _ Hfold); [auto|].
    intros [sa seena] [key child] rest [sb seenb] (Hsub & HIa & HRa) Hentry.
    cbn in *. unfold walkEntry in Hentry. cbn in Hentry.
    apply IH in Hentry as [HIb HRb]; [| exact HIa |].
    + split; [intros; apply Hsub; right; done|]. split; eauto.
    + intros c ->. eapply C_stable; [exact HI1|exact HIa|exact HRa|].
      eapply C_entry; eauto. apply Hsub. left.
  - intros Hfold.
    apply (foldl_bind_ind (fun acc rest => I acc.1 ∧ R s1 acc.1)
             _ _ _ _ Hfold); [auto|].
    intros [sa seena] index rest [sb seenb] (HIa & HRa) Hitem.
    cbn in *. unfold walkItem in Hitem. cbn in Hitem.
    destruct (heapOf sa !! a) as [[?|current]|] eqn:Hcur;
      try (injection Hitem as <- <-; auto).
    destruct (current !! index) as [item|] eqn:Hidx;
      [|injection Hitem as <- <-; auto].
    apply IH in Hitem as [HIb HRb]; [| exact HIa |]; [eauto|].
    intros c ->. eapply C_item; eauto.
  - intros [= <- <-]. auto.
Qed.

End WalkInvariant.

(** ** Fuel does not change results *)


Lemma fuelMonotone_unique {A} (f : nat → option A) n x m y :
  fuelMonotone f → f n = Some x → f m = Some y → y = x.
Proof.
  intros Hmono Hn Hm. destruct (Nat.le_ge_cases n m) as [Hle|Hge].
  - rewrite (Hmono _ _ _ Hle Hn) in Hm. congruence.
  - rewrite (Hmono _ _ _ Hge Hm) in Hn. congruence.
Qed.

Lemma fuelMonotone_bind {A B} (f : nat → option A) (g : A → nat → option B) :
  fuelMonotone f → (∀ x, fuelMonotone (g x)) →
  fuelMonotone (fun fuel => x ← f fuel; g x fuel).
Proof.
  intros Hf Hg fuel fuel' y Hle. destruct (f fuel) as [x|] eqn:Hx; [|done].
  rewrite (Hf _ _ _ Hle Hx). cbn. apply Hg, Hle.
Qed.

Lemma fuelMonotone_const {A} (x : option A) : fuelMonotone (fun _ => x).
Proof. intros ? ? ? _ H. exact H. Qed.

Lemma walkRoot_monotone {S} (heapOf : S → heap) visitor root s :
  fuelMonotone (fun fuel => walkRoot heapOf fuel visitor root s).
Proof. intros fuel fuel' x. apply walkRoot_fuel_mono. Qed.

Lemma collectSchemaTargets_monotone h root externalSchemas :
  fuelMonotone (fun fuel => collectSchemaTargets fuel h root externalSchemas).
Proof.
  unfold collectSchemaTargets.
  apply (fuelMonotone_bind (fun fuel => walkRoot _ fuel _ _ _) (fun found _ => Some _)).
  - apply walkRoot_monotone.
  - intros found. apply fuelMonotone_const.
Qed.

Lemma createWorkingState_monotone h root refs :
  fuelMonotone (fun fuel => createWorkingState fuel h root refs).
Proof.
  unfold createWorkingState.
  destruct (createSchemaRegistry h root) as [[h1 registry]|]; cbn; [|apply fuelMonotone_const].
  destruct (refs_paths refs) as [|rootPath ?]; [apply fuelMonotone_const|].
  destruct (registerLoadedFiles h1 refs rootPath) as [externalSchemas resolver].
  apply (fuelMonotone_bind (fun fuel => collectSchemaTargets fuel _ _ _)
           (fun targets _ => hoistSchemaTargets targets _)).
  - apply collectSchemaTargets_monotone.
  - intros targets. apply fuelMonotone_const.
Qed.

Lemma rewriteLocal_monotone root s :
  fuelMonotone (fun fuel => rewriteLocalSchemaRefsToComponents fuel root s).
Proof. apply walkRoot_monotone. Qed.


(** ** The loop that replaces inline schemas: two aliases of each other *)

Section AliasDocument.

#[local] Opaque walk.


Lemma aliasHeap_live g t : aliasHeap g t !! (7 + length g) = Some (refTo t).
Proof.
  unfold aliasHeap. rewrite lookup_app_r; [|cbn; lia].
  replace (7 + length g - length (aliasBase (7 + length g))) with (length g + 0)
    by (cbn; lia).
  rewrite lookup_app_r by lia. replace (length g + 0 - length g) with 0 by lia. reflexivity.
Qed.

Lemma aliasIndex_eq g t :
  buildExternalComponentFingerprintIndex (aliasHeap g t) aliasRegistry aliasResolver = aliasIndex.
Proof. vm_compute. reflexivity. Qed.

Lemma fingerprint_ref h r p :
  h !! r = Some (ORecord [("$ref", VStr p)]) →
  createSchemaFingerprint h r = JSON_stringify (JRec [("$ref", JStr p)]).
Proof.
  intros Hr. unfold createSchemaFingerprint. cbn [normalizeForFingerprint].
  rewrite decide_False by set_solver. rewrite Hr. unfold entriesOf. rewrite Hr.
  cbn. destruct (decide True); [|done]. cbn.
  destruct (length h); cbn;
    (replace (({[r]} ∪ ∅) ∖ {[r]}) with (∅ : gset addr) by set_solver);
    reflexivity.
Qed.

Lemma aliasResolver_nameByValue r : (7 ≤ r)%nat → nameByValue aliasResolver !! r = None.
Proof.
  intros Hr.
  assert (nameByValue aliasResolver = (<[3 := "A"]> (<[4 := "B"]> ∅))) as -> by (vm_compute; reflexivity).
  rewrite !lookup_insert_ne by lia. apply lookup_empty.
Qed.

Lemma other_candidate :
  canonicalByFingerprint aliasResolver !! JSON_stringify (JRec [("$ref", JStr "#/components/schemas/B")]) = Some [("A", 3)]
  ∧ canonicalByFingerprint aliasResolver !! JSON_stringify (JRec [("$ref", JStr "#/components/schemas/A")]) = Some [("B", 4)].
Proof. split; vm_compute; reflexivity. Qed.


Lemma aliasRegistry_pointers :
  schemaPointersByValue aliasRegistry !! 3 = Some "#/components/schemas/A"
  ∧ schemaPointersByValue aliasRegistry !! 4 = Some "#/components/schemas/B".
Proof. split; vm_compute; reflexivity. Qed.

Lemma isEquivalentRefReplacement_other h value replacement :
  field h value "$ref" ≠ Props.get replacement "$ref" →
  isEquivalentRefReplacement h value replacement = false.
Proof.
  intros Hne. unfold isEquivalentRefReplacement.
  rewrite bool_decide_eq_false_2 by exact Hne. reflexivity.
Qed.

Lemma visit_ref g t c pointer :
  t = "A" ∨ t = "B" →
  isComponentSchemaRootPointer pointer = false →
  rewriteInlineVisitor aliasIndex (7 + length g) pointer true
    (Some (6, KStr "schema")) (aliasState g t, c)
  = Some (aliasState (g ++ [refTo t]) (otherAlias t), true).
Proof.
  intros Ht Hptr. unfold rewriteInlineVisitor.
  pose proof (aliasHeap_live g t) as Hlive.
  cbn [negb orb st_heap aliasState st_resolver st_registry].
  rewrite Hptr.
  unfold isRecord at 1. rewrite Hlive. cbn [refTo negb orb].
  unfold resolveExternalSchemaCandidate, resolveByFingerprint.
  rewrite aliasResolver_nameByValue by lia.
  rewrite (fingerprint_ref _ _ _ Hlive).
  destruct other_candidate as [HB HA], aliasRegistry_pointers as [H3 H4].
  assert (Hsummary : ∀ p, refReplacement (aliasHeap g t) (7 + length g) p = [("$ref", VStr p)]).
  { intros p. unfold refReplacement, string_field, field. rewrite Hlive. reflexivity. }
  assert (Hfield : field (aliasHeap g t) (7 + length g) "$ref" = Some (VStr ("#/components/schemas/" +:+ t))).
  { unfold field. rewrite Hlive. reflexivity. }
  assert (Hstore : ∀ t', storeNew (aliasHeap g t) 6 (KStr "schema") [("$ref", VStr ("#/components/schemas/" +:+ t'))]
                         = aliasHeap (g ++ [refTo t]) t').
  { intros t'. unfold storeNew, alloc, store, aliasHeap. cbn.
    rewrite !length_app. cbn. rewrite <- !app_assoc. cbn.
    reflexivity. }
  destruct Ht as [-> | ->].
  - change ("#/components/schemas/" +:+ "A") with "#/components/schemas/A" in *.
    rewrite HA. cbn [from_option cand_schema cand_name].
    unfold registerSchemaInComponents. rewrite H4. cbn [mbind option_bind].
    rewrite Hsummary, isEquivalentRefReplacement_other by (rewrite Hfield; done).
    reflexivity.
  - change ("#/components/schemas/" +:+ "B") with "#/components/schemas/B" in *.
    rewrite HB. cbn [from_option cand_schema cand_name].
    unfold registerSchemaInComponents. rewrite H3. cbn [mbind option_bind].
    rewrite Hsummary, isEquivalentRefReplacement_other by (rewrite Hfield; done).
    reflexivity.
Qed.


#[local] Abbreviation inlineWalk := (walk (fun sc : state * bool => st_heap sc.1)).

Lemma walk_leaf {S} (heapOf : S → heap) fuel visitor v ctx pointer seen parent s :
  (∀ a, v ≠ VObj a) →
  walk heapOf fuel visitor v ctx pointer seen parent s = Some (s, seen).
Proof. intros Hv. rewrite walk_unfold. destruct v; try done. by destruct (Hv a). Qed.

Lemma rewriteInlineVisitor_outside index a pointer parent sc :
  rewriteInlineVisitor index a pointer false parent sc = Some sc.
Proof. destruct sc, parent as [[]|]; reflexivity. Qed.

Lemma aliasHeap_old g t t' :
  aliasHeap (g ++ [refTo t]) t' !! (7 + length g) = Some (refTo t).
Proof.
  unfold aliasHeap. rewrite lookup_app_r; [|cbn; lia].
  replace (7 + length g - length (aliasBase (7 + length (g ++ [refTo t]))))
    with (length g + 0) by (cbn; lia).
  rewrite <- app_assoc, lookup_app_r by lia.
  replace (length g + 0 - length g) with 0 by lia. reflexivity.
Qed.

Lemma walk_live fuel g t c ctx pointer seen :
  t = "A" ∨ t = "B" →
  ctx = true →
  isComponentSchemaRootPointer pointer = false →
  7 + length g ∉ seen →
  inlineWalk (S fuel) (rewriteInlineVisitor aliasIndex) (VObj (7 + length g)) ctx
    pointer seen (Some (6, KStr "schema")) (aliasState g t, c)
  = Some ((aliasState (g ++ [refTo t]) (otherAlias t), true), seen).
Proof.
  intros Ht -> Hptr Hseen. rewrite walk_unfold, visit_ref by done.
  cbn [mbind option_bind]. rewrite bool_decide_eq_false_2 by done.
  unfold walkChildren. cbn [fst st_heap aliasState].
  rewrite aliasHeap_old. cbn [refTo foldl mbind option_bind].
  unfold walkEntry. rewrite walk_leaf by done. cbn [mbind option_bind].
  do 2 f_equal. set_solver.
Qed.

Lemma aliasHeap_at g t :
  aliasHeap g t !! 0 = Some (ORecord [("openapi", VStr "3.0.3"); ("components", VObj 1)])
  ∧ aliasHeap g t !! 1 = Some (ORecord [("schemas", VObj 2); ("parameters", VObj 5)])
  ∧ aliasHeap g t !! 5 = Some (ORecord [("P", VObj 6)])
  ∧ aliasHeap g t !! 6 = Some (ORecord [("name", VStr "p"); ("in", VStr "query");
                                        ("schema", VObj (7 + length g))]).
Proof. repeat split. Qed.

Lemma walk_schemas g t c pointer :
  pointer = "#/components/schemas" →
  inlineWalk 3 (rewriteInlineVisitor aliasIndex) (VObj 2) true pointer
    ({[1]} ∪ ({[0]} ∪ ∅)) (Some (1, KStr "schemas")) (aliasState g t, c)
  = Some ((aliasState g t, c), {[1]} ∪ ({[0]} ∪ ∅)).
Proof. intros ->. destruct c; vm_compute; reflexivity. Qed.

Lemma pass_turn g t :
  t = "A" ∨ t = "B" →
  rewriteInlinePass 5 (VObj 0) (aliasState g t)
  = Some (aliasState (g ++ [refTo t]) (otherAlias t), true).
Proof.
  intros Ht. destruct (aliasHeap_at g t) as (H0 & H1 & H5 & H6).
  unfold rewriteInlinePass.
  change (st_heap (aliasState g t)) with (aliasHeap g t).
  change (st_registry (aliasState g t)) with aliasRegistry.
  change (st_resolver (aliasState g t)) with aliasResolver.
  rewrite aliasIndex_eq. unfold walkRoot.
  (* the root *)
  rewrite walk_unfold, rewriteInlineVisitor_outside. cbn [mbind option_bind].
  rewrite bool_decide_eq_false_2 by set_solver.
  unfold walkChildren at 1. cbn [fst st_heap aliasState]. rewrite H0.
  cbn [foldl mbind option_bind]. unfold walkEntry at 1 2. cbn [fst snd].
  rewrite walk_leaf by done. cbn [mbind option_bind fst snd].
  (* components *)
  rewrite walk_unfold, rewriteInlineVisitor_outside. cbn [mbind option_bind].
  rewrite bool_decide_eq_false_2 by set_solver.
  unfold walkChildren at 1. cbn [fst st_heap aliasState]. rewrite H1.
  cbn [foldl mbind option_bind]. unfold walkEntry at 1 2. cbn [fst snd].
  rewrite walk_schemas by reflexivity. cbn [mbind option_bind fst snd].
  (* parameters *)
  rewrite walk_unfold, rewriteInlineVisitor_outside. cbn [mbind option_bind].
  rewrite bool_decide_eq_false_2 by set_solver.
  unfold walkChildren at 1. cbn [fst st_heap aliasState]. rewrite H5.
  cbn [foldl mbind option_bind]. unfold walkEntry at 1. cbn [fst snd].
  (* P *)
  rewrite walk_unfold, rewriteInlineVisitor_outside. cbn [mbind option_bind].
  rewrite bool_decide_eq_false_2 by set_solver.
  unfold walkChildren at 1. cbn [fst st_heap aliasState]. rewrite H6.
  cbn [foldl mbind option_bind]. unfold walkEntry at 1 2 3. cbn [fst snd].
  rewrite walk_leaf by done. cbn [mbind option_bind fst snd].
  rewrite walk_leaf by done. cbn [mbind option_bind fst snd].
  rewrite walk_live; [|done|reflexivity|reflexivity|set_solver by lia].
  reflexivity.
Qed.

Lemma otherAlias_cases t : t = "A" ∨ t = "B" → otherAlias t = "A" ∨ otherAlias t = "B".
Proof. intros [-> | ->]; [right|left]; reflexivity. Qed.

Lemma pass_turn_any fuel g t r :
  t = "A" ∨ t = "B" →
  rewriteInlinePass fuel (VObj 0) (aliasState g t) = Some r →
  r = (aliasState (g ++ [refTo t]) (otherAlias t), true).
Proof.
  intros Ht Hrun. pose proof (pass_turn g t Ht) as Hfive.
  destruct (Nat.le_ge_cases fuel 5) as [Hle|Hge].
  - unfold rewriteInlinePass in *.
    rewrite (walkRoot_fuel_mono _ _ _ _ _ _ _ Hle Hrun) in Hfive. congruence.
  - unfold rewriteInlinePass in *.
    rewrite (walkRoot_fuel_mono _ _ _ _ _ _ _ Hge Hfive) in Hrun. congruence.
Qed.

Lemma alias_turns_all_change n g t :
  t = "A" ∨ t = "B" → is_Some (turnsChanged n 5 (VObj 0) (aliasState g t)).
Proof.
  revert g t. induction n as [|n IH]; intros g t Ht; cbn; [done|].
  rewrite pass_turn by done. apply IH, otherAlias_cases, Ht.
Qed.

Lemma alias_loop_never_ends turns fuel g t :
  t = "A" ∨ t = "B" →
  rewriteInlineExternalSchemasToComponentRefs turns fuel (VObj 0) (aliasState g t) = None.
Proof.
  revert g t. induction turns as [|turns IH]; intros g t Ht; cbn; [done|].
  destruct (rewriteInlinePass fuel (VObj 0) (aliasState g t)) as [r|] eqn:Hpass; [|done].
  rewrite (pass_turn_any _ _ _ _ Ht Hpass). cbn. apply IH, otherAlias_cases, Ht.
Qed.


Lemma alias_hoist_never_ends fuel :
  hoistBundledSchemas fuel aliasDocument aliasParser = None.
Proof.
  unfold hoistBundledSchemas. cbn [parser_refs parser_schema aliasParser].
  replace (isOpenAPI aliasDocument (VObj 0)) with true by (vm_compute; reflexivity).
  cbn [negb].
  destruct (createWorkingState fuel aliasDocument 0 aliasRefs) as [s|] eqn:Hs; [|done].
  apply (fuelMonotone_unique _ 5 (aliasState [] "B") _ _ (createWorkingState_monotone _ _ _)) in Hs;
    [|vm_compute; reflexivity].
  subst s. cbn [mbind option_bind]. unfold rewriteDocument.
  destruct (rewriteLocalSchemaRefsToComponents fuel (VObj 0) (aliasState [] "B")) as [s|] eqn:Hs; [|done].
  apply (fuelMonotone_unique _ 5 (aliasState [] "B") _ _ (rewriteLocal_monotone _ _)) in Hs;
    [|vm_compute; reflexivity].
  subst s. cbn [mbind option_bind].
  rewrite alias_loop_never_ends by (by right). reflexivity.
Qed.

(** When the visitor finds the record already in the shape of its
    replacement, it stores nothing and leaves [changed] as it is. *)
Lemma rewriteInlineVisitor_equivalent `{Host} index value pointer parent
    parentKey s changed selected componentPointer h1 registry1 :
  isComponentSchemaRootPointer pointer = false →
  isRecord (st_heap s) (Some (VObj value)) = true →
  from_option Some
    match resolveExternalSchemaCandidate (st_heap s) value (st_resolver s) with
    | None => resolveExternalComponentCandidate (st_heap s) value index
    | Some _ => None
    end
    (resolveExternalSchemaCandidate (st_heap s) value (st_resolver s))
  = Some selected →
  registerSchemaInComponents (st_heap s) (st_registry s) (cand_schema selected)
    (cand_name selected) = Some (componentPointer, h1, registry1) →
  isEquivalentRefReplacement h1 value (refReplacement h1 value componentPointer)
  = true →
  rewriteInlineVisitor index value pointer true (Some (parent, parentKey))
    (s, changed)
  = Some (State h1 registry1 (st_resolver s), changed).
Proof.
  intros Hpointer Hrecord Hselected Hregister Hequivalent.
  unfold rewriteInlineVisitor. rewrite Hpointer, Hrecord. cbn [negb orb].
  rewrite Hselected, Hregister. cbn [mbind option_bind].
  rewrite Hequivalent. reflexivity.
Qed.

(** C7 (the code departs from the claim).  The loop of
    [rewriteInlineExternalSchemasToComponentRefs] does not end on every
    document: where the files [A.yaml] and [B.yaml] each hold nothing but a
    reference to the other, a reference to [B] has the fingerprint of [A]
    and is replaced by a reference to [A], which has the fingerprint of [B]
    and is replaced in the next turn.  On [aliasDocument], whose working
    state is [aliasState [] "B"], every turn of the loop replaces the schema
    of the parameter, so that the loop has no result whatever the bounds on
    its turns and on the depth of the traversal, and neither has
    [hoistBundledSchemas]. *)
Theorem rewriteInline_loop_diverges_on_aliases :
  createWorkingState 5 aliasDocument 0 aliasRefs = Some (aliasState [] "B")
  ∧ (∀ n, is_Some (turnsChanged n 5 (VObj 0) (aliasState [] "B")))
  ∧ (∀ turns fuel,
       rewriteInlineExternalSchemasToComponentRefs turns fuel (VObj 0)
         (aliasState [] "B") = None)
  ∧ (∀ fuel, hoistBundledSchemas fuel aliasDocument aliasParser = None).
Proof.
  split; [vm_compute; reflexivity|].
  split; [intros n; apply alias_turns_all_change; by right|].
  split; [intros turns fuel; apply alias_loop_never_ends; by right|].
  exact alias_hoist_never_ends.
Qed.

End AliasDocument.

(** ** What the passes leave alone *)

Section FrameFacts.
Context (N E : gset addr).

Lemma slot_lt h a k v : slot h a k = Some v → (a < length h)%nat.
Proof.
  unfold slot. destruct (h !! a) eqn:Ha; [|done]. intros _.
  eapply lookup_lt_Some, Ha.
Qed.

Lemma slot_field h a key : slot h a (KStr key) = field h a key.
Proof. unfold slot, field. by destruct (h !! a) as [[]|]. Qed.

Lemma slot_alloc h o a k : (a < length h)%nat → slot (h ++ [o]) a k = slot h a k.
Proof. intros Ha. unfold slot. by rewrite lookup_app_l. Qed.

Lemma slot_store_ne h a k v a' k' :
  (a', k') ≠ (a, k) → slot (store h a k v) a' k' = slot h a' k'.
Proof.
  intros Hne. unfold slot, store.
  destruct (decide (a' = a)) as [->|Ha].
  - destruct (h !! a) as [[fields|items]|] eqn:Hobj, k as [key|i];
      try (by rewrite Hobj).
    + rewrite list_lookup_insert_eq by (eapply lookup_lt_Some, Hobj).
      destruct k' as [key'|i']; [|done].
      apply get_set_ne. congruence.
    + rewrite list_lookup_insert_eq by (eapply lookup_lt_Some, Hobj).
      destruct k' as [key'|i']; [done|].
      apply list_lookup_insert_ne. congruence.
  - destruct (h !! a) as [[fields|items]|] eqn:Hobj, k as [key|i];
      try done; by rewrite list_lookup_insert_ne.
Qed.

Lemma slot_store_eq h a k v v' :
  slot (store h a k v) a k = Some v' → v' = v ∨ slot h a k = Some v'.
Proof.
  unfold slot, store.
  destruct (h !! a) as [[fields|items]|] eqn:Hobj, k as [key|i];
    try (rewrite Hobj; auto).
  - rewrite list_lookup_insert_eq by (eapply lookup_lt_Some, Hobj).
    rewrite get_set_eq. intros [= <-]. auto.
  - rewrite list_lookup_insert_eq by (eapply lookup_lt_Some, Hobj).
    destruct (decide (i < length items)%nat).
    + rewrite list_lookup_insert_eq by done. intros [= <-]. auto.
    + rewrite list_insert_ge by lia. auto.
Qed.

Lemma store_kind h a k v b o :
  h !! b = Some o → ∃ o', store h a k v !! b = Some o' ∧ sameKind o o'.
Proof.
  intros Hb. unfold store.
  destruct (h !! a) as [[fields|items]|] eqn:Hobj, k as [key|i];
    try (exists o; split; [done|by destruct o]).
  - destruct (decide (b = a)) as [->|Hne].
    + rewrite list_lookup_insert_eq by (eapply lookup_lt_Some, Hobj).
      eexists. split; [done|]. rewrite Hobj in Hb. by injection Hb as <-.
    + rewrite list_lookup_insert_ne by done. exists o. split; [done|by destruct o].
  - destruct (decide (b = a)) as [->|Hne].
    + rewrite list_lookup_insert_eq by (eapply lookup_lt_Some, Hobj).
      eexists. split; [done|]. rewrite Hobj in Hb. by injection Hb as <-.
    + rewrite list_lookup_insert_ne by done. exists o. split; [done|by destruct o].
Qed.

Lemma framed_refl h : framed N E h h.
Proof.
  split; eauto.
  intros a o Ha. exists o. split; [done|by destruct o].
Qed.

Lemma sameKind_trans o1 o2 o3 : sameKind o1 o2 → sameKind o2 o3 → sameKind o1 o3.
Proof. by destruct o1, o2, o3. Qed.

Lemma framed_trans h1 h2 h3 : framed N E h1 h2 → framed N E h2 h3 → framed N E h1 h3.
Proof.
  intros [Hlen1 Hkind1 Hpay1 Hhold1 Hkeep1 Hback1 Href1]
         [Hlen2 Hkind2 Hpay2 Hhold2 Hkeep2 Hback2 Href2].
  split.
  - lia.
  - intros a o Ha. destruct (Hkind1 _ _ Ha) as (o2 & Ha2 & Hk).
    destruct (Hkind2 _ _ Ha2) as (o3 & Ha3 & Hk'). eauto using sameKind_trans.
  - intros a Ha. rewrite Hpay2, Hpay1; done.
  - eauto.
  - intros a k c Ha Hslot Hc. destruct (Hkeep1 _ _ _ Ha Hslot Hc) as (c2 & Hslot2 & Hc2).
    eauto.
  - eauto.
  - intros a ref Ha Href Hcomp. apply Href1; [done| |done]. apply Href2; [lia|done|done].
Qed.

Lemma slot_store_hit h a k v :
  is_Some (slot h a k) → slot (store h a k v) a k = Some v.
Proof.
  unfold slot, store.
  destruct (h !! a) as [[fields|items]|] eqn:Hobj, k as [key|i];
    try (by intros [? [=]]).
  - intros _. rewrite list_lookup_insert_eq by (eapply lookup_lt_Some, Hobj).
    apply get_set_eq.
  - intros [x Hx]. rewrite list_lookup_insert_eq by (eapply lookup_lt_Some, Hobj).
    apply list_lookup_insert_eq. eapply lookup_lt_Some, Hx.
Qed.

Lemma string_field_slot h a key s :
  string_field h a key = Some s ↔ slot h a (KStr key) = Some (VStr s).
Proof.
  unfold string_field. rewrite slot_field.
  destruct (field h a key) as [[]|]; split; intros [=]; by subst.
Qed.

Lemma alloc_outside h o :
  outside N E h →
  (∀ fields, o = ORecord fields → NoDup (Props.keys fields)) →
  (∀ k c, slot (h ++ [o]) (length h) k = Some (VObj c) → c ∉ N) →
  outside N E (h ++ [o]) ∧ framed N E h (h ++ [o]).
Proof.
  intros [Hwf Hdom Hparents Hcontext Hsub Hclosed] Hkeys Hchildren.
  assert (Hold : ∀ a k v, slot (h ++ [o]) a k = Some v →
                 a = length h ∨ ((a < length h)%nat ∧ slot h a k = Some v)).
  { intros a k v Hslot. pose proof (slot_lt _ _ _ _ Hslot) as Hlt.
    rewrite length_app in Hlt. cbn in Hlt.
    destruct (decide (a = length h)); [by left|right].
    split; [lia|]. rewrite <- slot_alloc with (o := o) by lia. done. }
  split; split.
  - by apply heap_wf_alloc.
  - intros a Ha. rewrite length_app. specialize (Hdom a Ha). lia.
  - intros a k c Hslot Hc. destruct (Hold _ _ _ Hslot) as [->|[_ Hslot']]; [|eauto].
    by destruct (Hchildren _ _ Hslot).
  - intros a key c Hslot Hkey. destruct (Hold _ _ _ Hslot) as [->|[_ Hslot']]; eauto.
  - done.
  - intros a k c Ha Hslot. rewrite slot_alloc in Hslot; [eauto|]. apply Hdom, Hsub, Ha.
  - rewrite length_app. lia.
  - intros a o' Ha. exists o'. split; [|by destruct o'].
    rewrite lookup_app_l; [done|]. eapply lookup_lt_Some, Ha.
  - intros a Ha. apply lookup_app_l, Hdom, Hsub, Ha.
  - intros a k c Hc Hslot. rewrite slot_alloc; [done|]. eapply slot_lt, Hslot.
  - intros a k c Ha Hslot Hc. exists c. split; [|done].
    rewrite slot_alloc; [done|]. by apply Hdom.
  - intros a k c Ha Hc Hslot. rewrite slot_alloc in Hslot; [done|]. by apply Hdom.
  - intros a ref Ha. rewrite !string_field_slot, slot_alloc by done. auto.
Qed.

Lemma store_outside h a k v :
  outside N E h → storable N E h a k v →
  outside N E (store h a k v) ∧ framed N E h (store h a k v).
Proof.
  intros [Hwf Hdom Hparents Hcontext Hsub Hclosed]
         [Hpayload Hobject Hprimitive Hheld Href].
  assert (Hnew : ∀ a' k' c, slot (store h a k v) a' k' = Some (VObj c) →
                 (v = VObj c ∧ a' = a ∧ k' = k) ∨ slot h a' k' = Some (VObj c)).
  { intros a' k' c Hslot. destruct (decide ((a', k') = (a, k))) as [[= -> ->]|Hne].
    - destruct (slot_store_eq _ _ _ _ _ Hslot) as [<-|]; auto.
    - rewrite slot_store_ne in Hslot by done. auto. }
  split; split.
  - by apply heap_wf_store.
  - intros a' Ha'. rewrite store_length. auto.
  - intros a' k' c Hslot Hc. destruct (Hnew _ _ _ Hslot) as [(-> & _)|Hold]; [|eauto].
    by destruct (Hobject c).
  - intros a' key c Hslot Hkey. destruct (Hnew _ _ _ Hslot) as [(-> & _)|Hold]; eauto.
  - done.
  - intros a' k' c Ha' Hslot. rewrite slot_store_ne in Hslot; [eauto|].
    intros [= -> ->]. done.
  - by rewrite store_length.
  - intros a' o. apply store_kind.
  - intros a' Ha'. apply lookup_store_ne. intros ->. done.
  - intros a' k' c Hc Hslot.
    destruct (decide ((a', k') = (a, k))) as [[= -> ->]|Hne].
    + destruct (Hheld c); eauto.
    + by rewrite slot_store_ne.
  - intros a' k' c Ha' Hslot Hc.
    destruct (decide ((a', k') = (a, k))) as [[= -> ->]|Hne].
    + destruct v as [| | | |c']; try (by destruct Hprimitive).
      exists c'. split; [|by apply Hobject]. apply slot_store_hit. eauto.
    + exists c. by rewrite slot_store_ne.
  - intros a' k' c Ha' Hc Hslot. destruct (Hnew _ _ _ Hslot) as [(-> & _)|Hold]; [|done].
    by destruct (Hobject c).
  - intros a' ref Ha'. rewrite !string_field_slot. intros Hslot Hcomp.
    destruct (decide ((a', KStr "$ref") = (a, k))) as [[= -> <-]|Hne].
    + destruct (slot_store_eq _ _ _ _ _ Hslot) as [<-|]; [|done].
      destruct (Href ref) as [Hc|]; [done|done| |done]. congruence.
    + by rewrite slot_store_ne in Hslot.
Qed.

End FrameFacts.

Section StateFacts.
Context `{Host} (N E : gset addr) (root : addr).

Lemma keepsSchemas_alloc h o :
  outside N E h → keepsSchemas N root h → keepsSchemas N root (h ++ [o]).
Proof.
  intros Hout [Hroot Hkeep]. split; [rewrite length_app; lia|].
  intros c Hcomponents Hc.
  assert (c < length h)%nat as Hlt by (by eapply out_dom).
  rewrite field_alloc in Hcomponents by done.
  destruct (Hkeep c Hcomponents Hc) as [x Hx]. exists x. by rewrite field_alloc.
Qed.

Lemma keepsSchemas_store h a k v :
  storable N E h a k v → keepsSchemas N root h →
  keepsSchemas N root (store h a k v).
Proof.
  intros [Hpayload Hobject Hprimitive Hheld Href] [Hroot Hkeep].
  split; [by rewrite store_length|]. intros c. rewrite <- !slot_field.
  intros Hcomponents Hc.
  assert (slot h root (KStr "components") = Some (VObj c)) as Hold.
  { destruct (decide ((root, KStr "components") = (a, k))) as [[= <- <-]|Hne].
    - destruct (slot_store_eq _ _ _ _ _ Hcomponents) as [<-|]; [|done].
      by destruct (Hobject c).
    - by rewrite slot_store_ne in Hcomponents. }
  rewrite slot_field in Hold. destruct (Hkeep c Hold Hc) as [x Hx].
  destruct (decide ((c, KStr "schemas") = (a, k))) as [[= <- <-]|Hne].
  - destruct v as [| | | |c']; try (by destruct Hprimitive).
    exists c'. apply slot_store_hit. rewrite slot_field. eauto.
  - exists x. rewrite slot_store_ne by done. by rewrite slot_field.
Qed.

(** A store the frame allows, in a state. *)
Lemma outsideState_store s a k v :
  outsideState N E root s → storable N E (st_heap s) a k v →
  outsideState N E root (State (store (st_heap s) a k v) (st_registry s) (st_resolver s))
  ∧ framed N E (st_heap s) (store (st_heap s) a k v).
Proof.
  intros [Hheap Hschemas Hcomp Hptr Hname Hfp Hpath] Hstore.
  destruct (store_outside N E _ _ _ _ Hheap Hstore) as [Hout Hframed].
  split; [|done]. split; cbn; eauto using keepsSchemas_store.
Qed.

Lemma outsideState_alloc s o :
  outsideState N E root s →
  (∀ fields, o = ORecord fields → NoDup (Props.keys fields)) →
  (∀ k c, slot (st_heap s ++ [o]) (length (st_heap s)) k = Some (VObj c) → c ∉ N) →
  outsideState N E root (State (st_heap s ++ [o]) (st_registry s) (st_resolver s))
  ∧ framed N E (st_heap s) (st_heap s ++ [o]).
Proof.
  intros [Hheap Hschemas Hcomp Hptr Hname Hfp Hpath] Hkeys Hchildren.
  destruct (alloc_outside N E _ _ Hheap Hkeys Hchildren) as [Hout Hframed].
  split; [|done]. split; cbn; eauto using keepsSchemas_alloc.
Qed.

Lemma startsWith_app p s : Str.startsWith p (p +:+ s) = true.
Proof.
  induction p as [|c p IH]; [by destruct s|].
  rewrite append_cons. cbn. rewrite Ascii.eqb_refl. exact IH.
Qed.

Lemma isComponentRef_componentPointer name : isComponentRef (componentPointer name) = true.
Proof. apply startsWith_app. Qed.

Lemma registerSchemaInComponents_outside s schema preferredName pointer h' registry' :
  outsideState N E root s → schema ∉ N →
  registerSchemaInComponents (st_heap s) (st_registry s) schema preferredName
  = Some (pointer, h', registry') →
  outsideState N E root (State h' registry' (st_resolver s))
  ∧ framed N E (st_heap s) h'
  ∧ length h' = length (st_heap s)
  ∧ isComponentRef pointer = true.
Proof.
  intros Hs Hschema. unfold registerSchemaInComponents.
  destruct (schemaPointersByValue (st_registry s) !! schema) as [[|c existing]|] eqn:Hlook.
  2: { intros [= <- <- <-]. destruct s.
       split; [exact Hs|]. split; [apply framed_refl|]. split; [done|].
       eapply os_pointers; eauto. }
  all: destruct (createUniqueSchemaName preferredName (schemaNames (st_registry s)))
         as [[uniqueName names]|]; [|done]; cbn [mbind option_bind]; intros [= <- <- <-].
  all: assert (storable N E (st_heap s) (componentSchemas (st_registry s))
                 (KStr uniqueName) (VObj schema)) as Hstore
         by (split; [pose proof (out_sub _ _ _ (os_heap _ _ _ _ Hs)); by intros ?%H0;
                       destruct (os_components _ _ _ _ Hs)
                    | by intros ? [= <-] | by intros Hp; destruct (Hp schema)
                    | by intros ? ?; destruct (os_components _ _ _ _ Hs)
                    | done]).
  all: destruct (outsideState_store _ _ _ _ Hs Hstore) as [Hs' Hframed].
  all: split; [|split; [done|split; [apply store_length|apply isComponentRef_componentPointer]]].
  all: destruct Hs' as [Hheap Hschemas Hcomp Hptr Hname Hfp Hpath]; split; try done.
  all: intros a pointer; cbn [st_registry schemaPointersByValue]; rewrite lookup_insert_Some;
       intros [[_ <-]|[_ Hold]]; [apply isComponentRef_componentPointer|eauto].
Qed.

End StateFacts.

Section CallFacts.
Context `{Host} (N E : gset addr) (root : addr).

Lemma callOutside_framed h h' a ctx parent :
  framed N E h h' → callOutside N h a ctx parent → callOutside N h' a ctx parent.
Proof.
  intros Hframed [Hvalue Hparent]. split; [done|].
  intros p k Hp Hctx HpN. destruct (Hparent p k Hp Hctx HpN) as (c & Hslot & Hc).
  eapply fr_keep; eauto.
Qed.

Lemma callOutside_entry h a ctx parent fields key c :
  outside N E h → callOutside N h a ctx parent →
  h !! a = Some (ORecord fields) → (key, VObj c) ∈ fields →
  callOutside N h c (ctx || isSchemaContextKey key) (Some (a, KStr key)).
Proof.
  intros Hout [Hvalue _] Hobj Hin.
  assert (slot h a (KStr key) = Some (VObj c)) as Hslot.
  { unfold slot. rewrite Hobj. apply get_elem_of_NoDup; [|done].
    eapply out_wf; eauto. }
  assert (c ∈ N → ctx || isSchemaContextKey key = false) as Hc.
  { intros Hc. rewrite Hvalue by (eapply out_parents; eauto). cbn.
    destruct (isSchemaContextKey key) eqn:Hkey; [|done].
    by destruct (out_context _ _ _ Hout _ _ _ Hslot Hkey). }
  split; [done|]. intros p k [= <- <-] Hctx _. exists c. split; [done|].
  intros HcN. rewrite Hc in Hctx; done.
Qed.

Lemma callOutside_item h a ctx parent items index c :
  outside N E h → callOutside N h a ctx parent →
  h !! a = Some (OArray items) → items !! index = Some (VObj c) →
  callOutside N h c ctx (Some (a, KIdx index)).
Proof.
  intros Hout [Hvalue _] Hobj Hin.
  assert (slot h a (KIdx index) = Some (VObj c)) as Hslot
    by (unfold slot; by rewrite Hobj).
  assert (c ∈ N → ctx = false) as Hc
    by (intros Hc; apply Hvalue; eapply out_parents; eauto).
  split; [done|]. intros p k [= <- <-] Hctx _. exists c. split; [done|].
  intros HcN. rewrite Hc in Hctx; done.
Qed.

Lemma callOutside_root h a : callOutside N h a false None.
Proof. split; [done|]. intros p k [=]. Qed.

(** The parent of a value visited in a schema context is not a payload. *)
Lemma callOutside_parent h a p k :
  outside N E h → callOutside N h a true (Some (p, k)) → p ∉ E.
Proof.
  intros Hout [_ Hparent] Hp.
  destruct (Hparent p k eq_refl eq_refl) as (c & Hslot & Hc).
  - eapply out_sub; eauto.
  - apply Hc. eapply out_sub; [done|]. eapply out_closed; eauto.
Qed.

(** The slot a visitor may store into holds no object of [N], also after the
    heap has moved along the frame. *)
Lemma callOutside_held h h' a p k c :
  framed N E h h' → callOutside N h a true (Some (p, k)) →
  p ∈ N → slot h' p k = Some (VObj c) → c ∉ N.
Proof.
  intros Hframed [_ Hparent] Hp Hslot Hc.
  destruct (Hparent p k eq_refl eq_refl Hp) as (c0 & Hslot0 & Hc0).
  pose proof (fr_back _ _ _ _ Hframed _ _ _ Hp Hc Hslot) as Hold.
  congruence.
Qed.

Lemma resolveExternalSchemaCandidate_outside s schema selected :
  outsideState N E root s →
  resolveExternalSchemaCandidate (st_heap s) schema (st_resolver s) = Some selected →
  cand_schema selected ∉ N.
Proof.
  intros Hs. unfold resolveExternalSchemaCandidate, resolveByFingerprint.
  assert (match canonicalByFingerprint (st_resolver s)
                  !! createSchemaFingerprint (st_heap s) schema with
          | Some [(name, canonical)] => Some (Candidate name canonical)
          | _ => None
          end = Some selected → cand_schema selected ∉ N) as Hfp.
  { destruct (canonicalByFingerprint _ !! _) as [[|[name canonical] [|]]|] eqn:Hlook;
      try done.
    intros [= <-]. cbn. eapply os_byFingerprint; [done|done|]. left. }
  destruct (nameByValue (st_resolver s) !! schema) as [[|c n]|]; try done.
  destruct (canonicalByName (st_resolver s) !! String c n) eqn:Hname; [|done].
  intros [= <-]. cbn. eapply os_byName; eauto.
Qed.

End CallFacts.

Section ResolveFacts.
Context `{Host} (N E : gset addr) (root : addr).

Lemma resolveTokens_object h next rest c :
  resolveTokens h next rest = Some (VObj c) → ∃ b, next = Some (VObj b).
Proof.
  destruct rest as [|token rest]; cbn; [eauto|].
  destruct next as [[| | | |b]|]; try done. eauto.
Qed.

(** One step of [resolveLocalPointer] reads a slot. *)
Lemma resolveTokens_step h a token rest c :
  resolveTokens h (Some (VObj a)) (token :: rest) = Some (VObj c) →
  ∃ k b, slot h a k = Some (VObj b)
         ∧ resolveTokens h (Some (VObj b)) rest = Some (VObj c)
         ∧ match h !! a with
           | Some (ORecord _) => k = KStr token
           | Some (OArray _) =>
               ∃ index, toInteger token = Some index ∧ (0 ≤ index)%Z
                        ∧ k = KIdx (Z.to_nat index)
           | None => False
           end.
Proof.
  cbn. unfold slot. destruct (h !! a) as [[fields|items]|]; [| |done].
  - intros Hrest. destruct (resolveTokens_object _ _ _ _ Hrest) as [b Hb].
    exists (KStr token), b. rewrite Hb in Hrest. auto.
  - destruct (toInteger token) as [index|]; [|done]. intros Hrest.
    destruct (resolveTokens_object _ _ _ _ Hrest) as [b Hb].
    rewrite Hb in Hrest. unfold array_get in Hb.
    destruct (index <? 0)%Z eqn:Hneg; [done|].
    exists (KIdx (Z.to_nat index)), b.
    split; [done|]. split; [done|]. exists index. repeat split. lia.
Qed.

Lemma resolveTokens_parent h tokens a c :
  outside N E h →
  resolveTokens h (Some (VObj a)) tokens = Some (VObj c) → c ∈ N → a ∈ N.
Proof.
  intros Hout. revert a. induction tokens as [|token rest IH]; intros a.
  - by intros [= ->].
  - intros (k & b & Hslot & Hrest & _)%resolveTokens_step Hc.
    eapply out_parents; eauto.
Qed.

Lemma resolveTokens_back h h' tokens a c :
  outside N E h → outside N E h' → framed N E h h' → c ∈ N →
  resolveTokens h' (Some (VObj a)) tokens = Some (VObj c) →
  resolveTokens h (Some (VObj a)) tokens = Some (VObj c).
Proof.
  intros Hout Hout' Hframed Hc. revert a.
  induction tokens as [|token rest IH]; intros a; [done|].
  intros Hrun. pose proof (resolveTokens_parent _ _ _ _ Hout' Hrun Hc) as Ha.
  destruct (resolveTokens_step _ _ _ _ _ Hrun) as (k & b & Hslot & Hrest & Hkind).
  pose proof (resolveTokens_parent _ _ _ _ Hout' Hrest Hc) as Hb.
  pose proof (fr_back _ _ _ _ Hframed _ _ _ Ha Hb Hslot) as Hold.
  apply IH in Hrest.
  assert (a < length h)%nat as Hlt by (eapply out_dom; eauto).
  destruct (lookup_lt_is_Some_2 _ _ Hlt) as [o Ho].
  destruct (fr_kind _ _ _ _ Hframed _ _ Ho) as (o' & Ho' & Hsame).
  rewrite Ho' in Hkind. cbn. unfold slot in Hold. rewrite Ho in Hold |- *.
  destruct o as [fields|items], o' as [fields'|items']; try done.
  - subst k. by rewrite Hold.
  - destruct Hkind as (index & -> & Hpos & ->). unfold array_get.
    destruct (index <? 0)%Z eqn:Hneg; [lia|]. by rewrite Hold.
Qed.

Lemma refsOutside_framed h h' :
  outside N E h → outside N E h' → framed N E h h' → length h' = length h →
  refsOutside N root h → refsOutside N root h'.
Proof.
  intros Hout Hout' Hframed Hlen Hrefs a ref c Href Hlocal Hcomp Hresolve Hc.
  assert (a < length h)%nat as Hlt.
  { rewrite <- Hlen. apply string_field_slot in Href. eapply slot_lt, Href. }
  pose proof (fr_ref _ _ _ _ Hframed _ _ Hlt Href Hcomp) as Hold.
  apply (Hrefs a ref c Hold Hlocal Hcomp); [|done].
  unfold resolveLocalPointer in *. destruct (String.eqb ref "#"); [done|].
  destruct (negb (Str.startsWith "#/" ref)); [done|].
  eapply resolveTokens_back; eauto.
Qed.

End ResolveFacts.

Section LocalRefs.
Context `{Host} (N E : gset addr) (root : addr).

Lemma rewriteLocalVisitor_outside value pointer ctx parent s s' :
  outsideState N E root s → refsOutside N root (st_heap s) →
  callOutside N (st_heap s) value ctx parent →
  rewriteLocalVisitor (VObj root) value pointer ctx parent s = Some s' →
  (outsideState N E root s' ∧ refsOutside N root (st_heap s'))
  ∧ (framed N E (st_heap s) (st_heap s')
     ∧ length (st_heap s') = length (st_heap s)).
Proof.
  intros Hs Hrefs [Hvalue _]. unfold rewriteLocalVisitor.
  assert (Hsame : Some s = Some s' →
          (outsideState N E root s' ∧ refsOutside N root (st_heap s'))
          ∧ (framed N E (st_heap s) (st_heap s')
             ∧ length (st_heap s') = length (st_heap s))).
  { intros [= <-]. split; [by split|]. split; [apply framed_refl|done]. }
  destruct ctx; [|done]. cbn [negb orb].
  destruct (isRecord (st_heap s) (Some (VObj value))); [|done]. cbn [negb].
  destruct (string_field (st_heap s) value "$ref") as [ref|] eqn:Href; [|done].
  destruct (Str.startsWith "#/" ref) eqn:Hlocal; [|done]. cbn [negb orb].
  destruct (Str.startsWith "#/components/schemas/" ref) eqn:Hcomp; [done|].
  destruct (resolveLocalPointer (st_heap s) (VObj root) ref) as [[| | | |resolved]|]
    eqn:Hresolve; try done.
  destruct (isRecord (st_heap s) (Some (VObj resolved))); [|done]. cbn [negb].
  set (externalMatch := resolveExternalSchemaCandidate _ _ _).
  set (preferredName := default "" _).
  assert (default resolved (cand_schema <$> externalMatch) ∉ N) as Hschema.
  { destruct externalMatch as [selected|] eqn:Hmatch; cbn.
    - eapply resolveExternalSchemaCandidate_outside; eauto.
    - eapply Hrefs; eauto. }
  destruct (registerSchemaInComponents _ _ _ preferredName)
    as [[[componentPointer h1] registry1]|] eqn:Hregister; [|done].
  cbn [mbind option_bind]. intros [= <-]. cbn [st_heap].
  destruct (registerSchemaInComponents_outside N E root _ _ _ _ _ _ Hs Hschema Hregister)
    as (Hs1 & Hframed1 & Hlen1 & Hpointer).
  assert (value ∉ N) as HvalueN by (intros Hin; by specialize (Hvalue Hin)).
  assert (Hfinal : outsideState N E root
            (State (if String.eqb ref componentPointer then h1
                    else store h1 value (KStr "$ref") (VStr componentPointer))
                   registry1 (st_resolver s))
          ∧ framed N E h1 (if String.eqb ref componentPointer then h1
                           else store h1 value (KStr "$ref") (VStr componentPointer))
          ∧ length (if String.eqb ref componentPointer then h1
                    else store h1 value (KStr "$ref") (VStr componentPointer))
            = length h1).
  { destruct (String.eqb ref componentPointer).
    - split; [done|]. split; [apply framed_refl|done].
    - assert (storable N E h1 value (KStr "$ref") (VStr componentPointer)) as Hstore.
      { split; try done.
        - intros Hin. apply HvalueN. eapply out_sub; [|done]. apply Hs.
        - intros ? ? [= <-]. by left. }
      destruct (outsideState_store N E root _ _ _ _ Hs1 Hstore) as [Hs2 Hframed2].
      split; [done|]. split; [done|]. apply store_length. }
  destruct Hfinal as (Hs2 & Hframed2 & Hlen2).
  assert (framed N E (st_heap s) (st_heap (State (if String.eqb ref componentPointer then h1
                    else store h1 value (KStr "$ref") (VStr componentPointer))
                   registry1 (st_resolver s)))) as Hframed
    by (eapply framed_trans; eauto).
  split; [split; [done|]|split; [done|cbn; lia]].
  eapply refsOutside_framed; [apply Hs|apply Hs2|exact Hframed|cbn; lia|done].
Qed.

Lemma rewriteLocal_outside fuel s s' :
  outsideState N E root s → refsOutside N root (st_heap s) →
  rewriteLocalSchemaRefsToComponents fuel (VObj root) s = Some s' →
  outsideState N E root s' ∧ framed N E (st_heap s) (st_heap s').
Proof.
  intros Hs Hrefs. unfold rewriteLocalSchemaRefsToComponents, walkRoot.
  destruct (walk _ _ _ _ _ _ _ _ _) as [r|] eqn:Hwalk; [|done]. intros [= <-].
  eapply (walk_invariant st_heap (rewriteLocalVisitor (VObj root))
            (fun s => outsideState N E root s ∧ refsOutside N root (st_heap s))
            (fun s s' => framed N E (st_heap s) (st_heap s')
                         ∧ length (st_heap s') = length (st_heap s))
            (fun s => callOutside N (st_heap s))) in Hwalk.
  - destruct Hwalk as [[Hs' _] [Hframed _]]. done.
  - intros. split; [apply framed_refl|done].
  - intros s1 s2 s3 [] []. split; [eapply framed_trans; eauto|congruence].
  - intros a pointer ctx parent s1 s2 [] ?. by apply rewriteLocalVisitor_outside.
  - intros s1 s2 a ctx parent _ _ [Hframed _]. by apply callOutside_framed with (E := E).
  - intros s1 a ctx parent fields key c [Hs1 _]. apply (callOutside_entry N E). apply Hs1.
  - intros s1 a ctx parent items index c [Hs1 _]. apply (callOutside_item N E). apply Hs1.
  - done.
  - intros a _. apply callOutside_root.
Qed.

End LocalRefs.

Section InlineFacts.
Context `{Host} (N E : gset addr) (root : addr).

Lemma flat_set fields key s :
  flat fields → flat (Props.set key (VStr s) fields).
Proof.
  intros [Hkeys Hflat]. split; [by apply NoDup_keys_set|].
  intros key' c. destruct (decide (key' = key)) as [->|Hne].
  - by rewrite get_set_eq.
  - rewrite get_set_ne by done. apply Hflat.
Qed.

Lemma flat_refReplacement h node componentPointer :
  flat (refReplacement h node componentPointer).
Proof.
  unfold refReplacement.
  assert (flat [("$ref", VStr componentPointer)]) as Hbase.
  { split; [apply NoDup_singleton|]. intros key c. cbn [Props.get].
    destruct (String.eqb "$ref" key); done. }
  destruct (string_field h node "summary"), (string_field h node "description");
    auto using flat_set.
Qed.

Lemma storeNew_outside s parent parentKey fields :
  outsideState N E root s → parent ∉ E → flat fields →
  (∀ c, parent ∈ N → slot (st_heap s) parent parentKey = Some (VObj c) → c ∉ N) →
  outsideState N E root
    (State (storeNew (st_heap s) parent parentKey fields) (st_registry s) (st_resolver s))
  ∧ framed N E (st_heap s) (storeNew (st_heap s) parent parentKey fields).
Proof.
  intros Hs Hparent [Hkeys Hflat] Hheld. unfold storeNew, alloc.
  destruct (outsideState_alloc N E root s (ORecord fields)) as [Hs1 Hframed1];
    [done|by intros ? [= <-]| |].
  { intros k c. unfold slot. rewrite lookup_app_r, Nat.sub_diag by done. cbn.
    destruct k; [|done]. intros Hget. by destruct (Hflat _ _ Hget). }
  assert (storable N E (st_heap s ++ [ORecord fields]) parent parentKey
            (VObj (length (st_heap s)))) as Hstore.
  { split; try done.
    - intros c [= <-] Hin. pose proof (out_dom _ _ _ (os_heap _ _ _ _ Hs) _ Hin). lia.
    - intros Hp. by destruct (Hp (length (st_heap s))).
    - intros c Hin. rewrite slot_alloc; [by apply Hheld|].
      eapply out_dom; [apply Hs|done]. }
  destruct (outsideState_store N E root _ _ _ _ Hs1 Hstore) as [Hs2 Hframed2].
  split; [done|]. eapply framed_trans; eauto.
Qed.

Lemma buildExternalComponentFingerprintIndex_outside s :
  outsideState N E root s →
  indexOutside N (buildExternalComponentFingerprintIndex (st_heap s) (st_registry s)
                  (st_resolver s)).
Proof.
  intros Hs. unfold buildExternalComponentFingerprintIndex.
  assert (∀ name schema, (name, VObj schema) ∈ entriesOf (st_heap s)
                            (componentSchemas (st_registry s)) → schema ∉ N) as Hentries.
  { intros name schema. unfold entriesOf.
    destruct (st_heap s !! componentSchemas (st_registry s)) as [[fields|]|] eqn:Hcs;
      try by intros ?%elem_of_nil.
    intros Hin Hschema. eapply os_components; [done|].
    eapply out_parents with (k := KStr name); [apply Hs| |done].
    unfold slot. rewrite Hcs. apply get_elem_of_NoDup; [|done].
    eapply out_wf; [apply Hs|done]. }
  revert Hentries. generalize (entriesOf (st_heap s) (componentSchemas (st_registry s))).
  intros entries. assert (indexOutside N ∅) as Hempty by (by intros ? ? ? ?%lookup_empty_Some).
  revert Hempty. generalize (∅ : gmap string (list candidate)).
  induction entries as [|[name v] entries IH]; intros index Hindex Hentries; [done|].
  cbn. apply IH; [|intros; eapply Hentries; by right].
  destruct v as [| | | |schema]; try done.
  destruct (_ && _); [|done].
  intros fingerprint matches m. rewrite lookup_insert_Some.
  intros [[_ <-]|[_ Hold]]; [|eauto].
  rewrite elem_of_app, list_elem_of_singleton. intros [Hm| ->].
  - destruct (index !! _) eqn:Hlook; [eauto|by apply elem_of_nil in Hm].
  - cbn. eapply Hentries. left.
Qed.

Lemma rewriteInlineVisitor_keeps index value pointer ctx parent s changed s' changed' :
  indexOutside N index → outsideState N E root s →
  callOutside N (st_heap s) value ctx parent →
  rewriteInlineVisitor index value pointer ctx parent (s, changed) = Some (s', changed') →
  outsideState N E root s' ∧ framed N E (st_heap s) (st_heap s').
Proof.
  intros Hindex Hs Hcall. unfold rewriteInlineVisitor.
  assert (Hsame : Some (s, changed) = Some (s', changed') →
          outsideState N E root s' ∧ framed N E (st_heap s) (st_heap s')).
  { intros [= <- <-]. split; [done|apply framed_refl]. }
  destruct parent as [[parent parentKey]|]; [|done].
  destruct ctx; [|done]. cbn [negb orb].
  destruct (isComponentSchemaRootPointer pointer); [done|]. cbn [orb].
  destruct (isRecord (st_heap s) (Some (VObj value))); [|done]. cbn [negb].
  destruct (from_option Some _ _) as [selected|] eqn:Hselected; [|done].
  assert (cand_schema selected ∉ N) as Hschema.
  { destruct (resolveExternalSchemaCandidate (st_heap s) value (st_resolver s))
      as [matched|] eqn:Hmatched; cbn in Hselected.
    - injection Hselected as <-. eapply resolveExternalSchemaCandidate_outside; eauto.
    - unfold resolveExternalComponentCandidate in Hselected.
      destruct (index !! _) as [[|m [|]]|] eqn:Hlook; try done.
      injection Hselected as <-. eapply Hindex; [done|left]. }
  destruct (registerSchemaInComponents _ _ _ _)
    as [[[componentPointer h1] registry1]|] eqn:Hregister; [|done].
  cbn [mbind option_bind].
  destruct (registerSchemaInComponents_outside N E root _ _ _ _ _ _ Hs Hschema Hregister)
    as (Hs1 & Hframed1 & Hlen1 & Hpointer).
  destruct (isEquivalentRefReplacement _ _ _); intros [= <- <-]; [done|].
  destruct (storeNew_outside (State h1 registry1 (st_resolver s)) parent parentKey
              (refReplacement h1 value componentPointer)) as [Hs2 Hframed2];
    [done| |apply flat_refReplacement| |].
  - eapply callOutside_parent; [apply Hs|exact Hcall].
  - intros c Hparent Hslot. eapply callOutside_held; eauto.
  - split; [done|]. eapply framed_trans; eauto.
Qed.

End InlineFacts.

Section WalkPasses.
Context `{Host} (N E : gset addr) (root : addr).

(** The shape of the argument for every pass that is a traversal: the
    visitor keeps the invariant and moves along the frame. *)
Lemma walkRoot_outside {S : Type} (project : S → state) (visitor : WalkVisitor)
    (fuel : nat) (s s' : S) :
  (∀ a pointer ctx parent s s',
     outsideState N E root (project s) →
     callOutside N (st_heap (project s)) a ctx parent →
     visitor a pointer ctx parent s = Some s' →
     outsideState N E root (project s')
     ∧ framed N E (st_heap (project s)) (st_heap (project s'))) →
  outsideState N E root (project s) →
  walkRoot (fun s => st_heap (project s)) fuel visitor (VObj root) s = Some s' →
  outsideState N E root (project s')
  ∧ framed N E (st_heap (project s)) (st_heap (project s')).
Proof.
  intros Hvisitor Hs. unfold walkRoot.
  destruct (walk _ _ _ _ _ _ _ _ _) as [r|] eqn:Hwalk; [|done]. intros [= <-].
  eapply (walk_invariant (fun s => st_heap (project s)) visitor
            (fun s => outsideState N E root (project s))
            (fun s s' => framed N E (st_heap (project s)) (st_heap (project s')))
            (fun s => callOutside N (st_heap (project s)))) in Hwalk.
  - done.
  - intros. apply framed_refl.
  - intros s1 s2 s3. apply framed_trans.
  - done.
  - intros s1 s2 a ctx parent _ _ Hframed. by apply callOutside_framed with (E := E).
  - intros s1 a ctx parent fields key c Hs1. apply (callOutside_entry N E). apply Hs1.
  - intros s1 a ctx parent items index c Hs1. apply (callOutside_item N E). apply Hs1.
  - done.
  - intros a _. apply callOutside_root.
Qed.

Lemma rewriteInlinePass_outside fuel s s' changed :
  outsideState N E root s →
  rewriteInlinePass fuel (VObj root) s = Some (s', changed) →
  outsideState N E root s' ∧ framed N E (st_heap s) (st_heap s').
Proof.
  intros Hs Hpass. unfold rewriteInlinePass in Hpass.
  apply (walkRoot_outside fst) in Hpass; [done| |done].
  intros a pointer ctx parent [s1 c1] [s2 c2]. cbn.
  apply rewriteInlineVisitor_keeps.
  exact (buildExternalComponentFingerprintIndex_outside N E root s Hs).
Qed.

Lemma rewriteInline_outside turns fuel s s' :
  outsideState N E root s →
  rewriteInlineExternalSchemasToComponentRefs turns fuel (VObj root) s = Some s' →
  outsideState N E root s' ∧ framed N E (st_heap s) (st_heap s').
Proof.
  revert s. induction turns as [|turns IH]; intros s Hs; [done|]. cbn.
  destruct (rewriteInlinePass fuel (VObj root) s) as [[s1 changed]|] eqn:Hpass; [|done].
  cbn. destruct (rewriteInlinePass_outside _ _ _ _ Hs Hpass) as [Hs1 Hframed1].
  destruct changed.
  - intros Hrest. destruct (IH _ Hs1 Hrest) as [Hs' Hframed']. split; [done|].
    eapply framed_trans; eauto.
  - by intros [= <-].
Qed.

Lemma replaceHoisted_outside fuel s s' :
  outsideState N E root s →
  replaceHoistedObjectsWithRefs fuel (VObj root) s = Some s' →
  outsideState N E root s' ∧ framed N E (st_heap s) (st_heap s').
Proof.
  intros Hs Hpass. unfold replaceHoistedObjectsWithRefs in Hpass.
  apply (walkRoot_outside id) in Hpass; [done| |done].
  clear. intros a pointer ctx parent s s' Hs Hcall. unfold replaceHoistedVisitor, id.
  assert (Hsame : Some s = Some s' →
          outsideState N E root s' ∧ framed N E (st_heap s) (st_heap s')).
  { intros [= <-]. split; [done|apply framed_refl]. }
  destruct parent as [[parent parentKey]|]; [|done].
  destruct ctx; [|done]. cbn [negb].
  destruct (schemaPointersByValue (st_registry s) !! a) as [[|c r]|]; try done.
  destruct (_ || _); [done|]. intros [= <-].
  apply storeNew_outside; [done| | |].
  - eapply callOutside_parent; [apply Hs|exact Hcall].
  - split; [apply NoDup_singleton|]. intros key c'. cbn [Props.get].
    destruct (String.eqb "$ref" key); done.
  - intros c' Hparent Hslot.
    eapply callOutside_held; [apply (framed_refl N E)|exact Hcall|done|done].
Qed.

End WalkPasses.

Section SourceFacts.
Context `{Host} (N E : gset addr) (root : addr).

Lemma outsideState_fresh s a : outsideState N E root s → a ∈ N → (a < length (st_heap s))%nat.
Proof. intros Hs. apply out_dom with (E := E), Hs. Qed.

Lemma allocJson_items_outside items registry resolver :
  Forall (allocOutside N E root) items →
  ∀ vs0 h0 vs h1,
    outsideState N E root (State h0 registry resolver) → Forall (valueOutside N) vs0 →
    foldl (fun acc item =>
             let '(vs, h0) := acc in
             let '(v, h') := allocJson item h0 in (vs ++ [v], h'))
          (vs0, h0) items = (vs, h1) →
    outsideState N E root (State h1 registry resolver) ∧ framed N E h0 h1
    ∧ Forall (valueOutside N) vs.
Proof.
  induction 1 as [|item items Hitem _ IH]; intros vs0 h0 vs h1 Hs0 Hvs0.
  - intros [= <- <-]. auto using framed_refl.
  - cbn. destruct (allocJson item h0) as [v1 h1'] eqn:Halloc.
    destruct (Hitem _ _ _ _ _ Hs0 Halloc) as (Hs1 & Hframed1 & Hv1).
    intros Hfold. apply IH in Hfold as (Hs2 & Hframed2 & Hvs); [|done|].
    + split; [done|]. split; [eapply framed_trans; eauto|done].
    + apply Forall_app. split; [done|]. by constructor.
Qed.

Lemma allocJson_fields_outside (fields : list (string * json)) registry resolver :
  Forall (fun kv => allocOutside N E root kv.2) fields →
  ∀ fs0 h0 fs h1,
    outsideState N E root (State h0 registry resolver) →
    NoDup (Props.keys fs0) →
    (∀ key v, Props.get fs0 key = Some v → valueOutside N v) →
    foldl (fun acc kv =>
             let '(fs, h0) := acc in
             let '(k, item) := kv in
             let '(v, h') := allocJson item h0 in (Props.set k v fs, h'))
          (fs0, h0) fields = (fs, h1) →
    outsideState N E root (State h1 registry resolver) ∧ framed N E h0 h1
    ∧ NoDup (Props.keys fs)
    ∧ (∀ key v, Props.get fs key = Some v → valueOutside N v).
Proof.
  induction 1 as [|[key item] fields Hitem _ IH]; intros fs0 h0 fs h1 Hs0 Hkeys0 Hfs0.
  - intros [= <- <-]. auto using framed_refl.
  - cbn. destruct (allocJson item h0) as [v1 h1'] eqn:Halloc.
    destruct (Hitem _ _ _ _ _ Hs0 Halloc) as (Hs1 & Hframed1 & Hv1).
    intros Hfold. apply IH in Hfold as (Hs2 & Hframed2 & Hkeys & Hfs); [|done| |].
    + split; [done|]. split; [eapply framed_trans; eauto|done].
    + by apply NoDup_keys_set.
    + intros key' v'. destruct (decide (key' = key)) as [->|Hne].
      * rewrite get_set_eq. by intros [= <-].
      * rewrite get_set_ne by done. apply Hfs0.
Qed.

Lemma allocJson_outside j : allocOutside N E root j.
Proof.
  induction j as [| b | n | str | items IH | fields IH] using json_ind';
    intros h registry resolver v h' Hs; cbn [allocJson];
    try (intros [= <- <-]; split; [exact Hs|split; [apply framed_refl|by intros ? [=]]]).
  - destruct (foldl _ _ items) as [vs h1] eqn:Hfold. intros [= <- <-].
    apply (allocJson_items_outside _ registry resolver IH) in Hfold
      as (Hs1 & Hframed1 & Hvs); [|done|constructor].
    destruct (outsideState_alloc N E root _ (OArray vs) Hs1) as [Hs2 Hframed2]; [done| |].
    { intros k c. unfold slot. cbn. rewrite lookup_app_r, Nat.sub_diag by done. cbn.
      destruct k as [|i]; [done|]. intros Hc.
      by eapply (Forall_lookup_1 _ _ _ _ Hvs Hc). }
    split; [exact Hs2|]. split; [eapply framed_trans; eauto|].
    intros a [= <-] Hin. pose proof (outsideState_fresh _ _ Hs1 Hin). cbn in *. lia.
  - destruct (foldl _ _ fields) as [fs h1] eqn:Hfold. intros [= <- <-].
    apply (allocJson_fields_outside _ registry resolver IH) in Hfold
      as (Hs1 & Hframed1 & Hkeys & Hfs); [|done|constructor|done].
    destruct (outsideState_alloc N E root _ (ORecord fs) Hs1) as [Hs2 Hframed2];
      [by intros ? [= <-]| |].
    { intros k c. unfold slot. cbn. rewrite lookup_app_r, Nat.sub_diag by done. cbn.
      destruct k as [key|]; [|done]. intros Hc. by eapply Hfs. }
    split; [exact Hs2|]. split; [eapply framed_trans; eauto|].
    intros a [= <-] Hin. pose proof (outsideState_fresh _ _ Hs1 Hin). cbn in *. lia.
Qed.

End SourceFacts.

Section ResolverOutside.
Context `{Host} (N E : gset addr) (root : addr).

Lemma elem_of_replace {V} k (v : V) m x :
  x ∈ Props.replace k v m → x = (k, v) ∨ x ∈ m.
Proof.
  induction m as [|[k' v'] m IH]; cbn; [auto|].
  destruct (String.eqb k' k) eqn:Hk.
  - apply String.eqb_eq in Hk as ->. rewrite !elem_of_cons. intros [->|]; auto.
  - rewrite !elem_of_cons. intros [->|Hin]; [auto|]. destruct (IH Hin); auto.
Qed.

Lemma elem_of_JsMap_set {V} k (v : V) m x :
  x ∈ JsMap.set k v m → x = (k, v) ∨ x ∈ m.
Proof.
  unfold JsMap.set. destruct (Props.has m k).
  - apply elem_of_replace.
  - rewrite elem_of_app, list_elem_of_singleton. tauto.
Qed.

Lemma outsideState_resolverOutside s :
  outsideState N E root s → resolverOutside N (st_resolver s).
Proof. intros Hs. split; [|split]; apply Hs. Qed.

Lemma outsideState_withResolver s resolver :
  outsideState N E root s → resolverOutside N resolver →
  outsideState N E root (State (st_heap s) (st_registry s) resolver).
Proof. intros [] (? & ? & ?). by split. Qed.

Lemma addExternalNameCandidate_outside h resolver schema name :
  resolverOutside N resolver → schema ∉ N →
  resolverOutside N (addExternalNameCandidate h resolver schema name).
Proof.
  intros (Hname & Hfp & Hpath) Hschema. unfold addExternalNameCandidate.
  destruct (negb _); [done|]. split; [|split]; cbn.
  - intros name' a. rewrite lookup_insert_Some. intros [[_ <-]|[_ Hold]]; eauto.
  - intros fingerprint candidates name' a. rewrite lookup_insert_Some.
    intros [[_ <-]|[_ Hold]]; [|eauto].
    intros [[= _ ->]|Hin]%elem_of_JsMap_set; [done|].
    destruct (canonicalByFingerprint resolver !! _) eqn:Hlook; [eauto|].
    by apply elem_of_nil in Hin.
  - done.
Qed.

Lemma registerExternalSourcePath_outside h resolver sourcePath schema :
  resolverOutside N resolver → schema ∉ N →
  resolverOutside N (registerExternalSourcePath h resolver sourcePath schema).
Proof.
  intros (Hname & Hfp & Hpath) Hschema. unfold registerExternalSourcePath.
  destruct (negb _); [done|]. split; [|split]; cbn; [done|done|].
  intros sourcePath' a. rewrite lookup_insert_Some. intros [[_ <-]|[_ Hold]]; eauto.
Qed.

Lemma withLoading_outside resolver loading :
  resolverOutside N resolver → resolverOutside N (withLoading resolver loading).
Proof. done. Qed.

Lemma linkComponent_outside resolver sourcePath componentName :
  resolverOutside N resolver →
  resolverOutside N (linkComponent resolver sourcePath componentName).
Proof. done. Qed.

Lemma ensureExternalSchemaForSourcePath_outside sourcePath s result s' :
  outsideState N E root s →
  ensureExternalSchemaForSourcePath sourcePath s = (result, s') →
  outsideState N E root s' ∧ framed N E (st_heap s) (st_heap s')
  ∧ (∀ a, result = Some a → a ∉ N).
Proof.
  intros Hs. unfold ensureExternalSchemaForSourcePath.
  destruct (schemaBySourcePath (st_resolver s) !! sourcePath) as [existing|] eqn:Hexisting.
  { intros [= <- <-]. split; [done|]. split; [apply framed_refl|].
    intros a [= <-]. eapply os_bySourcePath; eauto. }
  destruct (bool_decide _).
  { intros [= <- <-]. split; [done|]. split; [apply framed_refl|done]. }
  pose proof (outsideState_resolverOutside _ Hs) as Hresolver.
  destruct (parseSourceFile sourcePath) as [parsed|].
  2: { intros [= <- <-]. split; [|split; [apply framed_refl|done]].
       by apply (outsideState_withResolver s). }
  destruct (allocJson parsed (st_heap s)) as [schema h'] eqn:Halloc.
  destruct s as [h registry resolver]. cbn [st_heap st_registry st_resolver] in *.
  destruct (allocJson_outside N E root parsed _ _ _ _ _ Hs Halloc)
    as (Hs1 & Hframed1 & Hschema).
  assert (Hnone : outsideState N E root
            (State h' registry
               (withLoading (withLoading resolver ({[sourcePath]} ∪ loadingSourcePaths resolver))
                  (loadingSourcePaths
                     (withLoading resolver ({[sourcePath]} ∪ loadingSourcePaths resolver))
                   ∖ {[sourcePath]})))).
  { by apply (outsideState_withResolver (State h' registry resolver)). }
  destruct schema as [| | | |a];
    try (intros [= <- <-]; split; [exact Hnone|split; [done|done]]).
  destruct (isRecord h' (Some (VObj a)) && isLikelySchemaObject (entriesOf h' a));
    [|intros [= <- <-]; split; [exact Hnone|split; [done|done]]].
  intros [= <- <-]. cbn. specialize (Hschema a eq_refl).
  split; [|split; [done|by intros ? [= <-]]].
  apply (outsideState_withResolver (State h' registry resolver)); [done|].
  apply withLoading_outside, registerExternalSourcePath_outside; [|done].
  apply addExternalNameCandidate_outside; [|done].
  by apply withLoading_outside.
Qed.

End ResolverOutside.

Section DiscriminatorFacts.
Context `{Host} (N E : gset addr) (root : addr).

Lemma registerSourceSchema_outside sourcePath externalSchema s pointer s' :
  outsideState N E root s → externalSchema ∉ N →
  registerSourceSchema sourcePath externalSchema s = Some (pointer, s') →
  outsideState N E root s' ∧ framed N E (st_heap s) (st_heap s')
  ∧ isComponentRef pointer = true.
Proof.
  intros Hs Hschema. unfold registerSourceSchema.
  destruct (registerSchemaInComponents _ _ _ _) as [[[pointer' h'] registry']|] eqn:Hregister;
    [|done].
  cbn [mbind option_bind]. intros [= <- <-].
  destruct (registerSchemaInComponents_outside N E root _ _ _ _ _ _ Hs Hschema Hregister)
    as (Hs1 & Hframed1 & _ & Hpointer).
  split; [|done].
  apply (outsideState_withResolver N E root (State h' registry' (st_resolver s))); [done|].
  apply linkComponent_outside. by apply (outsideState_resolverOutside N E root s).
Qed.

Lemma ensureComponentPointerForSourcePath_outside sourcePath s pointer s' :
  outsideState N E root s →
  ensureComponentPointerForSourcePath sourcePath s = Some (pointer, s') →
  outsideState N E root s' ∧ framed N E (st_heap s) (st_heap s')
  ∧ (∀ p, pointer = Some p → isComponentRef p = true).
Proof.
  intros Hs. unfold ensureComponentPointerForSourcePath.
  destruct (ensureExternalSchemaForSourcePath sourcePath s) as [[externalSchema|] s1] eqn:Hensure;
    destruct (ensureExternalSchemaForSourcePath_outside N E root _ _ _ _ Hs Hensure)
      as (Hs1 & Hframed1 & Hschema).
  - destruct (registerSourceSchema _ _ _) as [[pointer' s2]|] eqn:Hregister; [|done].
    cbn. intros [= <- <-].
    destruct (registerSourceSchema_outside _ _ _ _ _ Hs1 (Hschema _ eq_refl) Hregister)
      as (Hs2 & Hframed2 & Hpointer).
    split; [done|]. split; [eapply framed_trans; eauto|]. by intros ? [= <-].
  - intros [= <- <-]. split; [done|]. split; [done|]. by intros ? [=].
Qed.

Lemma resolveDiscriminatorMappingPointer_outside mappingValue schema schemaPointer s pointer s' :
  outsideState N E root s →
  resolveDiscriminatorMappingPointer mappingValue schema schemaPointer s = Some (pointer, s') →
  outsideState N E root s' ∧ framed N E (st_heap s) (st_heap s')
  ∧ (∀ p, pointer = Some p → isComponentRef p = true).
Proof.
  intros Hs. unfold resolveDiscriminatorMappingPointer.
  assert (Hsame : ∀ p, (∀ q, p = Some q → isComponentRef q = true) →
            Some (p, s) = Some (pointer, s') →
            outsideState N E root s' ∧ framed N E (st_heap s) (st_heap s')
            ∧ (∀ p, pointer = Some p → isComponentRef p = true)).
  { intros p Hp [= <- <-]. split; [done|]. split; [apply framed_refl|done]. }
  destruct (Str.startsWith "#/components/schemas/" mappingValue) eqn:Hcomponent.
  { apply Hsame. by intros ? [= <-]. }
  destruct (negb _); [by apply Hsame|].
  destruct (String.eqb _ ""); [by apply Hsame|].
  destruct (orElse _ None) as [sourcePath|].
  - destruct (ensureExternalSchemaForSourcePath sourcePath s)
      as [[externalSchema|] s1] eqn:Hensure;
      destruct (ensureExternalSchemaForSourcePath_outside N E root _ _ _ _ Hs Hensure)
        as (Hs1 & Hframed1 & Hschema).
    + destruct (registerSourceSchema _ _ _) as [[pointer' s2]|] eqn:Hregister; [|done].
      cbn. intros [= <- <-].
      destruct (registerSourceSchema_outside _ _ _ _ _ Hs1 (Hschema _ eq_refl) Hregister)
        as (Hs2 & Hframed2 & Hpointer).
      split; [done|]. split; [eapply framed_trans; eauto|]. by intros ? [= <-].
    + intros [= <- <-]. split; [done|]. split; [done|]. by intros ? [=].
  - destruct (inRecord _ _); apply Hsame; [|done].
    intros ? [= <-]. apply startsWith_app.
Qed.

(** The mappings the traversal collects belong to no object of [N]. *)
Lemma discriminatorVisitor_outside fuel h found :
  outside N E h →
  walkRoot (fun _ : list MappingRewrite => h) fuel (discriminatorVisitor h) (VObj root) []
  = Some found →
  ∀ rewrite, rewrite ∈ found → rw_mapping rewrite ∉ N.
Proof.
  intros Hout. unfold walkRoot.
  destruct (walk _ _ _ _ _ _ _ _ _) as [r|] eqn:Hwalk; [|done]. intros [= <-].
  eapply (walk_invariant (fun _ => h) (discriminatorVisitor h)
            (fun found => ∀ rewrite, rewrite ∈ found → rw_mapping rewrite ∉ N)
            (fun _ _ => True)
            (fun _ => callOutside N h)) in Hwalk.
  - apply Hwalk.
  - done.
  - done.
  - intros a pointer ctx parent l l' Hl [Hvalue _]. unfold discriminatorVisitor.
    assert (Hsame : Some l = Some l' →
              (∀ rewrite, rewrite ∈ l' → rw_mapping rewrite ∉ N) ∧ True)
      by (by intros [= <-]).
    destruct ctx; [|done]. cbn [negb orb].
    destruct (isRecord h (Some (VObj a))); [|done]. cbn [negb].
    destruct (field h a "discriminator") as [[| | | |d]|] eqn:Hd; try done.
    destruct (isRecord h (Some (VObj d))); [|done]. cbn [negb].
    destruct (field h d "mapping") as [[| | | |m]|] eqn:Hm; try done.
    destruct (isRecord h (Some (VObj m))); [|done]. cbn [negb].
    intros [= <-]. split; [|done].
    assert (m ∉ N) as HmN.
    { intros Hin. rewrite <- slot_field in Hd, Hm.
      pose proof (out_parents _ _ _ Hout _ _ _ Hm Hin) as HdN.
      pose proof (out_parents _ _ _ Hout _ _ _ Hd HdN) as HaN.
      by specialize (Hvalue HaN). }
    clear Hsame. revert Hl. generalize (entriesOf h m). intros entries. revert l.
    induction entries as [|[key [| | |mv|]] entries IH]; intros l Hl; cbn; try by apply IH.
    + done.
    + apply IH. destruct (looksLikeExternalFileReference mv); [|done].
      intros rewrite [Hin| ->%list_elem_of_singleton]%elem_of_app; [by apply Hl|done].
  - done.
  - intros l a ctx parent fields key c _. by apply (callOutside_entry N E).
  - intros l a ctx parent items index c _. by apply (callOutside_item N E).
  - intros ? ?%elem_of_nil. done.
  - intros a _. apply callOutside_root.
Qed.

Lemma applyMappingRewrite_outside rewrite s changed s' changed' :
  outsideState N E root s → rw_mapping rewrite ∉ N →
  applyMappingRewrite rewrite (s, changed) = Some (s', changed') →
  outsideState N E root s' ∧ framed N E (st_heap s) (st_heap s').
Proof.
  intros Hs Hmapping. unfold applyMappingRewrite.
  destruct (resolveDiscriminatorMappingPointer _ _ _ _) as [[pointer s1]|] eqn:Hresolve;
    [|done].
  cbn [mbind option_bind].
  destruct (resolveDiscriminatorMappingPointer_outside _ _ _ _ _ _ Hs Hresolve)
    as (Hs1 & Hframed1 & Hpointer).
  destruct pointer as [[|c p]|]; cbn [orElse]; try (by intros [= <- <-]).
  destruct (bool_decide _); [by intros [= <- <-]|]. intros [= <- <-].
  destruct (outsideState_store N E root s1 (rw_mapping rewrite)
              (KStr (rw_mappingKey rewrite)) (VStr (String c p))) as [Hs2 Hframed2]; [done| |].
  - split; try done.
    + intros Hin. apply Hmapping. eapply out_sub; [apply Hs|done].
    + intros ref _ [= <-]. left. by apply Hpointer.
  - split; [done|]. eapply framed_trans; eauto.
Qed.

Lemma rewriteDiscriminatorPass_outside fuel s s' changed :
  outsideState N E root s →
  rewriteDiscriminatorPass fuel (VObj root) s = Some (s', changed) →
  outsideState N E root s' ∧ framed N E (st_heap s) (st_heap s').
Proof.
  intros Hs. unfold rewriteDiscriminatorPass.
  destruct (walkRoot _ _ _ _ _) as [found|] eqn:Hwalk; [|done]. cbn [mbind option_bind].
  pose proof (discriminatorVisitor_outside _ _ _ (os_heap _ _ _ _ Hs) Hwalk) as Hfound.
  intros Hfold.
  apply (foldl_bind_ind
           (fun sc rest => (∀ rewrite, rewrite ∈ rest → rw_mapping rewrite ∉ N)
                           ∧ outsideState N E root sc.1
                           ∧ framed N E (st_heap s) (st_heap sc.1))
           _ _ _ _ Hfold).
  - split; [done|]. split; [done|apply framed_refl].
  - intros [s1 c1] rewrite rest [s2 c2] (Hrest & Hs1 & Hframed1) Hstep.
    destruct (applyMappingRewrite_outside _ _ _ _ _ Hs1 (Hrest _ ltac:(left)) Hstep)
      as [Hs2 Hframed2].
    split; [intros; apply Hrest; by right|]. split; [done|].
    eapply framed_trans; eauto.
Qed.

Lemma rewriteDiscriminatorMappings_outside turns fuel s s' :
  outsideState N E root s →
  rewriteDiscriminatorMappings turns fuel (VObj root) s = Some s' →
  outsideState N E root s' ∧ framed N E (st_heap s) (st_heap s').
Proof.
  revert s. induction turns as [|turns IH]; intros s Hs; [done|]. cbn.
  destruct (rewriteDiscriminatorPass fuel (VObj root) s) as [[s1 changed]|] eqn:Hpass; [|done].
  cbn. destruct (rewriteDiscriminatorPass_outside _ _ _ _ Hs Hpass) as [Hs1 Hframed1].
  destruct changed.
  - intros Hrest. destruct (IH _ Hs1 Hrest) as [Hs' Hframed']. split; [done|].
    eapply framed_trans; eauto.
  - by intros [= <-].
Qed.

End DiscriminatorFacts.

Section TemplateFacts.
Context `{Host} (N E : gset addr) (root : addr).

Lemma children_outside h a k v :
  outside N E h → a ∉ N → slot h a k = Some v → valueOutside N v.
Proof. intros Hout Ha Hslot c -> Hc. apply Ha. eapply out_parents; eauto. Qed.

(** Storing what a nested call returns into the copy [next]. *)
Lemma store_rewritten s next k nextChild rewritten s1 :
  outsideState N E root s1 → next ∉ N →
  slot (st_heap s) next k = Some nextChild →
  valueOutside N rewritten →
  ((∀ c, rewritten ≠ VObj c) → rewritten = nextChild ∧ s1 = s) →
  outsideState N E root
    (State (store (st_heap s1) next k rewritten) (st_registry s1) (st_resolver s1))
  ∧ framed N E (st_heap s1) (store (st_heap s1) next k rewritten).
Proof.
  intros Hs1 Hnext Hslot Hrewritten Hprimitive.
  apply outsideState_store; [done|]. split; try done.
  - intros Hin. apply Hnext. eapply out_sub; [apply Hs1|done].
  - intros ref -> ->. right. destruct Hprimitive as [-> ->]; done.
Qed.

Lemma rewriteFromSourceTemplate_outside fuel : templateOutside N E root fuel.
Proof.
  induction fuel as [|fuel IH]; intros sourceNode bundledNode sourcePath s v s' Hs Hbundled;
    [done|].
  cbn [rewriteFromSourceTemplate].
  assert (Hsame : Some (bundledNode, s) = Some (v, s') →
            outsideState N E root s' ∧ framed N E (st_heap s) (st_heap s')
            ∧ valueOutside N v ∧ ((∀ c, v ≠ VObj c) → v = bundledNode ∧ s' = s)).
  { intros [= <- <-]. split; [done|]. split; [apply framed_refl|]. done. }
  destruct sourceNode as [| | | |source]; try done.
  destruct bundledNode as [| | | |bundled]; try done.
  specialize (Hbundled bundled eq_refl).
  pose proof (os_heap _ _ _ _ Hs) as Hout.
  assert (length (st_heap s) ∉ N) as Hfresh.
  { intros Hin. pose proof (out_dom _ _ _ Hout _ Hin). lia. }
  destruct (st_heap s !! source) as [[sourceFields|sourceItems]|] eqn:Hsource;
    destruct (st_heap s !! bundled) as [[bundledFields|bundledItems]|] eqn:Hbundle;
    try done.
  - (* records *)
    destruct (match string_field (st_heap s) source "$ref" with
              | Some ref => _ | None => _ end) as [[replaced s1]|] eqn:Hreplaced; [|done].
    cbn [mbind option_bind].
    assert (outsideState N E root s1 ∧ framed N E (st_heap s) (st_heap s1)) as [Hs1 Hframed1].
    { revert Hreplaced. destruct (string_field (st_heap s) source "$ref") as [ref|];
        [|intros [= <- <-]; auto using framed_refl].
      destruct (looksLikeExternalFileReference ref);
        [|intros [= <- <-]; auto using framed_refl].
      destruct (orElse _ None) as [targetSourcePath|];
        [|intros [= <- <-]; auto using framed_refl].
      destruct (ensureComponentPointerForSourcePath targetSourcePath s)
        as [[componentPointer s2]|] eqn:Hensure; [|done].
      cbn. intros [= <- <-].
      destruct (ensureComponentPointerForSourcePath_outside N E root _ _ _ _ Hs Hensure)
        as (? & ? & _). done. }
    pose proof (os_heap _ _ _ _ Hs1) as Hout1.
    assert (length (st_heap s1) ∉ N) as Hfresh1.
    { intros Hin. pose proof (out_dom _ _ _ Hout1 _ Hin). lia. }
    destruct replaced as [componentPointer|].
    + intros [= <- <-]. unfold alloc.
      destruct (outsideState_alloc N E root s1
                  (ORecord (refReplacement (st_heap s1) bundled componentPointer)) Hs1)
        as [Hs2 Hframed2].
      { intros ? [= <-]. apply flat_refReplacement. }
      { intros k c. unfold slot. rewrite lookup_app_r, Nat.sub_diag by done. cbn.
        destruct k; [|done]. intros Hget.
        by destruct (proj2 (flat_refReplacement (st_heap s1) bundled componentPointer) _ _ Hget). }
      split; [done|]. split; [eapply framed_trans; eauto|].
      split; [by intros ? [= <-]|]. intros Hprimitive. by destruct (Hprimitive (length (st_heap s1))).
    + unfold alloc.
      destruct (foldl _ _ (entriesOf (st_heap s1) source)) as [s2|] eqn:Hfold; [|done].
      cbn [mbind option_bind]. intros [= <- <-].
      assert (bundled < length (st_heap s))%nat as Hlt by (eapply lookup_lt_Some, Hbundle).
      destruct (outsideState_alloc N E root s1
                  (ORecord (entriesOf (st_heap s1) bundled)) Hs1) as [Hs2 Hframed2].
      { intros fields [= <-]. unfold entriesOf.
        destruct (st_heap s1 !! bundled) as [[fields|]|] eqn:Hb; try constructor.
        eapply out_wf; eauto. }
      { intros k c. unfold slot. rewrite lookup_app_r, Nat.sub_diag by done. cbn.
        destruct k as [key|]; [|done]. intros Hget.
        apply (children_outside (st_heap s1) bundled (KStr key) (VObj c)); [done|done| |done].
        unfold slot, entriesOf in *. by destruct (st_heap s1 !! bundled) as [[]|]. }
      cut (outsideState N E root s2
           ∧ framed N E (st_heap s1 ++ [ORecord (entriesOf (st_heap s1) bundled)]) (st_heap s2)).
      { intros [Hs3 Hframed3]. split; [done|].
        split; [eapply framed_trans; [exact Hframed1|eapply framed_trans; eauto]|].
        split; [by intros ? [= <-]|].
        intros Hprimitive. by destruct (Hprimitive (length (st_heap s1))). }
      rewrite (foldl_pointwise _
                 (fun acc kv =>
                    s' ← acc;
                    match field (st_heap s') (length (st_heap s1)) kv.1 with
                    | None =>
                        if bool_decide (kv.1 ∈ inheritedNames) then None
                        else Some s'
                    | Some nextChild =>
                        '(rewritten, s'') ←
                          rewriteFromSourceTemplate fuel kv.2 nextChild sourcePath s';
                        Some (State (store (st_heap s'') (length (st_heap s1))
                                       (KStr kv.1) rewritten)
                                    (st_registry s'') (st_resolver s''))
                    end)) in Hfold by (by intros [?|] [? ?]).
      apply (foldl_bind_ind
               (fun acc (rest : list (string * value)) =>
                  outsideState N E root acc
                  ∧ framed N E (st_heap s1 ++ [ORecord (entriesOf (st_heap s1) bundled)])
                      (st_heap acc))
               _ _ _ _ Hfold); [split; [done|apply framed_refl]|].
      intros sa [key sourceChild] rest sb [Hsa Hframeda]. cbn [fst snd].
      destruct (field (st_heap sa) (length (st_heap s1)) key) as [nextChild|] eqn:Hchild;
        [|destruct (bool_decide _); [done|intros [= <-]; done]].
      destruct (rewriteFromSourceTemplate fuel sourceChild nextChild sourcePath sa)
        as [[rewritten sc]|] eqn:Hrewrite; [|done].
      cbn [mbind option_bind]. intros [= <-].
      rewrite <- slot_field in Hchild.
      destruct (IH _ _ _ _ _ _ Hsa
                  (children_outside _ _ _ _ (os_heap _ _ _ _ Hsa) Hfresh1 Hchild) Hrewrite)
        as (Hsc & Hframedc & Hrewritten & Hprimitive).
      destruct (store_rewritten sa (length (st_heap s1)) (KStr key) nextChild rewritten sc)
        as [Hsd Hframedd]; try done.
      split; [done|]. eapply framed_trans; [exact Hframeda|]. eapply framed_trans; eauto.
  - (* arrays *)
    unfold alloc.
    destruct (foldl _ _ (seq 0 (length sourceItems))) as [s2|] eqn:Hfold; [|done].
    cbn [mbind option_bind]. intros [= <- <-].
    destruct (outsideState_alloc N E root s (OArray bundledItems) Hs) as [Hs1 Hframed1];
      [done| |].
    { intros k c. unfold slot. rewrite lookup_app_r, Nat.sub_diag by done. cbn.
      destruct k as [|i]; [done|]. intros Hget.
      apply (children_outside (st_heap s) bundled (KIdx i) (VObj c)); [done|done| |done].
      unfold slot. by rewrite Hbundle. }
    cut (outsideState N E root s2 ∧ framed N E (st_heap s ++ [OArray bundledItems]) (st_heap s2)).
    { intros [Hs3 Hframed3]. split; [done|]. split; [eapply framed_trans; eauto|].
      split; [by intros ? [= <-]|].
      intros Hprimitive. by destruct (Hprimitive (length (st_heap s))). }
    apply (foldl_bind_ind
             (fun acc (rest : list nat) =>
                outsideState N E root acc
                ∧ framed N E (st_heap s ++ [OArray bundledItems]) (st_heap acc))
             _ _ _ _ Hfold); [split; [done|apply framed_refl]|].
    intros sa i rest sb [Hsa Hframeda].
    destruct (st_heap sa !! source) as [[?|sourceItems']|]; try (intros [= <-]; done).
    destruct (st_heap sa !! length (st_heap s)) as [[?|nextItems]|] eqn:Hnext;
      try (intros [= <-]; done).
    destruct (sourceItems' !! i) as [sourceItem|]; [|intros [= <-]; done].
    destruct (nextItems !! i) as [nextItem|] eqn:Hitem; [|intros [= <-]; done].
    destruct (rewriteFromSourceTemplate fuel sourceItem nextItem sourcePath sa)
      as [[rewritten sc]|] eqn:Hrewrite; [|done].
    cbn [mbind option_bind]. intros [= <-].
    assert (slot (st_heap sa) (length (st_heap s)) (KIdx i) = Some nextItem) as Hchild
      by (unfold slot; by rewrite Hnext).
    destruct (IH _ _ _ _ _ _ Hsa
                (children_outside _ _ _ _ (os_heap _ _ _ _ Hsa) Hfresh Hchild) Hrewrite)
      as (Hsc & Hframedc & Hrewritten & Hprimitive).
    destruct (store_rewritten sa (length (st_heap s)) (KIdx i) nextItem rewritten sc)
      as [Hsd Hframedd]; try done.
    split; [done|]. eapply framed_trans; [exact Hframeda|]. eapply framed_trans; eauto.
Qed.

End TemplateFacts.

Section DocumentFacts.
Context `{Host} (N E : gset addr) (root : addr).

Lemma rewriteComponentFromSource_outside fuel componentName sourcePath s s' :
  outsideState N E root s →
  rewriteComponentFromSource fuel componentName sourcePath s = Some s' →
  outsideState N E root s' ∧ framed N E (st_heap s) (st_heap s').
Proof.
  intros Hs. unfold rewriteComponentFromSource.
  destruct (ensureExternalSchemaForSourcePath sourcePath s) as [sourceSchema s1] eqn:Hensure.
  destruct (ensureExternalSchemaForSourcePath_outside N E root _ _ _ _ Hs Hensure)
    as (Hs1 & Hframed1 & _).
  destruct sourceSchema as [sourceSchema|]; [|by intros [= <-]].
  destruct (field _ _ componentName) as [bundledSchema|] eqn:Hbundled; [|by intros [= <-]].
  destruct (isRecord (st_heap s1) (Some (VObj sourceSchema))); [|by intros [= <-]].
  destruct (isRecord (st_heap s1) (Some bundledSchema)) eqn:Hrecord; [|by intros [= <-]].
  cbn [andb].
  destruct (rewriteFromSourceTemplate _ _ _ _ _) as [[rewritten s2]|] eqn:Hrewrite; [|done].
  cbn [mbind option_bind]. intros [= <-].
  rewrite <- slot_field in Hbundled.
  pose proof (os_components _ _ _ _ Hs1) as Hcomponents.
  destruct (rewriteFromSourceTemplate_outside N E root _ _ _ _ _ _ _ Hs1
              (children_outside N E _ _ _ _ (os_heap _ _ _ _ Hs1) Hcomponents Hbundled)
              Hrewrite) as (Hs2 & Hframed2 & Hrewritten & Hprimitive).
  destruct (store_rewritten N E root s1 (componentSchemas (st_registry s1))
              (KStr componentName) bundledSchema rewritten s2) as [Hs3 Hframed3]; try done.
  split.
  - (* the registry of [s2] is the one the store belongs to *)
    exact Hs3.
  - eapply framed_trans; [exact Hframed1|]. eapply framed_trans; eauto.
Qed.

Lemma components_not_payload s c :
  outsideState N E root s →
  field (st_heap s) root "components" = Some (VObj c) → c ∉ E.
Proof.
  intros Hs Hcomponents Hc. pose proof (os_heap _ _ _ _ Hs) as Hout.
  assert (c ∈ N) as HcN by (eapply out_sub; eauto).
  destruct (os_schemas _ _ _ _ Hs) as [_ Hkeep].
  destruct (Hkeep c Hcomponents HcN) as [x Hx]. rewrite <- slot_field in Hx.
  eapply (out_context _ _ _ Hout); [exact Hx|by vm_compute|].
  eapply out_sub; [done|]. eapply out_closed; eauto.
Qed.

Lemma rewriteSchemaRefsFromSourceTemplates_outside fuel s s' :
  outsideState N E root s →
  rewriteSchemaRefsFromSourceTemplates fuel (VObj root) s = Some s' →
  outsideState N E root s' ∧ framed N E (st_heap s) (st_heap s').
Proof.
  intros Hs. unfold rewriteSchemaRefsFromSourceTemplates.
  destruct (foldl _ _ _) as [s1|] eqn:Hfold; [|done]. cbn [mbind option_bind].
  assert (outsideState N E root s1 ∧ framed N E (st_heap s) (st_heap s1)) as [Hs1 Hframed1].
  { rewrite (foldl_pointwise _
               (fun acc kv => s' ← acc; rewriteComponentFromSource fuel kv.1 kv.2 s'))
      in Hfold by (by intros [?|] [? ?]).
    apply (foldl_bind_ind
             (fun acc (rest : list (string * string)) =>
                outsideState N E root acc ∧ framed N E (st_heap s) (st_heap acc))
             _ _ _ _ Hfold); [split; [done|apply framed_refl]|].
    intros sa [componentName sourcePath] rest sb [Hsa Hframeda] Hstep.
    destruct (rewriteComponentFromSource_outside _ _ _ _ _ Hsa Hstep) as [Hsb Hframedb].
    split; [done|]. eapply framed_trans; eauto. }
  destruct (field (st_heap s1) root "components") as [[| | | |components]|] eqn:Hcomponents;
    try (by intros [= <-]).
  destruct (isRecord _ _); [|by intros [= <-]]. intros [= <-].
  destruct (outsideState_store N E root s1 components (KStr "schemas")
              (VObj (componentSchemas (st_registry s1)))) as [Hs2 Hframed2]; [done| |].
  - split; try done.
    + by eapply components_not_payload.
    + intros c [= <-]. apply Hs1.
    + intros Hprimitive. by destruct (Hprimitive (componentSchemas (st_registry s1))).
    + intros c _ Hslot.
      eapply (out_context _ _ _ (os_heap _ _ _ _ Hs1)); [exact Hslot|by vm_compute].
  - split; [done|]. eapply framed_trans; eauto.
Qed.

Lemma normalizeFromSources_outside fuel s s' :
  outsideState N E root s →
  normalizeFromSources fuel (VObj root) s = Some s' →
  outsideState N E root s' ∧ framed N E (st_heap s) (st_heap s').
Proof.
  intros Hs. unfold normalizeFromSources.
  destruct (rewriteDiscriminatorMappings fuel fuel (VObj root) s) as [s1|] eqn:Hmappings;
    [|done].
  cbn [mbind option_bind]. intros Htemplates.
  destruct (rewriteDiscriminatorMappings_outside N E root _ _ _ _ Hs Hmappings)
    as [Hs1 Hframed1].
  destruct (rewriteSchemaRefsFromSourceTemplates_outside _ _ _ Hs1 Htemplates)
    as [Hs2 Hframed2].
  split; [done|]. eapply framed_trans; eauto.
Qed.

Lemma rewriteDocument_outside fuel s s' :
  outsideState N E root s → refsOutside N root (st_heap s) →
  rewriteDocument fuel (VObj root) s = Some s' →
  outsideState N E root s' ∧ framed N E (st_heap s) (st_heap s').
Proof.
  intros Hs Hrefs. unfold rewriteDocument.
  destruct (rewriteLocalSchemaRefsToComponents fuel (VObj root) s) as [s1|] eqn:H1; [|done].
  cbn [mbind option_bind].
  destruct (rewriteLocal_outside N E root _ _ _ Hs Hrefs H1) as [Hs1 Hframed1].
  destruct (rewriteInlineExternalSchemasToComponentRefs fuel fuel (VObj root) s1)
    as [s2|] eqn:H2; [|done].
  cbn [mbind option_bind].
  destruct (rewriteInline_outside N E root _ _ _ _ Hs1 H2) as [Hs2 Hframed2].
  destruct (normalizeFromSources fuel (VObj root) s2) as [s3|] eqn:H3; [|done].
  cbn [mbind option_bind].
  destruct (normalizeFromSources_outside _ _ _ Hs2 H3) as [Hs3 Hframed3].
  destruct (normalizeFromSources fuel (VObj root) s3) as [s4|] eqn:H4; [|done].
  cbn [mbind option_bind].
  destruct (normalizeFromSources_outside _ _ _ Hs3 H4) as [Hs4 Hframed4].
  intros H5. destruct (replaceHoisted_outside N E root _ _ _ Hs4 H5) as [Hs5 Hframed5].
  split; [done|].
  eauto using framed_trans.
Qed.

End DocumentFacts.

Section WorkingStateFacts.
Context `{Host} (N E : gset addr) (root : addr).

(** The same as [refsOutside_framed], where the new objects carry no
    [$ref]. *)
Lemma refsOutside_grown h h' :
  outside N E h → outside N E h' → framed N E h h' →
  (∀ a ref, string_field h' a "$ref" = Some ref → (a < length h)%nat) →
  refsOutside N root h → refsOutside N root h'.
Proof.
  intros Hout Hout' Hframed Hold Hrefs a ref c Href Hlocal Hcomp Hresolve Hc.
  pose proof (Hold _ _ Href) as Hlt.
  pose proof (fr_ref _ _ _ _ Hframed _ _ Hlt Href Hcomp) as Hbefore.
  apply (Hrefs a ref c Hbefore Hlocal Hcomp); [|done].
  unfold resolveLocalPointer in *. destruct (String.eqb ref "#"); [done|].
  destruct (negb (Str.startsWith "#/" ref)); [done|].
  eapply resolveTokens_back; eauto.
Qed.

Lemma ensureRecordField_outside h a k :
  outside N E h → a ∉ E → (a < length h)%nat →
  outside N E (ensureRecordField h a k) ∧ framed N E h (ensureRecordField h a k)
  ∧ (∀ x ref, string_field (ensureRecordField h a k) x "$ref" = Some ref →
              (x < length h)%nat).
Proof.
  intros Hout Ha Hlt. unfold ensureRecordField.
  destruct (truthy (field h a k)) eqn:Hfalsy.
  { split; [done|]. split; [apply framed_refl|].
    intros x ref Hx%string_field_slot. eapply slot_lt, Hx. }
  cbn. destruct (alloc_outside N E h (ORecord []) Hout) as [Hout1 Hframed1].
  { intros ? [= <-]. constructor. }
  { intros k' c. unfold slot. rewrite lookup_app_r, Nat.sub_diag by done. cbn.
    by destruct k'. }
  destruct (store_outside N E (h ++ [ORecord []]) a (KStr k) (VObj (length h)) Hout1)
    as [Hout2 Hframed2].
  { split; try done.
    - intros c [= <-] Hin. pose proof (out_dom _ _ _ Hout _ Hin). lia.
    - intros Hp. by destruct (Hp (length h)).
    - intros c _. rewrite slot_alloc, slot_field by done. intros Hfield.
      by rewrite Hfield in Hfalsy. }
  split; [done|]. split; [eapply framed_trans; eauto|].
  intros x ref Hx. destruct (decide (x < length h)%nat) as [|Hge]; [done|].
  apply string_field_slot in Hx. pose proof (slot_lt _ _ _ _ Hx) as Hx'.
  rewrite store_length, length_app in Hx'. cbn in Hx'.
  assert (x = length h) as -> by lia.
  rewrite slot_store_ne in Hx by (intros [= Heq _]; lia).
  unfold slot in Hx. rewrite lookup_app_r, Nat.sub_diag in Hx by done. done.
Qed.

Lemma ensureRecordField_field h a k fields :
  h !! a = Some (ORecord fields) →
  ensureRecordField h a k = h
  ∨ field (ensureRecordField h a k) a k = Some (VObj (length h)).
Proof.
  intros Ha. unfold ensureRecordField. destruct (truthy (field h a k)); [by left|].
  right. cbn. eapply field_store_eq. rewrite lookup_app_l; [done|].
  eapply lookup_lt_Some, Ha.
Qed.

Lemma ensureRecordField_length h a k : (length h ≤ length (ensureRecordField h a k))%nat.
Proof.
  unfold ensureRecordField. destruct (truthy _); [done|]. cbn.
  rewrite store_length, length_app. lia.
Qed.

Lemma createSchemaRegistry_outside h refs h' registry :
  outsideDocument N E root h refs →
  createSchemaRegistry h root = Some (h', registry) →
  outsideState N E root (State h' registry createExternalSchemaNameResolver)
  ∧ framed N E h h' ∧ refsOutside N root h'.
Proof.
  intros [Hout Hroot Hcomponents Hrefs _]. unfold createSchemaRegistry.
  destruct (h !! root) as [[rootFields|]|] eqn:Hrootobj; try done.
  assert (root < length h)%nat as Hlt by (eapply lookup_lt_Some, Hrootobj).
  assert (∀ a, a ∈ E → (a < length h)%nat) as HE
    by (intros a Ha; eapply out_dom, out_sub; eauto).
  destruct (ensureRecordField_outside h root "components" Hout Hroot Hlt)
    as (Hout1 & Hframed1 & Hnew1).
  pose proof (ensureRecordField_field h root "components" _ Hrootobj) as Hfield1.
  pose proof (ensureRecordField_length h root "components") as Hlen1.
  set (h1 := ensureRecordField h root "components") in *.
  destruct (field h1 root "components") as [[| | | |components]|] eqn:Hc; try done.
  destruct (h1 !! components) as [[cFields|]|] eqn:Hcobj; try done.
  assert (components < length h1)%nat as Hclt by (eapply lookup_lt_Some, Hcobj).
  assert (components ∉ E) as HcE.
  { intros Hin. destruct Hfield1 as [Hsame|[= Hnew]].
    - rewrite Hsame in Hc. by apply (Hcomponents components).
    - specialize (HE _ Hin). lia. }
  destruct (ensureRecordField_outside h1 components "schemas" Hout1 HcE Hclt)
    as (Hout2 & Hframed2 & Hnew2).
  set (h2 := ensureRecordField h1 components "schemas") in *.
  destruct (field h2 components "schemas") as [[| | | |schemas]|] eqn:Hs; try done.
  destruct (h2 !! schemas) as [[entries|]|] eqn:Hentries; try done.
  intros [= <- <-].
  assert (framed N E h h2) as Hframed by (eapply framed_trans; eauto).
  assert (field h2 root "components" = Some (VObj components)) as Hc2.
  { rewrite <- Hc. subst h2. apply ensureRecordField_other; [lia|].
    right. done. }
  split; [|split; [done|]].
  - split; cbn [st_heap st_registry st_resolver schemaPointersByValue componentSchemas
                  canonicalByName canonicalByFingerprint schemaBySourcePath
                  createExternalSchemaNameResolver].
    + done.
    + split; [pose proof (fr_length _ _ _ _ Hframed); lia|].
      intros c. rewrite Hc2. intros [= <-] _. eauto.
    + rewrite <- slot_field in Hs. eapply out_context; [exact Hout2|exact Hs|by vm_compute].
    + intros a pointer (name & -> & _)%indexComponentPointers_spec.
      apply isComponentRef_componentPointer.
    + intros ? ? ?%lookup_empty_Some. done.
    + intros ? ? ? ? ?%lookup_empty_Some. done.
    + intros ? ? ?%lookup_empty_Some. done.
  - apply (refsOutside_grown h1 h2); [done|done|done| |].
    + intros a ref Href. by eapply Hnew2.
    + apply (refsOutside_grown h h1); [done|done|done| |done].
      intros a ref Href. by eapply Hnew1.
Qed.

End WorkingStateFacts.

Section DriverFacts.
Context `{Host} (N E : gset addr) (root : addr).

Lemma registerLoadedFiles_outside h refs rootPath externalSchemas resolver :
  (∀ path a, path ∈ refs_paths refs → path ≠ rootPath →
             refs_get refs path = Some (VObj a) → a ∉ N) →
  registerLoadedFiles h refs rootPath = (externalSchemas, resolver) →
  resolverOutside N resolver
  ∧ ∀ a path, externalSchemas !! a = Some path → a ∉ N.
Proof.
  intros Hfiles. unfold registerLoadedFiles.
  assert (Hsub : ∀ path, path ∈ filter (fun path => path ≠ rootPath) (refs_paths refs) →
                 path ∈ refs_paths refs ∧ path ≠ rootPath)
    by (by intros path [? ?]%list_elem_of_filter).
  revert Hsub. generalize (filter (fun path => path ≠ rootPath) (refs_paths refs)).
  intros paths.
  assert (resolverOutside N createExternalSchemaNameResolver
          ∧ ∀ a path, (∅ : gmap addr string) !! a = Some path → a ∉ N) as Hstart.
  { split; [|by intros ? ? ?%lookup_empty_Some].
    split; [|split]; cbn.
    - intros ? ? ?%lookup_empty_Some. done.
    - intros ? ? ? ? ?%lookup_empty_Some. done.
    - intros ? ? ?%lookup_empty_Some. done. }
  revert Hstart. generalize createExternalSchemaNameResolver.
  generalize (∅ : gmap addr string). revert externalSchemas resolver.
  induction paths as [|path paths IH]; intros externalSchemas resolver ext0 res0 Hstart Hsub.
  - by intros [= <- <-].
  - cbn [foldl].
    assert (Hrest : ∀ path0, path0 ∈ paths →
                    path0 ∈ refs_paths refs ∧ path0 ≠ rootPath)
      by (intros; apply Hsub; by right).
    destruct (refs_get refs path) as [[| | | |value]|] eqn:Hget;
      try (by apply IH).
    destruct (isRecord h (Some (VObj value))); [|by apply IH].
    assert (value ∉ N) as Hvalue
      by (destruct (Hsub path) as [? ?]; [left|]; eapply Hfiles; eauto).
    destruct Hstart as [Hres Hext]. apply IH; [|done]. split.
    + apply registerExternalSourcePath_outside; [|done].
      by apply addExternalNameCandidate_outside.
    + intros a path'. rewrite lookup_insert_Some. intros [[<- _]|[_ Hold]]; eauto.
Qed.

Lemma collectSchemaTargets_found fuel h externalSchemas targets :
  collectSchemaTargets fuel h (VObj root) externalSchemas = Some targets →
  ∀ sourcePath value,
    (sourcePath, value) ∈ targets → externalSchemas !! value = Some sourcePath.
Proof.
  unfold collectSchemaTargets, walkRoot.
  destruct (walk _ _ _ _ _ _ _ _ _) as [r|] eqn:Hwalk; [|done]. cbn. intros [= <-].
  intros sourcePath value Hin.
  rewrite sortByKey_perm in Hin.
  apply list_elem_of_fmap in Hin as ([value' sourcePath'] & [= -> ->] & Hin).
  revert value' sourcePath' Hin.
  eapply (walk_invariant _ _
            (fun found : list (addr * string) =>
               ∀ value sourcePath, (value, sourcePath) ∈ found →
                                   externalSchemas !! value = Some sourcePath)
            (fun _ _ => True) (fun _ _ _ _ => True)) in Hwalk; try done.
  - apply Hwalk.
  - intros a pointer ctx parent found found' Hfound _.
    destruct (externalSchemas !! a) as [sourcePath|] eqn:Hlook; [|by intros [= <-]].
    destruct (_ || _); [by intros [= <-]|].
    destruct (bool_decide _); intros [= <-]; [done|]. split; [|done].
    intros value sourcePath' [Hin|[= -> ->]%list_elem_of_singleton]%elem_of_app; eauto.
  - intros ? ? ?%elem_of_nil. done.
Qed.

Lemma hoistSchemaTargets_outside targets s s' :
  outsideState N E root s →
  (∀ sourcePath value, (sourcePath, value) ∈ targets → value ∉ N) →
  hoistSchemaTargets targets s = Some s' →
  outsideState N E root s' ∧ framed N E (st_heap s) (st_heap s')
  ∧ length (st_heap s') = length (st_heap s).
Proof.
  intros Hs Htargets. unfold hoistSchemaTargets.
  rewrite (foldl_pointwise _
             (fun acc kv =>
                s ← acc;
                '(pointer, h', registry') ←
                  registerSchemaInComponents (st_heap s) (st_registry s) kv.2
                    (createSchemaNameFromSourcePath kv.1);
                Some (State h' registry'
                        (linkComponent (st_resolver s) kv.1
                           (decodeJsonPointerToken (default "" (lastToken pointer)))))))
    by (by intros [?|] [? ?]).
  intros Hfold.
  apply (foldl_bind_ind
           (fun acc (rest : list (string * addr)) =>
              (∀ sourcePath value, (sourcePath, value) ∈ rest → value ∉ N)
              ∧ outsideState N E root acc ∧ framed N E (st_heap s) (st_heap acc)
              ∧ length (st_heap acc) = length (st_heap s))
           _ _ _ _ Hfold).
  - split; [done|]. split; [done|]. split; [apply framed_refl|done].
  - intros sa [sourcePath value] rest sb (Hrest & Hsa & Hframeda & Hlena). cbn [fst snd].
    destruct (registerSchemaInComponents _ _ _ _) as [[[pointer h'] registry']|] eqn:Hregister;
      [|done].
    cbn [mbind option_bind]. intros [= <-].
    destruct (registerSchemaInComponents_outside N E root _ _ _ _ _ _ Hsa
                (Hrest _ _ ltac:(left)) Hregister) as (Hsb & Hframedb & Hlenb & _).
    split; [intros; eapply Hrest; by right|]. split; [|split].
    + apply (outsideState_withResolver N E root (State h' registry' (st_resolver sa)));
        [done|].
      apply linkComponent_outside. by apply (outsideState_resolverOutside N E root sa).
    + eapply framed_trans; eauto.
    + cbn. lia.
Qed.

Lemma createWorkingState_outside fuel h refs s :
  outsideDocument N E root h refs →
  createWorkingState fuel h root refs = Some s →
  outsideState N E root s ∧ framed N E h (st_heap s) ∧ refsOutside N root (st_heap s).
Proof.
  intros Hdoc. unfold createWorkingState.
  destruct (createSchemaRegistry h root) as [[h1 registry]|] eqn:Hregistry; [|done].
  cbn [mbind option_bind].
  destruct (createSchemaRegistry_outside N E root _ _ _ _ Hdoc Hregistry)
    as (Hs1 & Hframed1 & Hrefs1).
  destruct (refs_paths refs) as [|rootPath paths] eqn:Hpaths; [by intros [= <-]|].
  destruct (registerLoadedFiles h1 refs rootPath) as [externalSchemas resolver] eqn:Hloaded.
  assert (head (refs_paths refs) = Some rootPath) as Hhead by (by rewrite Hpaths).
  destruct (registerLoadedFiles_outside _ _ _ _ _
              (fun path a => od_files _ _ _ _ _ Hdoc rootPath path a Hhead) Hloaded)
    as [Hresolver Hexternal].
  destruct (collectSchemaTargets fuel h1 (VObj root) externalSchemas) as [targets|] eqn:Htargets;
    [|done].
  cbn [mbind option_bind]. intros Hhoist.
  pose proof (outsideState_withResolver N E root _ resolver Hs1 Hresolver) as Hs2.
  cbn [st_heap st_registry] in Hs2.
  assert (∀ sourcePath value, (sourcePath, value) ∈ targets → value ∉ N) as Hfound.
  { intros sourcePath value Hin. eapply Hexternal.
    eapply collectSchemaTargets_found; eauto. }
  destruct (hoistSchemaTargets_outside _ _ _ Hs2 Hfound Hhoist) as (Hs3 & Hframed3 & Hlen3).
  split; [done|]. split; [eapply framed_trans; eauto|].
  eapply (refsOutside_framed N E root h1); [apply Hs1|apply Hs3|done|done|done].
Qed.

(** The whole of [hoistBundledSchemas] moves along the frame. *)
Lemma hoistBundledSchemas_framed fuel h refs h' :
  outsideDocument N E root h refs →
  hoistBundledSchemas fuel h {| parser_schema := VObj root; parser_refs := Some refs |}
  = Some h' →
  framed N E h h'.
Proof.
  intros Hdoc. unfold hoistBundledSchemas. cbn [parser_refs parser_schema].
  destruct (negb _); [intros [= <-]; apply framed_refl|].
  destruct (createWorkingState fuel h root refs) as [s|] eqn:Hstate; [|done].
  cbn [mbind option_bind].
  destruct (createWorkingState_outside _ _ _ _ Hdoc Hstate) as (Hs & Hframed & Hrefs).
  destruct (rewriteDocument fuel (VObj root) s) as [s'|] eqn:Hrewrite; [|done].
  cbn. intros [= <-].
  destruct (rewriteDocument_outside N E root _ _ _ Hs Hrefs Hrewrite) as [_ Hframed'].
  eapply framed_trans; eauto.
Qed.

End DriverFacts.

Section WalkReturns.
Context {S : Type} (heapOf : S → heap) (visitor : WalkVisitor (S := S)).

#[local] Opaque walk.

(** X3.  A [walk] that returns gives the set [seen] back as it got it,
    whatever the visitor, the value and the context are. *)
Theorem walk_restores_seen (fuel : nat) (v : value) (ctx : bool) (pointer : string)
    (seen : gset addr) (parent : option (addr * pkey)) (s : S)
    (r : S * gset addr) :
  walk heapOf fuel visitor v ctx pointer seen parent s = Some r → r.2 = seen.
Proof.
  revert v ctx pointer seen parent s r.
  induction fuel as [|fuel IH]; intros v ctx pointer seen parent s r;
    rewrite walk_unfold; destruct v as [| | | |a]; try (by intros [= <-]);
    (destruct (visitor a pointer ctx parent s) as [s1|]; [|done]); cbn;
    (destruct (bool_decide (a ∈ seen)) eqn:Hseen; [by intros [= <-]|]);
    [done|].
  apply bool_decide_eq_false in Hseen.
  destruct (walkChildren heapOf fuel visitor a ctx pointer s1 ({[a]} ∪ seen))
    as [[s2 seen2]|] eqn:Hchildren; [|done].
  cbn. intros [= <-]. cbn.
  assert (seen2 = {[a]} ∪ seen) as ->; [|set_solver].
  revert Hchildren. unfold walkChildren.
  destruct (heapOf s1 !! a) as [[fields|items]|]; [| |by intros [= _ <-]].
  - intros Hfold.
    apply (foldl_bind_ind (fun acc _ => acc.2 = {[a]} ∪ seen) _ _ _ _ Hfold);
      [done|].
    intros acc entry _ acc' Hacc Hentry. apply IH in Hentry. congruence.
  - intros Hfold.
    apply (foldl_bind_ind (fun acc _ => acc.2 = {[a]} ∪ seen) _ _ _ _ Hfold);
      [done|].
    intros acc index _ acc' Hacc. unfold walkItem.
    destruct (heapOf acc.1 !! a) as [[?|current]|]; try (by intros [= <-]).
    destruct (current !! index); [|by intros [= <-]].
    intros Hitem. apply IH in Hitem. congruence.
Qed.

(** A visitor that always returns and leaves the heap as it is. *)
Hypothesis visitor_reads : ∀ a pointer ctx parent s,
  ∃ s', visitor a pointer ctx parent s = Some s' ∧ heapOf s' = heapOf s.

Lemma foldl_bind_total {A B : Type} (P : A → Prop) (f : A → B → option A)
    (l : list B) (a : A) :
  P a → (∀ a b, P a → b ∈ l → ∃ a', f a b = Some a' ∧ P a') →
  ∃ r, foldl (fun acc b => a ← acc; f a b) (Some a) l = Some r ∧ P r.
Proof.
  revert a. induction l as [|b l IH]; intros a Ha Hf; [by exists a|].
  destruct (Hf a b Ha) as (a' & Hab & Ha'); [left|]. cbn. rewrite Hab.
  apply IH; [done|]. intros a0 b0 Ha0 Hb0. apply Hf; [done|by right].
Qed.

Lemma walk_returns_left (fuel : nat) (h : heap) (v : value) (ctx : bool)
    (pointer : string) (seen : gset addr) (parent : option (addr * pkey))
    (s : S) :
  heapOf s = h →
  (size (addresses h ∖ seen) < fuel)%nat →
  ∃ s', walk heapOf fuel visitor v ctx pointer seen parent s = Some (s', seen)
        ∧ heapOf s' = h.
Proof.
  revert v ctx pointer seen parent s.
  induction fuel as [|fuel IH]; intros v ctx pointer seen parent s Hs Hfuel;
    [lia|].
  rewrite walk_unfold. destruct v as [| | | |a]; try (by exists s).
  destruct (visitor_reads a pointer ctx parent s) as (s1 & -> & Hs1). cbn.
  rewrite Hs in Hs1.
  destruct (bool_decide (a ∈ seen)) eqn:Hseen; [by exists s1|].
  apply bool_decide_eq_false in Hseen.
  assert (∃ s2, walkChildren heapOf fuel visitor a ctx pointer s1 ({[a]} ∪ seen)
                = Some (s2, {[a]} ∪ seen) ∧ heapOf s2 = h) as (s2 & -> & Hs2).
  { unfold walkChildren. rewrite Hs1.
    destruct (h !! a) as [o|] eqn:Ha; [|by exists s1].
    assert (size (addresses h ∖ ({[a]} ∪ seen)) < fuel)%nat as Hless.
    { assert (a ∈ addresses h ∖ seen) as Hin.
      { apply elem_of_difference. split; [|done].
        apply elem_of_set_seq. apply lookup_lt_Some in Ha. lia. }
      assert (addresses h ∖ seen = {[a]} ∪ addresses h ∖ ({[a]} ∪ seen)) as Heq.
      { apply set_eq. intros x. destruct (decide (x = a)); set_solver. }
      rewrite Heq, size_union, size_singleton in Hfuel by set_solver. lia. }
    destruct o as [fields|items].
    - destruct (foldl_bind_total
                  (fun acc : S * gset addr => acc.2 = {[a]} ∪ seen ∧ heapOf acc.1 = h)
                  (walkEntry heapOf fuel visitor a ctx pointer) fields
                  (s1, {[a]} ∪ seen)) as ([s2 seen2] & Hfold & Hseen2 & Hs2);
        [done| |].
      + intros [s' seen'] entry [Hseen' Hs'] _. cbn in Hseen', Hs'. subst seen'.
        unfold walkEntry. cbn [fst snd].
        destruct (IH entry.2 (ctx || isSchemaContextKey entry.1)
                    (pointer +:+ "/" +:+ encodeJsonPointerToken entry.1)
                    ({[a]} ∪ seen) (Some (a, KStr entry.1)) s' Hs' Hless)
          as (s'' & -> & Hs'').
        by exists (s'', {[a]} ∪ seen).
      + cbn in Hseen2. subst seen2. by exists s2.
    - destruct (foldl_bind_total
                  (fun acc : S * gset addr => acc.2 = {[a]} ∪ seen ∧ heapOf acc.1 = h)
                  (walkItem heapOf fuel visitor a ctx pointer) (seq 0 (length items))
                  (s1, {[a]} ∪ seen)) as ([s2 seen2] & Hfold & Hseen2 & Hs2);
        [done| |].
      + intros [s' seen'] index [Hseen' Hs'] _. cbn in Hseen', Hs'. subst seen'.
        unfold walkItem. cbn [fst snd]. rewrite Hs'.
        destruct (h !! a) as [[?|current]|];
          try (by exists (s', {[a]} ∪ seen)).
        destruct (current !! index) as [item|];
          [|by exists (s', {[a]} ∪ seen)].
        destruct (IH item ctx
                    (pointer +:+ "/" +:+ encodeJsonPointerToken (pretty index))
                    ({[a]} ∪ seen) (Some (a, KIdx index)) s' Hs' Hless)
          as (s'' & -> & Hs'').
        by exists (s'', {[a]} ∪ seen).
      + cbn in Hseen2. subst seen2. by exists s2. }
  cbn. exists s2. split; [|done]. do 2 f_equal. set_solver.
Qed.

(** X4.  [walk] with a visitor that returns and leaves the heap alone comes
    to its end on every heap, also where objects hold themselves: calls
    nested deeper than the heap has objects are not needed. *)
Theorem walk_returns (fuel : nat) (v : value) (ctx : bool) (pointer : string)
    (seen : gset addr) (parent : option (addr * pkey)) (s : S) :
  (length (heapOf s) < fuel)%nat →
  ∃ s', walk heapOf fuel visitor v ctx pointer seen parent s = Some (s', seen)
        ∧ heapOf s' = heapOf s.
Proof.
  intros Hfuel. apply walk_returns_left; [done|].
  eapply Nat.le_lt_trans; [|exact Hfuel].
  etrans; [apply subseteq_size, subseteq_difference_l; reflexivity|].
  unfold addresses. by rewrite size_set_seq.
Qed.

End WalkReturns.

Lemma walk_restores_seen_witness :
  ∃ r, walk (fun _ : nat => selfReferent) 3 countVisits (VObj 1) false "#"
         {[5]} None 0 = Some r
       ∧ r.2 = {[5]}.
Proof.
  eexists. split; [vm_compute; reflexivity|].
  apply (walk_restores_seen (fun _ : nat => selfReferent) countVisits 3
           (VObj 1) false "#" {[5]} None 0).
  vm_compute. reflexivity.
Defined.

Lemma walk_returns_witness :
  ∃ visits, walk (fun _ : nat => selfReferent) 3 countVisits (VObj 1) false
              "#" ∅ None 0 = Some (visits, ∅)
            ∧ selfReferent = selfReferent.
Proof.
  apply (walk_returns (fun _ : nat => selfReferent) countVisits).
  - intros a pointer ctx parent visits. eexists. split; reflexivity.
  - cbn. lia.
Defined.


Section TargetFacts.

Lemma collectSchemaTargets_returns fuel h root externalSchemas :
  (length h < fuel)%nat →
  is_Some (collectSchemaTargets fuel h root externalSchemas).
Proof.
  intros Hfuel. unfold collectSchemaTargets, walkRoot.
  match goal with
  | |- context [walk ?heapOf fuel ?visitor root false "#" ∅ None []] =>
      destruct (walk_returns_left heapOf visitor) with
        (fuel := fuel) (h := h) (v := root) (ctx := false) (pointer := "#")
        (seen := (∅ : gset addr)) (parent := @None (addr * pkey))
        (s := @nil (addr * string)) as (found & -> & _)
  end.
  - intros a pointer ctx parent found.
    destruct (externalSchemas !! a); [|by eexists].
    destruct (_ || _); [by eexists|]. destruct (bool_decide _); by eexists.
  - reflexivity.
  - eapply Nat.le_lt_trans; [|exact Hfuel].
    etrans; [apply subseteq_size, subseteq_difference_l; reflexivity|].
    unfold addresses. by rewrite size_set_seq.
  - by eexists.
Qed.

Lemma collectSchemaTargets_distinct fuel h root externalSchemas targets :
  collectSchemaTargets fuel h root externalSchemas = Some targets →
  NoDup targets.*2.
Proof.
  unfold collectSchemaTargets, walkRoot.
  destruct (walk _ _ _ _ _ _ _ _ _) as [r|] eqn:Hwalk; [|done]. cbn. intros [= <-].
  rewrite sortByKey_perm, <- list_fmap_compose.
  eapply (walk_invariant _ _ (fun found : list (addr * string) => NoDup found.*1)
            (fun _ _ => True) (fun _ _ _ _ => True)) in Hwalk; try done.
  - destruct Hwalk as [Hnodup _]. revert Hnodup.
    assert (snd ∘ (fun '(value, sourcePath) => (sourcePath, value)) <$> r.1
            = (r.1).*1) as ->; [|done].
    apply list_fmap_ext. by intros ? [? ?].
  - intros a pointer ctx parent found found' Hfound _.
    destruct (externalSchemas !! a) as [sourcePath|] eqn:Hlook; [|by intros [= <-]].
    destruct (_ || _); [by intros [= <-]|].
    destruct (bool_decide _) eqn:Hin; intros [= <-]; [done|]. split; [|done].
    apply bool_decide_eq_false in Hin.
    rewrite fmap_app. apply NoDup_app. split; [done|]. split.
    + by intros x Hx ->%list_elem_of_singleton.
    + apply NoDup_singleton.
  - constructor.
Qed.

End TargetFacts.

(** X5.  [collectSchemaTargets] returns on every document, and what it
    returns are loaded files, each once and with the path it was loaded
    from. *)
Theorem collectSchemaTargets_spec (fuel : nat) (h : heap) (root : addr)
    (externalSchemas : gmap addr string) :
  (length h < fuel)%nat →
  ∃ targets,
    collectSchemaTargets fuel h (VObj root) externalSchemas = Some targets
    ∧ NoDup targets.*2
    ∧ ∀ sourcePath value,
        (sourcePath, value) ∈ targets →
        externalSchemas !! value = Some sourcePath.
Proof.
  intros Hfuel.
  destruct (collectSchemaTargets_returns fuel h (VObj root) externalSchemas Hfuel)
    as [targets Htargets].
  exists targets. split; [done|]. split.
  - by eapply collectSchemaTargets_distinct.
  - by eapply collectSchemaTargets_found.
Qed.

Lemma collectSchemaTargets_spec_witness :
  ∃ targets,
    collectSchemaTargets 20 payloadDocument (VObj 0)
      {[8 := "/spec/schemas/Pet.yaml"]} = Some targets
    ∧ NoDup targets.*2
    ∧ ∀ sourcePath value,
        (sourcePath, value) ∈ targets →
        ({[8 := "/spec/schemas/Pet.yaml"]} : gmap addr string) !! value
        = Some sourcePath.
Proof.
  apply (collectSchemaTargets_spec 20 payloadDocument 0).
  cbn. lia.
Defined.

Section NameFacts.

Lemma allChars_app p s1 s2 :
  allChars p (s1 +:+ s2) = allChars p s1 && allChars p s2.
Proof.
  induction s1 as [|c s1 IH]; [done|].
  rewrite append_cons. cbn. by rewrite IH, andb_assoc.
Qed.

Lemma allChars_impl (p q : ascii → bool) s :
  (∀ c, p c = true → q c = true) → allChars p s = true → allChars q s = true.
Proof.
  intros Hpq. induction s as [|c s IH]; [done|]. cbn.
  rewrite !andb_true_iff. intros [Hc Hs]. auto.
Qed.

Lemma allChars_rev_app p s1 s2 :
  allChars p (String.rev_app s1 s2) = allChars p s1 && allChars p s2.
Proof.
  revert s2. induction s1 as [|c s1 IH]; intros s2; [done|].
  cbn. rewrite IH. cbn. rewrite !andb_assoc. f_equal. apply andb_comm.
Qed.

Lemma allChars_rev p s : allChars p (String.rev s) = allChars p s.
Proof. unfold String.rev. rewrite allChars_rev_app. cbn. apply andb_true_r. Qed.

Lemma allChars_trimStart p s :
  allChars p s = true → allChars p (trimStart s) = true.
Proof.
  induction s as [|c s IH]; [done|]. cbn.
  destruct (Ascii.eqb c " "); [|done]. rewrite andb_true_iff. intros [_ Hs]. auto.
Qed.

Lemma allChars_trim p s : allChars p s = true → allChars p (trim s) = true.
Proof.
  intros Hs. unfold trim.
  rewrite allChars_rev. apply allChars_trimStart.
  rewrite allChars_rev. by apply allChars_trimStart.
Qed.

(** A word character: a letter or a digit; a sanitized name has word
    characters and spaces. *)
Lemma replaceNonAlnumRuns_chars inRun s :
  allChars (fun c => isAlnum c || Ascii.eqb c " ") (replaceNonAlnumRuns inRun s)
  = true.
Proof.
  revert inRun. induction s as [|c s IH]; intros inRun; [done|].
  cbn [replaceNonAlnumRuns].
  destruct (isAlnum c) eqn:Hc.
  - cbn [allChars]. rewrite Hc. apply IH.
  - destruct inRun; [apply IH|]. cbn [allChars]. apply IH.
Qed.

Lemma upperChar_alnum c : isAlnum c = true → isAlnum (upperChar c) = true.
Proof.
  unfold upperChar. cbv zeta.
  destruct ((97 <=? N_of_ascii c)%N && (N_of_ascii c <=? 122)%N) eqn:Hlower;
    [|done].
  intros _. unfold isAlnum. cbv zeta.
  apply andb_true_iff in Hlower as [Hlo Hhi].
  apply N.leb_le in Hlo, Hhi.
  rewrite N_ascii_embedding by lia.
  apply orb_true_iff. left. apply orb_true_iff. right.
  apply andb_true_iff. split; apply N.leb_le; lia.
Qed.

Lemma capitalize_alnum part :
  allChars isAlnum part = true → allChars isAlnum (capitalize part) = true.
Proof.
  destruct part as [|c r]; [done|]. cbn. rewrite !andb_true_iff.
  intros [Hc Hr]. split; [by apply upperChar_alnum|done].
Qed.

Lemma allChars_string_of_list p l :
  allChars p (string_of_list_ascii l) = forallb p l.
Proof. induction l as [|c l IH]; [done|]. cbn. by rewrite IH. Qed.

(** The words of a sanitized name: none is empty, all are of word
    characters, and there is one as soon as the name has a word character. *)
Lemma splitWords_words word s :
  forallb isAlnum word = true →
  allChars (fun c => isAlnum c || Ascii.eqb c " ") s = true →
  Forall (fun part => part ≠ "" ∧ allChars isAlnum part = true) (splitWords word s)
  ∧ (word ≠ [] ∨ allChars (Ascii.eqb " ") s = false → splitWords word s ≠ []).
Proof.
  assert (Hflush : ∀ word rest,
    forallb isAlnum word = true →
    Forall (fun part => part ≠ "" ∧ allChars isAlnum part = true) rest →
    Forall (fun part => part ≠ "" ∧ allChars isAlnum part = true)
      match word with
      | [] => rest
      | _ => string_of_list_ascii (rev word) :: rest
      end).
  { intros [|c w] rest Hw Hrest; [done|]. constructor; [|done]. split.
    - intros Hempty. apply (f_equal list_ascii_of_string) in Hempty.
      rewrite list_ascii_of_string_of_list_ascii in Hempty. cbn in Hempty.
      by destruct (rev w).
    - rewrite allChars_string_of_list, forallb_forall. intros x Hx%in_rev.
      rewrite forallb_forall in Hw. by apply Hw. }
  revert word. induction s as [|c s IH]; intros word Hword Hs.
  - cbn [splitWords]. split; [by apply Hflush|].
    intros [Hne|Hfalse]; [by destruct word|done].
  - cbn [splitWords]. cbn in Hs. apply andb_true_iff in Hs as [Hc Hs].
    destruct (Ascii.eqb c " ") eqn:Hspace.
    + destruct (IH [] eq_refl Hs) as [Hall Hsome]. split; [by apply Hflush|].
      intros [Hne|Hfalse]; [by destruct word|].
      cbn in Hfalse. apply Ascii.eqb_eq in Hspace as ->. cbn in Hfalse.
      destruct word; [|done]. apply Hsome. by right.
    + rewrite orb_false_r in Hc.
      destruct (IH (c :: word)) as [Hall Hsome]; [by cbn; rewrite Hc| done|].
      split; [done|]. intros _. apply Hsome. by left.
Qed.

Lemma concat_words (parts : list string) :
  Forall (fun part => part ≠ "" ∧ allChars isAlnum part = true) parts →
  parts ≠ [] →
  String.concat "" parts ≠ "" ∧ allChars isAlnum (String.concat "" parts) = true.
Proof.
  induction 1 as [|part parts [Hne Hpart] Hparts IH]; [done|]. intros _.
  destruct parts as [|next parts].
  - done.
  - change (String.concat "" (part :: next :: parts))
      with (part +:+ String.concat "" (next :: parts)).
    destruct IH as [_ IH]; [done|]. split.
    + destruct part; [done|]. by rewrite append_cons.
    + rewrite allChars_app, Hpart. exact IH.
Qed.
End NameFacts.

Section DerivedNames.

Lemma trimStart_head s :
  trimStart s = "" ∨ ∃ c r, trimStart s = String c r ∧ Ascii.eqb c " " = false.
Proof.
  induction s as [|c s IH]; [by left|]. cbn.
  destruct (Ascii.eqb c " ") eqn:Hc; [done|]. right. by exists c, s.
Qed.

Lemma trim_has_word s : trim s ≠ "" → allChars (Ascii.eqb " ") (trim s) = false.
Proof.
  unfold trim.
  destruct (trimStart_head (String.rev (trimStart s))) as [->|(c & r & -> & Hc)];
    [done|].
  intros _. rewrite allChars_rev. cbn [allChars]. by rewrite Ascii.eqb_sym, Hc.
Qed.

Lemma normalizeComponentName_word name :
  normalizeComponentName name ≠ ""
  ∧ allChars isAlnum (normalizeComponentName name) = true.
Proof.
  unfold normalizeComponentName. cbv zeta.
  destruct (String.eqb _ "") eqn:Hempty; [done|].
  apply String.eqb_neq in Hempty.
  destruct (splitWords_words [] (trim (replaceNonAlnumRuns false (stripExtension name))))
    as [Hwords Hsome]; [done|apply allChars_trim, replaceNonAlnumRuns_chars|].
  apply concat_words.
  - apply Forall_forall. intros part (word & -> & Hword)%list_elem_of_fmap.
    rewrite Forall_forall in Hwords. destruct (Hwords _ Hword) as [Hne Halnum].
    split; [by destruct word|by apply capitalize_alnum].
  - intros Hnil%fmap_nil_inv. revert Hnil. apply Hsome. right.
    by apply trim_has_word.
Qed.

(** X6.  The names [normalizeComponentName] and [createSchemaNameFromPointer]
    give are not empty and have letters and digits only. *)
Theorem derived_names_are_words (name pointer : string) :
  (normalizeComponentName name ≠ ""
   ∧ allChars isAlnum (normalizeComponentName name) = true)
  ∧ (createSchemaNameFromPointer pointer ≠ ""
     ∧ allChars isAlnum (createSchemaNameFromPointer pointer) = true).
Proof.
  split; [apply normalizeComponentName_word|].
  unfold createSchemaNameFromPointer. cbv zeta.
  destruct (filter _ _) as [|token ?]; [|apply normalizeComponentName_word].
  destruct (last _); [apply normalizeComponentName_word|done].
Qed.

Lemma dashUnsafe_chars s : allChars isNameChar (dashUnsafe s) = true.
Proof.
  induction s as [|c s IH]; [done|]. cbn [dashUnsafe]. cbv zeta.
  destruct (isAlnum c || Ascii.eqb c "." || Ascii.eqb c "_" || Ascii.eqb c "-")
    eqn:Hc; [cbn [allChars]; unfold isNameChar at 1; by rewrite Hc|].
  repeat (destruct (_ <? _)%N); cbn [allChars]; by rewrite ?IH.
Qed.

(** X7.  [createSchemaNameFromSourcePath] gives a name that is not empty
    and has letters, digits, [.], [_] and [-] only, whatever the path and
    whatever [basename] makes of it. *)
Theorem createSchemaNameFromSourcePath_safe `{Host} (sourcePath : string) :
  createSchemaNameFromSourcePath sourcePath ≠ ""
  ∧ allChars isNameChar (createSchemaNameFromSourcePath sourcePath) = true.
Proof.
  unfold createSchemaNameFromSourcePath. cbv zeta.
  destruct (String.eqb _ "") eqn:Hempty; [done|].
  apply String.eqb_neq in Hempty. split; [done|apply dashUnsafe_chars].
Qed.

Lemma numchars_name s : numchars s = true → allChars isNameChar s = true.
Proof.
  induction s as [|c s IH]; [done|]. cbn. rewrite !andb_true_iff.
  intros [Hc Hs]. split; [|auto].
  unfold numchar in Hc. unfold isNameChar, isAlnum. cbv zeta in *.
  apply orb_true_iff in Hc as [Hdigit|Hdash].
  - by rewrite Hdigit.
  - apply N.eqb_eq in Hdash.
    assert (c = "-"%char) as ->; [|done].
    rewrite <- (ascii_N_embedding c), Hdash. done.
Qed.

Lemma createUniqueSchemaName_loop_chars fuel safeBaseName names :
  ∀ uniqueName index result,
    allChars isNameChar safeBaseName = true →
    uniqueName ≠ "" ∧ allChars isNameChar uniqueName = true →
    safeBaseName ≠ "" →
    createUniqueSchemaName_loop fuel safeBaseName names uniqueName index
    = Some result →
    result ≠ "" ∧ allChars isNameChar result = true.
Proof.
  induction fuel as [|fuel IH]; intros uniqueName index result Hsafe Hunique Hne;
    cbn; destruct (decide _); try done; try (by intros [= <-]).
  apply IH; [done| |done]. split.
  - destruct safeBaseName; [done|]. by rewrite append_cons.
  - rewrite !allChars_app, Hsafe. cbn.
    apply numchars_name, pretty_N_numchars.
Qed.

Lemma createUniqueSchemaName_chars baseName names uniqueName names' :
  allChars isNameChar baseName = true →
  createUniqueSchemaName baseName names = Some (uniqueName, names') →
  uniqueName ≠ "" ∧ allChars isNameChar uniqueName = true.
Proof.
  intros Hbase. unfold createUniqueSchemaName. cbv zeta.
  destruct (createUniqueSchemaName_loop _ _ _ _ _) as [result|] eqn:Hloop; [|done].
  cbn. intros [= <- _].
  eapply createUniqueSchemaName_loop_chars in Hloop; [done|..];
    by destruct (decide _).
Qed.

Lemma has_char_name (c : ascii) s :
  isNameChar c = false →
  allChars isNameChar s = true → Str.has_char c s = false.
Proof.
  intros Hc. induction s as [|x s IH]; [done|]. cbn.
  rewrite andb_true_iff. intros [Hx Hs]. rewrite IH by done.
  destruct (Ascii.eqb x c) eqn:Heq; [|done].
  apply Ascii.eqb_eq in Heq as ->. congruence.
Qed.

Lemma replace1_absent c rep s :
  Str.has_char c s = false → Str.replace1 c rep s = s.
Proof.
  induction s as [|x s IH]; [done|]. cbn.
  destruct (Ascii.eqb x c); [done|]. cbn. intros Hs. by rewrite IH.
Qed.

Lemma split_nonempty c s : Str.split c s ≠ [].
Proof.
  destruct s as [|x s]; [done|]. cbn.
  destruct (Ascii.eqb x c); [done|]. by destruct (Str.split c s).
Qed.

Lemma split_absent c s : Str.has_char c s = false → Str.split c s = [s].
Proof.
  induction s as [|x s IH]; [done|]. cbn.
  destruct (Ascii.eqb x c); [done|]. cbn. intros Hs. by rewrite IH.
Qed.

Lemma split_last c p e :
  Str.has_char c e = false →
  Str.split c (p +:+ String c e) = Str.split c p ++ [e].
Proof.
  intros He. induction p as [|x p IH].
  - change ("" +:+ String c e) with (String c e). cbn [Str.split].
    rewrite Ascii.eqb_refl. by rewrite split_absent.
  - rewrite append_cons. cbn [Str.split]. rewrite IH.
    destruct (Ascii.eqb x c); [done|].
    pose proof (split_nonempty c p). by destruct (Str.split c p).
Qed.

Lemma componentPointer_name name :
  name ≠ "" → allChars isNameChar name = true →
  componentPointer name = "#/components/schemas/" +:+ name
  ∧ isComponentSchemaRootPointer (componentPointer name) = true
  ∧ lastToken (componentPointer name) = Some name
  ∧ decodeJsonPointerToken name = name.
Proof.
  intros Hne Hname.
  assert (encodeJsonPointerToken name = name) as Hencode.
  { unfold encodeJsonPointerToken.
    rewrite (replace1_absent "~") by (by apply has_char_name).
    apply replace1_absent. by apply has_char_name. }
  unfold componentPointer. rewrite Hencode.
  split; [done|]. split; [|split].
  - unfold isComponentSchemaRootPointer.
    change (Str.drop 21 ("#/components/schemas/" +:+ name)) with name.
    rewrite (has_char_name "/") by done.
    apply String.eqb_neq in Hne. rewrite Hne.
    by destruct name.
  - unfold lastToken.
    change ("#/components/schemas/" +:+ name)
      with ("#/components/schemas" +:+ String "/" name).
    rewrite split_last by (by apply has_char_name).
    apply last_snoc.
  - unfold decodeJsonPointerToken.
    rewrite decodeURIComponent_no_percent by (by apply has_char_name).
    rewrite <- Hencode at 1. apply unescape_encode.
Qed.

End DerivedNames.

Section FreshNames.

Lemma createUniqueSchemaName_loop_free fuel safeBaseName names :
  ∀ uniqueName index result,
    createUniqueSchemaName_loop fuel safeBaseName names uniqueName index
    = Some result →
    result ∉ names.
Proof.
  induction fuel as [|fuel IH]; intros uniqueName index result; cbn;
    destruct (decide _); try done; try (by intros [= <-]).
  apply IH.
Qed.

Lemma list_ascii_of_string_app s1 s2 :
  list_ascii_of_string (s1 +:+ s2)
  = list_ascii_of_string s1 ++ list_ascii_of_string s2.
Proof. induction s1 as [|c s1 IH]; [done|]. cbn. by rewrite <- IH. Qed.

Lemma numchars_last d :
  numchars d = true → d ≠ "" →
  ∃ c, last (list_ascii_of_string d) = Some c ∧ numchar c = true.
Proof.
  induction d as [|c d IH]; [done|]. cbn [numchars]. rewrite andb_true_iff.
  intros [Hc Hd] _. cbn [list_ascii_of_string]. rewrite last_cons.
  destruct d as [|c' d]; [by exists c|].
  destruct (IH Hd) as (c'' & -> & Hc''); [done|]. by exists c''.
Qed.

Lemma pretty_N_nonempty (x : N) : pretty x ≠ "".
Proof.
  intros Hx. unfold pretty, pretty_N in Hx. case_decide; [done|].
  rewrite pretty_N_go_step in Hx by lia.
  pose proof (pretty_N_go_length (x `div` 10)%N
                (String (pretty_N_char (x `mod` 10)) "")) as Hlen.
  rewrite Hx in Hlen. cbn in Hlen. lia.
Qed.

Lemma suffixedName_not_proto safeBaseName (index : N) :
  safeBaseName +:+ "_" +:+ pretty index ≠ "__proto__".
Proof.
  intros Heq. apply (f_equal (λ s, last (list_ascii_of_string s))) in Heq.
  rewrite !list_ascii_of_string_app, !last_app in Heq.
  destruct (numchars_last (pretty index)) as (c & Hlast & Hc);
    [apply pretty_N_numchars|apply pretty_N_nonempty|].
  rewrite Hlast in Heq. cbn in Heq. by injection Heq as ->.
Qed.

Lemma createUniqueSchemaName_loop_not_proto fuel safeBaseName names :
  ∀ uniqueName index result,
    uniqueName ≠ "__proto__" →
    createUniqueSchemaName_loop fuel safeBaseName names uniqueName index
    = Some result →
    result ≠ "__proto__".
Proof.
  induction fuel as [|fuel IH]; intros uniqueName index result Hunique; cbn;
    destruct (decide _); try done; try (by intros [= <-]).
  apply IH, suffixedName_not_proto.
Qed.

Lemma createUniqueSchemaName_not_proto baseName names uniqueName names' :
  baseName ≠ "__proto__" →
  createUniqueSchemaName baseName names = Some (uniqueName, names') →
  uniqueName ≠ "__proto__".
Proof.
  intros Hbase. unfold createUniqueSchemaName. cbv zeta.
  destruct (createUniqueSchemaName_loop _ _ _ _ _) as [result|] eqn:Hloop; [|done].
  cbn. intros [= <- _].
  eapply createUniqueSchemaName_loop_not_proto in Hloop; [done|].
  by destruct (decide _).
Qed.

Lemma registerSchemaInComponents_own_name h registry schema preferredName
    pointer h' registry' :
  schemaPointersByValue registry !! schema = None →
  allChars isNameChar preferredName = true →
  preferredName ≠ "__proto__" →
  registerSchemaInComponents h registry schema preferredName
  = Some (pointer, h', registry') →
  pointer ≠ "#/components/schemas/__proto__".
Proof.
  intros Hnew Hchars Hproto. unfold registerSchemaInComponents. rewrite Hnew.
  destruct (createUniqueSchemaName preferredName (schemaNames registry))
    as [[uniqueName names]|] eqn:Hunique; [|done].
  cbn [mbind option_bind]. intros [= <- <- <-].
  destruct (createUniqueSchemaName_chars _ _ _ _ Hchars Hunique) as [Hne Hname].
  destruct (componentPointer_name uniqueName Hne Hname) as (Hpointer & _).
  apply createUniqueSchemaName_not_proto in Hunique; [|done].
  fold (componentPointer uniqueName). rewrite Hpointer.
  intros Heq. apply Hunique. cbn in Heq. by injection Heq.
Qed.

Lemma registerSchemaInComponents_fresh h registry schema preferredName
    pointer h' registry' :
  schemaPointersByValue registry !! schema = None →
  allChars isNameChar preferredName = true →
  registerSchemaInComponents h registry schema preferredName
  = Some (pointer, h', registry') →
  ∃ name,
    (name ∉ schemaNames registry)
    ∧ (name ≠ "") ∧ allChars isNameChar name = true
    ∧ pointer = "#/components/schemas/" +:+ name
    ∧ h' = store h (componentSchemas registry) (KStr name) (VObj schema)
    ∧ schemaNames registry' = {[name]} ∪ schemaNames registry
    ∧ schemaPointersByValue registry'
      = <[schema := pointer]> (schemaPointersByValue registry).
Proof.
  intros Hnew Hchars. unfold registerSchemaInComponents. rewrite Hnew.
  destruct (createUniqueSchemaName preferredName (schemaNames registry))
    as [[uniqueName names]|] eqn:Hunique; [|done].
  cbn [mbind option_bind]. intros [= <- <- <-].
  destruct (createUniqueSchemaName_chars _ _ _ _ Hchars Hunique) as [Hne Hname].
  destruct (componentPointer_name uniqueName Hne Hname) as (Hpointer & _).
  exists uniqueName. unfold createUniqueSchemaName in Hunique.
  destruct (createUniqueSchemaName_loop _ _ _ _ _) as [result|] eqn:Hloop; [|done].
  cbn in Hunique. injection Hunique as -> <-.
  apply createUniqueSchemaName_loop_free in Hloop. by rewrite Hpointer.
Qed.

End FreshNames.

(** X8.  A schema that [registerSchemaInComponents] registers for the first
    time under a preferred name of letters, digits, [.], [_] and [-] (the
    names of X6 and X7 are such) other than [__proto__] is stored in
    [components.schemas] under the very name that
    [decodeJsonPointerToken(pointer.split('/').at(-1))] reads back from the
    returned pointer; the name was free, it is not [__proto__], and the
    pointer is the root pointer of that component.  The name [__proto__] is
    left out: for it [registry.componentSchemas[uniqueName] = schema]
    reaches the prototype of [components.schemas] and adds no key, which
    [store] does not describe. *)
Theorem registerSchemaInComponents_recovers_name (h : heap)
    (registry : SchemaRegistry) (schema : addr) (preferredName : string)
    (pointer : string) (h' : heap) (registry' : SchemaRegistry) :
  schemaPointersByValue registry !! schema = None →
  allChars isNameChar preferredName = true →
  preferredName ≠ "__proto__" →
  registerSchemaInComponents h registry schema preferredName
  = Some (pointer, h', registry') →
  let name := decodeJsonPointerToken (default "" (lastToken pointer)) in
  (name ∉ schemaNames registry)
  ∧ name ≠ "__proto__"
  ∧ pointer = "#/components/schemas/" +:+ name
  ∧ isComponentSchemaRootPointer pointer = true
  ∧ h' = store h (componentSchemas registry) (KStr name) (VObj schema)
  ∧ schemaPointersByValue registry' !! schema = Some pointer.
Proof.
  intros Hnew Hchars Hproto Hregister.
  pose proof (registerSchemaInComponents_own_name _ _ _ _ _ _ _
                Hnew Hchars Hproto Hregister) as Hown.
  destruct (registerSchemaInComponents_fresh _ _ _ _ _ _ _ Hnew Hchars Hregister)
    as (name & Hfree & Hne & Hname & -> & -> & _ & Hpointers).
  destruct (componentPointer_name name Hne Hname)
    as (Hpointer & Hroot & Hlast & Hdecode).
  cbv zeta. rewrite <- Hpointer, Hlast. cbn [from_option]. unfold id.
  rewrite Hdecode.
  split; [done|]. split; [by intros ->|].
  split; [done|]. split; [done|]. split; [done|].
  rewrite Hpointers, <- Hpointer. apply lookup_insert_eq.
Qed.

Lemma registerSchemaInComponents_recovers_name_witness :
  ∃ pointer h' registry',
    registerSchemaInComponents petStore petRegistry 4 "Pet"
    = Some (pointer, h', registry')
    ∧ (decodeJsonPointerToken (default "" (lastToken pointer))
       ∉ schemaNames petRegistry)
    ∧ decodeJsonPointerToken (default "" (lastToken pointer)) ≠ "__proto__"
    ∧ pointer = "#/components/schemas/"
                +:+ decodeJsonPointerToken (default "" (lastToken pointer))
    ∧ isComponentSchemaRootPointer pointer = true
    ∧ h' = store petStore (componentSchemas petRegistry)
             (KStr (decodeJsonPointerToken (default "" (lastToken pointer))))
             (VObj 4)
    ∧ schemaPointersByValue registry' !! 4 = Some pointer.
Proof.
  do 3 eexists. split; [vm_compute; reflexivity|].
  apply (registerSchemaInComponents_recovers_name petStore petRegistry 4 "Pet").
  - vm_compute. reflexivity.
  - vm_compute. reflexivity.
  - discriminate.
  - vm_compute. reflexivity.
Defined.

Section SourceCache.
Context `{Host}.

Lemma addExternalNameCandidate_paths h resolver schema name :
  schemaBySourcePath (addExternalNameCandidate h resolver schema name)
  = schemaBySourcePath resolver
  ∧ loadingSourcePaths (addExternalNameCandidate h resolver schema name)
    = loadingSourcePaths resolver.
Proof. unfold addExternalNameCandidate. by destruct (negb _). Qed.

Lemma ensureExternalSchemaForSourcePath_result sourcePath s result s' :
  ensureExternalSchemaForSourcePath sourcePath s = (result, s') →
  loadingSourcePaths (st_resolver s') = loadingSourcePaths (st_resolver s)
  ∧ st_registry s' = st_registry s
  ∧ (∀ a, result = Some a →
          schemaBySourcePath (st_resolver s') !! sourcePath = Some a)
  ∧ (result = None → parseSourceFile sourcePath = None → s' = s).
Proof.
  unfold ensureExternalSchemaForSourcePath. cbv zeta.
  destruct (schemaBySourcePath (st_resolver s) !! sourcePath) as [existing|] eqn:Hcached.
  { intros [= <- <-]. split; [done|]. split; [done|]. split; [|done].
    by intros a [= <-]. }
  destruct (bool_decide (sourcePath ∈ loadingSourcePaths (st_resolver s))) eqn:Hloading.
  { by intros [= <- <-]. }
  apply bool_decide_eq_false in Hloading.
  assert (Hrestored : ∀ loading : gset string,
            loading = loadingSourcePaths (st_resolver s) →
            ({[sourcePath]} ∪ loading) ∖ {[sourcePath]} = loading)
    by (intros ? ->; set_solver).
  destruct (parseSourceFile sourcePath) as [parsed|].
  - destruct (allocJson parsed (st_heap s)) as [schema h1].
    destruct schema as [| | | |a];
      try (intros [= <- <-]; cbn; by rewrite Hrestored).
    destruct (isRecord h1 (Some (VObj a)) && isLikelySchemaObject (entriesOf h1 a))
      eqn:Hschema; [|intros [= <- <-]; cbn; by rewrite Hrestored].
    apply andb_true_iff in Hschema as [_ Hlikely].
    intros [= <- <-]. cbn [st_resolver st_registry].
    unfold registerExternalSourcePath. rewrite Hlikely. cbn [negb].
    unfold withLoading at 1. cbn [loadingSourcePaths schemaBySourcePath].
    destruct (addExternalNameCandidate_paths h1
                (withLoading (st_resolver s)
                   ({[sourcePath]} ∪ loadingSourcePaths (st_resolver s)))
                a (createSchemaNameFromSourcePath sourcePath)) as [_ ->].
    cbn [withLoading loadingSourcePaths]. rewrite Hrestored by done.
    split; [done|]. split; [done|]. split; [|done].
    intros ? [= <-]. apply lookup_insert_eq.
  - intros [= <- <-]. cbn. rewrite Hrestored by done.
    split; [done|]. split; [done|]. split; [done|]. intros _ _.
    by destruct s as [? ? []].
Qed.

End SourceCache.

(** X9.  Every call of [ensureExternalSchemaForSourcePath], whatever it
    returns (a cached schema, a freshly parsed one, or [undefined] for a path
    that is being loaded, a file that cannot be parsed or a file that is not
    a schema), leaves [loadingSourcePaths] and the registry as it found
    them.  The function caches what it loads: after a call that returned a
    schema, the next call for the same path returns the same object and
    changes nothing. *)
Theorem ensureExternalSchemaForSourcePath_cached `{Host} (sourcePath : string)
    (s : state) (result : option addr) (s' : state) :
  ensureExternalSchemaForSourcePath sourcePath s = (result, s') →
  loadingSourcePaths (st_resolver s') = loadingSourcePaths (st_resolver s)
  ∧ st_registry s' = st_registry s
  ∧ (∀ a, result = Some a →
          ensureExternalSchemaForSourcePath sourcePath s' = (Some a, s')).
Proof.
  intros Hfirst.
  destruct (ensureExternalSchemaForSourcePath_result _ _ _ _ Hfirst)
    as (Hloading & Hregistry & Hcached & _).
  split; [done|]. split; [done|]. intros a Ha.
  unfold ensureExternalSchemaForSourcePath. cbv zeta.
  by rewrite (Hcached a Ha).
Qed.

Lemma ensureExternalSchemaForSourcePath_cached_witness :
  (∃ a s',
     ensureExternalSchemaForSourcePath (H := petFiles) "/spec/schemas/Pet.yaml"
       petState = (Some a, s')
     ∧ loadingSourcePaths (st_resolver s')
       = loadingSourcePaths (st_resolver petState)
     ∧ st_registry s' = st_registry petState
     ∧ ensureExternalSchemaForSourcePath (H := petFiles)
         "/spec/schemas/Pet.yaml" s' = (Some a, s'))
  ∧ (∃ s',
       ensureExternalSchemaForSourcePath (H := petFiles)
         "/spec/schemas/Missing.yaml" petState = (None, s')
       ∧ loadingSourcePaths (st_resolver s')
         = loadingSourcePaths (st_resolver petState)
       ∧ st_registry s' = st_registry petState).
Proof.
  split.
  - do 2 eexists. split; [vm_compute; reflexivity|].
    destruct (ensureExternalSchemaForSourcePath_cached (H := petFiles)
                "/spec/schemas/Pet.yaml" petState _ _ eq_refl)
      as (Hloading & Hregistry & Hcached).
    split; [exact Hloading|]. split; [exact Hregistry|].
    exact (Hcached _ eq_refl).
  - eexists. split; [vm_compute; reflexivity|].
    destruct (ensureExternalSchemaForSourcePath_cached (H := petFiles)
                "/spec/schemas/Missing.yaml" petState _ _ eq_refl)
      as (Hloading & Hregistry & _).
    split; [exact Hloading|exact Hregistry].
Defined.


Section MappingPointers.
Context `{Host}.

Lemma registerSchemaInComponents_component h registry schema preferredName
    pointer h' registry' :
  componentPointers registry →
  registerSchemaInComponents h registry schema preferredName
  = Some (pointer, h', registry') →
  isComponentRef pointer = true ∧ componentPointers registry'.
Proof.
  intros Hpointers. unfold registerSchemaInComponents.
  destruct (schemaPointersByValue registry !! schema) as [[|c existing]|] eqn:Hlook.
  2: { intros [= <- <- <-]. split; [|done]. by eapply Hpointers. }
  all: destruct (createUniqueSchemaName preferredName (schemaNames registry))
         as [[uniqueName names]|]; [|done]; cbn [mbind option_bind];
       intros [= <- <- <-].
  all: split; [apply isComponentRef_componentPointer|].
  all: intros a pointer; cbn [schemaPointersByValue]; rewrite lookup_insert_Some;
       intros [[_ <-]|[_ Hold]]; [apply isComponentRef_componentPointer|eauto].
Qed.

Lemma registerSourceSchema_component sourcePath externalSchema s pointer s' :
  componentPointers (st_registry s) →
  registerSourceSchema sourcePath externalSchema s = Some (pointer, s') →
  isComponentRef pointer = true ∧ componentPointers (st_registry s').
Proof.
  intros Hpointers. unfold registerSourceSchema. cbv zeta.
  destruct (registerSchemaInComponents _ _ _ _) as [[[p h'] registry']|] eqn:Hregister;
    [|done].
  cbn [mbind option_bind]. intros [= <- <-].
  by eapply registerSchemaInComponents_component.
Qed.

(** X10.  [resolveDiscriminatorMappingPointer] answers with component
    pointers only: where the registry records pointers of the form
    [#/components/schemas/...] only, as the one [createSchemaRegistry]
    makes does, the pointer the call returns is of that form, and so are
    the pointers in the registry afterwards. *)
Theorem resolveDiscriminatorMappingPointer_component (mappingValue : string)
    (schema : addr) (schemaPointer : string) (s : state) (pointer : string)
    (s' : state) :
  componentPointers (st_registry s) →
  resolveDiscriminatorMappingPointer mappingValue schema schemaPointer s
  = Some (Some pointer, s') →
  isComponentRef pointer = true ∧ componentPointers (st_registry s').
Proof.
  intros Hpointers. unfold resolveDiscriminatorMappingPointer. cbv zeta.
  destruct (Str.startsWith "#/components/schemas/" mappingValue) eqn:Hstart;
    [by intros [= <- <-]|].
  destruct (negb _); [done|].
  destruct (String.eqb _ ""); [done|].
  destruct (orElse _ None) as [sourcePath|].
  - destruct (ensureExternalSchemaForSourcePath sourcePath s)
      as [[externalSchema|] s1] eqn:Hensure; [|done].
    destruct (ensureExternalSchemaForSourcePath_result _ _ _ _ Hensure)
      as (_ & Hregistry & _).
    destruct (registerSourceSchema sourcePath externalSchema s1)
      as [[p s2]|] eqn:Hregister; [|done].
    cbn [mbind option_bind]. intros [= <- <-].
    eapply registerSourceSchema_component; [|done]. by rewrite Hregistry.
  - destruct (inRecord _ _); [|done]. intros [= <- <-]. split; [|done].
    apply startsWith_app.
Qed.

End MappingPointers.

Lemma resolveDiscriminatorMappingPointer_component_witness :
  ∃ pointer s',
    resolveDiscriminatorMappingPointer (H := Posix.host) "./Pet.yaml" 4
      "#/components/schemas/Animal" petState = Some (Some pointer, s')
    ∧ isComponentRef pointer = true ∧ componentPointers (st_registry s').
Proof.
  do 2 eexists. split; [vm_compute; reflexivity|].
  apply (resolveDiscriminatorMappingPointer_component (H := Posix.host)
           "./Pet.yaml" 4 "#/components/schemas/Animal" petState).
  - intros a pointer. cbn [petState st_registry petRegistry schemaPointersByValue].
    intros [<- <-]%lookup_singleton_Some. reflexivity.
  - vm_compute. reflexivity.
Defined.


Section ResolverRoundTrips.
Context `{Host}.

Lemma resolveExternalSchemaCandidate_identity h resolver schema name :
  isLikelySchemaObject (entriesOf h schema) = true → name ≠ "" →
  resolveExternalSchemaCandidate h schema
    (addExternalNameCandidate h resolver schema name)
  = Some (Candidate name schema).
Proof.
  intros Hlikely Hname. unfold addExternalNameCandidate. rewrite Hlikely.
  cbn [negb]. cbv zeta. unfold resolveExternalSchemaCandidate.
  cbn [nameByValue canonicalByName]. rewrite lookup_insert_eq.
  destruct name as [|c n]; [done|]. by rewrite lookup_insert_eq.
Qed.

Lemma resolveExternalSchemaCandidate_copy h resolver schema name copy :
  isLikelySchemaObject (entriesOf h schema) = true →
  copy ≠ schema → nameByValue resolver !! copy = None →
  createSchemaFingerprint h copy = createSchemaFingerprint h schema →
  canonicalByFingerprint resolver !! createSchemaFingerprint h schema = None →
  resolveExternalSchemaCandidate h copy
    (addExternalNameCandidate h resolver schema name)
  = Some (Candidate name schema).
Proof.
  intros Hlikely Hcopy Hunknown Hsame Hfresh. unfold addExternalNameCandidate.
  rewrite Hlikely. cbn [negb]. cbv zeta. unfold resolveExternalSchemaCandidate.
  cbn [nameByValue]. rewrite lookup_insert_ne, Hunknown by done.
  unfold resolveByFingerprint. cbn [canonicalByFingerprint].
  rewrite Hsame, lookup_insert_eq.
  match goal with
  | |- context [default [] ?found] =>
      replace found with (@None (JsMap.t addr)) by (symmetry; exact Hfresh)
  end.
  reflexivity.
Qed.

(** X11.  [resolveMatchingSourcePath] answers with known paths only: the
    path it returns is one that is registered under the base name asked
    for. *)
Theorem resolveMatchingSourcePath_known (pathRef baseName : string)
    (resolver : ExternalSchemaNameResolver) (sourcePath : string) :
  resolveMatchingSourcePath pathRef baseName resolver = Some sourcePath →
  ∃ candidates,
    sourcePathsByBaseName resolver !! baseName = Some candidates
    ∧ sourcePath ∈ candidates.
Proof.
  unfold resolveMatchingSourcePath.
  destruct (sourcePathsByBaseName resolver !! baseName) as [candidates|]; [|done].
  intros Hfound. exists candidates. split; [done|].
  apply elem_of_elements.
  destruct (elements candidates) as [|first [|second rest]] eqn:Hall; [done| |].
  - injection Hfound as <-. left.
  - destruct (filter _ _) as [|exact [|]] eqn:Hfilter; try done.
    injection Hfound as <-.
    assert (exact ∈ filter
              (λ sourcePath0 : string,
                 Str.endsWith
                   ("/" +:+ toLowerCase
                      (if Str.startsWith "./" pathRef then Str.drop 2 pathRef
                       else pathRef))
                   (toLowerCase sourcePath0)) (first :: second :: rest)) as Hin
      by (rewrite Hfilter; left).
    by apply list_elem_of_filter in Hin as [_ Hin].
Qed.

(** X12.  A source path that [registerExternalSourcePath] registers for a
    schema object, when no other path has its base name, is the answer of
    [resolveMatchingSourcePath] for that base name, whatever the reference
    asked with. *)
Theorem resolveMatchingSourcePath_registered (h : heap)
    (resolver : ExternalSchemaNameResolver) (sourcePath : string)
    (schema : addr) (pathRef : string) :
  isLikelySchemaObject (entriesOf h schema) = true →
  sourcePathsByBaseName resolver !! toLowerCase (path_basename sourcePath) = None →
  resolveMatchingSourcePath pathRef (toLowerCase (path_basename sourcePath))
    (registerExternalSourcePath h resolver sourcePath schema)
  = Some sourcePath.
Proof.
  intros Hlikely Hfresh. unfold registerExternalSourcePath. rewrite Hlikely.
  cbn [negb]. cbv zeta. unfold resolveMatchingSourcePath.
  cbn [sourcePathsByBaseName].
  rewrite lookup_insert_eq, Hfresh. cbn [default].
  by rewrite (right_id_L ∅ (∪)), elements_singleton.
Qed.

(** X13.  What [addExternalNameCandidate] adds, [resolveExternalSchemaCandidate]
    finds: the schema itself resolves to its name by identity, and an
    object of the same fingerprint that has no name of its own resolves to
    the same candidate, when no candidate had that fingerprint before. *)
Theorem resolveExternalSchemaCandidate_after_add (h : heap)
    (resolver : ExternalSchemaNameResolver) (schema : addr) (name : string) :
  isLikelySchemaObject (entriesOf h schema) = true → name ≠ "" →
  resolveExternalSchemaCandidate h schema
    (addExternalNameCandidate h resolver schema name)
  = Some (Candidate name schema)
  ∧ ∀ copy,
      copy ≠ schema → nameByValue resolver !! copy = None →
      createSchemaFingerprint h copy = createSchemaFingerprint h schema →
      canonicalByFingerprint resolver !! createSchemaFingerprint h schema = None →
      resolveExternalSchemaCandidate h copy
        (addExternalNameCandidate h resolver schema name)
      = Some (Candidate name schema).
Proof.
  intros Hlikely Hname.
  split; [by apply resolveExternalSchemaCandidate_identity|].
  intros copy. by apply resolveExternalSchemaCandidate_copy.
Qed.

End ResolverRoundTrips.

Lemma resolveMatchingSourcePath_known_witness :
  ∃ candidates,
    sourcePathsByBaseName
      (registerExternalSourcePath (H := Posix.host) petStore
         createExternalSchemaNameResolver "/spec/schemas/Pet.yaml" 0)
    !! "pet.yaml" = Some candidates
    ∧ "/spec/schemas/Pet.yaml" ∈ candidates.
Proof.
  apply (resolveMatchingSourcePath_known (H := Posix.host) "./Pet.yaml"
           "pet.yaml"
           (registerExternalSourcePath (H := Posix.host) petStore
              createExternalSchemaNameResolver "/spec/schemas/Pet.yaml" 0)
           "/spec/schemas/Pet.yaml").
  vm_compute. reflexivity.
Defined.

Lemma resolveMatchingSourcePath_registered_witness :
  resolveMatchingSourcePath (H := Posix.host) "../shared/Pet.yaml"
    (toLowerCase (path_basename "/spec/schemas/Pet.yaml"))
    (registerExternalSourcePath (H := Posix.host) petStore
       createExternalSchemaNameResolver "/spec/schemas/Pet.yaml" 0)
  = Some "/spec/schemas/Pet.yaml".
Proof.
  apply (resolveMatchingSourcePath_registered (H := Posix.host) petStore
           createExternalSchemaNameResolver "/spec/schemas/Pet.yaml" 0
           "../shared/Pet.yaml").
  - vm_compute. reflexivity.
  - vm_compute. reflexivity.
Defined.

Lemma resolveExternalSchemaCandidate_after_add_witness :
  resolveExternalSchemaCandidate (H := Posix.host) twinSchemas 0
    (addExternalNameCandidate twinSchemas createExternalSchemaNameResolver 0 "Pet")
  = Some (Candidate "Pet" 0)
  ∧ resolveExternalSchemaCandidate (H := Posix.host) twinSchemas 1
      (addExternalNameCandidate twinSchemas createExternalSchemaNameResolver 0 "Pet")
    = Some (Candidate "Pet" 0).
Proof.
  destruct (resolveExternalSchemaCandidate_after_add (H := Posix.host)
              twinSchemas createExternalSchemaNameResolver 0 "Pet")
    as [Hidentity Hcopy].
  - vm_compute. reflexivity.
  - discriminate.
  - split; [exact Hidentity|]. apply Hcopy.
    + lia.
    + vm_compute. reflexivity.
    + vm_compute. reflexivity.
    + vm_compute. reflexivity.
Defined.


Section Replacement.

Lemma refReplacement_self h node componentPointer h' replaced :
  h' !! replaced = Some (ORecord (refReplacement h node componentPointer)) →
  refReplacement h' replaced componentPointer
  = refReplacement h node componentPointer.
Proof.
  intros Hreplaced. unfold refReplacement at 1.
  unfold string_field, field. rewrite Hreplaced. unfold refReplacement.
  destruct (string_field h node "summary") as [summary|],
           (string_field h node "description") as [description|]; reflexivity.
Qed.

(** X14.  The record that replaces a schema is its own replacement: built
    again from the record itself, for the same component pointer, the
    replacement is the record it is, and [isEquivalentRefReplacement] says
    so, so that a second visit stores nothing. *)
Theorem isEquivalentRefReplacement_self (h : heap) (node : addr)
    (componentPointer : string) (h' : heap) (replaced : addr) :
  h' !! replaced = Some (ORecord (refReplacement h node componentPointer)) →
  isEquivalentRefReplacement h' replaced
    (refReplacement h' replaced componentPointer) = true.
Proof.
  intros Hreplaced. rewrite (refReplacement_self h node) by done.
  unfold isEquivalentRefReplacement, field, entriesOf. rewrite Hreplaced.
  rewrite !bool_decide_eq_true_2 by done. cbn [negb orb].
  unfold refReplacement.
  destruct (string_field h node "summary") as [summary|],
           (string_field h node "description") as [description|]; reflexivity.
Qed.

End Replacement.

Lemma isEquivalentRefReplacement_self_witness :
  isEquivalentRefReplacement
    (storeNew payloadDocument 7 (KStr "schema")
       (refReplacement payloadDocument 5 "#/components/schemas/Pet"))
    14
    (refReplacement
       (storeNew payloadDocument 7 (KStr "schema")
          (refReplacement payloadDocument 5 "#/components/schemas/Pet"))
       14 "#/components/schemas/Pet")
  = true.
Proof.
  apply (isEquivalentRefReplacement_self payloadDocument 5
           "#/components/schemas/Pet").
  vm_compute. reflexivity.
Defined.

Section DecidedFacts.
Context `{Host}.

Lemma slot_slotsOf h a k v :
  slot h a k = Some v → ∃ o, h !! a = Some o ∧ (k, v) ∈ slotsOf o.
Proof.
  unfold slot. destruct (h !! a) as [[fields|items]|] eqn:Ha, k as [key|i];
    try done; intros Hget; eexists; (split; [done|]); cbn.
  - apply list_elem_of_fmap. exists (key, v). split; [done|].
    by apply get_elem_of.
  - apply elem_of_lookup_imap. by exists i, v.
Qed.

Lemma outsideb_correct N E h : outsideb N E h = true → outside N E h.
Proof.
  unfold outsideb. rewrite !andb_true_iff.
  intros [[[Hwf Hsub] Hdom] Hslots].
  apply bool_decide_eq_true in Hsub.
  rewrite forallb_forall in Hdom, Hslots.
  assert (Hslot : ∀ a k c, slot h a k = Some (VObj c) →
                  slotOutsideb N E a (k, VObj c) = true).
  { intros a k c (o & Ha & Hin)%slot_slotsOf.
    specialize (Hslots (a, o)). rewrite forallb_forall in Hslots.
    apply (Hslots ltac:(apply list_elem_of_In, elem_of_lookup_imap; by exists a, o)).
    by apply list_elem_of_In. }
  split.
  - by apply heap_wfb_correct.
  - intros a Ha. specialize (Hdom a). rewrite bool_decide_eq_true in Hdom.
    apply Hdom, list_elem_of_In, elem_of_elements, Ha.
  - intros a k c Hs Hc. specialize (Hslot _ _ _ Hs). unfold slotOutsideb in Hslot.
    cbn in Hslot. rewrite (bool_decide_eq_true_2 _ Hc) in Hslot. cbn in Hslot.
    apply andb_true_iff in Hslot as [[Ha _]%andb_true_iff _].
    by apply bool_decide_eq_true in Ha.
  - intros a key c Hs Hkey Hc. specialize (Hslot _ _ _ Hs). unfold slotOutsideb in Hslot.
    cbn in Hslot. rewrite (bool_decide_eq_true_2 _ Hc) in Hslot. cbn in Hslot.
    apply andb_true_iff in Hslot as [[_ Hno]%andb_true_iff _].
    by rewrite Hkey in Hno.
  - done.
  - intros a k c Ha Hs. specialize (Hslot _ _ _ Hs). unfold slotOutsideb in Hslot.
    cbn in Hslot. apply andb_true_iff in Hslot as [_ Hclosed].
    rewrite (bool_decide_eq_true_2 _ Ha) in Hclosed. cbn in Hclosed.
    by apply bool_decide_eq_true in Hclosed.
Qed.

Lemma refsOutsideb_correct N root h :
  refsOutsideb N root h = true → refsOutside N root h.
Proof.
  unfold refsOutsideb. rewrite forallb_forall.
  intros Hall a ref c Href Hlocal Hcomp Hresolve.
  assert (a < length h)%nat as Hlt.
  { unfold string_field, field in Href.
    destruct (h !! a) eqn:Ha; [|done]. eapply lookup_lt_Some, Ha. }
  specialize (Hall a ltac:(apply in_seq; lia)).
  rewrite Href, Hlocal, Hcomp, Hresolve in Hall. cbn in Hall.
  by apply bool_decide_eq_true in Hall.
Qed.

Lemma outsideDocumentb_correct N E root h refs :
  outsideDocumentb N E root h refs = true → outsideDocument N E root h refs.
Proof.
  unfold outsideDocumentb. rewrite !andb_true_iff.
  intros [[[[Hout Hroot] Hcomponents] Hrefs] Hfiles]. split.
  - by apply outsideb_correct.
  - by apply bool_decide_eq_true in Hroot.
  - intros c Hc. rewrite Hc in Hcomponents. by apply bool_decide_eq_true in Hcomponents.
  - by apply refsOutsideb_correct.
  - intros rootPath path a Hhead Hpath Hne Hget. unfold filesOutsideb in Hfiles.
    destruct (refs_paths refs) as [|first rest] eqn:Hpaths; [done|].
    injection Hhead as ->. rewrite forallb_forall in Hfiles.
    specialize (Hfiles path ltac:(by apply list_elem_of_In)).
    rewrite (bool_decide_eq_false_2 _ Hne), Hget in Hfiles. cbn in Hfiles.
    by apply bool_decide_eq_true in Hfiles.
Qed.

(** A payload spells the document it spelled. *)
Lemma represents_kept N E h h' j :
  outside N E h → (∀ a, a ∈ E → h' !! a = h !! a) →
  ∀ v, (∀ a, v = VObj a → a ∈ E) → represents h v j → represents h' v j.
Proof.
  intros Hout Hsame.
  induction j as [| b | n | s | docs IH | docs IH] using json_ind';
    intros v Hv Hrep; inversion Hrep as [| | | | a items ? Hlook Hall
                                         | a fields ? Hlook Hall]; subst;
    try (constructor; fail).
  - assert (a ∈ E) as Ha by auto.
    eapply represents_array; [by rewrite Hsame|].
    assert (Hitems : ∀ i c, items !! i = Some (VObj c) → c ∈ E).
    { intros i c Hi. eapply (out_closed _ _ _ Hout a (KIdx i)); [done|].
      unfold slot. by rewrite Hlook. }
    clear Hrep Hlook. revert Hitems.
    induction Hall as [|v d items docs Hvd Hall IHall]; intros Hitems;
      [constructor|].
    apply Forall_cons in IH as [IHd IH]. constructor.
    + apply IHd; [|done]. intros c ->. by apply (Hitems 0%nat).
    + apply IHall; [done|]. intros i c Hi. by apply (Hitems (S i)).
  - assert (a ∈ E) as Ha by auto.
    assert (NoDup (Props.keys fields)) as Hkeys by (eapply out_wf; eauto).
    eapply represents_record; [by rewrite Hsame|].
    assert (Hfields : ∀ key c, (key, VObj c) ∈ fields → c ∈ E).
    { intros key c Hin. eapply (out_closed _ _ _ Hout a (KStr key)); [done|].
      unfold slot. rewrite Hlook. by apply get_elem_of_NoDup. }
    clear Hrep Hlook Hkeys. revert Hfields.
    induction Hall as [|[k v] [k' d] fields docs [Hk Hvd] Hall IHall];
      intros Hfields; [constructor|].
    apply Forall_cons in IH as [IHd IH]. constructor.
    + split; [done|]. cbn in *. apply IHd; [|done]. intros c ->.
      apply (Hfields k). left.
    + apply IHall; [done|]. intros key c Hin. apply (Hfields key). by right.
Qed.

End DecidedFacts.
Section FrameTheorems.
Context `{Host}.

Lemma outsideDocument_empty root h refs :
  heap_wf h → outsideDocument ∅ ∅ root h refs.
Proof.
  intros Hwf. split; [split|..]; try done; set_solver.
Qed.

End FrameTheorems.

(** X1.  [hoistBundledSchemas] leaves the payloads of the document alone.
    Let [N] be a set of objects that the traversal reaches outside schema
    contexts only (no object holds one of them under a schema-context key,
    no local reference and no loaded file other than the document leads to
    one) and [E] a part of [N] closed under what its objects hold, without
    the root and [components].  Then every object of [E] is after the run
    what it was before, every slot that held an object of [N] holds it
    still, and an object of [E] spells the document it spelled. *)
Theorem hoistBundledSchemas_keeps_payloads `{Host} (N E : gset addr)
    (root : addr) (fuel : nat) (h : heap) (refs : Refs) (h' : heap) :
  outsideDocument N E root h refs →
  hoistBundledSchemas fuel h
    {| parser_schema := VObj root; parser_refs := Some refs |} = Some h' →
  (∀ e, e ∈ E → h' !! e = h !! e)
  ∧ (∀ a k c, c ∈ N → slot h a k = Some (VObj c) → slot h' a k = Some (VObj c))
  ∧ (∀ e j, e ∈ E → represents h (VObj e) j → represents h' (VObj e) j).
Proof.
  intros Hdoc Hrun.
  pose proof (hoistBundledSchemas_framed N E root fuel h refs h' Hdoc Hrun)
    as Hframed.
  split; [apply Hframed|]. split; [apply Hframed|].
  intros e j He. apply (represents_kept N E); [apply Hdoc|apply Hframed|].
  by intros a [= <-].
Qed.

Lemma hoistBundledSchemas_keeps_payloads_witness :
  ∃ h', hoistBundledSchemas (H := Posix.host) 20 payloadDocument payloadParser
        = Some h'
        ∧ (∀ e, e ∈ payloads → h' !! e = payloadDocument !! e)
        ∧ (∀ a k c, c ∈ payloadOutside →
                    slot payloadDocument a k = Some (VObj c) →
                    slot h' a k = Some (VObj c))
        ∧ (∀ e j, e ∈ payloads →
                  represents payloadDocument (VObj e) j →
                  represents h' (VObj e) j).
Proof.
  eexists. split; [vm_compute; reflexivity|].
  apply (hoistBundledSchemas_keeps_payloads (H := Posix.host)
           payloadOutside payloads 0 20 payloadDocument payloadRefs).
  - apply outsideDocumentb_correct. vm_compute. reflexivity.
  - vm_compute. reflexivity.
Defined.

(** X2.  On the objects that the document had before the run,
    [hoistBundledSchemas] writes component pointers only: a [$ref] found
    there after the run that is not of the form [#/components/schemas/...]
    is the [$ref] the object had before.  Nothing is said of the objects
    made during the run (the copies of parsed source files, which bring the
    references of their file with them). *)
Theorem hoistBundledSchemas_writes_component_refs `{Host} (root : addr)
    (fuel : nat) (h : heap) (refs : Refs) (h' : heap) :
  heap_wf h →
  hoistBundledSchemas fuel h
    {| parser_schema := VObj root; parser_refs := Some refs |} = Some h' →
  ∀ a ref,
    (a < length h)%nat → string_field h' a "$ref" = Some ref →
    Str.startsWith "#/components/schemas/" ref = true
    ∨ string_field h a "$ref" = Some ref.
Proof.
  intros Hwf Hrun a ref Ha Href.
  pose proof (hoistBundledSchemas_framed ∅ ∅ root fuel h refs h'
                (outsideDocument_empty root h refs Hwf) Hrun) as Hframed.
  destruct (Str.startsWith "#/components/schemas/" ref) eqn:Hcomp; [by left|].
  right. by apply (fr_ref _ _ _ _ Hframed).
Qed.

Lemma hoistBundledSchemas_writes_component_refs_witness :
  ∃ h', hoistBundledSchemas (H := Posix.host) 20 deepRefDocument deepRefParser
        = Some h'
        ∧ ∀ a ref,
            (a < length deepRefDocument)%nat →
            string_field h' a "$ref" = Some ref →
            Str.startsWith "#/components/schemas/" ref = true
            ∨ string_field deepRefDocument a "$ref" = Some ref.
Proof.
  eexists. split; [vm_compute; reflexivity|].
  apply (hoistBundledSchemas_writes_component_refs (H := Posix.host) 0 20
           deepRefDocument deepRefRefs).
  - apply heap_wfb_correct. vm_compute. reflexivity.
  - vm_compute. reflexivity.
Defined.

Section TargetsRegistered.
Context `{Host}.

Lemma registerSchemaInComponents_registered h registry schema preferredName
    pointer h' registry' :
  componentPointers registry →
  registerSchemaInComponents h registry schema preferredName
  = Some (pointer, h', registry') →
  schemaPointersByValue registry' !! schema = Some pointer
  ∧ ∀ a p, schemaPointersByValue registry !! a = Some p →
           schemaPointersByValue registry' !! a = Some p.
Proof.
  intros Hpointers. unfold registerSchemaInComponents.
  destruct (schemaPointersByValue registry !! schema) as [[|c existing]|] eqn:Hlook.
  - by specialize (Hpointers _ _ Hlook).
  - by intros [= <- <- <-].
  - destruct (createUniqueSchemaName preferredName (schemaNames registry))
      as [[uniqueName names]|]; [|done].
    cbn [mbind option_bind]. intros [= <- <- <-]. cbn [schemaPointersByValue].
    split; [apply lookup_insert_eq|]. intros a p Ha.
    rewrite lookup_insert_ne; [done|]. intros <-. congruence.
Qed.

(** X15.  Step 2b of [hoistBundledSchemas] gives every target a component:
    after the loop over the targets, the registry records for each of them
    a pointer of the form [#/components/schemas/...]. *)
Theorem hoistSchemaTargets_registers (targets : list (string * addr))
    (s s' : state) :
  componentPointers (st_registry s) →
  hoistSchemaTargets targets s = Some s' →
  ∀ sourcePath value,
    (sourcePath, value) ∈ targets →
    ∃ pointer,
      schemaPointersByValue (st_registry s') !! value = Some pointer
      ∧ isComponentRef pointer = true.
Proof.
  intros Hpointers. unfold hoistSchemaTargets.
  rewrite (foldl_pointwise _
             (fun acc kv =>
                s ← acc;
                '(pointer, h', registry') ←
                  registerSchemaInComponents (st_heap s) (st_registry s) kv.2
                    (createSchemaNameFromSourcePath kv.1);
                Some (State h' registry'
                        (linkComponent (st_resolver s) kv.1
                           (decodeJsonPointerToken (default "" (lastToken pointer)))))))
    by (by intros [?|] [? ?]).
  intros Hfold sourcePath value Hin.
  assert (componentPointers (st_registry s')
          ∧ ∀ target, target ∈ targets →
              target ∈ @nil (string * addr)
              ∨ is_Some (schemaPointersByValue (st_registry s') !! target.2))
    as [Hall Hdone].
  { apply (foldl_bind_ind
             (fun acc (rest : list (string * addr)) =>
                componentPointers (st_registry acc)
                ∧ ∀ target, target ∈ targets →
                    target ∈ rest
                    ∨ is_Some (schemaPointersByValue (st_registry acc) !! target.2))
             _ _ _ _ Hfold); [by split; [|left]|].
    intros sa [sourcePath0 value0] rest sb [Hsa Hrest]. cbn [fst snd].
    destruct (registerSchemaInComponents _ _ _ _) as [[[pointer h'] registry']|]
      eqn:Hregister; [|done].
    cbn [mbind option_bind]. intros [= <-]. cbn [st_registry].
    destruct (registerSchemaInComponents_component _ _ _ _ _ _ _ Hsa Hregister)
      as [_ Hsb].
    destruct (registerSchemaInComponents_registered _ _ _ _ _ _ _ Hsa Hregister)
      as [Hnow Hkept].
    split; [done|]. intros target Htarget.
    destruct (Hrest target Htarget) as [[->|Hlater]%elem_of_cons|[p Hp]].
    - right. by eexists.
    - by left.
    - right. exists p. by apply Hkept. }
  destruct (Hdone (sourcePath, value) Hin) as [Hnil%elem_of_nil|[pointer Hpointer]];
    [done|].
  exists pointer. split; [done|]. by eapply Hall.
Qed.

End TargetsRegistered.

Lemma hoistSchemaTargets_registers_witness :
  ∃ s',
    hoistSchemaTargets (H := Posix.host)
      [("/spec/schemas/Pet.yaml", 0); ("/spec/schemas/Tag.yaml", 4)] petState
    = Some s'
    ∧ ∀ sourcePath value,
        (sourcePath, value)
        ∈ [("/spec/schemas/Pet.yaml", 0); ("/spec/schemas/Tag.yaml", 4)] →
        ∃ pointer,
          schemaPointersByValue (st_registry s') !! value = Some pointer
          ∧ isComponentRef pointer = true.
Proof.
  eexists. split; [vm_compute; reflexivity|].
  apply (hoistSchemaTargets_registers (H := Posix.host)
           [("/spec/schemas/Pet.yaml", 0); ("/spec/schemas/Tag.yaml", 4)]
           petState).
  - intros a pointer. cbn [petState st_registry petRegistry schemaPointersByValue].
    intros [<- <-]%lookup_singleton_Some. reflexivity.
  - vm_compute. reflexivity.
Defined.

Section RegistryTwice.

Lemma ensureRecordField_kept h a k v :
  field h a k = Some (VObj v) → ensureRecordField h a k = h.
Proof. intros Hfield. unfold ensureRecordField. by rewrite Hfield. Qed.

Lemma ensureRecordField_record h a k b fields :
  h !! b = Some (ORecord fields) →
  ∃ fields', ensureRecordField h a k !! b = Some (ORecord fields').
Proof.
  intros Hb. unfold ensureRecordField. destruct (truthy _); [by eexists|]. cbn.
  assert ((h ++ [ORecord []]) !! b = Some (ORecord fields)) as Hb'.
  { rewrite lookup_app_l; [done|]. eapply lookup_lt_Some, Hb. }
  destruct (decide (b = a)) as [->|Hne].
  - eexists. by apply lookup_store_record.
  - exists fields. by rewrite lookup_store_ne.
Qed.

(** X16.  [createSchemaRegistry] is idempotent: on the document it returns,
    a second call adds nothing and builds the same registry.  After the
    first call [components.schemas] is there, and it is the record of the
    registry. *)
Theorem createSchemaRegistry_idempotent (h : heap) (schema : addr) (h' : heap)
    (registry : SchemaRegistry) :
  createSchemaRegistry h schema = Some (h', registry) →
  createSchemaRegistry h' schema = Some (h', registry)
  ∧ ∃ components,
      field h' schema "components" = Some (VObj components)
      ∧ field h' components "schemas" = Some (VObj (componentSchemas registry)).
Proof.
  unfold createSchemaRegistry at 1. cbv zeta.
  destruct (h !! schema) as [[rootFields|]|] eqn:Hroot; try done.
  set (h1 := ensureRecordField h schema "components").
  destruct (field h1 schema "components") as [[| | | |components]|] eqn:Hcomponents;
    try done.
  destruct (h1 !! components) as [[componentFields|]|] eqn:Hrecord; try done.
  set (h2 := ensureRecordField h1 components "schemas").
  destruct (field h2 components "schemas") as [[| | | |schemas]|] eqn:Hschemas;
    try done.
  destruct (h2 !! schemas) as [[entries|]|] eqn:Hentries; try done.
  intros [= <- <-]. cbn [componentSchemas].
  assert (field h2 schema "components" = Some (VObj components)) as Hcomponents2.
  { subst h2. rewrite ensureRecordField_other; [done| |by right].
    unfold field in Hcomponents. destruct (h1 !! schema) eqn:Hlive; [|done].
    eapply lookup_lt_Some, Hlive. }
  split; [|by exists components].
  destruct (ensureRecordField_record h schema "components" schema rootFields Hroot)
    as [rootFields1 Hroot1]. fold h1 in Hroot1.
  destruct (ensureRecordField_record h1 components "schemas" schema rootFields1 Hroot1)
    as [rootFields2 Hroot2]. fold h2 in Hroot2.
  destruct (ensureRecordField_record h1 components "schemas" components
              componentFields Hrecord) as [componentFields2 Hrecord2].
  fold h2 in Hrecord2.
  unfold createSchemaRegistry. cbv zeta.
  rewrite Hroot2, (ensureRecordField_kept _ _ _ _ Hcomponents2), Hcomponents2,
    Hrecord2, (ensureRecordField_kept _ _ _ _ Hschemas), Hschemas, Hentries.
  reflexivity.
Qed.

End RegistryTwice.

Lemma createSchemaRegistry_idempotent_witness :
  ∃ h' registry,
    createSchemaRegistry payloadDocument 0 = Some (h', registry)
    ∧ createSchemaRegistry h' 0 = Some (h', registry)
    ∧ ∃ components,
        field h' 0 "components" = Some (VObj components)
        ∧ field h' components "schemas" = Some (VObj (componentSchemas registry)).
Proof.
  do 2 eexists. split; [vm_compute; reflexivity|].
  apply (createSchemaRegistry_idempotent payloadDocument 0).
  vm_compute. reflexivity.
Defined.

(** ** The conditions of a run *)

Section Preconditions.
Context `{Host}.

Lemma hoistBundledSchemas_skips fuel h parser :
  isOpenAPI h (parser_schema parser) = false ∨ parser_refs parser = None →
  hoistBundledSchemas fuel h parser = Some h.
Proof.
  unfold hoistBundledSchemas.
  intros [Hdocument| ->]; [|done].
  destruct (parser_refs parser), (parser_schema parser); try done.
  by rewrite Hdocument.
Qed.

Lemma isOpenAPI_record h root :
  isOpenAPI h (VObj root) = true → ∃ fields, h !! root = Some (ORecord fields).
Proof.
  unfold isOpenAPI, string_field, field.
  destruct (h !! root) as [[fields|]|]; [by exists fields|done|done].
Qed.

(** What [if (!o[k]) o[k] = {}] leaves: the field holds a record, which is
    new and empty unless the field held it before. *)
Lemma ensureRecordField_spec h a k fields :
  h !! a = Some (ORecord fields) →
  (truthy (field h a k) = true ∧ ensureRecordField h a k = h)
  ∨ (truthy (field h a k) = false
     ∧ ensureRecordField h a k
       = store (h ++ [ORecord []]) a (KStr k) (VObj (length h))
     ∧ field (ensureRecordField h a k) a k = Some (VObj (length h))
     ∧ ensureRecordField h a k !! length h = Some (ORecord [])
     ∧ length (ensureRecordField h a k) = S (length h)).
Proof.
  intros Ha. unfold ensureRecordField.
  destruct (truthy (field h a k)); [by left|]. right. cbn [alloc].
  assert ((h ++ [ORecord []]) !! a = Some (ORecord fields)) as Ha'.
  { rewrite lookup_app_l; [done|]. eapply lookup_lt_Some, Ha. }
  split; [done|]. split; [done|]. split; [by eapply field_store_eq|].
  split.
  - rewrite lookup_store_ne.
    + by rewrite lookup_app_r, Nat.sub_diag.
    + apply lookup_lt_Some in Ha. lia.
  - rewrite store_length, length_app. cbn. lia.
Qed.

Lemma createSchemaRegistry_initializes h root h' registry :
  createSchemaRegistry h root = Some (h', registry) →
  ∃ components entries,
    field h' root "components" = Some (VObj components)
    ∧ field h' components "schemas" = Some (VObj (componentSchemas registry))
    ∧ h' !! componentSchemas registry = Some (ORecord entries)
    ∧ schemaNames registry = list_to_set (Props.keys entries)
    ∧ schemaPointersByValue registry = indexComponentPointers entries
    ∧ (field h components "schemas" ≠ Some (VObj (componentSchemas registry)) →
       entries = []).
Proof.
  unfold createSchemaRegistry. cbv zeta.
  destruct (h !! root) as [[rootFields|]|] eqn:Hroot; try done.
  remember (ensureRecordField h root "components") as h1 eqn:Hh1.
  destruct (field h1 root "components") as [[| | | |components]|] eqn:Hcomponents;
    try done.
  destruct (h1 !! components) as [[componentFields|]|] eqn:Hrecord; try done.
  remember (ensureRecordField h1 components "schemas") as h2 eqn:Hh2.
  destruct (field h2 components "schemas") as [[| | | |schemas]|] eqn:Hschemas;
    try done.
  destruct (h2 !! schemas) as [[entries|]|] eqn:Hentries; try done.
  intros [= <- <-]. cbn [componentSchemas schemaNames schemaPointersByValue].
  exists components, entries.
  assert (root < length h1)%nat as Hlive.
  { destruct (ensureRecordField_record h root "components" root rootFields Hroot)
      as [? Hroot1]. rewrite <- Hh1 in Hroot1. eapply lookup_lt_Some, Hroot1. }
  split.
  { rewrite Hh2, ensureRecordField_other; [done|done|by right]. }
  split; [done|]. split; [done|]. split; [done|]. split; [done|].
  intros Hnew.
  destruct (ensureRecordField_spec h1 components "schemas" _ Hrecord)
    as [[Hheld Hsame]|(Hfalsy & _ & Hfield & Hfresh & _)];
    rewrite <- Hh2 in *.
  - exfalso. rewrite Hsame in Hschemas.
    destruct (ensureRecordField_spec h root "components" _ Hroot)
      as [[_ Hsame1]|(_ & _ & Hfield1 & Hfresh1 & _)]; rewrite <- Hh1 in *.
    + apply Hnew. by rewrite <- Hsame1.
    + rewrite Hfield1 in Hcomponents. injection Hcomponents as <-.
      unfold field in Hschemas. by rewrite Hfresh1 in Hschemas.
  - rewrite Hfield in Hschemas. injection Hschemas as <-.
    rewrite Hfresh in Hentries. by injection Hentries as <-.
Qed.

Lemma createSchemaRegistry_absent h root :
  isOpenAPI h (VObj root) = true →
  truthy (field h root "components") = false
  ∨ (∃ components fields,
       field h root "components" = Some (VObj components)
       ∧ h !! components = Some (ORecord fields)
       ∧ truthy (field h components "schemas") = false) →
  ∃ h' components schemas,
    createSchemaRegistry h root
    = Some (h', {| schemaNames := ∅; schemaPointersByValue := ∅;
                   componentSchemas := schemas |})
    ∧ h' = ensureRecordField (ensureRecordField h root "components")
             components "schemas"
    ∧ field h' root "components" = Some (VObj components)
    ∧ field h' components "schemas" = Some (VObj schemas)
    ∧ h' !! schemas = Some (ORecord []).
Proof.
  intros [rootFields Hroot]%isOpenAPI_record Habsent.
  unfold createSchemaRegistry. cbv zeta. rewrite Hroot.
  assert (∃ components fields,
            field (ensureRecordField h root "components") root "components"
            = Some (VObj components)
            ∧ ensureRecordField h root "components" !! components
              = Some (ORecord fields)
            ∧ truthy (field (ensureRecordField h root "components")
                        components "schemas") = false
            ∧ (root < length (ensureRecordField h root "components"))%nat)
    as (components & fields & Hcomponents & Hrecord & Hfalsy & Hlive).
  { destruct Habsent as [Hfalsy|(components & fields & Hheld & Hrecord & Hfalsy)].
    - destruct (ensureRecordField_spec h root "components" _ Hroot)
        as [[Hheld _]|(_ & _ & Hfield & Hfresh & Hlength)]; [congruence|].
      exists (length h), []. split; [done|]. split; [done|].
      split; [unfold field; by rewrite Hfresh|].
      rewrite Hlength. apply lookup_lt_Some in Hroot. lia.
    - rewrite (ensureRecordField_kept _ _ _ _ Hheld).
      exists components, fields. split; [done|]. split; [done|].
      split; [done|]. eapply lookup_lt_Some, Hroot. }
  rewrite Hcomponents, Hrecord.
  destruct (ensureRecordField_spec _ components "schemas" _ Hrecord)
    as [[Hheld _]|(_ & _ & Hfield & Hfresh & _)]; [congruence|].
  rewrite Hfield, Hfresh.
  eexists _, components, _. split; [reflexivity|]. split; [reflexivity|].
  split; [|done].
  rewrite ensureRecordField_other; [done|done|by right].
Qed.

(** ** A document in which the passes find nothing to do *)

Lemma quietDocument_alloc h :
  quietDocument h → quietDocument (h ++ [ORecord []]).
Proof.
  intros Hquiet a.
  destruct (decide (a < length h)%nat) as [Ha|Ha].
  - unfold string_field. rewrite !field_alloc by done. apply Hquiet.
  - unfold string_field, field.
    destruct (decide (a = length h)) as [->|Hne].
    + by rewrite lookup_app_r, Nat.sub_diag.
    + rewrite lookup_ge_None_2; [done|]. rewrite length_app. cbn. lia.
Qed.

Lemma quietDocument_store h a k v :
  k ≠ "$ref" → k ≠ "discriminator" →
  quietDocument h → quietDocument (store h a (KStr k) v).
Proof.
  intros Href Hdiscriminator Hquiet b. unfold string_field.
  rewrite !field_store_ne by (right; congruence). apply Hquiet.
Qed.

Lemma ensureRecordField_quiet h a k :
  k ≠ "$ref" → k ≠ "discriminator" →
  quietDocument h → quietDocument (ensureRecordField h a k).
Proof.
  intros Href Hdiscriminator Hquiet. unfold ensureRecordField.
  destruct (truthy _); [done|]. cbn [alloc].
  by apply quietDocument_store, quietDocument_alloc.
Qed.

Lemma walkRoot_fixed {S : Type} (heapOf : S → heap)
    (visitor : WalkVisitor (S := S)) fuel root (s r : S) :
  (∀ a pointer ctx parent s',
     visitor a pointer ctx parent s = Some s' → s' = s) →
  walkRoot heapOf fuel visitor root s = Some r → r = s.
Proof.
  intros Hfixed. unfold walkRoot.
  destruct (walk heapOf fuel visitor root false "#" ∅ None s)
    as [[r' seen]|] eqn:Hwalk; [|done].
  cbn. intros [= <-].
  eapply (walk_invariant heapOf visitor (fun s' => s' = s) (fun _ _ => True)
            (fun _ _ _ _ => True)) in Hwalk; try done.
  - by destruct Hwalk.
  - intros a pointer ctx parent s1 s2 -> _ Hvisit. split; [|done].
    by eapply Hfixed.
Qed.

Lemma replace_same {V : Type} (fields : list (string * V)) k v :
  Props.get fields k = Some v → Props.replace k v fields = fields.
Proof.
  induction fields as [|[k' v'] fields IH]; [done|]. cbn.
  destruct (String.eqb k' k); [by intros [= ->]|]. intros Hget.
  by rewrite IH.
Qed.

Lemma store_same h a k v :
  field h a k = Some v → store h a (KStr k) v = h.
Proof.
  unfold field, store.
  destruct (h !! a) as [[fields|]|] eqn:Ha; try done. intros Hget.
  assert (Props.set k v fields = fields) as ->.
  { unfold Props.set, Props.has. rewrite Hget. by apply replace_same. }
  by apply list_insert_id.
Qed.

Section Quiet.
Variables (root components : addr) (s : state).
Hypothesis Hquiet : quietDocument (st_heap s).
Hypothesis Hresolver : st_resolver s = createExternalSchemaNameResolver.
Hypothesis Hpointers : schemaPointersByValue (st_registry s) = ∅.
Hypothesis Hcomponents :
  field (st_heap s) root "components" = Some (VObj components).
Hypothesis Hschemas :
  field (st_heap s) components "schemas"
  = Some (VObj (componentSchemas (st_registry s))).

Lemma rewriteLocal_quiet fuel s' :
  rewriteLocalSchemaRefsToComponents fuel (VObj root) s = Some s' → s' = s.
Proof.
  apply walkRoot_fixed. intros a pointer ctx parent s1.
  unfold rewriteLocalVisitor. cbv zeta.
  destruct (negb ctx || negb _); [by intros [= <-]|].
  destruct (string_field (st_heap s) a "$ref") as [ref|] eqn:Href;
    [|by intros [= <-]].
  destruct (Str.startsWith "#/" ref) eqn:Hlocal; [|by intros [= <-]].
  destruct (Hquiet a) as [Hrefs _]. unfold isComponentRef in Hrefs.
  rewrite (Hrefs ref Href Hlocal). by intros [= <-].
Qed.

Lemma index_quiet :
  buildExternalComponentFingerprintIndex (st_heap s) (st_registry s)
    (st_resolver s) = ∅.
Proof.
  unfold buildExternalComponentFingerprintIndex. rewrite Hresolver.
  generalize (entriesOf (st_heap s) (componentSchemas (st_registry s))).
  intros entries. induction entries as [|[name v] entries IH] using rev_ind;
    [done|].
  rewrite foldl_snoc, IH. destruct v; try done.
Qed.

Lemma rewriteInlinePass_quiet fuel r :
  rewriteInlinePass fuel (VObj root) s = Some r → r = (s, false).
Proof.
  unfold rewriteInlinePass. cbv zeta. rewrite index_quiet.
  apply walkRoot_fixed. intros a pointer ctx parent r1.
  unfold rewriteInlineVisitor. cbv zeta.
  destruct parent as [[parent parentKey]|]; [|by intros [= <-]].
  destruct (negb ctx || _ || _); [by intros [= <-]|].
  unfold resolveExternalSchemaCandidate, resolveByFingerprint,
    resolveExternalComponentCandidate.
  rewrite Hresolver. cbn [nameByValue canonicalByFingerprint
                            createExternalSchemaNameResolver].
  rewrite !lookup_empty. cbn. by intros [= <-].
Qed.

Lemma rewriteInline_quiet turns fuel s' :
  rewriteInlineExternalSchemasToComponentRefs turns fuel (VObj root) s = Some s' →
  s' = s.
Proof.
  destruct turns as [|turns]; [done|]. cbn [rewriteInlineExternalSchemasToComponentRefs].
  destruct (rewriteInlinePass fuel (VObj root) s) as [r|] eqn:Hpass; [|done].
  rewrite (rewriteInlinePass_quiet _ _ Hpass). cbn. by intros [= <-].
Qed.

Lemma rewriteDiscriminator_quiet turns fuel s' :
  rewriteDiscriminatorMappings turns fuel (VObj root) s = Some s' → s' = s.
Proof.
  destruct turns as [|turns]; [done|]. cbn [rewriteDiscriminatorMappings].
  unfold rewriteDiscriminatorPass.
  destruct (walkRoot _ fuel (discriminatorVisitor (st_heap s)) (VObj root) [])
    as [mappings|] eqn:Hwalk; [|done].
  apply walkRoot_fixed in Hwalk as ->.
  - cbn. by intros [= <-].
  - intros a pointer ctx parent found. unfold discriminatorVisitor.
    destruct (negb ctx || negb _); [by intros [= <-]|].
    destruct (Hquiet a) as [_ ->]. by intros [= <-].
Qed.

Lemma rewriteTemplates_quiet fuel s' :
  rewriteSchemaRefsFromSourceTemplates fuel (VObj root) s = Some s' → s' = s.
Proof.
  unfold rewriteSchemaRefsFromSourceTemplates. cbv zeta.
  rewrite Hresolver at 1. cbn [sourcePathByComponentName
                                 createExternalSchemaNameResolver JsMap.entries foldl].
  cbn [mbind option_bind]. rewrite Hcomponents.
  destruct (isRecord _ _); [|by intros [= <-]].
  rewrite (store_same _ _ _ _ Hschemas). intros [= <-]. by destruct s.
Qed.

Lemma replaceHoisted_quiet fuel s' :
  replaceHoistedObjectsWithRefs fuel (VObj root) s = Some s' → s' = s.
Proof.
  apply walkRoot_fixed. intros a pointer ctx parent s1.
  unfold replaceHoistedVisitor.
  destruct parent as [[parent parentKey]|]; [|by intros [= <-]].
  destruct (negb ctx); [by intros [= <-]|].
  rewrite Hpointers, lookup_empty. by intros [= <-].
Qed.

Lemma rewriteDocument_quiet fuel s' :
  rewriteDocument fuel (VObj root) s = Some s' → s' = s.
Proof.
  unfold rewriteDocument, normalizeFromSources.
  destruct (rewriteLocalSchemaRefsToComponents fuel (VObj root) s)
    as [s1|] eqn:H1; [|done].
  apply rewriteLocal_quiet in H1 as ->. cbn [mbind option_bind].
  destruct (rewriteInlineExternalSchemasToComponentRefs fuel fuel (VObj root) s)
    as [s2|] eqn:H2; [|done].
  apply rewriteInline_quiet in H2 as ->. cbn [mbind option_bind].
  destruct (rewriteDiscriminatorMappings fuel fuel (VObj root) s)
    as [s3|] eqn:H3; [|done].
  assert (s3 = s) as -> by (by eapply rewriteDiscriminator_quiet).
  cbn [mbind option_bind].
  destruct (rewriteSchemaRefsFromSourceTemplates fuel (VObj root) s)
    as [s4|] eqn:H4; [|done].
  assert (s4 = s) as -> by (by eapply rewriteTemplates_quiet).
  cbn [mbind option_bind].
  rewrite H3. cbn [mbind option_bind]. rewrite H4. cbn [mbind option_bind].
  apply replaceHoisted_quiet.
Qed.

End Quiet.

End Preconditions.



(** ** Deep references *)

Section DeepRefs.
Context `{Host}.

Lemma registerSchemaInComponents_returns h registry schema preferredName :
  ∃ pointer h' registry',
    registerSchemaInComponents h registry schema preferredName
    = Some (pointer, h', registry')
    ∧ ∀ a fields, h !! a = Some (ORecord fields) →
                  ∃ fields', h' !! a = Some (ORecord fields').
Proof.
  unfold registerSchemaInComponents.
  destruct (createUniqueSchemaName_fresh preferredName (schemaNames registry))
    as (uniqueName & Hunique & _).
  assert (Hstored : ∀ a fields,
            h !! a = Some (ORecord fields) →
            ∃ fields',
              store h (componentSchemas registry) (KStr uniqueName) (VObj schema)
              !! a = Some (ORecord fields')).
  { intros a fields Ha.
    destruct (store_kind h (componentSchemas registry) (KStr uniqueName)
                (VObj schema) a _ Ha) as ([fields'|items] & Hstore & Hkind);
      [by exists fields'|done]. }
  destruct (schemaPointersByValue registry !! schema) as [[|c existing]|];
    rewrite ?Hunique; cbn [mbind option_bind]; eexists _, _, _;
    (split; [reflexivity|]); eauto.
Qed.

Lemma paths_not_component ref :
  Str.startsWith "#/paths/" ref = true → isComponentRef ref = false.
Proof.
  unfold isComponentRef.
  destruct ref as [|c0 ref]; [done|].
  destruct ref as [|c1 ref]; [cbn; by rewrite ?andb_false_r|].
  destruct ref as [|c2 ref]; [cbn; by rewrite ?andb_false_r|].
  cbn [Str.startsWith]. rewrite !andb_true_iff.
  intros (_ & _ & Hp & _). apply Ascii.eqb_eq in Hp as <-.
  by rewrite !andb_false_r.
Qed.

End DeepRefs.




(** ** Examples and other payloads *)



